(** * Verification of mold's [.gdb_index] writer ([elf/gdb-index.cc])

    The development embeds the functions of [elf/gdb-index.cc] that read
    DWARF address ranges and public names and that lay out and emit the
    [.gdb_index] section, and proves the properties the specification
    states about them.

    Conventions of the embedding:
    - a fixed-width unsigned integer is a [Z] together with the wrap-around
      of every operation the source performs on it ([u8], [u32], [u64]);
    - a section buffer is a [list byte]; a pointer into a section is the
      [Z] offset from the start of that section;
    - a function that can abort the link, read outside its buffer or loop
      returns a [result]. *)

From Stdlib.Strings Require Import Byte String.
From Stdlib Require Import ZArith Zdivisibility List Lia Bool.
From Stdlib Require Import Permutation Sorted.
Import ListNotations.
Local Open Scope Z_scope.

(** ** Machine integers *)

Definition u8 (x : Z) : Z := x mod 2 ^ 8.
Definition u32 (x : Z) : Z := x mod 2 ^ 32.
Definition u64 (x : Z) : Z := x mod 2 ^ 64.

(** ** Outcomes of fallible code *)

(** The causes for which the source calls [Fatal(ctx)]. *)
Inductive fatal : Type :=
| Unsupported_address_size (address_size : Z)
| Unknown_DW_UT (unit_type : Z)
| Unknown_DWARF_version (dwarf_version : Z)
| No_abbrev_record
| First_tag_not_compile_unit (abbrev_tag : Z)
| Unhandled_debug_info_form (form : Z)
| Missing_DW_AT_rnglists_base
| Unhandled_low_pc_form (printed_form : Z)
| Unhandled_high_pc_form (form : Z)
| Corrupted_debug_info_offset
| Corrupted_header
| DWARF64_not_supported.

(** [Ok]: the code returns; [Fatal]: it aborts the link; [Thrown]:
    [std::string_view::substr] throws [std::out_of_range]; [Undefined]: it
    reads or writes outside a buffer or through a null pointer;
    [OutOfFuel]: the loop did not finish within the given number of
    iterations. *)
Inductive result (A : Type) : Type :=
| Ok (a : A)
| Fatal (e : fatal)
| Thrown
| Undefined
| OutOfFuel.

Arguments Ok {A} a.
Arguments Fatal {A} e.
Arguments Thrown {A}.
Arguments Undefined {A}.
Arguments OutOfFuel {A}.

Definition bind {A B : Type} (r : result A) (k : A -> result B) : result B :=
  match r with
  | Ok a => k a
  | Fatal e => Fatal e
  | Thrown => Thrown
  | Undefined => Undefined
  | OutOfFuel => OutOfFuel
  end.

Notation "x <- e ;; k" := (bind e (fun x => k))
  (at level 61, e at next level, right associativity).
Notation "' pat <- e ;; k" := (bind e (fun x => let 'pat := x in k))
  (at level 61, pat pattern, e at next level, right associativity).

(** ** Targets and section buffers *)

(** The target descriptor [E]: [Word<E>] is 8 bytes wide when [is_64] and
    4 bytes otherwise; [U16<E>] ... [U64<E>] and [Word<E>] are little-endian
    when [is_le] and big-endian otherwise. *)
Record Target : Type := { is_64 : bool; is_le : bool }.

Definition X86_64 : Target := {| is_64 := true; is_le := true |}.
Definition I386 : Target := {| is_64 := false; is_le := true |}.
Definition SPARC64 : Target := {| is_64 := true; is_le := false |}.

Definition sizeof_Word (E : Target) : Z := if is_64 E then 8 else 4.

(** Arithmetic in the width of [Word<E>]. *)
Definition word_wrap (E : Target) (x : Z) : Z :=
  if is_64 E then u64 x else u32 x.

Definition u8_of_byte (b : byte) : Z := Z.of_N (Byte.to_N b).

Definition byte_of_u8 (x : Z) : byte :=
  match Byte.of_N (Z.to_N (u8 x)) with
  | Some b => b
  | None => x00
  end.

(** [*(u8 * )(buf + p)]. *)
Definition load_u8 (buf : list byte) (p : Z) : result Z :=
  if p <? 0 then Undefined
  else match nth_error buf (Z.to_nat p) with
       | Some b => Ok (u8_of_byte b)
       | None => Undefined
       end.

(** An [n]-byte little-endian unsigned integer at [p]. *)
Fixpoint load_le (buf : list byte) (p : Z) (n : nat) : result Z :=
  match n with
  | O => Ok 0
  | S n' =>
      b <- load_u8 buf p ;;
      r <- load_le buf (p + 1) n' ;;
      Ok (b + 256 * r)
  end.

(** An [n]-byte big-endian unsigned integer at [p], continuing [acc]. *)
Fixpoint load_be (buf : list byte) (p : Z) (n : nat) (acc : Z) : result Z :=
  match n with
  | O => Ok acc
  | S n' =>
      b <- load_u8 buf p ;;
      load_be buf (p + 1) n' (acc * 256 + b)
  end.

Definition load_uint (E : Target) (buf : list byte) (p : Z) (n : nat)
  : result Z :=
  if is_le E then load_le buf p n else load_be buf p n 0.

Definition load_U16 (E : Target) (buf : list byte) (p : Z) := load_uint E buf p 2.
Definition load_U24 (E : Target) (buf : list byte) (p : Z) := load_uint E buf p 3.
Definition load_U32 (E : Target) (buf : list byte) (p : Z) := load_uint E buf p 4.
Definition load_U64 (E : Target) (buf : list byte) (p : Z) := load_uint E buf p 8.
Definition load_Word (E : Target) (buf : list byte) (p : Z) :=
  load_uint E buf p (Z.to_nat (sizeof_Word E)).

(** [strlen((char * )(buf + p))]: the number of bytes before the first NUL
    at or after [p]. *)
Fixpoint strlen_loop (fuel : nat) (buf : list byte) (p : Z) (n : Z)
  : result Z :=
  match fuel with
  | O => OutOfFuel
  | S fuel' =>
      b <- load_u8 buf (p + n) ;;
      if b =? 0 then Ok n else strlen_loop fuel' buf p (n + 1)
  end.

Definition strlen (buf : list byte) (p : Z) : result Z :=
  strlen_loop (S (length buf)) buf p 0.

(** The bytes [buf[p .. p + n)]. *)
Definition slice (buf : list byte) (p n : Z) : list byte :=
  firstn (Z.to_nat n) (skipn (Z.to_nat p) buf).

(** Modelled from the spec: [read_uleb] is declared in [mold.h], which is
    not part of the sources at hand; it "reads a variable-length base-128
    unsigned integer and advances the cursor".  Each byte contributes its
    low seven bits, least significant group first, and a byte without the
    high bit ends the number; the value is a [u64].  The result is the
    value and the advanced cursor. *)
Fixpoint read_uleb_loop (fuel : nat) (buf : list byte) (p : Z) (val shift : Z)
  : result (Z * Z) :=
  match fuel with
  | O => OutOfFuel
  | S fuel' =>
      b <- load_u8 buf p ;;
      let val := Z.lor val (Z.shiftl (Z.land b 0x7f) shift) in
      if Z.land b 0x80 =? 0 then Ok (u64 val, p + 1)
      else read_uleb_loop fuel' buf (p + 1) val (shift + 7)
  end.

Definition read_uleb (buf : list byte) (p : Z) : result (Z * Z) :=
  read_uleb_loop (S (length buf)) buf p 0 0.

(** Conversion of a [u64] value to [i64]. *)
Definition i64_of_u64 (x : Z) : Z := if x <? 2 ^ 63 then x else x - 2 ^ 64.

(** ** DWARF constants *)

(** Modelled from the spec: the [DW_*] enumerators are declared in a header
    that is not part of the sources at hand, and the specification names
    them without their values; the values below are the ones the DWARF 5
    standard assigns to these names. *)
Definition DW_TAG_compile_unit : Z := 0x11.
Definition DW_TAG_skeleton_unit : Z := 0x4a.

Definition DW_UT_compile : Z := 0x01.
Definition DW_UT_partial : Z := 0x03.
Definition DW_UT_skeleton : Z := 0x04.
Definition DW_UT_split_compile : Z := 0x05.

Definition DW_AT_low_pc : Z := 0x11.
Definition DW_AT_high_pc : Z := 0x12.
Definition DW_AT_ranges : Z := 0x55.
Definition DW_AT_addr_base : Z := 0x73.
Definition DW_AT_rnglists_base : Z := 0x74.

Definition DW_FORM_addr : Z := 0x01.
Definition DW_FORM_data2 : Z := 0x05.
Definition DW_FORM_data4 : Z := 0x06.
Definition DW_FORM_data8 : Z := 0x07.
Definition DW_FORM_string : Z := 0x08.
Definition DW_FORM_data1 : Z := 0x0b.
Definition DW_FORM_flag : Z := 0x0c.
Definition DW_FORM_strp : Z := 0x0e.
Definition DW_FORM_udata : Z := 0x0f.
Definition DW_FORM_ref_addr : Z := 0x10.
Definition DW_FORM_ref1 : Z := 0x11.
Definition DW_FORM_ref2 : Z := 0x12.
Definition DW_FORM_ref4 : Z := 0x13.
Definition DW_FORM_ref8 : Z := 0x14.
Definition DW_FORM_ref_udata : Z := 0x15.
Definition DW_FORM_sec_offset : Z := 0x17.
Definition DW_FORM_flag_present : Z := 0x19.
Definition DW_FORM_strx : Z := 0x1a.
Definition DW_FORM_addrx : Z := 0x1b.
Definition DW_FORM_line_strp : Z := 0x1f.
Definition DW_FORM_implicit_const : Z := 0x21.
Definition DW_FORM_loclistx : Z := 0x22.
Definition DW_FORM_rnglistx : Z := 0x23.
Definition DW_FORM_strx1 : Z := 0x25.
Definition DW_FORM_strx2 : Z := 0x26.
Definition DW_FORM_strx3 : Z := 0x27.
Definition DW_FORM_strx4 : Z := 0x28.
Definition DW_FORM_addrx1 : Z := 0x29.
Definition DW_FORM_addrx2 : Z := 0x2a.
Definition DW_FORM_addrx3 : Z := 0x2b.
Definition DW_FORM_addrx4 : Z := 0x2c.

Definition DW_RLE_end_of_list : Z := 0x00.
Definition DW_RLE_base_addressx : Z := 0x01.
Definition DW_RLE_startx_endx : Z := 0x02.
Definition DW_RLE_startx_length : Z := 0x03.
Definition DW_RLE_offset_pair : Z := 0x04.
Definition DW_RLE_base_address : Z := 0x05.
Definition DW_RLE_start_end : Z := 0x06.
Definition DW_RLE_start_length : Z := 0x07.

(** [x] is one of the case labels [cases]. *)
Definition one_of (x : Z) (cases : list Z) : bool :=
  existsb (Z.eqb x) cases.

(** ** The hash function for [.gdb_index] *)

(** One iteration of the loop body of [gdb_hash]: [c] is a [u8], [h] a
    [u32]; ['A'] is 65, ['Z'] is 90 and ['a'] is 97. *)
Definition gdb_hash_step (h : Z) (b : byte) : Z :=
  let c := u8_of_byte b in
  let c := if (65 <=? c) && (c <=? 90) then u8 (97 + c - 65) else c in
  u32 (u32 (u32 (h * 67) + c) - 113).

Definition gdb_hash (name : list byte) : Z :=
  fold_left gdb_hash_step name 0.

(** The fold as the specification words it: replace an upper-case letter
    [b] by [b + 32], then [h * 67 + b - 113] modulo [2^32]. *)
Definition gdb_hash_reference_step (h : Z) (b : byte) : Z :=
  let c := u8_of_byte b in
  let c := if (65 <=? c) && (c <=? 90) then c + 32 else c in
  (h * 67 + c - 113) mod 2 ^ 32.

Definition gdb_hash_reference (name : list byte) : Z :=
  fold_left gdb_hash_reference_step name 0.

(** ASCII lower-casing of one byte and of a name. *)
Definition ascii_tolower (b : byte) : byte :=
  let c := u8_of_byte b in
  if (65 <=? c) && (c <=? 90)
  then match Byte.of_N (Z.to_N (c + 32)) with Some b' => b' | None => b end
  else b.

Definition ascii_toupper (b : byte) : byte :=
  let c := u8_of_byte b in
  if (97 <=? c) && (c <=? 122)
  then match Byte.of_N (Z.to_N (c - 32)) with Some b' => b' | None => b end
  else b.

(** ** The context: the debug sections of the output file *)

(** One input object file: the offset of its contribution to the output
    [.debug_info] ([file.debug_info->offset]) and the uncompressed contents
    of its [.debug_gnu_pubnames] and [.debug_gnu_pubtypes] sections, when
    it has them. *)
Record ObjectFile : Type := {
  debug_info_offset : Z;
  debug_pubnames : option (list byte);
  debug_pubtypes : option (list byte)
}.

Record Context : Type := {
  debug_info : list byte;
  debug_abbrev : list byte;
  debug_ranges : list byte;
  debug_addr : list byte;
  debug_rnglists : list byte;
  objs : list ObjectFile
}.

(** ** [read_scalar] *)

(** Reads one scalar of the given form at [p] in [.debug_info]; the result
    is the value and the advanced cursor. *)
Definition read_scalar (E : Target) (ctx : Context) (p : Z) (form : Z)
  : result (Z * Z) :=
  let buf := debug_info ctx in
  if form =? DW_FORM_flag_present then Ok (0, p)
  else if one_of form [DW_FORM_data1; DW_FORM_flag; DW_FORM_strx1;
                       DW_FORM_addrx1; DW_FORM_ref1] then
    val <- load_u8 buf p ;; Ok (val, p + 1)
  else if one_of form [DW_FORM_data2; DW_FORM_strx2; DW_FORM_addrx2;
                       DW_FORM_ref2] then
    val <- load_U16 E buf p ;; Ok (val, p + 2)
  else if one_of form [DW_FORM_strx3; DW_FORM_addrx3] then
    val <- load_U24 E buf p ;; Ok (val, p + 3)
  else if one_of form [DW_FORM_data4; DW_FORM_strp; DW_FORM_sec_offset;
                       DW_FORM_line_strp; DW_FORM_strx4; DW_FORM_addrx4;
                       DW_FORM_ref4] then
    val <- load_U32 E buf p ;; Ok (val, p + 4)
  else if one_of form [DW_FORM_data8; DW_FORM_ref8] then
    val <- load_U64 E buf p ;; Ok (val, p + 8)
  else if one_of form [DW_FORM_addr; DW_FORM_ref_addr] then
    val <- load_Word E buf p ;; Ok (val, p + sizeof_Word E)
  else if one_of form [DW_FORM_strx; DW_FORM_addrx; DW_FORM_udata;
                       DW_FORM_ref_udata; DW_FORM_loclistx;
                       DW_FORM_rnglistx] then
    read_uleb buf p
  else if form =? DW_FORM_string then
    n <- strlen buf p ;; Ok (0, p + (n + 1))
  else Fatal (Unhandled_debug_info_form form).

(** ** [find_cu_abbrev] *)

(** The inner loop that skips the attribute specifications of an
    uninteresting abbreviation record; the result is the advanced
    [abbrev] cursor. *)
Fixpoint skip_abbrev_attrs (fuel : nat) (ctx : Context) (abbrev : Z)
  : result Z :=
  match fuel with
  | O => OutOfFuel
  | S fuel' =>
      '(name, abbrev) <- read_uleb (debug_abbrev ctx) abbrev ;;
      '(form, abbrev) <- read_uleb (debug_abbrev ctx) abbrev ;;
      if (name =? 0) && (form =? 0) then Ok abbrev
      else if form =? DW_FORM_implicit_const then
        '(_, abbrev) <- read_uleb (debug_abbrev ctx) abbrev ;;
        skip_abbrev_attrs fuel' ctx abbrev
      else skip_abbrev_attrs fuel' ctx abbrev
  end.

(** The outer loop that looks for the record whose code is [abbrev_code];
    [code] is a [u32] and [abbrev_code] an [i64], so they are compared as
    [i64]. *)
Fixpoint find_abbrev_record (fuel : nat) (ctx : Context) (abbrev : Z)
    (abbrev_code : Z) : result Z :=
  match fuel with
  | O => OutOfFuel
  | S fuel' =>
      '(code, abbrev) <- read_uleb (debug_abbrev ctx) abbrev ;;
      let code := u32 code in
      if code =? 0 then Fatal No_abbrev_record
      else if code =? abbrev_code then
        '(abbrev_tag, abbrev) <- read_uleb (debug_abbrev ctx) abbrev ;;
        if negb (abbrev_tag =? DW_TAG_compile_unit)
           && negb (abbrev_tag =? DW_TAG_skeleton_unit)
        then Fatal (First_tag_not_compile_unit abbrev_tag)
        else Ok abbrev
      else
        '(_, abbrev) <- read_uleb (debug_abbrev ctx) abbrev ;;
        let abbrev := abbrev + 1 in
        abbrev <- skip_abbrev_attrs (S (length (debug_abbrev ctx))) ctx abbrev ;;
        find_abbrev_record fuel' ctx abbrev abbrev_code
  end.

(** The result is the returned [abbrev] pointer (an offset into
    [.debug_abbrev]) and the advanced cursor [*p] (an offset into
    [.debug_info]). *)
Definition find_cu_abbrev (E : Target) (ctx : Context) (p : Z)
    (dwarf_version : Z) : result (Z * Z) :=
  '(abbrev_offset, p) <-
    (if one_of dwarf_version [2; 3; 4] then
       abbrev_offset <- load_U32 E (debug_info ctx) p ;;
       address_size <- load_u8 (debug_info ctx) (p + 4) ;;
       if negb (address_size =? sizeof_Word E)
       then Fatal (Unsupported_address_size address_size)
       else Ok (abbrev_offset, p + 5)
     else if dwarf_version =? 5 then
       abbrev_offset <- load_U32 E (debug_info ctx) (p + 2) ;;
       address_size <- load_u8 (debug_info ctx) (p + 1) ;;
       if negb (address_size =? sizeof_Word E)
       then Fatal (Unsupported_address_size address_size)
       else
         unit_type <- load_u8 (debug_info ctx) p ;;
         if one_of unit_type [DW_UT_compile; DW_UT_partial]
         then Ok (abbrev_offset, p + 6)
         else if one_of unit_type [DW_UT_skeleton; DW_UT_split_compile]
         then Ok (abbrev_offset, p + 14)
         else Fatal (Unknown_DW_UT unit_type)
     else Fatal (Unknown_DWARF_version dwarf_version)) ;;
  '(abbrev_code, p) <- read_uleb (debug_info ctx) p ;;
  let abbrev_code := i64_of_u64 abbrev_code in
  abbrev <- find_abbrev_record (S (length (debug_abbrev ctx))) ctx
              abbrev_offset abbrev_code ;;
  Ok (abbrev + 1, p).

(** ** The range decoders *)

(** [addrx[i]], where [addrx] is a [Word<E> *] into [.debug_addr], or the
    null pointer when no [DW_AT_addr_base] was seen. *)
Definition addrx_at (E : Target) (ctx : Context) (addrx : option Z) (i : Z)
  : result Z :=
  match addrx with
  | None => Undefined
  | Some a => load_Word E (debug_addr ctx) (a + i * sizeof_Word E)
  end.

(** The loop of [read_debug_range]: [range] is the offset of the list in
    [.debug_ranges], [i] the loop index, [vec] the pairs emitted so far. *)
Fixpoint read_debug_range_loop (fuel : nat) (E : Target) (buf : list byte)
    (range : Z) (i : Z) (base : Z) (vec : list (Z * Z))
  : result (list (Z * Z)) :=
  match fuel with
  | O => OutOfFuel
  | S fuel' =>
      lo <- load_Word E buf (range + i * sizeof_Word E) ;;
      hi <- load_Word E buf (range + (i + 1) * sizeof_Word E) ;;
      if (lo =? 0) && (hi =? 0) then Ok vec
      else if word_wrap E (lo + 1) =? 0 then
        read_debug_range_loop fuel' E buf range (i + 2) hi vec
      else
        read_debug_range_loop fuel' E buf range (i + 2) base
          (vec ++ [(u64 (lo + base), u64 (hi + base))])
  end.

(** [fuel] bounds the number of pairs read; one more than the number of
    bytes of the section is always enough. *)
Definition read_debug_range (E : Target) (buf : list byte) (range : Z)
    (base : Z) : result (list (Z * Z)) :=
  read_debug_range_loop (S (length buf)) E buf range 0 base [].

(** The loop of [read_rnglist_range]: [rnglist] is the cursor, an offset
    into [.debug_rnglists].  The [switch] has no [default]: a byte that is
    no case label leaves the [switch] and the loop goes on. *)
Fixpoint read_rnglist_range_loop (fuel : nat) (E : Target) (ctx : Context)
    (vec : list (Z * Z)) (rnglist : Z) (addrx : option Z) (base : Z)
  : result (list (Z * Z)) :=
  match fuel with
  | O => OutOfFuel
  | S fuel' =>
      let buf := debug_rnglists ctx in
      kind <- load_u8 buf rnglist ;;
      let rnglist := rnglist + 1 in
      if kind =? DW_RLE_end_of_list then Ok vec
      else if kind =? DW_RLE_base_addressx then
        '(i, rnglist) <- read_uleb buf rnglist ;;
        base <- addrx_at E ctx addrx i ;;
        read_rnglist_range_loop fuel' E ctx vec rnglist addrx base
      else if kind =? DW_RLE_startx_endx then
        '(val1, rnglist) <- read_uleb buf rnglist ;;
        '(val2, rnglist) <- read_uleb buf rnglist ;;
        a1 <- addrx_at E ctx addrx val1 ;;
        a2 <- addrx_at E ctx addrx val2 ;;
        read_rnglist_range_loop fuel' E ctx (vec ++ [(a1, a2)]) rnglist
          addrx base
      else if kind =? DW_RLE_startx_length then
        '(val1, rnglist) <- read_uleb buf rnglist ;;
        '(val2, rnglist) <- read_uleb buf rnglist ;;
        a1 <- addrx_at E ctx addrx val1 ;;
        read_rnglist_range_loop fuel' E ctx (vec ++ [(a1, u64 (a1 + val2))])
          rnglist addrx base
      else if kind =? DW_RLE_offset_pair then
        '(val1, rnglist) <- read_uleb buf rnglist ;;
        '(val2, rnglist) <- read_uleb buf rnglist ;;
        read_rnglist_range_loop fuel' E ctx
          (vec ++ [(u64 (base + val1), u64 (base + val2))]) rnglist addrx base
      else if kind =? DW_RLE_base_address then
        base <- load_Word E buf rnglist ;;
        read_rnglist_range_loop fuel' E ctx vec (rnglist + sizeof_Word E)
          addrx base
      else if kind =? DW_RLE_start_end then
        val1 <- load_Word E buf rnglist ;;
        val2 <- load_Word E buf (rnglist + sizeof_Word E) ;;
        read_rnglist_range_loop fuel' E ctx (vec ++ [(val1, val2)])
          (rnglist + sizeof_Word E * 2) addrx base
      else if kind =? DW_RLE_start_length then
        val1 <- load_Word E buf rnglist ;;
        '(val2, rnglist) <- read_uleb buf (rnglist + sizeof_Word E) ;;
        read_rnglist_range_loop fuel' E ctx (vec ++ [(val1, u64 (val1 + val2))])
          rnglist addrx base
      else
        read_rnglist_range_loop fuel' E ctx vec rnglist addrx base
  end.

(** Every iteration consumes a byte, so one more iteration than the
    section has bytes is always enough. *)
Definition read_rnglist_range (E : Target) (ctx : Context)
    (vec : list (Z * Z)) (rnglist : Z) (addrx : option Z) (base : Z)
  : result (list (Z * Z)) :=
  read_rnglist_range_loop (S (length (debug_rnglists ctx))) E ctx vec rnglist
    addrx base.


(** ** [read_address_ranges] *)

(** The local [struct Record]. *)
Record Record_ : Type := { form : Z; value : Z }.

(** The local variables the attribute loop of [read_address_ranges] fills
    in.  [rnglists_base] starts as [(u64)-1] and [addrx] as the null
    pointer. *)
Record Attrs : Type := {
  low_pc : Record_;
  high_pc : Record_;
  ranges_attr : Record_;
  rnglists_base : Z;
  addrx : option Z
}.

Definition initial_attrs : Attrs :=
  {| low_pc := {| form := 0; value := 0 |};
     high_pc := {| form := 0; value := 0 |};
     ranges_attr := {| form := 0; value := 0 |};
     rnglists_base := u64 (-1);
     addrx := None |}.

(** The [switch (name)] of the attribute loop. *)
Definition record_attr (a : Attrs) (name form val : Z) : Attrs :=
  if name =? DW_AT_low_pc then
    {| low_pc := {| form := form; value := val |}; high_pc := high_pc a;
       ranges_attr := ranges_attr a; rnglists_base := rnglists_base a;
       addrx := addrx a |}
  else if name =? DW_AT_high_pc then
    {| low_pc := low_pc a; high_pc := {| form := form; value := val |};
       ranges_attr := ranges_attr a; rnglists_base := rnglists_base a;
       addrx := addrx a |}
  else if name =? DW_AT_rnglists_base then
    {| low_pc := low_pc a; high_pc := high_pc a;
       ranges_attr := ranges_attr a; rnglists_base := val;
       addrx := addrx a |}
  else if name =? DW_AT_addr_base then
    {| low_pc := low_pc a; high_pc := high_pc a;
       ranges_attr := ranges_attr a; rnglists_base := rnglists_base a;
       addrx := Some val |}
  else if name =? DW_AT_ranges then
    {| low_pc := low_pc a; high_pc := high_pc a;
       ranges_attr := {| form := form; value := val |};
       rnglists_base := rnglists_base a; addrx := addrx a |}
  else a.

(** "Read all interesting debug records": [abbrev] walks the attribute
    specifications in [.debug_abbrev], [p] the attribute values in
    [.debug_info]. *)
Fixpoint read_attrs (fuel : nat) (E : Target) (ctx : Context)
    (abbrev p : Z) (a : Attrs) : result Attrs :=
  match fuel with
  | O => OutOfFuel
  | S fuel' =>
      '(name, abbrev) <- read_uleb (debug_abbrev ctx) abbrev ;;
      '(form, abbrev) <- read_uleb (debug_abbrev ctx) abbrev ;;
      if (name =? 0) && (form =? 0) then Ok a
      else
        '(val, p) <- read_scalar E ctx p form ;;
        read_attrs fuel' E ctx abbrev p (record_attr a name form val)
  end.

(** The loop over the offsets table of [.debug_rnglists]: [n] iterations
    remain, [i] is the loop index, [base] the offset of the table. *)
Fixpoint read_rnglists_offsets (n : nat) (E : Target) (ctx : Context)
    (base : Z) (i : Z) (addrx : option Z) (low : Z) (vec : list (Z * Z))
  : result (list (Z * Z)) :=
  match n with
  | O => Ok vec
  | S n' =>
      off <- load_U32 E (debug_rnglists ctx) (base + 4 * i) ;;
      vec <- read_rnglist_range E ctx vec (base + off) addrx low ;;
      read_rnglists_offsets n' E ctx base (i + 1) addrx low vec
  end.

(** The part of [read_address_ranges] after the attribute loop.  The
    [assert (dwarf_version == 5)] cannot fail, because [find_cu_abbrev] has
    accepted the version. *)
Definition resolve_ranges (E : Target) (ctx : Context) (dwarf_version : Z)
    (a : Attrs) : result (list (Z * Z)) :=
  if negb (form (ranges_attr a) =? 0) then
    (* Handle non-contiguous address ranges. *)
    if dwarf_version <=? 4 then
      read_debug_range E (debug_ranges ctx) (value (ranges_attr a))
        (value (low_pc a))
    else if form (ranges_attr a) =? DW_FORM_sec_offset then
      read_rnglist_range E ctx [] (value (ranges_attr a)) (addrx a)
        (value (low_pc a))
    else if rnglists_base a =? u64 (-1) then
      Fatal Missing_DW_AT_rnglists_base
    else
      let base := rnglists_base a in
      num_offsets <- load_U32 E (debug_rnglists ctx) (base - 4) ;;
      read_rnglists_offsets (Z.to_nat num_offsets) E ctx base 0 (addrx a)
        (value (low_pc a)) []
  else if negb (form (low_pc a) =? 0) && negb (form (high_pc a) =? 0) then
    (* Handle a contiguous address range. *)
    lo <- (if form (low_pc a) =? DW_FORM_addr then Ok (value (low_pc a))
           else if one_of (form (low_pc a))
                     [DW_FORM_addrx; DW_FORM_addrx1; DW_FORM_addrx2;
                      DW_FORM_addrx4]
           then addrx_at E ctx (addrx a) (value (low_pc a))
           else Fatal (Unhandled_low_pc_form (form (high_pc a)))) ;;
    if form (high_pc a) =? DW_FORM_addr then
      Ok [(lo, value (high_pc a))]
    else if one_of (form (high_pc a))
              [DW_FORM_addrx; DW_FORM_addrx1; DW_FORM_addrx2; DW_FORM_addrx4]
    then
      hi <- addrx_at E ctx (addrx a) (value (high_pc a)) ;;
      Ok [(lo, hi)]
    else if one_of (form (high_pc a))
              [DW_FORM_udata; DW_FORM_data1; DW_FORM_data2; DW_FORM_data4;
               DW_FORM_data8]
    then Ok [(lo, u64 (lo + value (high_pc a)))]
    else Fatal (Unhandled_high_pc_form (form (high_pc a)))
  else Ok [].

(** The attributes of the compunit at [offset] in [.debug_info], together
    with its DWARF version. *)
Definition read_cu_attrs (E : Target) (ctx : Context) (offset : Z)
  : result (Z * Attrs) :=
  let p := offset in
  dwarf_version <- load_U16 E (debug_info ctx) (p + 4) ;;
  let p := p + 6 in
  '(abbrev, p) <- find_cu_abbrev E ctx p dwarf_version ;;
  a <- read_attrs (S (length (debug_abbrev ctx))) E ctx abbrev p
         initial_attrs ;;
  Ok (dwarf_version, a).

Definition read_address_ranges (E : Target) (ctx : Context) (offset : Z)
  : result (list (Z * Z)) :=
  '(dwarf_version, a) <- read_cu_attrs E ctx offset ;;
  resolve_ranges E ctx dwarf_version a.


(** ** Names, map values and compunits *)

Module NameType.
Record t : Type := { name : list byte; hash : Z; type : Z }.
End NameType.

Module MapValue.
(** [count] is an [Atomic<u32>]; the other integers are [u32]. *)
Record t : Type := {
  name : list byte;
  hash : Z;
  count : Z;
  name_offset : Z;
  type_offset : Z
}.
End MapValue.

Module Compunit.
(** [entries] holds [MapValue *] pointers: a pointer is the index of the
    pointed-to value in the store of the map. *)
Record t : Type := {
  offset : Z;
  size : Z;
  ranges : list (Z * Z);
  nametypes : list NameType.t;
  entries : list nat
}.

Definition set_ranges (cu : t) (r : list (Z * Z)) : t :=
  {| offset := offset cu; size := size cu; ranges := r;
     nametypes := nametypes cu; entries := entries cu |}.

Definition set_nametypes (cu : t) (nts : list NameType.t) : t :=
  {| offset := offset cu; size := size cu; ranges := ranges cu;
     nametypes := nts; entries := entries cu |}.

Definition set_entries (cu : t) (es : list nat) : t :=
  {| offset := offset cu; size := size cu; ranges := ranges cu;
     nametypes := nametypes cu; entries := es |}.
End Compunit.

(** [std::string_view]'s [operator<] and [operator==]: bytes compare as
    unsigned characters, and a proper prefix is smaller. *)
Fixpoint bytes_ltb (a b : list byte) : bool :=
  match a, b with
  | _, [] => false
  | [], _ :: _ => true
  | x :: a', y :: b' =>
      if u8_of_byte x <? u8_of_byte y then true
      else if u8_of_byte y <? u8_of_byte x then false
      else bytes_ltb a' b'
  end.

Fixpoint bytes_eqb (a b : list byte) : bool :=
  match a, b with
  | [], [] => true
  | x :: a', y :: b' => (u8_of_byte x =? u8_of_byte y) && bytes_eqb a' b'
  | _, _ => false
  end.

(** [NameType::operator<]: the order of [std::tuple(hash, type, name)]. *)
Definition NameType_ltb (a b : NameType.t) : bool :=
  if NameType.hash a <? NameType.hash b then true
  else if NameType.hash b <? NameType.hash a then false
  else if NameType.type a <? NameType.type b then true
  else if NameType.type b <? NameType.type a then false
  else bytes_ltb (NameType.name a) (NameType.name b).

(** [NameType::operator==], defaulted: member-wise equality. *)
Definition NameType_eqb (a b : NameType.t) : bool :=
  bytes_eqb (NameType.name a) (NameType.name b)
  && (NameType.hash a =? NameType.hash b)
  && (NameType.type a =? NameType.type b).

(** Modelled from the spec: [sort] and [remove_duplicates] are helpers of
    [mold.h], which is not part of the sources at hand; each compunit
    "sorts its tuples lexicographically" and "removes adjacent
    duplicates".  The comparison is a strict total order in both uses
    below, so the sorted sequence does not depend on the algorithm;
    insertion sort stands for it. *)
Fixpoint insert_by {A : Type} (ltb : A -> A -> bool) (x : A) (l : list A)
  : list A :=
  match l with
  | [] => [x]
  | y :: l' => if ltb x y then x :: l else y :: insert_by ltb x l'
  end.

Definition sort_by {A : Type} (ltb : A -> A -> bool) (l : list A) : list A :=
  fold_right (insert_by ltb) [] l.

Fixpoint remove_duplicates_by {A : Type} (eqb : A -> A -> bool) (l : list A)
  : list A :=
  match l with
  | [] => []
  | x :: l' =>
      match l' with
      | [] => [x]
      | y :: _ =>
          if eqb x y then remove_duplicates_by eqb l'
          else x :: remove_duplicates_by eqb l'
      end
  end.

(** ** [read_pubnames] *)

(** The lambda [get_cu]: the index of the first compunit at [offset]. *)
Fixpoint get_cu (cus : list Compunit.t) (offset : Z) : option nat :=
  match cus with
  | [] => None
  | cu :: cus' =>
      if Compunit.offset cu =? offset then Some O
      else option_map S (get_cu cus' offset)
  end.

(** [cus[i].nametypes.push_back(nt)]. *)
Fixpoint push_nametype (cus : list Compunit.t) (i : nat) (nt : NameType.t)
  : list Compunit.t :=
  match cus, i with
  | [], _ => []
  | cu :: cus', O =>
      Compunit.set_nametypes cu (Compunit.nametypes cu ++ [nt]) :: cus'
  | cu :: cus', S i' => cu :: push_nametype cus' i' nt
  end.

(** A [std::string_view] into the section [buf] is its start offset and
    its size.  [substr (pos)] throws when [pos] exceeds the size. *)

(** The inner loop over the (offset, type, name) tuples of one table;
    [data] is the view [(data_start, data_size)]. *)
Fixpoint read_pubnames_tuples (fuel : nat) (E : Target) (buf : list byte)
    (cus : list Compunit.t) (cu : nat) (data_start data_size : Z)
  : result (list Compunit.t) :=
  match fuel with
  | O => OutOfFuel
  | S fuel' =>
      if data_size =? 0 then Ok cus
      else
        offset <- load_U32 E buf data_start ;;
        if data_size <? 4 then Thrown
        else
          let data_start := data_start + 4 in
          let data_size := data_size - 4 in
          if offset =? 0 then Ok cus
          else
            type <- load_u8 buf data_start ;;
            if data_size <? 1 then Thrown
            else
              let data_start := data_start + 1 in
              let data_size := data_size - 1 in
              n <- strlen buf data_start ;;
              let name := slice buf data_start n in
              if data_size <? n + 1 then Thrown
              else
                read_pubnames_tuples fuel' E buf
                  (push_nametype cus cu
                     {| NameType.name := name;
                        NameType.hash := gdb_hash name;
                        NameType.type := type |})
                  cu (data_start + (n + 1)) (data_size - (n + 1))
  end.

(** The outer loop over the tables of one section; [contents] is the view
    [(start, size)]. *)
Fixpoint read_pubnames_tables (fuel : nat) (E : Target) (file : ObjectFile)
    (buf : list byte) (cus : list Compunit.t) (start size : Z)
  : result (list Compunit.t) :=
  match fuel with
  | O => OutOfFuel
  | S fuel' =>
      if size =? 0 then Ok cus
      else if size <? 14 then Fatal Corrupted_header
      else
        v <- load_U32 E buf start ;;
        let len := u32 (v + 4) in
        info_offset <- load_U32 E buf (start + 6) ;;
        match get_cu cus (debug_info_offset file + info_offset) with
        | None => Fatal Corrupted_debug_info_offset
        | Some cu =>
            let data_start := start + 14 in
            let data_size := Z.min (u32 (len - 14)) (size - 14) in
            if size <? len then Thrown
            else
              cus <- read_pubnames_tuples (S (length buf)) E buf cus cu
                       data_start data_size ;;
              read_pubnames_tables fuel' E file buf cus (start + len)
                (size - len)
        end
  end.

(** The lambda [read], applied to a section that is present. *)
Definition read_pubnames_section (E : Target) (file : ObjectFile)
    (isec : option (list byte)) (cus : list Compunit.t)
  : result (list Compunit.t) :=
  match isec with
  | None => Ok cus
  | Some buf =>
      read_pubnames_tables (S (length buf)) E file buf cus 0
        (Z.of_nat (length buf))
  end.

Definition read_pubnames (E : Target) (cus : list Compunit.t)
    (file : ObjectFile) : result (list Compunit.t) :=
  cus <- read_pubnames_section E file (debug_pubnames file) cus ;;
  read_pubnames_section E file (debug_pubtypes file) cus.

(** ** [read_compunits] *)

(** "Read compunits from the output .debug_info section". *)
Fixpoint enumerate_compunits (fuel : nat) (E : Target) (ctx : Context)
    (p : Z) (cus : list Compunit.t) : result (list Compunit.t) :=
  match fuel with
  | O => OutOfFuel
  | S fuel' =>
      if p <? Z.of_nat (length (debug_info ctx)) then
        v <- load_U32 E (debug_info ctx) p ;;
        if v =? 0xffffffff then Fatal DWARF64_not_supported
        else
          let len := v + 4 in
          enumerate_compunits fuel' E ctx (p + len)
            (cus ++ [{| Compunit.offset := p; Compunit.size := len;
                        Compunit.ranges := []; Compunit.nametypes := [];
                        Compunit.entries := [] |}])
      else Ok cus
  end.

(** The predicate given to [std::erase_if]. *)
Definition is_empty_range (p : Z * Z) : bool :=
  (fst p =? 0) || (fst p =? snd p).

(** The body of the first parallel loop, for one compunit. *)
Definition read_cu_ranges (E : Target) (ctx : Context) (cu : Compunit.t)
  : result Compunit.t :=
  r <- read_address_ranges E ctx (Compunit.offset cu) ;;
  Ok (Compunit.set_ranges cu (filter (fun p => negb (is_empty_range p)) r)).

(** A loop whose body can fail, over the elements of a list. *)
Fixpoint map_result {A B : Type} (f : A -> result B) (l : list A)
  : result (list B) :=
  match l with
  | [] => Ok []
  | x :: l' => y <- f x ;; ys <- map_result f l' ;; Ok (y :: ys)
  end.

Fixpoint fold_result {A B : Type} (f : A -> B -> result A) (l : list B)
    (a : A) : result A :=
  match l with
  | [] => Ok a
  | x :: l' => a <- f a x ;; fold_result f l' a
  end.

(** "Uniquify elements". *)
Definition uniquify_nametypes (cu : Compunit.t) : Compunit.t :=
  Compunit.set_nametypes cu
    (remove_duplicates_by NameType_eqb
       (sort_by NameType_ltb (Compunit.nametypes cu))).

(** The three parallel loops touch disjoint data per iteration (one
    compunit, or the compunits of one object file), and the name tuples
    are sorted afterwards; the loops are run here in index order. *)
Definition read_compunits (E : Target) (ctx : Context)
  : result (list Compunit.t) :=
  cus <- enumerate_compunits (S (length (debug_info ctx))) E ctx 0 [] ;;
  cus <- map_result (read_cu_ranges E ctx) cus ;;
  cus <- fold_result (read_pubnames E) (objs ctx) cus ;;
  Ok (map uniquify_nametypes cus).


(** ** The symbol map and the parallel insertion phase *)

(** Modelled from the spec: [ConcurrentMap] is declared in [mold.h], which
    is not part of the sources at hand.  It is "a concurrent hash map keyed
    by (name, hash)" that "returns a stable pointer/handle for (name,
    hash)", the same handle for equal keys.  The store below lists the
    values of the occupied buckets; a handle is an index into it, and a new
    key takes the next index. *)
Definition key_eqb (v : MapValue.t) (name : list byte) (hash : Z) : bool :=
  bytes_eqb (MapValue.name v) name && (MapValue.hash v =? hash).

Fixpoint map_find (store : list MapValue.t) (name : list byte) (hash : Z)
  : option nat :=
  match store with
  | [] => None
  | v :: store' =>
      if key_eqb v name hash then Some O
      else option_map S (map_find store' name hash)
  end.

(** [map.insert (key, hash, value)]: the store afterwards, the handle and
    the [inserted] flag. *)
Definition map_insert (store : list MapValue.t) (name : list byte) (hash : Z)
    (value : MapValue.t) : list MapValue.t * nat * bool :=
  match map_find store name hash with
  | Some ent => (store, ent, false)
  | None => (store ++ [value], length store, true)
  end.

(** An update of the value a handle points to. *)
Fixpoint update_at (store : list MapValue.t) (ent : nat)
    (f : MapValue.t -> MapValue.t) : list MapValue.t :=
  match store, ent with
  | [], _ => []
  | v :: store', O => f v :: store'
  | v :: store', S ent' => v :: update_at store' ent' f
  end.

(** [ent->count++], on an [Atomic<u32>]. *)
Definition incr_count (v : MapValue.t) : MapValue.t :=
  {| MapValue.name := MapValue.name v; MapValue.hash := MapValue.hash v;
     MapValue.count := u32 (MapValue.count v + 1);
     MapValue.name_offset := MapValue.name_offset v;
     MapValue.type_offset := MapValue.type_offset v |}.

(** [MapValue value = {nt.name, nt.hash}]. *)
Definition new_value (nt : NameType.t) : MapValue.t :=
  {| MapValue.name := NameType.name nt; MapValue.hash := NameType.hash nt;
     MapValue.count := 0; MapValue.name_offset := 0;
     MapValue.type_offset := 0 |}.

(** The task that runs the loop body for one compunit: the name tuples it
    has still to insert, the handle it has obtained from [map.insert] but
    not yet counted and pushed, and its [entries] so far. *)
Record Task : Type := {
  todo : list NameType.t;
  pending : option nat;
  done : list nat
}.

Definition initial_task (cu : Compunit.t) : Task :=
  {| todo := Compunit.nametypes cu; pending := None; done := [] |}.

Definition task_finished (t : Task) : Prop :=
  todo t = [] /\ pending t = None.

(** One atomic action of one task: either the call of [map.insert], or the
    atomic increment of the count together with the task-local
    [push_back]. *)
Inductive task_step : list MapValue.t -> Task -> list MapValue.t -> Task -> Prop :=
| step_insert store nt rest es store' ent inserted :
    map_insert store (NameType.name nt) (NameType.hash nt) (new_value nt)
      = (store', ent, inserted) ->
    task_step store {| todo := nt :: rest; pending := None; done := es |}
              store' {| todo := rest; pending := Some ent; done := es |}
| step_count store rest es ent :
    task_step store {| todo := rest; pending := Some ent; done := es |}
              (update_at store ent incr_count)
              {| todo := rest; pending := None; done := es ++ [ent] |}.

(** The tasks of all compunits run interleaved: a step of the phase is a
    step of any one task. *)
Inductive phase_step : list MapValue.t * list Task -> list MapValue.t * list Task -> Prop :=
| phase_step_task store store' before t t' after :
    task_step store t store' t' ->
    phase_step (store, before ++ t :: after) (store', before ++ t' :: after).

Inductive phase_steps : list MapValue.t * list Task -> list MapValue.t * list Task -> Prop :=
| phase_refl s : phase_steps s s
| phase_more s1 s2 s3 :
    phase_steps s1 s2 -> phase_step s2 s3 -> phase_steps s1 s3.

(** A complete run of the insertion phase on [cus]: from the empty map,
    until every task has finished. *)
Definition insertion_phase (cus : list Compunit.t)
    (store : list MapValue.t) (tasks : list Task) : Prop :=
  phase_steps ([], map initial_task cus) (store, tasks)
  /\ Forall task_finished tasks.

(** The compunits after the phase: each has the [entries] of its task. *)
Definition with_entries (cus : list Compunit.t) (tasks : list Task)
  : list Compunit.t :=
  map (fun ct => Compunit.set_entries (fst ct) (done (snd ct)))
      (combine cus tasks).

(** The schedule that runs the tasks one after the other. *)
Fixpoint run_task (store : list MapValue.t) (nts : list NameType.t)
    (es : list nat) : list MapValue.t * list nat :=
  match nts with
  | [] => (store, es)
  | nt :: rest =>
      let '(store', ent, _) :=
        map_insert store (NameType.name nt) (NameType.hash nt) (new_value nt) in
      run_task (update_at store' ent incr_count) rest (es ++ [ent])
  end.

Fixpoint run_tasks (store : list MapValue.t) (cus : list Compunit.t)
  : list MapValue.t * list Task :=
  match cus with
  | [] => (store, [])
  | cu :: cus' =>
      let '(store', es) := run_task store (Compunit.nametypes cu) [] in
      let '(store'', ts) := run_tasks store' cus' in
      (store'', {| todo := []; pending := None; done := es |} :: ts)
  end.


(** ** Layout of the section *)

Record SectionHeader : Type := {
  version : Z;
  cu_list_offset : Z;
  cu_types_offset : Z;
  ranges_offset : Z;
  symtab_offset : Z;
  const_pool_offset : Z
}.

(** [sizeof(SectionHeader)]: six [ul32]. *)
Definition sizeof_hdr : Z := 24.

(** Modelled from the spec: [bit_ceil] is not defined in the sources at
    hand; the specification calls it [next_pow2], the least power of two
    that is not below its argument. *)
Definition bit_ceil (x : Z) : Z := 2 ^ Z.log2_up x.

(** [bit_ceil(estimator.get_cardinality() * 5 / 4)], where [card] is the
    [i64] that [get_cardinality] returns; the division is the integer
    division of C++. *)
Definition ht_size_of (card : Z) : Z := bit_ceil (Z.quot (card * 5) 4).

Definition default_value : MapValue.t :=
  {| MapValue.name := []; MapValue.hash := 0; MapValue.count := 0;
     MapValue.name_offset := 0; MapValue.type_offset := 0 |}.

(** [*ent] for a handle [ent]. *)
Definition deref (store : list MapValue.t) (ent : nat) : MapValue.t :=
  nth ent store default_value.

(** The comparison given to [tbb::parallel_sort]: the order of
    [std::tuple(hash, name)]. *)
Definition MapValue_ltb (a b : MapValue.t) : bool :=
  if MapValue.hash a <? MapValue.hash b then true
  else if MapValue.hash b <? MapValue.hash a then false
  else bytes_ltb (MapValue.name a) (MapValue.name b).

Definition entry_ltb (store : list MapValue.t) (a b : nat) : bool :=
  MapValue_ltb (deref store a) (deref store b).

(** "Sort symbols for build reproducibility": [scan] lists the handles in
    the order in which the scan of the buckets finds them. *)
Definition sort_entries (store : list MapValue.t) (scan : list nat)
  : list nat :=
  sort_by (entry_ltb store) scan.

Definition set_type_offset (x : Z) (v : MapValue.t) : MapValue.t :=
  {| MapValue.name := MapValue.name v; MapValue.hash := MapValue.hash v;
     MapValue.count := MapValue.count v;
     MapValue.name_offset := MapValue.name_offset v;
     MapValue.type_offset := x |}.

Definition set_name_offset (x : Z) (v : MapValue.t) : MapValue.t :=
  {| MapValue.name := MapValue.name v; MapValue.hash := MapValue.hash v;
     MapValue.count := MapValue.count v;
     MapValue.name_offset := x;
     MapValue.type_offset := MapValue.type_offset v |}.

(** The two loops that assign [type_offset] and [name_offset]; [offset] is
    the running [i64]. *)
Fixpoint assign_type_offsets (store : list MapValue.t) (entries : list nat)
    (offset : Z) : list MapValue.t * Z :=
  match entries with
  | [] => (store, offset)
  | ent :: rest =>
      assign_type_offsets
        (update_at store ent (set_type_offset (u32 offset))) rest
        (offset + u32 (u32 (MapValue.count (deref store ent) * 4) + 4))
  end.

Fixpoint assign_name_offsets (store : list MapValue.t) (entries : list nat)
    (offset : Z) : list MapValue.t * Z :=
  match entries with
  | [] => (store, offset)
  | ent :: rest =>
      assign_name_offsets
        (update_at store ent (set_name_offset (u32 offset))) rest
        (offset + (Z.of_nat (length (MapValue.name (deref store ent))) + 1))
  end.

(** "Compute sizes of each components". *)
Definition compute_header (cus : list Compunit.t) (card : Z)
  : SectionHeader :=
  let cu_list := sizeof_hdr in
  let cu_types := u32 (cu_list + Z.of_nat (length cus) * 16) in
  let ranges := cu_types in
  let symtab :=
    fold_left
      (fun acc cu => u32 (acc + Z.of_nat (length (Compunit.ranges cu)) * 20))
      cus ranges in
  {| version := 7;
     cu_list_offset := cu_list;
     cu_types_offset := cu_types;
     ranges_offset := ranges;
     symtab_offset := symtab;
     const_pool_offset := u32 (symtab + ht_size_of card * 8) |}.

(** ** The output buffer *)

(** The [n] low bytes of [v], least significant first: what an assignment
    to a [ul32] or [ul64] stores. *)
Definition le_bytes (n : nat) (v : Z) : list byte :=
  map (fun i => byte_of_u8 (Z.shiftr v (8 * Z.of_nat i))) (seq 0 n).

(** A write of the bytes [bs] at [p]. *)
Definition store_bytes (buf : list byte) (p : Z) (bs : list byte)
  : result (list byte) :=
  if (p <? 0) || (Z.of_nat (length buf) <? p + Z.of_nat (length bs))
  then Undefined
  else Ok (firstn (Z.to_nat p) buf ++ bs
           ++ skipn (Z.to_nat p + length bs) buf).

Definition store_ul32 (buf : list byte) (p : Z) (v : Z) : result (list byte) :=
  store_bytes buf p (le_bytes 4 v).

Definition store_ul64 (buf : list byte) (p : Z) (v : Z) : result (list byte) :=
  store_bytes buf p (le_bytes 8 v).

Definition load_ul32 (buf : list byte) (p : Z) : result Z := load_le buf p 4.

(** [memcpy(buf, &hdr, sizeof(hdr))]. *)
Definition emit_header (buf : list byte) (hdr : SectionHeader)
  : result (list byte) :=
  store_bytes buf 0
    (le_bytes 4 (version hdr) ++ le_bytes 4 (cu_list_offset hdr)
     ++ le_bytes 4 (cu_types_offset hdr) ++ le_bytes 4 (ranges_offset hdr)
     ++ le_bytes 4 (symtab_offset hdr) ++ le_bytes 4 (const_pool_offset hdr)).

(** "Write a CU list"; the result is the buffer and the cursor [p]. *)
Fixpoint emit_cu_list (buf : list byte) (p : Z) (cus : list Compunit.t)
  : result (list byte * Z) :=
  match cus with
  | [] => Ok (buf, p)
  | cu :: cus' =>
      buf <- store_ul64 buf p (Compunit.offset cu) ;;
      buf <- store_ul64 buf (p + 8) (Compunit.size cu) ;;
      emit_cu_list buf (p + 16) cus'
  end.

(** "Write address areas": the inner loop, for compunit [i]. *)
Fixpoint emit_ranges (buf : list byte) (p : Z) (i : Z)
    (ranges : list (Z * Z)) : result (list byte * Z) :=
  match ranges with
  | [] => Ok (buf, p)
  | range :: ranges' =>
      buf <- store_ul64 buf p (fst range) ;;
      buf <- store_ul64 buf (p + 8) (snd range) ;;
      buf <- store_ul32 buf (p + 16) i ;;
      emit_ranges buf (p + 20) i ranges'
  end.

Fixpoint emit_address_areas (buf : list byte) (p : Z) (i : Z)
    (cus : list Compunit.t) : result (list byte * Z) :=
  match cus with
  | [] => Ok (buf, p)
  | cu :: cus' =>
      '(buf, p) <- emit_ranges buf p i (Compunit.ranges cu) ;;
      emit_address_areas buf p (i + 1) cus'
  end.

(** [ht[k]] for the [ul32 *ht] at offset [ht]. *)
Definition ht_load (buf : list byte) (ht : Z) (k : Z) : result Z :=
  load_ul32 buf (ht + 4 * k).

Definition ht_store (buf : list byte) (ht : Z) (k : Z) (v : Z)
  : result (list byte) :=
  store_ul32 buf (ht + 4 * k) v.

(** [ht[j * 2] || ht[j * 2 + 1]]; [j] is a [u32]. *)
Definition slot_occupied (buf : list byte) (ht : Z) (j : Z) : result bool :=
  a <- ht_load buf ht (u32 (j * 2)) ;;
  if negb (a =? 0) then Ok true
  else
    b <- ht_load buf ht (u32 (u32 (j * 2) + 1)) ;;
    Ok (negb (b =? 0)).

(** The [while] loop that looks for a free slot. *)
Fixpoint probe (fuel : nat) (buf : list byte) (ht mask step j : Z)
  : result Z :=
  match fuel with
  | O => OutOfFuel
  | S fuel' =>
      occ <- slot_occupied buf ht j ;;
      if occ then probe fuel' buf ht mask step (Z.land (u32 (j + step)) mask)
      else Ok j
  end.

(** The body of the symbol-table loop for one entry.  The probe sequence
    has period [ht_size], so [ht_size] iterations find a free slot if there
    is one. *)
Definition emit_symbol (buf : list byte) (ht ht_size : Z) (v : MapValue.t)
  : result (list byte) :=
  let mask := u32 (ht_size - 1) in
  let hash := MapValue.hash v in
  let step := Z.lor (Z.land hash mask) 1 in
  let j := Z.land hash mask in
  j <- probe (Z.to_nat ht_size) buf ht mask step j ;;
  buf <- ht_store buf ht (u32 (j * 2)) (MapValue.name_offset v) ;;
  ht_store buf ht (u32 (u32 (j * 2) + 1)) (MapValue.type_offset v).

(** "Write a symbol table". *)
Fixpoint emit_symtab (buf : list byte) (ht ht_size : Z)
    (store : list MapValue.t) (entries : list nat) : result (list byte) :=
  match entries with
  | [] => Ok buf
  | ent :: rest =>
      buf <- emit_symbol buf ht ht_size (deref store ent) ;;
      emit_symtab buf ht ht_size store rest
  end.

(** "Write types": the inner loop over [j], for compunit [i]; [nts] and
    [es] are what is left of [cu.nametypes] and [cu.entries]. *)
Fixpoint emit_types_of_cu (buf : list byte) (base : Z) (i : Z)
    (store : list MapValue.t) (nts : list NameType.t) (es : list nat)
  : result (list byte) :=
  match nts with
  | [] => Ok buf
  | nt :: nts' =>
      match es with
      | [] => Undefined
      | ent :: es' =>
          let p := base + MapValue.type_offset (deref store ent) in
          c <- load_ul32 buf p ;;
          let idx := u32 (c + 1) in
          buf <- store_ul32 buf p idx ;;
          buf <- store_ul32 buf (p + 4 * idx)
                   (Z.lor (Z.shiftl (NameType.type nt) 24) i) ;;
          emit_types_of_cu buf base i store nts' es'
      end
  end.

Fixpoint emit_types (buf : list byte) (base : Z) (i : Z)
    (store : list MapValue.t) (cus : list Compunit.t) : result (list byte) :=
  match cus with
  | [] => Ok buf
  | cu :: cus' =>
      buf <- emit_types_of_cu buf base i store (Compunit.nametypes cu)
               (Compunit.entries cu) ;;
      emit_types buf base (i + 1) store cus'
  end.

(** Modelled from the spec: [write_string] is a helper of [mold.h]; it
    copies "name plus a trailing NUL". *)
Definition write_string (buf : list byte) (p : Z) (name : list byte)
  : result (list byte) :=
  store_bytes buf p (name ++ [x00]).

(** "Write names": the writes go to disjoint places, so their order is
    immaterial. *)
Fixpoint emit_names (buf : list byte) (base : Z) (store : list MapValue.t)
    (entries : list nat) : result (list byte) :=
  match entries with
  | [] => Ok buf
  | ent :: rest =>
      buf <- write_string buf (base + MapValue.name_offset (deref store ent))
               (MapValue.name (deref store ent)) ;;
      emit_names buf base store rest
  end.

(** [write_gdb_index] from the end of the insertion phase on: [cus] have
    their [entries], [store] is the map, [scan] the order in which the
    buckets are scanned, [card] the estimated cardinality. *)
Definition emit_gdb_index (cus : list Compunit.t) (store : list MapValue.t)
    (scan : list nat) (card : Z) : result (list byte) :=
  let entries := sort_entries store scan in
  let hdr := compute_header cus card in
  let ht_size := ht_size_of card in
  let '(store, offset) := assign_type_offsets store entries 0 in
  let '(store, offset) := assign_name_offsets store entries offset in
  let bufsize := const_pool_offset hdr + offset in
  let buf := repeat x00 (Z.to_nat bufsize) in
  buf <- emit_header buf hdr ;;
  '(buf, p) <- emit_cu_list buf sizeof_hdr cus ;;
  '(buf, p) <- emit_address_areas buf p 0 cus ;;
  buf <- emit_symtab buf (symtab_offset hdr) ht_size store entries ;;
  buf <- emit_types buf (const_pool_offset hdr) 0 store cus ;;
  emit_names buf (const_pool_offset hdr) store entries.

(** [write_gdb_index] under the schedule that runs the tasks of the
    insertion phase one after the other and scans the buckets in the order
    of the store.  [None]: no section is produced. *)
Definition write_gdb_index (E : Target) (ctx : Context) (card : Z)
  : result (option (list byte)) :=
  match debug_info ctx with
  | [] => Ok None
  | _ :: _ =>
      cus <- read_compunits E ctx ;;
      let '(store, tasks) := run_tasks [] cus in
      buf <- emit_gdb_index (with_entries cus tasks) store
               (seq 0 (length store)) card ;;
      Ok (Some buf)
  end.

(** [write_gdb_index] under any schedule of the insertion phase and any
    order of the bucket scan. *)
Definition write_gdb_index_run (E : Target) (ctx : Context) (card : Z)
    (buf : list byte) : Prop :=
  exists cus store tasks scan,
    debug_info ctx <> []
    /\ read_compunits E ctx = Ok cus
    /\ insertion_phase cus store tasks
    /\ Permutation scan (seq 0 (length store))
    /\ emit_gdb_index (with_entries cus tasks) store scan card = Ok buf.


(** ** Reference definitions, in the words of the specification *)

(** [~0] in the width of [Word<E>]. *)
Definition all_ones (E : Target) : Z := 2 ^ (8 * sizeof_Word E) - 1.

(** The legacy decoder on a sequence of pairs: "iterate until both values
    are zero.  If [lo == ~0] the entry is a base-address selector: set
    [base <- hi].  Otherwise emit [(lo + base, hi + base)]". *)
Fixpoint debug_range_reference (E : Target) (pairs : list (Z * Z)) (base : Z)
  : list (Z * Z) :=
  match pairs with
  | [] => []
  | (lo, hi) :: rest =>
      if (lo =? 0) && (hi =? 0) then []
      else if lo =? all_ones E then debug_range_reference E rest hi
      else (u64 (lo + base), u64 (hi + base))
             :: debug_range_reference E rest base
  end.

(** The section [buf] holds the word pairs [pairs] from offset [p] on. *)
Fixpoint pairs_at (E : Target) (buf : list byte) (p : Z)
    (pairs : list (Z * Z)) : Prop :=
  match pairs with
  | [] => True
  | (lo, hi) :: rest =>
      load_Word E buf p = Ok lo
      /\ load_Word E buf (p + sizeof_Word E) = Ok hi
      /\ pairs_at E buf (p + 2 * sizeof_Word E) rest
  end.

(** ** Example inputs *)

(** A [.debug_ranges] section of a 64-bit little-endian target holding the
    list [(0x10,0x20), (~0,0x1000), (0x0,0x8), (0,0)]. *)
Definition example_debug_ranges : list byte :=
  [x10;x00;x00;x00;x00;x00;x00;x00; x20;x00;x00;x00;x00;x00;x00;x00;
   xff;xff;xff;xff;xff;xff;xff;xff; x00;x10;x00;x00;x00;x00;x00;x00;
   x00;x00;x00;x00;x00;x00;x00;x00; x08;x00;x00;x00;x00;x00;x00;x00;
   x00;x00;x00;x00;x00;x00;x00;x00; x00;x00;x00;x00;x00;x00;x00;x00].

Definition example_range_pairs : list (Z * Z) :=
  [(0x10, 0x20); (0xffffffffffffffff, 0x1000); (0x0, 0x8); (0, 0)].


(** The eight kinds of range-list entry that [read_rnglist_range] has a
    case for. *)
Definition DW_RLE_kinds : list Z :=
  [DW_RLE_end_of_list; DW_RLE_base_addressx; DW_RLE_startx_endx;
   DW_RLE_startx_length; DW_RLE_offset_pair; DW_RLE_base_address;
   DW_RLE_start_end; DW_RLE_start_length].

(** A context whose [.debug_rnglists] starts with the byte 0x2a, which is
    no kind of entry, followed by an [offset_pair] entry and the end of
    the list. *)
Definition example_unknown_kind_ctx : Context :=
  {| debug_info := []; debug_abbrev := []; debug_ranges := [];
     debug_addr := [];
     debug_rnglists := [x2a; x04; x10; x20; x00];
     objs := [] |}.


(** A [.debug_info] with one DWARF 4 compunit of a 64-bit target whose
    [DW_AT_low_pc] is 0x2000 and whose [DW_AT_high_pc], of form
    [DW_FORM_addr], is 0x1000, and the [.debug_abbrev] that declares the
    two attributes. *)
Definition inverted_range_ctx : Context :=
  {| debug_info :=
       [x18;x00;x00;x00; x04;x00; x00;x00;x00;x00; x08; x01;
        x00;x20;x00;x00;x00;x00;x00;x00;
        x00;x10;x00;x00;x00;x00;x00;x00];
     debug_abbrev := [x01; x11; x00; x11; x01; x12; x01; x00; x00];
     debug_ranges := []; debug_addr := []; debug_rnglists := [];
     objs := [] |}.


(** A DWARF 5 compunit of a 64-bit little-endian target with
    [DW_AT_addr_base = 8] (form [sec_offset]), [DW_AT_low_pc = 0] of the
    form [low_pc_form], which reads three bytes when it is
    [DW_FORM_addrx3] (0x2b), and [DW_AT_high_pc = 0x100] (form [data4]);
    entry 0 of its address table is 0x401000. *)
Definition addrx_low_pc_ctx (low_pc_form : byte) (low_pc_bytes : list byte)
    (unit_length : byte) : Context :=
  {| debug_info :=
       [unit_length;x00;x00;x00; x05;x00; x01; x08; x00;x00;x00;x00; x01;
        x08;x00;x00;x00]
       ++ low_pc_bytes ++
       [x00;x01;x00;x00];
     debug_abbrev :=
       [x01; x11; x00; x73; x17; x11; low_pc_form; x12; x06; x00; x00];
     debug_ranges := [];
     debug_addr :=
       [x0c;x00;x00;x00; x05;x00; x08; x00;
        x00;x10;x40;x00;x00;x00;x00;x00];
     debug_rnglists := [];
     objs := [] |}.

Definition addrx3_ctx : Context := addrx_low_pc_ctx x2b [x00;x00;x00] x14.
Definition addrx2_ctx : Context := addrx_low_pc_ctx x2a [x00;x00] x13.

(** The specification's [ceil(N * 5/4)]. *)
Definition ceil_5_4 (n : Z) : Z := (n * 5 + 3) / 4.

(** Two DWARF 4 compunits; the object file of the first contributes the
    public name "foo", the object file of the second the public names
    "foo" (twice) and the public type "bar", all with type byte 0x30. *)
Definition pubnames_foo : list byte :=
  [x17;x00;x00;x00; x02;x00; x00;x00;x00;x00; x18;x00;x00;x00;
   x0b;x00;x00;x00; x30; x66;x6f;x6f;x00; x00;x00;x00;x00].

Definition pubtypes_bar : list byte :=
  [x17;x00;x00;x00; x02;x00; x00;x00;x00;x00; x18;x00;x00;x00;
   x0b;x00;x00;x00; x30; x62;x61;x72;x00; x00;x00;x00;x00].

Definition two_symbols_ctx : Context :=
  {| debug_info :=
       [x14;x00;x00;x00; x04;x00; x00;x00;x00;x00; x08; x01;
        x00;x10;x00;x00;x00;x00;x00;x00; x00;x01;x00;x00;
        x14;x00;x00;x00; x04;x00; x00;x00;x00;x00; x08; x01;
        x00;x20;x00;x00;x00;x00;x00;x00; x00;x01;x00;x00];
     debug_abbrev := [x01; x11; x00; x11; x01; x12; x06; x00; x00];
     debug_ranges := []; debug_addr := []; debug_rnglists := [];
     objs :=
       [{| debug_info_offset := 0;
           debug_pubnames := Some pubnames_foo;
           debug_pubtypes := None |};
        {| debug_info_offset := 24;
           debug_pubnames := Some (pubnames_foo ++ pubnames_foo);
           debug_pubtypes := Some pubtypes_bar |}] |}.

(** The list-of-lists dispatch as the specification words it: fatal if no
    [rnglists_base] attribute was seen; otherwise [num_offsets] is the
    little-endian [u32] four bytes before the base, and for each [i] in
    [0, num_offsets) the list at [base + offsets[i]] is decoded, [offsets]
    being little-endian [u32]s from the base on. *)
Definition rnglists_dispatch_reference (E : Target) (ctx : Context)
    (seen : bool) (base : Z) (addrx : option Z) (low : Z)
  : result (list (Z * Z)) :=
  if negb seen then Fatal Missing_DW_AT_rnglists_base
  else
    num_offsets <- load_le (debug_rnglists ctx) (base - 4) 4 ;;
    fold_result
      (fun vec i =>
         off <- load_le (debug_rnglists ctx) (base + 4 * i) 4 ;;
         read_rnglist_range E ctx vec (base + off) addrx low)
      (map Z.of_nat (seq 0 (Z.to_nat num_offsets))) [].

(** A DWARF 5 compunit of a 64-bit big-endian target with
    [DW_AT_rnglists_base = 12] (form [sec_offset]) and [DW_AT_ranges = 0]
    (form [rnglistx]).  The header of [.debug_rnglists] ends with the
    offset count 1; the offset table holds the offset 4; the list there is
    one [start_end] entry (0x1000, 0x2000). *)
Definition big_endian_rnglists_ctx : Context :=
  {| debug_info :=
       [x00;x00;x00;x0e; x00;x05; x01; x08; x00;x00;x00;x00; x01;
        x00;x00;x00;x0c; x00];
     debug_abbrev := [x01; x11; x00; x74; x17; x55; x23; x00; x00];
     debug_ranges := []; debug_addr := [];
     debug_rnglists :=
       [x00;x00;x00;x22; x00;x05; x08; x00; x00;x00;x00;x01;
        x00;x00;x00;x04;
        x06; x00;x00;x00;x00;x00;x00;x10;x00;
             x00;x00;x00;x00;x00;x00;x20;x00;
        x00];
     objs := [] |}.

(** The same compunit for a 64-bit little-endian target. *)
Definition little_endian_rnglists_ctx : Context :=
  {| debug_info :=
       [x0e;x00;x00;x00; x05;x00; x01; x08; x00;x00;x00;x00; x01;
        x0c;x00;x00;x00; x00];
     debug_abbrev := [x01; x11; x00; x74; x17; x55; x23; x00; x00];
     debug_ranges := []; debug_addr := [];
     debug_rnglists :=
       [x22;x00;x00;x00; x05;x00; x08; x00; x01;x00;x00;x00;
        x04;x00;x00;x00;
        x06; x00;x10;x00;x00;x00;x00;x00;x00;
             x00;x20;x00;x00;x00;x00;x00;x00;
        x00];
     objs := [] |}.

(** A DWARF 5 compunit of a 64-bit little-endian target whose
    [DW_AT_rnglists_base] has the form [data8] and the value
    0xffffffffffffffff, followed by [DW_AT_ranges = 0] (form
    [rnglistx]). *)
Definition all_ones_rnglists_base_ctx : Context :=
  {| debug_info :=
       [x12;x00;x00;x00; x05;x00; x01; x08; x00;x00;x00;x00; x01;
        xff;xff;xff;xff;xff;xff;xff;xff; x00];
     debug_abbrev := [x01; x11; x00; x74; x07; x55; x23; x00; x00];
     debug_ranges := []; debug_addr := [];
     debug_rnglists := [];
     objs := [] |}.


(** ** Predicates on the state of the insertion phase *)

(** The sum of [count] over all entries of the map. *)
Definition sum_counts (store : list MapValue.t) : Z :=
  fold_right (fun v acc => MapValue.count v + acc) 0 store.

(** The sum over all compunits of the number of their name tuples. *)
Definition total_nametypes (cus : list Compunit.t) : Z :=
  fold_right (fun cu acc => Z.of_nat (length (Compunit.nametypes cu)) + acc)
    0 cus.

(** The handle [ent] points to a value of the map with the name and the
    hash of the tuple [nt]. *)
Definition handle_matches (store : list MapValue.t) (nt : NameType.t)
    (ent : nat) : Prop :=
  exists v, nth_error store ent = Some v
            /\ MapValue.name v = NameType.name nt
            /\ MapValue.hash v = NameType.hash nt.

Definition pending_list (t : Task) : list nat :=
  match pending t with
  | Some ent => [ent]
  | None => []
  end.

(** The task has dealt with a prefix of the name tuples [nts], and its
    handles, in order, match the tuples of that prefix. *)
Definition task_inv (store : list MapValue.t) (nts : list NameType.t)
    (t : Task) : Prop :=
  exists processed,
    nts = processed ++ todo t
    /\ Forall2 (handle_matches store) processed (done t ++ pending_list t).

Definition done_total (tasks : list Task) : Z :=
  fold_right (fun t acc => Z.of_nat (length (done t)) + acc) 0 tasks.

Definition handled_total (tasks : list Task) : Z :=
  fold_right
    (fun t acc => Z.of_nat (length (done t ++ pending_list t)) + acc) 0 tasks.

Definition nts_total (ntss : list (list NameType.t)) : Z :=
  fold_right (fun nts acc => Z.of_nat (length nts) + acc) 0 ntss.

Record phase_inv (ntss : list (list NameType.t))
    (s : list MapValue.t * list Task) : Prop := {
  inv_tasks : Forall2 (task_inv (fst s)) ntss (snd s);
  inv_sum : sum_counts (fst s) = done_total (snd s);
  inv_nonneg : Forall (fun v => 0 <= MapValue.count v) (fst s)
}.


(** The compunits that [read_compunits] returns for [two_symbols_ctx]. *)
Definition two_symbols_cus : list Compunit.t :=
  [{| Compunit.offset := 0; Compunit.size := 24;
      Compunit.ranges := [(0x1000, 0x1100)];
      Compunit.nametypes :=
        [{| NameType.name := [x66; x6f; x6f];
            NameType.hash := 4294917781; NameType.type := 0x30 |}];
      Compunit.entries := [] |};
   {| Compunit.offset := 24; Compunit.size := 24;
      Compunit.ranges := [(0x2000, 0x2100)];
      Compunit.nametypes :=
        [{| NameType.name := [x62; x61; x72];
            NameType.hash := 4294898890; NameType.type := 0x30 |};
         {| NameType.name := [x66; x6f; x6f];
            NameType.hash := 4294917781; NameType.type := 0x30 |}];
      Compunit.entries := [] |}].


(** ** Predicates on the contents of the map *)

(** The key of a map value and of a name tuple. *)
Definition key_of (v : MapValue.t) : list byte * Z :=
  (MapValue.name v, MapValue.hash v).

Definition nt_key (nt : NameType.t) : list byte * Z :=
  (NameType.name nt, NameType.hash nt).

Definition key_eq_dec (k1 k2 : list byte * Z) : {k1 = k2} + {k1 <> k2}.
Proof.
  decide equality; [apply Z.eq_dec|apply (list_eq_dec Byte.byte_eq_dec)].
Defined.

(** How often the key [k] occurs among the name tuples [nts]. *)
Definition occurrences (k : list byte * Z) (nts : list NameType.t) : Z :=
  Z.of_nat (count_occ key_eq_dec (map nt_key nts) k).

(** The name tuples whose handle has been counted and pushed, and those
    for which [map.insert] has been called, in a state of the phase. *)
Fixpoint counted (ntss : list (list NameType.t)) (tasks : list Task)
  : list NameType.t :=
  match ntss, tasks with
  | nts :: ntss', t :: tasks' =>
      firstn (length (done t)) nts ++ counted ntss' tasks'
  | _, _ => []
  end.

Fixpoint handled (ntss : list (list NameType.t)) (tasks : list Task)
  : list NameType.t :=
  match ntss, tasks with
  | nts :: ntss', t :: tasks' =>
      firstn (length (done t ++ pending_list t)) nts ++ handled ntss' tasks'
  | _, _ => []
  end.

(** A value of the map during the phase: its offsets are not yet
    assigned, its count is the number of counted tuples with its key, and
    its key is the key of a tuple given to [map.insert]. *)
Definition value_ok (ntss : list (list NameType.t)) (tasks : list Task)
    (v : MapValue.t) : Prop :=
  MapValue.name_offset v = 0
  /\ MapValue.type_offset v = 0
  /\ MapValue.count v = u32 (occurrences (key_of v) (counted ntss tasks))
  /\ In (key_of v) (map nt_key (handled ntss tasks)).

Definition content_inv (ntss : list (list NameType.t))
    (s : list MapValue.t * list Task) : Prop :=
  NoDup (map key_of (fst s)) /\ Forall (value_ok ntss (snd s)) (fst s).

(** The value the map holds for the key [k] once all the name tuples
    [nts] have been inserted. *)
Definition canonical_value (nts : list NameType.t) (k : list byte * Z)
  : MapValue.t :=
  {| MapValue.name := fst k; MapValue.hash := snd k;
     MapValue.count := u32 (occurrences k nts);
     MapValue.name_offset := 0; MapValue.type_offset := 0 |}.


(** ** The layout of the constant pool, on the sorted values *)

(** The offsets that the two assignment loops give to the values of the
    sorted entries, and the running offset after them. *)
Fixpoint type_layout (offset : Z) (vals : list MapValue.t)
  : list MapValue.t * Z :=
  match vals with
  | [] => ([], offset)
  | v :: rest =>
      let '(rest', offset') :=
        type_layout (offset + u32 (u32 (MapValue.count v * 4) + 4)) rest in
      (set_type_offset (u32 offset) v :: rest', offset')
  end.

Fixpoint name_layout (offset : Z) (vals : list MapValue.t)
  : list MapValue.t * Z :=
  match vals with
  | [] => ([], offset)
  | v :: rest =>
      let '(rest', offset') :=
        name_layout (offset + (Z.of_nat (length (MapValue.name v)) + 1)) rest in
      (set_name_offset (u32 offset) v :: rest', offset')
  end.


(** ** Schedules of the insertion phase *)

(** The next atomic action of a task, if it has one. *)
Definition task_step_fn (store : list MapValue.t) (t : Task)
  : option (list MapValue.t * Task) :=
  match pending t, todo t with
  | Some ent, _ =>
      Some (update_at store ent incr_count,
            {| todo := todo t; pending := None; done := done t ++ [ent] |})
  | None, nt :: rest =>
      let '(store', ent, _) :=
        map_insert store (NameType.name nt) (NameType.hash nt) (new_value nt) in
      Some (store', {| todo := rest; pending := Some ent; done := done t |})
  | None, [] => None
  end.

(** A schedule names, step by step, the task that acts next; a task that
    has finished is passed over. *)
Fixpoint run_schedule (sched : list nat) (store : list MapValue.t)
    (tasks : list Task) : list MapValue.t * list Task :=
  match sched with
  | [] => (store, tasks)
  | i :: rest =>
      match nth_error tasks i with
      | Some t =>
          match task_step_fn store t with
          | Some (store', t') =>
              run_schedule rest store'
                (firstn i tasks ++ t' :: skipn (S i) tasks)
          | None => run_schedule rest store tasks
          end
      | None => run_schedule rest store tasks
      end
  end.

(** A schedule for [two_symbols_cus] that lets the second compunit insert
    "bar" before the first compunit inserts "foo". *)
Definition interleaved_schedule : list nat := [1; 1; 0; 0; 1; 1]%nat.

(** The section that [write_gdb_index] emits for [two_symbols_ctx] with
    the cardinality 2. *)
Definition two_symbols_index : list byte :=
  [x07;x00;x00;x00; x18;x00;x00;x00; x38;x00;x00;x00;
   x38;x00;x00;x00; x60;x00;x00;x00; x70;x00;x00;x00;
   x00;x00;x00;x00;x00;x00;x00;x00; x18;x00;x00;x00;x00;x00;x00;x00;
   x18;x00;x00;x00;x00;x00;x00;x00; x18;x00;x00;x00;x00;x00;x00;x00;
   x00;x10;x00;x00;x00;x00;x00;x00; x00;x11;x00;x00;x00;x00;x00;x00;
   x00;x00;x00;x00;
   x00;x20;x00;x00;x00;x00;x00;x00; x00;x21;x00;x00;x00;x00;x00;x00;
   x01;x00;x00;x00;
   x14;x00;x00;x00; x00;x00;x00;x00;
   x18;x00;x00;x00; x08;x00;x00;x00;
   x01;x00;x00;x00; x01;x00;x00;x30;
   x02;x00;x00;x00; x00;x00;x00;x30; x01;x00;x00;x30;
   x62;x61;x72;x00; x66;x6f;x6f;x00].


(** The state in which [interleaved_schedule] leaves the phase. *)
Definition interleaved_state : list MapValue.t * list Task :=
  run_schedule interleaved_schedule [] (map initial_task two_symbols_cus).


(** ** Predicates on buffers *)

(** [buf'] has the length of [buf] and differs from it at most at the
    offsets from [lo] up to, but not including, [hi]. *)
Definition frame (lo hi : Z) (buf buf' : list byte) : Prop :=
  length buf' = length buf
  /\ forall q, q < lo \/ hi <= q -> load_u8 buf' q = load_u8 buf q.

(** The value of a sequence of bytes read as a little-endian integer. *)
Definition le_value (bs : list byte) : Z :=
  fold_right (fun b acc => u8_of_byte b + 256 * acc) 0 bs.


(** ** Predicates on the symbol table *)

(** The slots that the [while] loop of the symbol-table loop visits,
    starting from slot [j]: [probe_seq mask step j i] is the slot it looks
    at in its iteration [i]. *)
Fixpoint probe_seq (mask step j : Z) (i : nat) : Z :=
  match i with
  | O => j
  | S i' => probe_seq mask step (Z.land (u32 (j + step)) mask) i'
  end.

(** The probe sequence of a hash in a table of [ht_size] slots. *)
Definition probe_of (ht_size hash : Z) (i : nat) : Z :=
  let mask := u32 (ht_size - 1) in
  probe_seq mask (Z.lor (Z.land hash mask) 1) (Z.land hash mask) i.

(** Slot [j] of the table at [ht] holds the two words [n] and [t]. *)
Definition slot_holds (buf : list byte) (ht j n t : Z) : Prop :=
  ht_load buf ht (2 * j) = Ok n /\ ht_load buf ht (2 * j + 1) = Ok t.

Definition slot_free (buf : list byte) (ht j : Z) : Prop :=
  slot_holds buf ht j 0 0.

Definition slot_is_free (buf : list byte) (ht : Z) (j : nat) : bool :=
  match ht_load buf ht (2 * Z.of_nat j),
        ht_load buf ht (2 * Z.of_nat j + 1) with
  | Ok n, Ok t => (n =? 0) && (t =? 0)
  | _, _ => false
  end.

(** The number of slots among the first [n] that are not free. *)
Definition occupied_count (buf : list byte) (ht : Z) (n : nat) : nat :=
  length (filter (fun j => negb (slot_is_free buf ht j)) (seq 0 n)).

(** What the symbol-table loop needs of a value: offsets that fit a
    [u32] and are not both zero. *)
Definition placeable (v : MapValue.t) : Prop :=
  0 <= MapValue.name_offset v < 2 ^ 32
  /\ 0 <= MapValue.type_offset v < 2 ^ 32
  /\ (MapValue.name_offset v <> 0 \/ MapValue.type_offset v <> 0).

(** Slot [j] holds the offsets of [v] and is where a reader that probes
    from [v]'s hash finds it: [j] lies on the probe sequence of the hash,
    and no slot before it on that sequence is free. *)
Definition slot_of (buf : list byte) (ht ht_size : Z) (v : MapValue.t)
    (j : Z) : Prop :=
  0 <= j < ht_size
  /\ slot_holds buf ht j (MapValue.name_offset v) (MapValue.type_offset v)
  /\ exists i,
       j = probe_of ht_size (MapValue.hash v) i
       /\ forall i', (i' < i)%nat ->
            ~ slot_free buf ht (probe_of ht_size (MapValue.hash v) i').

(** The table after the values [placed] have been put into it: a slot is
    free or is the slot of a placed value, and every placed value has its
    slot. *)
Definition table_inv (buf : list byte) (ht ht_size : Z)
    (placed : list MapValue.t) : Prop :=
  (forall j, 0 <= j < ht_size ->
     slot_free buf ht j
     \/ exists v, In v placed /\ slot_of buf ht ht_size v j)
  /\ (forall v, In v placed -> exists j, slot_of buf ht ht_size v j).

(** ** Predicates on names *)

(** A name tuple as [read_pubnames] makes it: the name was read as a C
    string, so it holds no NUL, and the hash is [gdb_hash] of the name. *)
Definition nametype_ok (nt : NameType.t) : Prop :=
  NameType.hash nt = gdb_hash (NameType.name nt)
  /\ ~ In x00 (NameType.name nt).

Definition nametypes_ok (cu : Compunit.t) : Prop :=
  Forall nametype_ok (Compunit.nametypes cu).

(** The C string at [p], as a reader of the section takes it: the bytes
    before the first NUL at or after [p]. *)
Definition c_string (buf : list byte) (p : Z) : result (list byte) :=
  n <- strlen buf p ;; Ok (slice buf p n).

(** The bytes [bs] stand at [p]. *)
Definition bytes_at (buf : list byte) (p : Z) (bs : list byte) : Prop :=
  forall i b, nth_error bs i = Some b ->
              load_u8 buf (p + Z.of_nat i) = Ok (u8_of_byte b).


(** ** The size of the section and the layout of the constant pool *)

(** The number of address ranges of all compunits. *)
Definition total_ranges (cus : list Compunit.t) : Z :=
  fold_right (fun cu acc => Z.of_nat (length (Compunit.ranges cu)) + acc)
    0 cus.

(** The bytes that a value takes in the pool of CU vectors (a counter and
    one word per occurrence) and in the pool of names (the name and its
    NUL). *)
Definition types_bytes (v : MapValue.t) : Z := MapValue.count v * 4 + 4.

Definition name_bytes (v : MapValue.t) : Z :=
  Z.of_nat (length (MapValue.name v)) + 1.

Definition types_size (vals : list MapValue.t) : Z :=
  fold_right (fun v acc => types_bytes v + acc) 0 vals.

Definition names_size (vals : list MapValue.t) : Z :=
  fold_right (fun v acc => name_bytes v + acc) 0 vals.

(** The size of the section for the compunits [cus] and the map [store],
    as a number: header, CU list, address areas, symbol table, CU vectors
    and names.  The code computes it in [u32] and [i64] fields. *)
Definition index_size (cus : list Compunit.t) (store : list MapValue.t)
    (card : Z) : Z :=
  sizeof_hdr + Z.of_nat (length cus) * 16 + total_ranges cus * 20
  + ht_size_of card * 8
  + (total_nametypes cus * 4 + Z.of_nat (length store) * 4)
  + names_size store.

(** The values [vals] lie one after the other from [lo] on: [get] is the
    offset of a value and [bytes] the room it takes. *)
Fixpoint packed (get bytes : MapValue.t -> Z) (lo : Z)
    (vals : list MapValue.t) : Prop :=
  match vals with
  | [] => True
  | v :: rest => get v = lo /\ packed get bytes (lo + bytes v) rest
  end.


(** The bytes of [buf] from [lo] up to, but not including, [hi] are zero. *)
Definition zeros (lo hi : Z) (buf : list byte) : Prop :=
  forall q, lo <= q < hi -> load_u8 buf q = Ok 0.


(** ** What a reader finds in the symbol table *)

(** Slot [j] of the table at [ht] is the slot of the map value [v]: it is
    occupied, the C string at its name offset in the constant pool at
    [pool] is the name of [v], [gdb_hash] of that name is the hash of [v],
    and the probe sequence of that hash reaches [j] without passing a free
    slot. *)
Definition entry_at (buf : list byte) (ht pool ht_size : Z) (v : MapValue.t)
    (j : Z) : Prop :=
  exists n t i,
    slot_holds buf ht j n t
    /\ ~ slot_free buf ht j
    /\ c_string buf (pool + n) = Ok (MapValue.name v)
    /\ gdb_hash (MapValue.name v) = MapValue.hash v
    /\ j = probe_of ht_size (MapValue.hash v) i
    /\ forall i', (i' < i)%nat ->
         ~ slot_free buf ht (probe_of ht_size (MapValue.hash v) i').

(** Every slot of the table is free or the slot of a value of the map, and
    every value of the map has its slot. *)
Definition symtab_ok (buf : list byte) (ht pool ht_size : Z)
    (store : list MapValue.t) : Prop :=
  (forall j, 0 <= j < ht_size ->
     slot_free buf ht j
     \/ exists v, In v store /\ entry_at buf ht pool ht_size v j)
  /\ (forall v, In v store ->
        exists j, 0 <= j < ht_size /\ entry_at buf ht pool ht_size v j).


(** ** Predicates used in the proofs *)

(** The low end of a range is a [u64]. *)
Definition lo_nonneg (p : Z * Z) : Prop := 0 <= fst p.

(** What the filter of [read_compunits] leaves. *)
Definition range_kept (p : Z * Z) : Prop := 0 < fst p /\ fst p <> snd p.

Definition ranges_kept (cu : Compunit.t) : Prop :=
  Forall range_kept (Compunit.ranges cu).

(** Two compunits differ at most in their [entries]. *)
Definition cu_agree (cu1 cu2 : Compunit.t) : Prop :=
  Compunit.offset cu1 = Compunit.offset cu2
  /\ Compunit.size cu1 = Compunit.size cu2
  /\ Compunit.ranges cu1 = Compunit.ranges cu2
  /\ Compunit.nametypes cu1 = Compunit.nametypes cu2.

(** "Not greater", for a comparison [ltb]. *)
Definition leb_of {A : Type} (ltb : A -> A -> bool) (a b : A) : Prop :=
  ltb b a = false.

Definition NameType_lt (a b : NameType.t) : Prop := NameType_ltb a b = true.

(** What an assignment loop leaves of a value apart from the offset. *)
Definition same_but_type_offset (v v' : MapValue.t) : Prop :=
  v' = set_type_offset (MapValue.type_offset v') v.

Definition same_but_name_offset (v v' : MapValue.t) : Prop :=
  v' = set_name_offset (MapValue.name_offset v') v.

(** The table of [ht_size] slots at [ht] lies inside the buffer. *)
Definition table_in (ht ht_size : Z) (buf : list byte) : Prop :=
  0 <= ht /\ ht + 8 * ht_size <= Z.of_nat (length buf).

(** The counter at the head of the CU vector of each handle [h], in the
    pool at [base], holds [seen h]. *)
Definition counters (store : list MapValue.t) (base : Z) (buf : list byte)
    (seen : nat -> nat) : Prop :=
  forall h, (h < length store)%nat ->
    load_ul32 buf (base + MapValue.type_offset (deref store h))
    = Ok (Z.of_nat (seen h)).

(** ** Predicates on the name tuples, for the further properties *)

(** A name tuple as [read_pubnames] makes it: a NUL-free name, its
    [gdb_hash], and a type that is one byte. *)
Definition nametype_read (nt : NameType.t) : Prop :=
  NameType.hash nt = gdb_hash (NameType.name nt)
  /\ ~ In x00 (NameType.name nt)
  /\ 0 <= NameType.type nt < 256.


(** The name tuple of "foo" and the second compunit of
    [two_symbols_cus]. *)
Definition tuple_foo : NameType.t :=
  {| NameType.name := [x66; x6f; x6f];
     NameType.hash := 4294917781; NameType.type := 0x30 |}.

Definition tuple_bar : NameType.t :=
  {| NameType.name := [x62; x61; x72];
     NameType.hash := 4294898890; NameType.type := 0x30 |}.

Definition two_symbols_cu1 : Compunit.t :=
  {| Compunit.offset := 24; Compunit.size := 24;
     Compunit.ranges := [(0x2000, 0x2100)];
     Compunit.nametypes := [tuple_bar; tuple_foo];
     Compunit.entries := [] |}.


(** The compunit [cu'] is [cu] with name tuples appended. *)
Definition cu_extends (cu cu' : Compunit.t) : Prop :=
  Compunit.offset cu' = Compunit.offset cu
  /\ Compunit.size cu' = Compunit.size cu
  /\ Compunit.ranges cu' = Compunit.ranges cu
  /\ Compunit.entries cu' = Compunit.entries cu
  /\ exists added, Compunit.nametypes cu' = Compunit.nametypes cu ++ added.



(** The object file that contributes "foo" to the first compunit. *)
Definition pubnames_file0 : ObjectFile :=
  {| debug_info_offset := 0;
     debug_pubnames := Some pubnames_foo;
     debug_pubtypes := None |}.


(** ** The phases of the emission *)

(** [emit_gdb_index] phase by phase, when no offset wraps around: [store2]
    is the map after the two assignment loops, [b0] the zeroed buffer,
    [b1] ... [b5] the buffer after the header, the CU list, the address
    areas, the symbol table and the CU vectors, and [buf] the finished
    section.  Each phase writes only to its own part of the section. *)
Record emission (cus : list Compunit.t) (store : list MapValue.t)
    (scan : list nat) (card : Z) (store2 : list MapValue.t)
    (b0 b1 b2 b3 b4 b5 buf : list byte) : Prop := {
  em_cu_types :
    cu_types_offset (compute_header cus card)
    = sizeof_hdr + Z.of_nat (length cus) * 16;
  em_symtab_offset :
    symtab_offset (compute_header cus card)
    = sizeof_hdr + Z.of_nat (length cus) * 16 + total_ranges cus * 20;
  em_pool_offset :
    const_pool_offset (compute_header cus card)
    = sizeof_hdr + Z.of_nat (length cus) * 16 + total_ranges cus * 20
      + ht_size_of card * 8;
  em_size :
    Z.of_nat (length buf)
    = const_pool_offset (compute_header cus card)
      + types_size store + names_size store;
  em_store2 : length store2 = length store;
  em_values :
    forall e, In e (sort_entries store scan) ->
      exists x y,
        deref store2 e = set_name_offset y (set_type_offset x (deref store e));
  em_types_packed :
    packed MapValue.type_offset types_bytes 0
      (map (deref store2) (sort_entries store scan));
  em_names_packed :
    packed MapValue.name_offset name_bytes (types_size store)
      (map (deref store2) (sort_entries store scan));
  em_b0 : b0 = repeat x00 (length buf);
  em_header : emit_header b0 (compute_header cus card) = Ok b1;
  em_cu_list :
    emit_cu_list b1 sizeof_hdr cus
    = Ok (b2, cu_types_offset (compute_header cus card));
  em_areas :
    emit_address_areas b2 (cu_types_offset (compute_header cus card)) 0 cus
    = Ok (b3, symtab_offset (compute_header cus card));
  em_symtab :
    emit_symtab b3 (symtab_offset (compute_header cus card))
      (ht_size_of card) store2 (sort_entries store scan) = Ok b4;
  em_types :
    emit_types b4 (const_pool_offset (compute_header cus card)) 0 store2 cus
    = Ok b5;
  em_names :
    emit_names b5 (const_pool_offset (compute_header cus card)) store2
      (sort_entries store scan) = Ok buf;
  em_frame1 : frame 0 sizeof_hdr b0 b1;
  em_frame2 :
    frame sizeof_hdr (cu_types_offset (compute_header cus card)) b1 b2;
  em_frame3 :
    frame (cu_types_offset (compute_header cus card))
      (symtab_offset (compute_header cus card)) b2 b3;
  em_frame4 :
    frame (symtab_offset (compute_header cus card))
      (const_pool_offset (compute_header cus card)) b3 b4;
  em_frame5 :
    frame (const_pool_offset (compute_header cus card))
      (const_pool_offset (compute_header cus card) + types_size store) b4 b5;
  em_frame6 :
    frame (const_pool_offset (compute_header cus card) + types_size store)
      (Z.of_nat (length buf)) b5 buf;
  em_counts : Forall (fun v => 0 <= MapValue.count v) store;
  em_nodup : NoDup (sort_entries store scan);
  em_valid :
    Forall (fun h => (h < length store)%nat) (sort_entries store scan);
  em_all :
    forall h, (h < length store)%nat -> In h (sort_entries store scan);
  em_zeros :
    zeros (const_pool_offset (compute_header cus card))
      (Z.of_nat (length buf)) b4;
  em_table :
    table_inv b4 (symtab_offset (compute_header cus card)) (ht_size_of card)
      (map (deref store2) (sort_entries store scan));
  em_placeable :
    Forall placeable (map (deref store2) (sort_entries store scan))
}.


(** A [ul64] read back. *)
Definition load_ul64 (buf : list byte) (p : Z) : result Z := load_le buf p 8.


(** The address areas in the order in which they are written: the ranges
    of compunit [i], each with the index [i], then those of compunit
    [i + 1], and so on. *)
Fixpoint address_areas (i : Z) (cus : list Compunit.t) : list (Z * Z * Z) :=
  match cus with
  | [] => []
  | cu :: rest =>
      map (fun r => (fst r, snd r, i)) (Compunit.ranges cu)
      ++ address_areas (i + 1) rest
  end.


(** ** The CU vector of a symbol *)

(** The word that "Write types" stores for a name tuple of compunit [i]:
    [(type << 24) | i], assigned to a [ul32]. *)
Definition cu_word (nt : NameType.t) (i : Z) : Z :=
  u32 (Z.lor (Z.shiftl (NameType.type nt) 24) i).

(** The words of the name tuples with the key [key], in the order of the
    compunits and, within a compunit, of its name tuples; [i] is the index
    of the first compunit of [cus]. *)
Definition key_words (key : list byte * Z) (i : Z) (nts : list NameType.t)
  : list Z :=
  flat_map
    (fun nt => if key_eq_dec (nt_key nt) key then [cu_word nt i] else [])
    nts.

Fixpoint key_vector (key : list byte * Z) (i : Z) (cus : list Compunit.t)
  : list Z :=
  match cus with
  | [] => []
  | cu :: rest =>
      key_words key i (Compunit.nametypes cu) ++ key_vector key (i + 1) rest
  end.

(** The same through the handles: the words of the positions at which the
    entries of the compunits hold the handle [h]. *)
Fixpoint handle_words (h : nat) (i : Z) (nts : list NameType.t)
    (es : list nat) : list Z :=
  match nts, es with
  | nt :: nts', e :: es' =>
      (if Nat.eq_dec e h then [cu_word nt i] else [])
      ++ handle_words h i nts' es'
  | _, _ => []
  end.

Fixpoint handle_vector (h : nat) (i : Z) (cus : list Compunit.t) : list Z :=
  match cus with
  | [] => []
  | cu :: rest =>
      handle_words h i (Compunit.nametypes cu) (Compunit.entries cu)
      ++ handle_vector h (i + 1) rest
  end.

(** The CU vector of each handle [h], in the pool at [base], is
    [seen h]: its length and then its words. *)
Definition vectors (store : list MapValue.t) (base : Z) (buf : list byte)
    (seen : nat -> list Z) : Prop :=
  forall h, (h < length store)%nat ->
    load_ul32 buf (base + MapValue.type_offset (deref store h))
    = Ok (Z.of_nat (length (seen h)))
    /\ forall k w, nth_error (seen h) k = Some w ->
         load_ul32 buf
           (base + MapValue.type_offset (deref store h) + 4
            + 4 * Z.of_nat k) = Ok w.


(** ** The object files in another order *)

(** The context [ctx] with the object files [files] in place of its
    own. *)
Definition with_objs (ctx : Context) (files : list ObjectFile) : Context :=
  {| debug_info := debug_info ctx;
     debug_abbrev := debug_abbrev ctx;
     debug_ranges := debug_ranges ctx;
     debug_addr := debug_addr ctx;
     debug_rnglists := debug_rnglists ctx;
     objs := files |}.

(** The pushes [adds], each the index of a compunit and a tuple, done one
    after the other. *)
Definition push_all (cus : list Compunit.t)
    (adds : list (nat * NameType.t)) : list Compunit.t :=
  fold_left (fun c a => push_nametype c (fst a) (snd a)) adds cus.

(** The same compunit but for the order of its name tuples. *)
Definition same_but_order (cu cu' : Compunit.t) : Prop :=
  Compunit.offset cu' = Compunit.offset cu
  /\ Compunit.size cu' = Compunit.size cu
  /\ Compunit.ranges cu' = Compunit.ranges cu
  /\ Compunit.entries cu' = Compunit.entries cu
  /\ Permutation (Compunit.nametypes cu) (Compunit.nametypes cu').


(** Two runs of a loop of [read_pubnames], one from [cus] and one from
    [cus2]: both return and have done the same pushes, or neither
    returns. *)
Definition same_pushes (r r2 : result (list Compunit.t))
    (cus cus2 : list Compunit.t) : Prop :=
  match r, r2 with
  | Ok c, Ok c2 =>
      exists adds, c = push_all cus adds /\ c2 = push_all cus2 adds
  | Ok _, _ => False
  | _, Ok _ => False
  | _, _ => True
  end.


(** * Properties *)

(** ** Machine integers *)

Lemma u8_of_byte_range (b : byte) : 0 <= u8_of_byte b < 256.
Proof.
  unfold u8_of_byte. pose proof (Byte.to_N_bounded b) as H.
  split; [apply N2Z.is_nonneg|]. apply N.lt_succ_r in H. lia.
Qed.

Lemma u32_range (x : Z) : 0 <= u32 x < 2 ^ 32.
Proof. apply Z.mod_pos_bound. lia. Qed.

Lemma u64_range (x : Z) : 0 <= u64 x < 2 ^ 64.
Proof. apply Z.mod_pos_bound. lia. Qed.

Lemma u32_small (x : Z) : 0 <= x < 2 ^ 32 -> u32 x = x.
Proof. intros H. apply Z.mod_small. exact H. Qed.

Lemma u64_small (x : Z) : 0 <= x < 2 ^ 64 -> u64 x = x.
Proof. intros H. apply Z.mod_small. exact H. Qed.

(** ** [gdb_hash] *)

Lemma gdb_hash_step_reference (h : Z) (b : byte) :
  gdb_hash_step h b = gdb_hash_reference_step h b.
Proof.
  unfold gdb_hash_step, gdb_hash_reference_step, u32.
  pose proof (u8_of_byte_range b) as Hb.
  set (c := u8_of_byte b) in *.
  assert (Hc : (if (65 <=? c) && (c <=? 90) then u8 (97 + c - 65) else c)
               = (if (65 <=? c) && (c <=? 90) then c + 32 else c)).
  { destruct ((65 <=? c) && (c <=? 90)) eqn:E; [|reflexivity].
    apply andb_true_iff in E. destruct E as [E1 E2].
    apply Z.leb_le in E1. apply Z.leb_le in E2.
    unfold u8. rewrite Z.mod_small by lia. lia. }
  cbv zeta. rewrite Hc.
  set (c' := if (65 <=? c) && (c <=? 90) then c + 32 else c).
  rewrite Zplus_mod_idemp_l. rewrite Zminus_mod_idemp_l. reflexivity.
Qed.

Lemma fold_left_ext_step {A B : Type} (f g : A -> B -> A) :
  (forall a b, f a b = g a b) ->
  forall l a, fold_left f l a = fold_left g l a.
Proof.
  intros H l. induction l as [|x l IH]; intros a; simpl; [reflexivity|].
  rewrite H. apply IH.
Qed.

Lemma gdb_hash_step_tolower (h : Z) (b : byte) :
  gdb_hash_step h (ascii_tolower b) = gdb_hash_step h b.
Proof. revert h. destruct b; intros h; reflexivity. Qed.

Lemma gdb_hash_step_toupper (h : Z) (b : byte) :
  gdb_hash_step h (ascii_toupper b) = gdb_hash_step h b.
Proof. revert h. destruct b; intros h; reflexivity. Qed.

Lemma fold_gdb_hash_map (f : byte -> byte) :
  (forall h b, gdb_hash_step h (f b) = gdb_hash_step h b) ->
  forall name h,
    fold_left gdb_hash_step (map f name) h = fold_left gdb_hash_step name h.
Proof.
  intros Hf name. induction name as [|b name IH]; intros h; simpl.
  - reflexivity.
  - rewrite Hf. apply IH.
Qed.

Lemma gdb_hash_range (name : list byte) : 0 <= gdb_hash name < 2 ^ 32.
Proof.
  unfold gdb_hash.
  assert (H : forall l h, 0 <= h < 2 ^ 32 ->
                          0 <= fold_left gdb_hash_step l h < 2 ^ 32).
  { induction l as [|b l IH]; intros h Hh; simpl; [exact Hh|].
    apply IH. unfold gdb_hash_step. apply u32_range. }
  apply H. lia.
Qed.

(** C4: [gdb_hash] is the reference fold of the specification on every
    byte sequence; it does not distinguish ASCII upper case from lower
    case; and it gives "Foo", "foo" and "FOO" the same hash. *)
Theorem gdb_hash_refines_reference :
  (forall name, gdb_hash name = gdb_hash_reference name) /\
  (forall name, gdb_hash (map ascii_tolower name) = gdb_hash name) /\
  (forall name, gdb_hash (map ascii_toupper name) = gdb_hash name) /\
  gdb_hash (list_byte_of_string "Foo") = gdb_hash (list_byte_of_string "foo") /\
  gdb_hash (list_byte_of_string "foo") = gdb_hash (list_byte_of_string "FOO").
Proof.
  split; [|split; [|split; [|split]]].
  - intros name. unfold gdb_hash, gdb_hash_reference.
    apply fold_left_ext_step. exact gdb_hash_step_reference.
  - intros name. unfold gdb_hash.
    apply fold_gdb_hash_map. exact gdb_hash_step_tolower.
  - intros name. unfold gdb_hash.
    apply fold_gdb_hash_map. exact gdb_hash_step_toupper.
  - vm_compute. reflexivity.
  - vm_compute. reflexivity.
Qed.

(** ** Loads *)

Lemma bind_Ok {A B : Type} (r : result A) (k : A -> result B) (b : B) :
  bind r k = Ok b -> exists a, r = Ok a /\ k a = Ok b.
Proof.
  destruct r as [a| | | |]; simpl; intros H; try discriminate.
  exists a. split; [reflexivity|exact H].
Qed.

Lemma Ok_inj {A : Type} (a b : A) : Ok a = Ok b -> a = b.
Proof. intros H. congruence. Qed.

Lemma load_u8_Ok (buf : list byte) (p v : Z) :
  load_u8 buf p = Ok v ->
  0 <= p < Z.of_nat (length buf) /\ 0 <= v < 256.
Proof.
  unfold load_u8. destruct (p <? 0) eqn:Hp; [discriminate|].
  apply Z.ltb_ge in Hp.
  destruct (nth_error buf (Z.to_nat p)) as [b|] eqn:Hn; [|discriminate].
  intros H. injection H as <-.
  assert (Hlt : (Z.to_nat p < length buf)%nat).
  { apply nth_error_Some. rewrite Hn. discriminate. }
  split; [lia|apply u8_of_byte_range].
Qed.

Lemma load_u8_out (buf : list byte) (p : Z) :
  Z.of_nat (length buf) <= p -> load_u8 buf p = Undefined.
Proof.
  intros H. unfold load_u8. destruct (p <? 0) eqn:Hp; [reflexivity|].
  apply Z.ltb_ge in Hp.
  assert (Hn : nth_error buf (Z.to_nat p) = None).
  { apply nth_error_None. lia. }
  rewrite Hn. reflexivity.
Qed.

Lemma load_le_Ok (buf : list byte) (n : nat) :
  forall p v, load_le buf p n = Ok v ->
    0 <= v < 256 ^ Z.of_nat n
    /\ (n <> O -> 0 <= p /\ p + Z.of_nat n <= Z.of_nat (length buf)).
Proof.
  induction n as [|n IH]; intros p v H.
  - simpl in H. injection H as <-. split; [simpl; lia|congruence].
  - cbn [load_le] in H.
    apply bind_Ok in H. destruct H as [b [Hb H]].
    apply bind_Ok in H. destruct H as [r [Hr H]].
    apply Ok_inj in H. subst v.
    apply load_u8_Ok in Hb. destruct Hb as [Hp Hb].
    apply IH in Hr. destruct Hr as [Hr Hbound].
    rewrite Nat2Z.inj_succ, Z.pow_succ_r by lia.
    split; [lia|]. intros _.
    destruct n as [|n']; [simpl in *; lia|].
    assert (Hn : S n' <> O) by discriminate.
    specialize (Hbound Hn). lia.
Qed.

Lemma load_be_Ok (buf : list byte) (n : nat) :
  forall p acc v, load_be buf p n acc = Ok v ->
    (0 <= acc -> acc * 256 ^ Z.of_nat n <= v < (acc + 1) * 256 ^ Z.of_nat n)
    /\ (n <> O -> 0 <= p /\ p + Z.of_nat n <= Z.of_nat (length buf)).
Proof.
  induction n as [|n IH]; intros p acc v H.
  - simpl in H. injection H as <-. split; [simpl; lia|congruence].
  - cbn [load_be] in H.
    apply bind_Ok in H. destruct H as [b [Hb H]].
    apply load_u8_Ok in Hb. destruct Hb as [Hp Hb].
    apply IH in H. destruct H as [Hr Hbound].
    rewrite Nat2Z.inj_succ, Z.pow_succ_r by lia.
    split.
    + intros Hacc.
      assert (H0 : 0 <= acc * 256 + b) by lia.
      specialize (Hr H0).
      assert (Hpow : 0 < 256 ^ Z.of_nat n) by (apply Z.pow_pos_nonneg; lia).
      nia.
    + intros _. destruct n as [|n']; [simpl in *; lia|].
      assert (Hn : S n' <> O) by discriminate.
      specialize (Hbound Hn). lia.
Qed.

Lemma load_uint_Ok (E : Target) (buf : list byte) (p : Z) (n : nat) (v : Z) :
  load_uint E buf p n = Ok v ->
  0 <= v < 256 ^ Z.of_nat n
  /\ (n <> O -> 0 <= p /\ p + Z.of_nat n <= Z.of_nat (length buf)).
Proof.
  unfold load_uint. destruct (is_le E).
  - apply load_le_Ok.
  - intros H. apply load_be_Ok in H. destruct H as [Hr Hb].
    split; [|exact Hb]. specialize (Hr (Z.le_refl 0)). lia.
Qed.

Lemma sizeof_Word_cases (E : Target) :
  (sizeof_Word E = 8 /\ is_64 E = true) \/ (sizeof_Word E = 4 /\ is_64 E = false).
Proof. unfold sizeof_Word. destruct (is_64 E); [left|right]; auto. Qed.

Lemma load_Word_Ok (E : Target) (buf : list byte) (p v : Z) :
  load_Word E buf p = Ok v ->
  0 <= v < 2 ^ (8 * sizeof_Word E)
  /\ 0 <= p /\ p + sizeof_Word E <= Z.of_nat (length buf).
Proof.
  unfold load_Word. intros H. apply load_uint_Ok in H.
  destruct H as [Hv Hb].
  destruct (sizeof_Word_cases E) as [[Hs _]|[Hs _]]; rewrite Hs in *;
    simpl in Hv, Hb; (split; [simpl; lia|apply Hb; discriminate]).
Qed.

Lemma load_Word_u64 (E : Target) (buf : list byte) (p v : Z) :
  load_Word E buf p = Ok v -> 0 <= v < 2 ^ 64.
Proof.
  intros H. apply load_Word_Ok in H. destruct H as [Hv _].
  destruct (sizeof_Word_cases E) as [[Hs _]|[Hs _]]; rewrite Hs in Hv;
    simpl in Hv; lia.
Qed.

(** ** [read_debug_range] *)

Lemma word_wrap_succ_zero (E : Target) (lo : Z) :
  0 <= lo < 2 ^ (8 * sizeof_Word E) ->
  (word_wrap E (lo + 1) =? 0) = (lo =? all_ones E).
Proof.
  intros Hlo. unfold word_wrap, all_ones, u64, u32.
  destruct (sizeof_Word_cases E) as [[Hs H64]|[Hs H64]];
    rewrite Hs in *; rewrite H64; simpl in Hlo |- *.
  - destruct (Z.eqb_spec lo 18446744073709551615) as [->|Hne].
    + reflexivity.
    + rewrite Z.mod_small by lia. apply Z.eqb_neq. lia.
  - destruct (Z.eqb_spec lo 4294967295) as [->|Hne].
    + reflexivity.
    + rewrite Z.mod_small by lia. apply Z.eqb_neq. lia.
Qed.

Lemma pairs_at_bound (E : Target) (buf : list byte) (pairs : list (Z * Z)) :
  forall p, pairs_at E buf p pairs -> pairs <> [] ->
    0 <= p /\ p + 2 * sizeof_Word E * Z.of_nat (length pairs)
              <= Z.of_nat (length buf).
Proof.
  induction pairs as [|[lo hi] rest IH]; intros p H Hne; [congruence|].
  cbn [pairs_at] in H. destruct H as [Hlo [Hhi Hrest]].
  apply load_Word_Ok in Hlo. apply load_Word_Ok in Hhi.
  pose proof (sizeof_Word_cases E) as Hs.
  destruct rest as [|q rest'].
  - change (Z.of_nat (length [(lo, hi)])) with 1. lia.
  - assert (Hq : q :: rest' <> []) by discriminate.
    specialize (IH _ Hrest Hq).
    change (length ((lo, hi) :: q :: rest')) with (S (length (q :: rest'))).
    rewrite Nat2Z.inj_succ. lia.
Qed.

Lemma read_debug_range_loop_reference (E : Target) (buf : list byte)
    (range : Z) (pairs : list (Z * Z)) :
  forall fuel i base vec,
    pairs_at E buf (range + i * sizeof_Word E) pairs ->
    In (0, 0) pairs ->
    (length pairs <= fuel)%nat ->
    read_debug_range_loop fuel E buf range i base vec
    = Ok (vec ++ debug_range_reference E pairs base).
Proof.
  induction pairs as [|[lo hi] rest IH]; intros fuel i base vec Hat Hin Hfuel.
  - destruct Hin.
  - destruct fuel as [|fuel]; [simpl in Hfuel; lia|].
    cbn [pairs_at] in Hat. destruct Hat as [Hlo [Hhi Hrest]].
    cbn [read_debug_range_loop debug_range_reference].
    replace (range + (i + 1) * sizeof_Word E)
      with (range + i * sizeof_Word E + sizeof_Word E) by lia.
    rewrite Hlo, Hhi. cbn [bind].
    destruct ((lo =? 0) && (hi =? 0)) eqn:Hz.
    + rewrite app_nil_r. reflexivity.
    + assert (Hin' : In (0, 0) rest).
      { destruct Hin as [Heq|Hin]; [|exact Hin].
        injection Heq as -> ->. discriminate. }
      assert (Hrest' : pairs_at E buf (range + (i + 2) * sizeof_Word E) rest).
      { replace (range + (i + 2) * sizeof_Word E)
          with (range + i * sizeof_Word E + 2 * sizeof_Word E) by lia.
        exact Hrest. }
      assert (Hf : (length rest <= fuel)%nat) by (simpl in Hfuel; lia).
      apply load_Word_Ok in Hlo. destruct Hlo as [Hlo _].
      rewrite (word_wrap_succ_zero E lo Hlo).
      destruct (lo =? all_ones E).
      * apply IH; assumption.
      * rewrite (IH fuel (i + 2) base _ Hrest' Hin' Hf).
        rewrite <- app_assoc. reflexivity.
Qed.

(** C6: when [.debug_ranges] holds, from [range] on, a sequence of word
    pairs that contains the pair (0,0), [read_debug_range] returns what the
    specification's iteration gives: it stops at the first pair with both
    values zero, a pair whose low word is all ones sets the base to its
    high word and emits nothing, and any other pair emits
    (lo + base, hi + base) in [u64] arithmetic.  On the list
    (0x10,0x20), (~0,0x1000), (0x0,0x8), (0,0) with base 0x100 that
    iteration gives (0x110,0x120), (0x1000,0x1008). *)
Theorem read_debug_range_reference (E : Target) (buf : list byte)
    (range base : Z) (pairs : list (Z * Z)) :
  pairs_at E buf range pairs ->
  In (0, 0) pairs ->
  read_debug_range E buf range base
  = Ok (debug_range_reference E pairs base)
  /\ debug_range_reference E
       [(0x10, 0x20); (all_ones E, 0x1000); (0x0, 0x8); (0, 0)] 0x100
     = [(0x110, 0x120); (0x1000, 0x1008)].
Proof.
  intros Hat Hin. split.
  - unfold read_debug_range.
    assert (Hne : pairs <> []) by (intros ->; destruct Hin).
    pose proof (pairs_at_bound E buf pairs range Hat Hne) as Hb.
    pose proof (sizeof_Word_cases E) as Hs.
    rewrite (read_debug_range_loop_reference E buf range pairs
               (S (length buf)) 0 base []).
    + reflexivity.
    + replace (range + 0 * sizeof_Word E) with range by lia. exact Hat.
    + exact Hin.
    + nia.
  - destruct E as [[|] le]; vm_compute; reflexivity.
Qed.

(** The list of scenario 4 of the specification, read from a section of a
    64-bit little-endian target with base [low_pc = 0x100]. *)
Lemma read_debug_range_example :
  (pairs_at X86_64 example_debug_ranges 0 example_range_pairs
   /\ In (0, 0) example_range_pairs)
  /\ read_debug_range X86_64 example_debug_ranges 0 0x100
     = Ok [(0x110, 0x120); (0x1000, 0x1008)].
Proof.
  assert (Hat : pairs_at X86_64 example_debug_ranges 0 example_range_pairs).
  { vm_compute. repeat split. }
  assert (Hin : In (0, 0) example_range_pairs).
  { vm_compute. tauto. }
  split; [split; assumption|].
  exact (proj1 (read_debug_range_reference X86_64 example_debug_ranges 0
                  0x100 example_range_pairs Hat Hin)).
Defined.

(** ** [read_uleb] *)

Lemma read_uleb_loop_advances (buf : list byte) :
  forall fuel p val shift v p',
    read_uleb_loop fuel buf p val shift = Ok (v, p') ->
    p < p' <= Z.of_nat (length buf) /\ 0 <= v < 2 ^ 64.
Proof.
  induction fuel as [|fuel IH]; intros p val shift v p' H; [discriminate|].
  cbn [read_uleb_loop] in H.
  apply bind_Ok in H. destruct H as [b [Hb H]].
  apply load_u8_Ok in Hb. destruct Hb as [Hp _].
  destruct (Z.land b 127 =? 0) eqn:Hz; cbv zeta in H.
  - destruct (Z.land b 128 =? 0).
    + apply Ok_inj in H. injection H as <- <-.
      split; [lia|apply u64_range].
    + apply IH in H. lia.
  - destruct (Z.land b 128 =? 0).
    + apply Ok_inj in H. injection H as <- <-.
      split; [lia|apply u64_range].
    + apply IH in H. lia.
Qed.

Lemma read_uleb_advances (buf : list byte) (p v p' : Z) :
  read_uleb buf p = Ok (v, p') ->
  p < p' <= Z.of_nat (length buf) /\ 0 <= v < 2 ^ 64.
Proof. apply read_uleb_loop_advances. Qed.

(** ** [read_rnglist_range] *)

Section RnglistFuel.

Variable E : Target.
Variable ctx : Context.
Variable addrx : option Z.

Let len : Z := Z.of_nat (length (debug_rnglists ctx)).

Ltac uleb_step H :=
  match type of H with
  | read_uleb _ _ = Ok (_, _) => apply read_uleb_advances in H
  end.

(** The decoder consumes at least one byte per iteration, so any two
    amounts of fuel beyond the number of bytes left give the same
    result. *)
Lemma read_rnglist_range_loop_fuel :
  forall fuel1 fuel2 vec rnglist base,
    Z.max 0 (len - rnglist) < Z.of_nat fuel1 ->
    Z.max 0 (len - rnglist) < Z.of_nat fuel2 ->
    read_rnglist_range_loop fuel1 E ctx vec rnglist addrx base
    = read_rnglist_range_loop fuel2 E ctx vec rnglist addrx base.
Proof.
  induction fuel1 as [|fuel1 IH]; intros fuel2 vec rnglist base H1 H2;
    [lia|].
  destruct fuel2 as [|fuel2]; [lia|].
  cbn [read_rnglist_range_loop].
  destruct (load_u8 (debug_rnglists ctx) rnglist) as [kind| | | |] eqn:Hk;
    try reflexivity.
  apply load_u8_Ok in Hk. destruct Hk as [Hp _].
  pose proof (sizeof_Word_cases E) as Hs.
  cbn [bind]. cbv zeta.
  repeat
    match goal with
    | |- (if ?c then _ else _) = (if ?c then _ else _) =>
        destruct c; [|]
    | |- Ok _ = Ok _ => reflexivity
    | |- bind ?r _ = bind ?r _ =>
        let H := fresh "Hr" in
        destruct r as [[? ?]| | | |] eqn:H;
        cbn [bind]; try reflexivity; try uleb_step H
    | |- bind ?r _ = bind ?r _ =>
        let H := fresh "Hr" in
        destruct r as [?| | | |] eqn:H;
        cbn [bind]; try reflexivity
    | |- read_rnglist_range_loop fuel1 _ _ _ _ _ _
         = read_rnglist_range_loop fuel2 _ _ _ _ _ _ =>
        apply IH; unfold len in *; lia
    end.
Qed.

End RnglistFuel.

(** C10: in [read_rnglist_range], an entry byte that is none of the eight
    [DW_RLE] kinds is neither fatal nor the end of the decoding: the
    iteration that reads it changes neither the ranges emitted so far nor
    the base, skips no payload, and decoding goes on with the byte that
    follows as the next entry kind; the decoder's result from the unknown
    byte on is its result from the next byte on. *)
Theorem read_rnglist_range_unknown_kind (E : Target) (ctx : Context)
    (vec : list (Z * Z)) (rnglist : Z) (addrx : option Z) (base : Z)
    (kind : Z) :
  load_u8 (debug_rnglists ctx) rnglist = Ok kind ->
  ~ In kind DW_RLE_kinds ->
  (forall fuel,
     read_rnglist_range_loop (S fuel) E ctx vec rnglist addrx base
     = read_rnglist_range_loop fuel E ctx vec (rnglist + 1) addrx base)
  /\ read_rnglist_range E ctx vec rnglist addrx base
     = read_rnglist_range E ctx vec (rnglist + 1) addrx base.
Proof.
  intros Hk Hnot.
  assert (Hstep : forall fuel,
    read_rnglist_range_loop (S fuel) E ctx vec rnglist addrx base
    = read_rnglist_range_loop fuel E ctx vec (rnglist + 1) addrx base).
  { intros fuel. cbn [read_rnglist_range_loop]. rewrite Hk. cbn [bind].
    cbv zeta.
    repeat
      match goal with
      | |- (if kind =? ?c then _ else _) = _ =>
          destruct (Z.eqb_spec kind c) as [Heq|_];
          [exfalso; apply Hnot; rewrite Heq; unfold DW_RLE_kinds;
           cbn [In]; tauto|]
      end.
    reflexivity. }
  split; [exact Hstep|].
  unfold read_rnglist_range. rewrite Hstep.
  apply load_u8_Ok in Hk. destruct Hk as [Hp _].
  apply read_rnglist_range_loop_fuel; lia.
Qed.

(** The byte 0x2a before an [offset_pair] entry is skipped, and the entry
    after it is decoded. *)
Lemma read_rnglist_range_unknown_kind_example :
  (load_u8 (debug_rnglists example_unknown_kind_ctx) 0 = Ok 0x2a
   /\ ~ In 0x2a DW_RLE_kinds)
  /\ read_rnglist_range X86_64 example_unknown_kind_ctx [] 0 None 0x1000
     = read_rnglist_range X86_64 example_unknown_kind_ctx [] 1 None 0x1000
  /\ read_rnglist_range X86_64 example_unknown_kind_ctx [] 0 None 0x1000
     = Ok [(0x1010, 0x1020)].
Proof.
  assert (Hk : load_u8 (debug_rnglists example_unknown_kind_ctx) 0 = Ok 0x2a)
    by reflexivity.
  assert (Hnot : ~ In 0x2a DW_RLE_kinds).
  { unfold DW_RLE_kinds. cbn [In]. intros H.
    repeat (destruct H as [H|H]; [discriminate H|]). exact H. }
  split; [split; assumption|].
  split.
  - exact (proj2 (read_rnglist_range_unknown_kind X86_64
                    example_unknown_kind_ctx [] 0 None 0x1000 0x2a Hk Hnot)).
  - vm_compute. reflexivity.
Defined.

(** ** Address ranges are unsigned *)

(** Inversion of a successful [bind] in hypothesis [H]. *)
Ltac inv_bind H :=
  let a := fresh "a" in
  let Ha := fresh "Hb" in
  apply bind_Ok in H; destruct H as [a [Ha H]]; cbv beta in H;
  try (destruct a as [? ?]; cbv beta iota in H).

Ltac inv_binds H :=
  repeat
    match type of H with
    | bind _ _ = Ok _ => inv_bind H
    | (if ?c then _ else _) = Ok _ => destruct c eqn:?
    | Fatal _ = Ok _ => discriminate H
    | Undefined = Ok _ => discriminate H
    | Thrown = Ok _ => discriminate H
    | OutOfFuel = Ok _ => discriminate H
    end.


Lemma addrx_at_nonneg (E : Target) (ctx : Context) (addrx : option Z)
    (i v : Z) :
  addrx_at E ctx addrx i = Ok v -> 0 <= v < 2 ^ 64.
Proof.
  unfold addrx_at. destruct addrx as [a|]; [|discriminate].
  apply load_Word_u64.
Qed.

Ltac nonneg_facts :=
  repeat
    match goal with
    | H : addrx_at _ _ _ _ = Ok _ |- _ => apply addrx_at_nonneg in H
    | H : load_Word _ _ _ = Ok _ |- _ => apply load_Word_u64 in H
    end.

Lemma Forall_snoc {A : Type} (P : A -> Prop) (l : list A) (x : A) :
  Forall P l -> P x -> Forall P (l ++ [x]).
Proof.
  intros Hl Hx. apply Forall_app. split; [exact Hl|].
  constructor; [exact Hx|constructor].
Qed.

Lemma read_debug_range_loop_nonneg (E : Target) (buf : list byte) (range : Z) :
  forall fuel i base vec r,
    Forall lo_nonneg vec ->
    read_debug_range_loop fuel E buf range i base vec = Ok r ->
    Forall lo_nonneg r.
Proof.
  induction fuel as [|fuel IH]; intros i base vec r Hvec H; [discriminate|].
  cbn [read_debug_range_loop] in H.
  inv_binds H.
  - apply Ok_inj in H. subst r. exact Hvec.
  - eapply IH; [|exact H]. exact Hvec.
  - eapply IH; [|exact H]. apply Forall_snoc; [exact Hvec|].
    unfold lo_nonneg. cbn [fst]. apply u64_range.
Qed.

Lemma read_rnglist_range_loop_nonneg (E : Target) (ctx : Context)
    (addrx : option Z) :
  forall fuel vec rnglist base r,
    Forall lo_nonneg vec ->
    read_rnglist_range_loop fuel E ctx vec rnglist addrx base = Ok r ->
    Forall lo_nonneg r.
Proof.
  induction fuel as [|fuel IH]; intros vec rnglist base r Hvec H;
    [discriminate|].
  cbn [read_rnglist_range_loop] in H. cbv zeta in H.
  inv_binds H;
    try (apply Ok_inj in H; subst r; exact Hvec);
    (eapply IH; [|exact H]);
    try exact Hvec;
    (apply Forall_snoc; [exact Hvec|]);
    unfold lo_nonneg; cbn [fst]; nonneg_facts;
    try apply u64_range; lia.
Qed.

Lemma read_rnglists_offsets_nonneg (E : Target) (ctx : Context)
    (base : Z) (addrx : option Z) (low : Z) :
  forall n i vec r,
    Forall lo_nonneg vec ->
    read_rnglists_offsets n E ctx base i addrx low vec = Ok r ->
    Forall lo_nonneg r.
Proof.
  induction n as [|n IH]; intros i vec r Hvec H.
  - apply Ok_inj in H. subst r. exact Hvec.
  - cbn [read_rnglists_offsets] in H. inv_binds H.
    eapply IH; [|exact H].
    eapply read_rnglist_range_loop_nonneg; [exact Hvec|exact Hb0].
Qed.

Lemma strlen_loop_nonneg (buf : list byte) (p : Z) :
  forall fuel n r, 0 <= n -> strlen_loop fuel buf p n = Ok r -> 0 <= r.
Proof.
  induction fuel as [|fuel IH]; intros n r Hn H; [discriminate|].
  cbn [strlen_loop] in H. inv_binds H.
  - apply Ok_inj in H. lia.
  - eapply IH; [|exact H]. lia.
Qed.

Lemma read_scalar_nonneg (E : Target) (ctx : Context) (p form v p' : Z) :
  read_scalar E ctx p form = Ok (v, p') -> 0 <= v.
Proof.
  unfold read_scalar, load_U16, load_U24, load_U32, load_U64, load_Word.
  intros H. cbv zeta in H. inv_binds H;
    try (apply Ok_inj in H; injection H as <- <-);
    try lia;
    try (match goal with
         | Hl : load_u8 _ _ = Ok _ |- _ => apply load_u8_Ok in Hl; lia
         | Hl : load_uint _ _ _ _ = Ok _ |- _ => apply load_uint_Ok in Hl; lia
         end).
  apply read_uleb_advances in H. lia.
Qed.

Lemma record_attr_low_pc_nonneg (a : Attrs) (name form val : Z) :
  0 <= value (low_pc a) -> 0 <= val ->
  0 <= value (low_pc (record_attr a name form val)).
Proof.
  intros Ha Hv. unfold record_attr.
  repeat match goal with
         | |- context [if ?c then _ else _] => destruct c
         end; cbn [low_pc value]; assumption.
Qed.

Lemma read_attrs_low_pc_nonneg (E : Target) (ctx : Context) :
  forall fuel abbrev p a r,
    0 <= value (low_pc a) ->
    read_attrs fuel E ctx abbrev p a = Ok r ->
    0 <= value (low_pc r).
Proof.
  induction fuel as [|fuel IH]; intros abbrev p a r Ha H; [discriminate|].
  cbn [read_attrs] in H. inv_binds H.
  - apply Ok_inj in H. subst r. exact Ha.
  - eapply IH; [|exact H].
    apply record_attr_low_pc_nonneg; [exact Ha|].
    eapply read_scalar_nonneg. exact Hb1.
Qed.

Lemma resolve_ranges_nonneg (E : Target) (ctx : Context) (dwarf_version : Z)
    (a : Attrs) (r : list (Z * Z)) :
  0 <= value (low_pc a) ->
  resolve_ranges E ctx dwarf_version a = Ok r ->
  Forall lo_nonneg r.
Proof.
  intros Ha H. unfold resolve_ranges in H. cbv zeta in H.
  destruct (negb (form (ranges_attr a) =? 0)).
  - destruct (dwarf_version <=? 4).
    + eapply read_debug_range_loop_nonneg; [constructor|exact H].
    + destruct (form (ranges_attr a) =? DW_FORM_sec_offset).
      * eapply read_rnglist_range_loop_nonneg; [constructor|exact H].
      * inv_binds H.
        eapply read_rnglists_offsets_nonneg; [constructor|exact H].
  - destruct (negb (form (low_pc a) =? 0) && negb (form (high_pc a) =? 0)).
    + inv_bind H.
      assert (Hlo : 0 <= a0).
      { inv_binds Hb.
        - apply Ok_inj in Hb. lia.
        - apply addrx_at_nonneg in Hb. lia. }
      inv_binds H; apply Ok_inj in H; subst r;
        (constructor; [unfold lo_nonneg; cbn [fst]; exact Hlo|constructor]).
    + apply Ok_inj in H. subst r. constructor.
Qed.

Lemma read_address_ranges_nonneg (E : Target) (ctx : Context) (offset : Z)
    (r : list (Z * Z)) :
  read_address_ranges E ctx offset = Ok r -> Forall lo_nonneg r.
Proof.
  unfold read_address_ranges. intros H.
  apply bind_Ok in H. destruct H as [[dwarf_version a] [Hattrs H]].
  cbv beta iota in H.
  eapply resolve_ranges_nonneg; [|exact H].
  unfold read_cu_attrs in Hattrs. cbv zeta in Hattrs.
  apply bind_Ok in Hattrs. destruct Hattrs as [v [_ Hattrs]].
  apply bind_Ok in Hattrs. destruct Hattrs as [[abbrev p] [_ Hattrs]].
  cbv beta iota in Hattrs.
  apply bind_Ok in Hattrs. destruct Hattrs as [a' [Hread Hattrs]].
  apply Ok_inj in Hattrs. injection Hattrs as _ <-.
  eapply read_attrs_low_pc_nonneg; [|exact Hread].
  cbn. lia.
Qed.

(** ** The ranges of the compunits that [read_compunits] returns *)



Lemma read_cu_ranges_kept (E : Target) (ctx : Context) (cu cu' : Compunit.t) :
  read_cu_ranges E ctx cu = Ok cu' -> ranges_kept cu'.
Proof.
  unfold read_cu_ranges. intros H. inv_bind H.
  apply Ok_inj in H. subst cu'.
  apply read_address_ranges_nonneg in Hb.
  unfold ranges_kept. cbn [Compunit.set_ranges Compunit.ranges].
  apply Forall_forall. intros p Hin.
  apply filter_In in Hin. destruct Hin as [Hin Hkeep].
  rewrite Forall_forall in Hb. specialize (Hb p Hin).
  unfold lo_nonneg in Hb. unfold is_empty_range in Hkeep.
  apply negb_true_iff in Hkeep. apply orb_false_iff in Hkeep.
  destruct Hkeep as [H0 Heq].
  apply Z.eqb_neq in H0. apply Z.eqb_neq in Heq.
  unfold range_kept. lia.
Qed.

Lemma map_result_Forall {A B : Type} (f : A -> result B) (P : B -> Prop) :
  (forall x y, f x = Ok y -> P y) ->
  forall l r, map_result f l = Ok r -> Forall P r.
Proof.
  intros Hf l. induction l as [|x l IH]; intros r H.
  - apply Ok_inj in H. subst r. constructor.
  - cbn [map_result] in H. inv_binds H.
    apply Ok_inj in H. subst r.
    constructor; [eapply Hf; exact Hb|apply IH; exact Hb0].
Qed.

Lemma fold_result_invariant {A B : Type} (f : A -> B -> result A)
    (P : A -> Prop) :
  (forall a x a', P a -> f a x = Ok a' -> P a') ->
  forall l a r, P a -> fold_result f l a = Ok r -> P r.
Proof.
  intros Hf l. induction l as [|x l IH]; intros a r Ha H.
  - apply Ok_inj in H. subst r. exact Ha.
  - cbn [fold_result] in H. inv_bind H.
    eapply IH; [|exact H]. eapply Hf; [exact Ha|exact Hb].
Qed.

Lemma push_nametype_ranges_kept (cus : list Compunit.t) :
  forall i nt, Forall ranges_kept cus ->
    Forall ranges_kept (push_nametype cus i nt).
Proof.
  induction cus as [|cu cus IH]; intros i nt H; [constructor|].
  inversion H as [|? ? Hcu Hcus]; subst.
  destruct i as [|i]; cbn [push_nametype].
  - constructor; [exact Hcu|exact Hcus].
  - constructor; [exact Hcu|apply IH; exact Hcus].
Qed.

Lemma read_pubnames_tuples_ranges_kept (E : Target) (buf : list byte)
    (cu : nat) :
  forall fuel cus data_start data_size r,
    Forall ranges_kept cus ->
    read_pubnames_tuples fuel E buf cus cu data_start data_size = Ok r ->
    Forall ranges_kept r.
Proof.
  induction fuel as [|fuel IH]; intros cus ds dz r Hc H; [discriminate|].
  cbn [read_pubnames_tuples] in H. cbv zeta in H. inv_binds H;
    try (apply Ok_inj in H; subst r; exact Hc).
  eapply IH; [|exact H]. apply push_nametype_ranges_kept. exact Hc.
Qed.

Lemma read_pubnames_tables_ranges_kept (E : Target) (file : ObjectFile)
    (buf : list byte) :
  forall fuel cus start size r,
    Forall ranges_kept cus ->
    read_pubnames_tables fuel E file buf cus start size = Ok r ->
    Forall ranges_kept r.
Proof.
  induction fuel as [|fuel IH]; intros cus start size r Hc H; [discriminate|].
  cbn [read_pubnames_tables] in H. cbv zeta in H. inv_binds H;
    try (apply Ok_inj in H; subst r; exact Hc).
  destruct (get_cu cus (debug_info_offset file + a0)); [|discriminate].
  inv_binds H.
  eapply IH; [|exact H].
  eapply read_pubnames_tuples_ranges_kept; [exact Hc|exact Hb1].
Qed.

Lemma read_pubnames_ranges_kept (E : Target) (cus : list Compunit.t)
    (file : ObjectFile) (r : list Compunit.t) :
  Forall ranges_kept cus ->
  read_pubnames E cus file = Ok r ->
  Forall ranges_kept r.
Proof.
  intros Hc H. unfold read_pubnames in H. inv_bind H.
  assert (Hsec : forall isec cus r,
             Forall ranges_kept cus ->
             read_pubnames_section E file isec cus = Ok r ->
             Forall ranges_kept r).
  { intros [buf|] cus0 r0 Hc0 H0; unfold read_pubnames_section in H0.
    - eapply read_pubnames_tables_ranges_kept; [exact Hc0|exact H0].
    - apply Ok_inj in H0. subst r0. exact Hc0. }
  eapply Hsec; [|exact H]. eapply Hsec; [exact Hc|exact Hb].
Qed.

Lemma read_compunits_ranges_kept (E : Target) (ctx : Context)
    (cus : list Compunit.t) :
  read_compunits E ctx = Ok cus -> Forall ranges_kept cus.
Proof.
  unfold read_compunits. intros H. inv_binds H.
  apply Ok_inj in H. subst cus.
  apply Forall_map.
  assert (H1 : Forall ranges_kept a0).
  { eapply map_result_Forall; [|exact Hb0].
    intros x y. apply read_cu_ranges_kept. }
  assert (H2 : Forall ranges_kept a1).
  { eapply fold_result_invariant; [|exact H1|exact Hb1].
    intros cus0 file cus1. apply read_pubnames_ranges_kept. }
  eapply Forall_impl; [|exact H2].
  intros cu Hcu. exact Hcu.
Qed.

(** C1, as the code has it: for every compunit that [read_compunits]
    produces, every pair (lo, hi) left in its ranges by the filter has
    lo > 0 and lo <> hi.  (The filter drops the pairs with lo = 0 or
    lo = hi; it keeps a pair with hi < lo.) *)
Theorem read_compunits_ranges_filtered (E : Target) (ctx : Context)
    (cus : list Compunit.t) (cu : Compunit.t) (lo hi : Z) :
  read_compunits E ctx = Ok cus ->
  In cu cus ->
  In (lo, hi) (Compunit.ranges cu) ->
  lo > 0 /\ lo <> hi.
Proof.
  intros H Hcu Hp.
  apply read_compunits_ranges_kept in H.
  rewrite Forall_forall in H. specialize (H cu Hcu).
  unfold ranges_kept in H. rewrite Forall_forall in H.
  specialize (H (lo, hi) Hp). unfold range_kept in H. cbn [fst snd] in H.
  lia.
Qed.

(** The compunit of [inverted_range_ctx] keeps the pair (0x2000, 0x1000),
    whose low address is above its high address. *)
Lemma read_compunits_keeps_inverted_range :
  ~ (forall cus cu lo hi,
       read_compunits X86_64 inverted_range_ctx = Ok cus ->
       In cu cus ->
       In (lo, hi) (Compunit.ranges cu) ->
       lo > 0 /\ lo < hi).
Proof.
  intros H.
  assert (Hrun : read_compunits X86_64 inverted_range_ctx
                 = Ok [{| Compunit.offset := 0; Compunit.size := 28;
                          Compunit.ranges := [(0x2000, 0x1000)];
                          Compunit.nametypes := [];
                          Compunit.entries := [] |}])
    by (vm_compute; reflexivity).
  specialize (H _ _ 0x2000 0x1000 Hrun (or_introl eq_refl)
                (or_introl eq_refl)).
  lia.
Qed.

Lemma read_compunits_ranges_filtered_example :
  (read_compunits X86_64 inverted_range_ctx
   = Ok [{| Compunit.offset := 0; Compunit.size := 28;
            Compunit.ranges := [(0x2000, 0x1000)];
            Compunit.nametypes := [];
            Compunit.entries := [] |}]
   /\ In {| Compunit.offset := 0; Compunit.size := 28;
            Compunit.ranges := [(0x2000, 0x1000)];
            Compunit.nametypes := [];
            Compunit.entries := [] |}
         [{| Compunit.offset := 0; Compunit.size := 28;
             Compunit.ranges := [(0x2000, 0x1000)];
             Compunit.nametypes := [];
             Compunit.entries := [] |}]
   /\ In (0x2000, 0x1000) [(0x2000, 0x1000)])
  /\ (0x2000 > 0 /\ 0x2000 <> 0x1000).
Proof.
  assert (Hrun : read_compunits X86_64 inverted_range_ctx
                 = Ok [{| Compunit.offset := 0; Compunit.size := 28;
                          Compunit.ranges := [(0x2000, 0x1000)];
                          Compunit.nametypes := [];
                          Compunit.entries := [] |}])
    by (vm_compute; reflexivity).
  split.
  - split; [exact Hrun|]. split; left; reflexivity.
  - exact (read_compunits_ranges_filtered X86_64 inverted_range_ctx _ _
             0x2000 0x1000 Hrun (or_introl eq_refl) (or_introl eq_refl)).
Defined.

(** ** A contiguous range: the forms of [DW_AT_low_pc] and [DW_AT_high_pc] *)

(** The forms the two [switch] statements resolve through [addrx]. *)
Lemma resolve_ranges_contiguous (E : Target) (ctx : Context)
    (dwarf_version : Z) (a : Attrs) :
  form (ranges_attr a) = 0 ->
  form (low_pc a) <> 0 ->
  form (high_pc a) <> 0 ->
  resolve_ranges E ctx dwarf_version a
  = (lo <- (if form (low_pc a) =? DW_FORM_addr then Ok (value (low_pc a))
            else if one_of (form (low_pc a))
                      [DW_FORM_addrx; DW_FORM_addrx1; DW_FORM_addrx2;
                       DW_FORM_addrx4]
            then addrx_at E ctx (addrx a) (value (low_pc a))
            else Fatal (Unhandled_low_pc_form (form (high_pc a)))) ;;
     if form (high_pc a) =? DW_FORM_addr then Ok [(lo, value (high_pc a))]
     else if one_of (form (high_pc a))
               [DW_FORM_addrx; DW_FORM_addrx1; DW_FORM_addrx2; DW_FORM_addrx4]
     then hi <- addrx_at E ctx (addrx a) (value (high_pc a)) ;; Ok [(lo, hi)]
     else if one_of (form (high_pc a))
               [DW_FORM_udata; DW_FORM_data1; DW_FORM_data2; DW_FORM_data4;
                DW_FORM_data8]
     then Ok [(lo, u64 (lo + value (high_pc a)))]
     else Fatal (Unhandled_high_pc_form (form (high_pc a)))).
Proof.
  intros Hr Hl Hh. unfold resolve_ranges. rewrite Hr. cbn [Z.eqb negb].
  apply Z.eqb_neq in Hl. apply Z.eqb_neq in Hh. rewrite Hl, Hh.
  reflexivity.
Qed.

(** With [DW_FORM_addrx3] as the form of [DW_AT_low_pc], or of
    [DW_AT_high_pc] after a handled [DW_AT_low_pc], the extraction is
    fatal. *)
Lemma resolve_ranges_addrx3 (E : Target) (ctx : Context)
    (dwarf_version : Z) (a : Attrs) :
  form (ranges_attr a) = 0 ->
  form (high_pc a) <> 0 ->
  (form (low_pc a) = DW_FORM_addrx3 ->
   resolve_ranges E ctx dwarf_version a
   = Fatal (Unhandled_low_pc_form (form (high_pc a))))
  /\ (form (low_pc a) = DW_FORM_addr ->
      form (high_pc a) = DW_FORM_addrx3 ->
      resolve_ranges E ctx dwarf_version a
      = Fatal (Unhandled_high_pc_form DW_FORM_addrx3)).
Proof.
  intros Hr Hh. split.
  - intros Hl. rewrite resolve_ranges_contiguous; try assumption.
    + rewrite Hl. reflexivity.
    + rewrite Hl. discriminate.
  - intros Hl Hh3. rewrite resolve_ranges_contiguous; try assumption.
    + rewrite Hl, Hh3. reflexivity.
    + rewrite Hl. discriminate.
Qed.

(** C5, at the failing input: the compunit of [addrx3_ctx] has no
    [DW_AT_ranges], a [DW_AT_low_pc] of form [DW_FORM_addrx3] with value 0
    and a [DW_AT_high_pc] of form [DW_FORM_data4] with value 0x100, and
    [addrx[0]] is 0x401000; yet [read_address_ranges] is fatal (and prints
    the form of [DW_AT_high_pc]), where the claim has the pair
    (0x401000, 0x401100).  The same compunit with the index in form
    [DW_FORM_addrx2] gives that pair. *)
Theorem read_address_ranges_addrx3_is_fatal :
  read_cu_attrs X86_64 addrx3_ctx 0
  = Ok (5, {| low_pc := {| form := DW_FORM_addrx3; value := 0 |};
              high_pc := {| form := DW_FORM_data4; value := 0x100 |};
              ranges_attr := {| form := 0; value := 0 |};
              rnglists_base := u64 (-1);
              addrx := Some 8 |})
  /\ addrx_at X86_64 addrx3_ctx (Some 8) 0 = Ok 0x401000
  /\ read_address_ranges X86_64 addrx3_ctx 0
     = Fatal (Unhandled_low_pc_form DW_FORM_data4)
  /\ read_address_ranges X86_64 addrx2_ctx 0 = Ok [(0x401000, 0x401100)].
Proof. repeat split; vm_compute; reflexivity. Qed.

(** ** The size of the symbol hash table *)

Lemma bit_ceil_spec (x : Z) :
  (exists k, 0 <= k /\ bit_ceil x = 2 ^ k)
  /\ x <= bit_ceil x
  /\ (forall k, 0 <= k -> x <= 2 ^ k -> bit_ceil x <= 2 ^ k).
Proof.
  unfold bit_ceil.
  pose proof (Z.log2_up_nonneg x) as Hnn.
  split; [exists (Z.log2_up x); split; [exact Hnn|reflexivity]|].
  destruct (Z_lt_le_dec 1 x) as [H1|H1].
  - pose proof (Z.log2_up_spec x H1) as [Hlo Hhi].
    split; [exact Hhi|].
    intros k Hk Hx.
    apply Z.pow_le_mono_r; [lia|].
    apply Z.log2_up_le_pow2; lia.
  - rewrite Z.log2_up_eqn0 by exact H1.
    split; [simpl; lia|].
    intros k Hk _. change (2 ^ 0) with 1.
    pose proof (Z.pow_pos_nonneg 2 k). lia.
Qed.

Lemma quot_5_4_ge (card : Z) : 0 <= card -> card <= Z.quot (card * 5) 4.
Proof.
  intros H. rewrite Z.quot_div_nonneg by lia.
  apply Z.div_le_lower_bound; lia.
Qed.

(** C2, as the code has it: the symbol table takes [8 * ht_size] bytes
    between [symtab_offset] and [const_pool_offset], where [ht_size] is
    [bit_ceil] of the integer quotient [card * 5 / 4] of the estimated
    cardinality [card], rounded down: a power of two, the least one that is
    not below that quotient, and not below [card]. *)
Theorem ht_size_is_bit_ceil_of_quotient (cus : list Compunit.t) (card : Z) :
  const_pool_offset (compute_header cus card)
  = u32 (symtab_offset (compute_header cus card) + ht_size_of card * 8)
  /\ ht_size_of card = bit_ceil (Z.quot (card * 5) 4)
  /\ (exists k, 0 <= k /\ ht_size_of card = 2 ^ k)
  /\ Z.quot (card * 5) 4 <= ht_size_of card
  /\ (forall k, 0 <= k -> Z.quot (card * 5) 4 <= 2 ^ k ->
                ht_size_of card <= 2 ^ k)
  /\ card <= ht_size_of card.
Proof.
  pose proof (bit_ceil_spec (Z.quot (card * 5) 4)) as [Hpow [Hge Hleast]].
  split; [reflexivity|].
  split; [reflexivity|].
  split; [exact Hpow|].
  split; [exact Hge|].
  split; [exact Hleast|].
  unfold ht_size_of.
  destruct (Z_lt_le_dec card 0) as [Hneg|Hnn].
  - destruct Hpow as [k [Hk Heq]]. rewrite Heq.
    pose proof (Z.pow_pos_nonneg 2 k). lia.
  - pose proof (quot_5_4_ge card Hnn). lia.
Qed.

(** With two symbols and the cardinality 2, the table has 2 slots, which
    is neither [bit_ceil (ceil (2 * 5/4))] = 4 nor at least
    [ceil (2 * 5/4)] = 3; the header of the section written for
    [two_symbols_ctx] leaves 16 bytes between [symtab_offset] (96) and
    [const_pool_offset] (112). *)
Lemma ht_size_below_ceiling :
  ht_size_of 2 = 2
  /\ ceil_5_4 2 = 3
  /\ ht_size_of 2 <> bit_ceil (ceil_5_4 2)
  /\ ~ (ceil_5_4 2 <= ht_size_of 2)
  /\ (exists buf,
        write_gdb_index X86_64 two_symbols_ctx 2 = Ok (Some buf)
        /\ load_ul32 buf 16 = Ok 96
        /\ load_ul32 buf 20 = Ok 112).
Proof.
  split; [reflexivity|].
  split; [reflexivity|].
  split; [vm_compute; discriminate|].
  split; [vm_compute; intros H; apply H; reflexivity|].
  destruct (write_gdb_index X86_64 two_symbols_ctx 2) as [[buf|]| | | |] eqn:H;
    try (vm_compute in H; discriminate H).
  exists buf. split; [reflexivity|].
  vm_compute in H. apply Ok_inj in H. injection H as <-.
  split; vm_compute; reflexivity.
Qed.

(** ** The list-of-lists dispatch of DWARF 5 *)

Lemma read_rnglists_offsets_fold (E : Target) (ctx : Context) (base : Z)
    (addrx : option Z) (low : Z) :
  forall n i vec,
    read_rnglists_offsets n E ctx base (Z.of_nat i) addrx low vec
    = fold_result
        (fun vec k =>
           off <- load_U32 E (debug_rnglists ctx) (base + 4 * k) ;;
           read_rnglist_range E ctx vec (base + off) addrx low)
        (map Z.of_nat (seq i n)) vec.
Proof.
  induction n as [|n IH]; intros i vec; [reflexivity|].
  cbn [read_rnglists_offsets seq map fold_result].
  destruct (load_U32 E (debug_rnglists ctx) (base + 4 * Z.of_nat i))
    as [off| | | |]; try reflexivity.
  cbn [bind].
  destruct (read_rnglist_range E ctx vec (base + off) addrx low)
    as [vec'| | | |]; try reflexivity.
  cbn [bind].
  replace (Z.of_nat i + 1) with (Z.of_nat (S i)) by lia.
  apply IH.
Qed.

Lemma record_attr_rnglists_base (a : Attrs) (name form val : Z) :
  rnglists_base (record_attr a name form val)
  = if name =? DW_AT_rnglists_base then val else rnglists_base a.
Proof.
  unfold record_attr.
  destruct (Z.eqb_spec name DW_AT_low_pc) as [->|_]; [reflexivity|].
  destruct (Z.eqb_spec name DW_AT_high_pc) as [->|_]; [reflexivity|].
  destruct (name =? DW_AT_rnglists_base); [reflexivity|].
  destruct (name =? DW_AT_addr_base); [reflexivity|].
  destruct (name =? DW_AT_ranges); reflexivity.
Qed.

(** C8, as the code has it: for a DWARF 5 compunit whose [DW_AT_ranges]
    has a form other than [sec_offset], the extraction is fatal if
    [rnglists_base] still holds [(u64)-1], the value it starts with and
    keeps unless an attribute named [DW_AT_rnglists_base] is recorded;
    otherwise it reads [num_offsets] as the [u32], in the byte order of the
    target, four bytes before [debug_rnglists + rnglists_base], and for
    [i] = 0, ..., [num_offsets - 1] in turn decodes the list at
    [base + offsets[i]] into the one vector, [offsets] being the [u32]s,
    in the byte order of the target, from the base on.  On a little-endian
    target these [u32]s are little-endian. *)
Theorem resolve_ranges_list_of_lists (E : Target) (ctx : Context)
    (dwarf_version : Z) (a : Attrs) :
  4 < dwarf_version ->
  form (ranges_attr a) <> 0 ->
  form (ranges_attr a) <> DW_FORM_sec_offset ->
  (rnglists_base a = u64 (-1) ->
   resolve_ranges E ctx dwarf_version a = Fatal Missing_DW_AT_rnglists_base)
  /\ (rnglists_base a <> u64 (-1) ->
      resolve_ranges E ctx dwarf_version a
      = (num_offsets <-
           load_U32 E (debug_rnglists ctx) (rnglists_base a - 4) ;;
         fold_result
           (fun vec i =>
              off <- load_U32 E (debug_rnglists ctx)
                       (rnglists_base a + 4 * i) ;;
              read_rnglist_range E ctx vec (rnglists_base a + off) (addrx a)
                (value (low_pc a)))
           (map Z.of_nat (seq 0 (Z.to_nat num_offsets))) []))
  /\ (is_le E = true ->
      forall p, load_U32 E (debug_rnglists ctx) p
                = load_le (debug_rnglists ctx) p 4)
  /\ rnglists_base initial_attrs = u64 (-1)
  /\ (forall name form val,
        rnglists_base (record_attr a name form val)
        = if name =? DW_AT_rnglists_base then val else rnglists_base a).
Proof.
  intros Hv Hf Hsec.
  assert (Hhead :
    resolve_ranges E ctx dwarf_version a
    = if rnglists_base a =? u64 (-1) then Fatal Missing_DW_AT_rnglists_base
      else (num_offsets <-
              load_U32 E (debug_rnglists ctx) (rnglists_base a - 4) ;;
            read_rnglists_offsets (Z.to_nat num_offsets) E ctx
              (rnglists_base a) 0 (addrx a) (value (low_pc a)) [])).
  { unfold resolve_ranges.
    apply Z.eqb_neq in Hf. rewrite Hf. cbn [negb].
    assert (Hv' : (dwarf_version <=? 4) = false) by (apply Z.leb_gt; lia).
    rewrite Hv'.
    apply Z.eqb_neq in Hsec. rewrite Hsec. reflexivity. }
  split; [|split; [|split; [|split]]].
  - intros Hb. rewrite Hhead. rewrite Hb. reflexivity.
  - intros Hb. rewrite Hhead. apply Z.eqb_neq in Hb. rewrite Hb.
    destruct (load_U32 E (debug_rnglists ctx) (rnglists_base a - 4))
      as [num| | | |]; try reflexivity.
    cbn [bind].
    exact (read_rnglists_offsets_fold E ctx (rnglists_base a) (addrx a)
             (value (low_pc a)) (Z.to_nat num) O []).
  - intros Hle p. unfold load_U32, load_uint. rewrite Hle. reflexivity.
  - reflexivity.
  - intros name form0 val. apply record_attr_rnglists_base.
Qed.

(** The compunit of [little_endian_rnglists_ctx]: its one list is found
    through the offsets table. *)
Lemma resolve_ranges_list_of_lists_example :
  (4 < 5 /\ DW_FORM_rnglistx <> 0 /\ DW_FORM_rnglistx <> DW_FORM_sec_offset
   /\ 12 <> u64 (-1))
  /\ read_cu_attrs X86_64 little_endian_rnglists_ctx 0
     = Ok (5, record_attr
                (record_attr initial_attrs DW_AT_rnglists_base
                   DW_FORM_sec_offset 12)
                DW_AT_ranges DW_FORM_rnglistx 0)
  /\ resolve_ranges X86_64 little_endian_rnglists_ctx 5
       (record_attr
          (record_attr initial_attrs DW_AT_rnglists_base
             DW_FORM_sec_offset 12)
          DW_AT_ranges DW_FORM_rnglistx 0)
     = Ok [(0x1000, 0x2000)].
Proof.
  assert (H1 : 4 < 5) by lia.
  assert (H2 : DW_FORM_rnglistx <> 0) by discriminate.
  assert (H3 : DW_FORM_rnglistx <> DW_FORM_sec_offset) by discriminate.
  assert (H4 : 12 <> u64 (-1)) by discriminate.
  split; [repeat split; assumption|].
  split; [vm_compute; reflexivity|].
  rewrite (proj1 (proj2 (resolve_ranges_list_of_lists X86_64
                           little_endian_rnglists_ctx 5
                           (record_attr
                              (record_attr initial_attrs DW_AT_rnglists_base
                                 DW_FORM_sec_offset 12)
                              DW_AT_ranges DW_FORM_rnglistx 0)
                           H1 H2 H3)) H4).
  vm_compute. reflexivity.
Defined.

(** On the big-endian target the count before the base, 00 00 00 01, is
    read as 1 and the one list is decoded, where the little-endian reading
    of the claim is 16777216 and leaves the section; and a compunit whose
    [DW_AT_rnglists_base] attribute is seen with the value
    0xffffffffffffffff is fatal for a missing [DW_AT_rnglists_base]. *)
Lemma list_of_lists_not_little_endian :
  (read_cu_attrs SPARC64 big_endian_rnglists_ctx 0
   = Ok (5, record_attr
              (record_attr initial_attrs DW_AT_rnglists_base
                 DW_FORM_sec_offset 12)
              DW_AT_ranges DW_FORM_rnglistx 0)
   /\ read_address_ranges SPARC64 big_endian_rnglists_ctx 0
      = Ok [(0x1000, 0x2000)]
   /\ load_le (debug_rnglists big_endian_rnglists_ctx) (12 - 4) 4
      = Ok 16777216
   /\ rnglists_dispatch_reference SPARC64 big_endian_rnglists_ctx true 12
        None 0
      = Undefined)
  /\ (read_cu_attrs X86_64 all_ones_rnglists_base_ctx 0
      = Ok (5, record_attr
                 (record_attr initial_attrs DW_AT_rnglists_base
                    DW_FORM_data8 0xffffffffffffffff)
                 DW_AT_ranges DW_FORM_rnglistx 0)
      /\ read_address_ranges X86_64 all_ones_rnglists_base_ctx 0
         = Fatal Missing_DW_AT_rnglists_base
      /\ rnglists_dispatch_reference X86_64 all_ones_rnglists_base_ctx true
           0xffffffffffffffff None 0
         <> Fatal Missing_DW_AT_rnglists_base).
Proof.
  split.
  - split; [vm_compute; reflexivity|].
    split; [vm_compute; reflexivity|].
    split; [vm_compute; reflexivity|].
    lazy. reflexivity.
  - split; [vm_compute; reflexivity|].
    split; [vm_compute; reflexivity|].
    lazy. discriminate.
Qed.

(** ** Byte strings *)

Lemma u8_of_byte_inj (a b : byte) : u8_of_byte a = u8_of_byte b -> a = b.
Proof.
  unfold u8_of_byte. intros H. apply N2Z.inj in H.
  assert (Hs : Some a = Some b).
  { rewrite <- (Byte.of_to_N a), <- (Byte.of_to_N b). rewrite H. reflexivity. }
  congruence.
Qed.

Lemma bytes_eqb_eq (a b : list byte) : bytes_eqb a b = true <-> a = b.
Proof.
  revert b. induction a as [|x a IH]; intros [|y b]; cbn [bytes_eqb];
    try (split; [discriminate|discriminate]); [tauto|].
  rewrite andb_true_iff, Z.eqb_eq, IH. split.
  - intros [Hxy Hab]. apply u8_of_byte_inj in Hxy. congruence.
  - intros H. injection H as -> ->. split; reflexivity.
Qed.

Lemma bytes_eqb_refl (a : list byte) : bytes_eqb a a = true.
Proof. apply bytes_eqb_eq. reflexivity. Qed.

(** ** The symbol map *)

Lemma map_find_Some (store : list MapValue.t) (name : list byte) (hash : Z) :
  forall ent, map_find store name hash = Some ent ->
    exists v, nth_error store ent = Some v
              /\ MapValue.name v = name /\ MapValue.hash v = hash.
Proof.
  induction store as [|v store IH]; intros ent H; [discriminate|].
  cbn [map_find] in H. destruct (key_eqb v name hash) eqn:Hk.
  - injection H as <-. exists v. unfold key_eqb in Hk.
    apply andb_true_iff in Hk. destruct Hk as [Hn Hh].
    apply bytes_eqb_eq in Hn. apply Z.eqb_eq in Hh.
    split; [reflexivity|split; assumption].
  - destruct (map_find store name hash) as [e|]; [|discriminate].
    injection H as <-. destruct (IH e eq_refl) as [w Hw].
    exists w. exact Hw.
Qed.

Lemma handle_matches_app (store ext : list MapValue.t) (nt : NameType.t)
    (ent : nat) :
  handle_matches store nt ent -> handle_matches (store ++ ext) nt ent.
Proof.
  intros [v [Hv Hm]]. exists v. split; [|exact Hm].
  rewrite nth_error_app1; [exact Hv|].
  apply nth_error_Some. rewrite Hv. discriminate.
Qed.

Lemma nth_error_update_at (store : list MapValue.t)
    (f : MapValue.t -> MapValue.t) :
  forall e ent,
    nth_error (update_at store e f) ent
    = if Nat.eqb e ent then option_map f (nth_error store ent)
      else nth_error store ent.
Proof.
  induction store as [|v store IH]; intros e ent.
  - cbn [update_at]. destruct e, ent; cbn; try reflexivity;
      destruct (Nat.eqb e ent); reflexivity.
  - destruct e as [|e], ent as [|ent]; cbn [update_at nth_error Nat.eqb];
      try reflexivity.
    apply IH.
Qed.

Lemma length_update_at (store : list MapValue.t)
    (f : MapValue.t -> MapValue.t) :
  forall e, length (update_at store e f) = length store.
Proof.
  induction store as [|v store IH]; intros [|e]; cbn [update_at length];
    try reflexivity.
  rewrite IH. reflexivity.
Qed.

Lemma handle_matches_update (store : list MapValue.t)
    (f : MapValue.t -> MapValue.t) (e : nat) (nt : NameType.t) (ent : nat) :
  (forall v, MapValue.name (f v) = MapValue.name v
             /\ MapValue.hash (f v) = MapValue.hash v) ->
  handle_matches store nt ent ->
  handle_matches (update_at store e f) nt ent.
Proof.
  intros Hf [v [Hv [Hn Hh]]]. unfold handle_matches.
  rewrite nth_error_update_at. destruct (Nat.eqb e ent).
  - exists (f v). rewrite Hv. destruct (Hf v) as [Hfn Hfh].
    split; [reflexivity|]. split; congruence.
  - exists v. split; [exact Hv|split; assumption].
Qed.

Lemma sum_counts_cons (v : MapValue.t) (s : list MapValue.t) :
  sum_counts (v :: s) = MapValue.count v + sum_counts s.
Proof. reflexivity. Qed.

Lemma sum_counts_app (s1 s2 : list MapValue.t) :
  sum_counts (s1 ++ s2) = sum_counts s1 + sum_counts s2.
Proof.
  induction s1 as [|v s1 IH].
  - change (sum_counts []) with 0. cbn [app]. lia.
  - cbn [app]. rewrite !sum_counts_cons, IH. lia.
Qed.

Lemma sum_counts_bound (store : list MapValue.t) :
  Forall (fun v => 0 <= MapValue.count v) store ->
  forall ent v, nth_error store ent = Some v ->
    0 <= MapValue.count v <= sum_counts store.
Proof.
  induction store as [|w store IH]; intros Hnn ent v Hv.
  - destruct ent; discriminate.
  - inversion Hnn as [|? ? Hw Hs]; subst.
    rewrite sum_counts_cons.
    assert (H0 : 0 <= sum_counts store).
    { clear -Hs. induction store as [|u store IH].
      - change (sum_counts []) with 0. lia.
      - inversion Hs; subst. rewrite sum_counts_cons.
        specialize (IH ltac:(assumption)). lia. }
    destruct ent as [|ent]; cbn [nth_error] in Hv.
    + injection Hv as <-. lia.
    + specialize (IH Hs ent v Hv). lia.
Qed.

Lemma sum_counts_incr (store : list MapValue.t) :
  forall ent v,
    nth_error store ent = Some v ->
    0 <= MapValue.count v -> MapValue.count v + 1 < 2 ^ 32 ->
    sum_counts (update_at store ent incr_count) = sum_counts store + 1.
Proof.
  induction store as [|w store IH]; intros ent v Hv H0 H1.
  - destruct ent; discriminate.
  - destruct ent as [|ent]; cbn [nth_error] in Hv;
      cbn [update_at]; rewrite !sum_counts_cons.
    + injection Hv as <-. cbn [incr_count MapValue.count].
      rewrite u32_small by lia. lia.
    + rewrite (IH ent v Hv H0 H1). lia.
Qed.

Lemma nonneg_update_incr (store : list MapValue.t) (ent : nat) :
  Forall (fun v => 0 <= MapValue.count v) store ->
  Forall (fun v => 0 <= MapValue.count v) (update_at store ent incr_count).
Proof.
  revert ent. induction store as [|w store IH]; intros ent H.
  - destruct ent; constructor.
  - inversion H as [|? ? Hw Hs]; subst.
    destruct ent as [|ent]; cbn [update_at].
    + constructor; [|exact Hs]. cbn [incr_count MapValue.count].
      apply u32_range.
    + constructor; [exact Hw|apply IH; exact Hs].
Qed.

Lemma map_insert_spec (store : list MapValue.t) (nt : NameType.t)
    (store' : list MapValue.t) (ent : nat) (inserted : bool) :
  map_insert store (NameType.name nt) (NameType.hash nt) (new_value nt)
  = (store', ent, inserted) ->
  handle_matches store' nt ent
  /\ (store' = store \/ store' = store ++ [new_value nt])
  /\ sum_counts store' = sum_counts store.
Proof.
  unfold map_insert.
  destruct (map_find store (NameType.name nt) (NameType.hash nt)) as [e|] eqn:Hf;
    intros H; injection H as <- <- <-.
  - apply map_find_Some in Hf. destruct Hf as [v Hv].
    split; [exists v; exact Hv|]. split; [left; reflexivity|reflexivity].
  - split; [|split; [right; reflexivity|]].
    + exists (new_value nt). split; [|split; reflexivity].
      rewrite nth_error_app2 by lia. rewrite Nat.sub_diag. reflexivity.
    + rewrite sum_counts_app, sum_counts_cons.
      change (sum_counts []) with 0. cbn [new_value MapValue.count]. lia.
Qed.

(** ** The insertion phase *)

Lemma task_inv_mono (store store' : list MapValue.t) :
  (forall nt ent, handle_matches store nt ent -> handle_matches store' nt ent) ->
  forall nts t, task_inv store nts t -> task_inv store' nts t.
Proof.
  intros Hm nts t [processed [Hnts Hall]].
  exists processed. split; [exact Hnts|].
  eapply Forall2_impl; [|exact Hall]. exact Hm.
Qed.

Lemma done_total_app (t1 t2 : list Task) :
  done_total (t1 ++ t2) = done_total t1 + done_total t2.
Proof.
  induction t1 as [|t t1 IH]; [reflexivity|].
  cbn [app]. unfold done_total in *. cbn [fold_right]. rewrite IH. lia.
Qed.

Lemma handled_total_app (t1 t2 : list Task) :
  handled_total (t1 ++ t2) = handled_total t1 + handled_total t2.
Proof.
  induction t1 as [|t t1 IH]; [reflexivity|].
  cbn [app]. unfold handled_total in *. cbn [fold_right]. rewrite IH. lia.
Qed.

Lemma done_total_cons (t : Task) (ts : list Task) :
  done_total (t :: ts) = Z.of_nat (length (done t)) + done_total ts.
Proof. reflexivity. Qed.

Lemma handled_total_cons (t : Task) (ts : list Task) :
  handled_total (t :: ts)
  = Z.of_nat (length (done t ++ pending_list t)) + handled_total ts.
Proof. reflexivity. Qed.

Lemma done_le_handled (ts : list Task) : done_total ts <= handled_total ts.
Proof.
  induction ts as [|t ts IH]; [reflexivity|].
  rewrite done_total_cons, handled_total_cons, length_app. lia.
Qed.

Lemma handled_le_total (store : list MapValue.t) :
  forall ntss ts, Forall2 (task_inv store) ntss ts ->
    handled_total ts <= nts_total ntss.
Proof.
  intros ntss ts H. induction H as [|nts t ntss ts Ht _ IH]; [reflexivity|].
  rewrite handled_total_cons.
  change (nts_total (nts :: ntss))
    with (Z.of_nat (length nts) + nts_total ntss).
  destruct Ht as [processed [Hnts Hall]].
  apply Forall2_length in Hall.
  rewrite <- Hall, Hnts, length_app. lia.
Qed.

Lemma Forall2_snoc_inv {A B : Type} (R : A -> B -> Prop) (l : list A)
    (es : list B) (e : B) :
  Forall2 R l (es ++ [e]) ->
  exists l0 x, l = l0 ++ [x] /\ Forall2 R l0 es /\ R x e.
Proof.
  intros H. apply Forall2_app_inv_r in H.
  destruct H as [l0 [l1 [H0 [H1 ->]]]].
  inversion H1 as [|x ? l1' ? Hx Hnil]; subst.
  inversion Hnil; subst.
  exists l0, x. split; [reflexivity|split; assumption].
Qed.

(** A step of the phase keeps every task's handles matched. *)
Lemma phase_step_tasks (ntss : list (list NameType.t))
    (s s' : list MapValue.t * list Task) :
  Forall2 (task_inv (fst s)) ntss (snd s) ->
  phase_step s s' ->
  Forall2 (task_inv (fst s')) ntss (snd s').
Proof.
  intros Htasks Hstep.
  destruct Hstep as [store store' before t t' after Hts].
  cbn [fst snd] in *.
  apply Forall2_app_inv_r in Htasks.
  destruct Htasks as [n1 [n2 [Hbefore [Hrest ->]]]].
  inversion Hrest as [|nts ? n2' ? Ht Hafter]; subst.
  assert (Hmono : forall nt0 e, handle_matches store nt0 e ->
                                handle_matches store' nt0 e).
  { destruct Hts as [store nt rest es store' ent inserted Hins
                    |store rest es ent].
    - apply map_insert_spec in Hins. destruct Hins as [_ [[->| ->] _]];
        [auto|]. intros nt0 e. apply handle_matches_app.
    - intros nt0 e. apply handle_matches_update.
      intros v. split; reflexivity. }
  apply Forall2_app.
  - eapply Forall2_impl; [|exact Hbefore]. apply task_inv_mono. exact Hmono.
  - constructor.
    + destruct Ht as [processed [Hnts Hall]].
      destruct Hts as [store nt rest es store' ent inserted Hins
                      |store rest es ent];
        cbn [todo done pending_list pending] in *.
      * apply map_insert_spec in Hins. destruct Hins as [Hm _].
        exists (processed ++ [nt]). split.
        -- rewrite <- app_assoc. exact Hnts.
        -- rewrite app_nil_r in Hall. apply Forall2_app.
           ++ eapply Forall2_impl; [|exact Hall]. exact Hmono.
           ++ constructor; [exact Hm|constructor].
      * exists processed. split; [exact Hnts|]. rewrite app_nil_r.
        eapply Forall2_impl; [|exact Hall]. exact Hmono.
    + eapply Forall2_impl; [|exact Hafter]. apply task_inv_mono. exact Hmono.
Qed.

Lemma phase_step_inv (ntss : list (list NameType.t))
    (s s' : list MapValue.t * list Task) :
  nts_total ntss < 2 ^ 32 ->
  phase_inv ntss s -> phase_step s s' -> phase_inv ntss s'.
Proof.
  intros Htot [Htasks Hsum Hnn] Hstep.
  constructor; [eapply phase_step_tasks; eassumption| |];
    destruct Hstep as [store store' before t t' after Hts];
    cbn [fst snd] in *;
    pose proof (handled_le_total _ _ _ Htasks) as Hle;
    apply Forall2_app_inv_r in Htasks;
    destruct Htasks as [n1 [n2 [Hbefore [Hrest ->]]]];
    inversion Hrest as [|nts ? n2' ? Ht Hafter]; subst;
    destruct Hts as [store nt rest es store' ent inserted Hins
                    |store rest es ent].
  - apply map_insert_spec in Hins. destruct Hins as [_ [_ Hs]].
    rewrite Hs, Hsum. rewrite !done_total_app, !done_total_cons.
    reflexivity.
  - destruct Ht as [processed [Hnts Hall]].
    cbn [todo done pending_list pending] in *.
    destruct (Forall2_snoc_inv _ _ _ _ Hall) as [l0 [x [_ [_ [v [Hv _]]]]]].
    pose proof (sum_counts_bound store Hnn ent v Hv) as Hcount.
    assert (Hroom : done_total (before ++ {| todo := rest; pending := Some ent;
                                             done := es |} :: after) + 1
                    <= nts_total (n1 ++ nts :: n2')).
    { eapply Z.le_trans; [|exact Hle].
      rewrite !done_total_app, !handled_total_app, !done_total_cons,
        !handled_total_cons.
      cbn [done pending_list pending]. rewrite length_app. cbn [length].
      pose proof (done_le_handled before). pose proof (done_le_handled after).
      lia. }
    rewrite (sum_counts_incr store ent v Hv) by lia.
    rewrite Hsum. rewrite !done_total_app, !done_total_cons.
    cbn [done]. rewrite length_app. cbn [length]. lia.
  - apply map_insert_spec in Hins. destruct Hins as [_ [[->| ->] _]];
      [exact Hnn|].
    apply Forall_app. split; [exact Hnn|].
    constructor; [cbn; lia|constructor].
  - apply nonneg_update_incr. exact Hnn.
Qed.

Lemma phase_steps_tasks (ntss : list (list NameType.t))
    (s s' : list MapValue.t * list Task) :
  phase_steps s s' ->
  Forall2 (task_inv (fst s)) ntss (snd s) ->
  Forall2 (task_inv (fst s')) ntss (snd s').
Proof.
  intros Hsteps. induction Hsteps as [s|s1 s2 s3 _ IH Hstep]; intros Hinv.
  - exact Hinv.
  - eapply phase_step_tasks; [apply IH; exact Hinv|exact Hstep].
Qed.

Lemma phase_steps_inv (ntss : list (list NameType.t))
    (s s' : list MapValue.t * list Task) :
  nts_total ntss < 2 ^ 32 ->
  phase_steps s s' -> phase_inv ntss s -> phase_inv ntss s'.
Proof.
  intros Htot Hsteps. induction Hsteps as [s|s1 s2 s3 _ IH Hstep]; intros Hinv.
  - exact Hinv.
  - eapply phase_step_inv; [exact Htot|apply IH; exact Hinv|exact Hstep].
Qed.

Lemma phase_inv_initial (cus : list Compunit.t) :
  phase_inv (map Compunit.nametypes cus) ([], map initial_task cus).
Proof.
  constructor; cbn [fst snd].
  - induction cus as [|cu cus IH]; cbn [map]; constructor; [|exact IH].
    exists []. split; [reflexivity|]. cbn. constructor.
  - induction cus as [|cu cus IH]; [reflexivity|].
    cbn [map]. rewrite done_total_cons. rewrite <- IH. reflexivity.
  - constructor.
Qed.

Lemma nts_total_map (cus : list Compunit.t) :
  nts_total (map Compunit.nametypes cus) = total_nametypes cus.
Proof.
  induction cus as [|cu cus IH]; [reflexivity|].
  cbn [map]. unfold nts_total, total_nametypes in *. cbn [fold_right].
  rewrite IH. reflexivity.
Qed.

Lemma finished_tasks_match (store : list MapValue.t) :
  forall ntss ts,
    Forall2 (task_inv store) ntss ts -> Forall task_finished ts ->
    Forall2 (fun nts t => Forall2 (handle_matches store) nts (done t)) ntss ts.
Proof.
  intros ntss ts H. induction H as [|nts t ntss ts Ht _ IH]; intros Hfin.
  - constructor.
  - inversion Hfin as [|? ? [Htodo Hpend] Hfin']; subst.
    constructor; [|apply IH; exact Hfin'].
    destruct Ht as [processed [Hnts Hall]].
    unfold pending_list in Hall. rewrite Hpend, app_nil_r in Hall.
    rewrite Htodo, app_nil_r in Hnts. subst nts. exact Hall.
Qed.

Lemma matched_done_total (store : list MapValue.t) :
  forall ntss ts,
    Forall2 (fun nts t => Forall2 (handle_matches store) nts (done t)) ntss ts ->
    done_total ts = nts_total ntss.
Proof.
  intros ntss ts H. induction H as [|nts t ntss ts Ht _ IH]; [reflexivity|].
  rewrite done_total_cons.
  change (nts_total (nts :: ntss))
    with (Z.of_nat (length nts) + nts_total ntss).
  apply Forall2_length in Ht. rewrite IH, Ht. reflexivity.
Qed.

Lemma handle_matches_deref (store : list MapValue.t) (nt : NameType.t)
    (ent : nat) :
  handle_matches store nt ent ->
  (ent < length store)%nat
  /\ MapValue.name (deref store ent) = NameType.name nt
  /\ MapValue.hash (deref store ent) = NameType.hash nt.
Proof.
  intros [v [Hv [Hn Hh]]].
  assert (Hlt : (ent < length store)%nat).
  { apply nth_error_Some. rewrite Hv. discriminate. }
  split; [exact Hlt|]. unfold deref.
  rewrite (nth_error_nth store ent default_value Hv).
  split; assumption.
Qed.

Lemma with_entries_parallel (store : list MapValue.t) :
  forall cus ts,
    Forall2 (fun nts t => Forall2 (handle_matches store) nts (done t))
      (map Compunit.nametypes cus) ts ->
    Forall2
      (fun cu cu' =>
         Compunit.nametypes cu' = Compunit.nametypes cu
         /\ Forall2
              (fun nt ent =>
                 (ent < length store)%nat
                 /\ MapValue.name (deref store ent) = NameType.name nt
                 /\ MapValue.hash (deref store ent) = NameType.hash nt)
              (Compunit.nametypes cu') (Compunit.entries cu'))
      cus (with_entries cus ts).
Proof.
  induction cus as [|cu cus IH]; intros ts H.
  - inversion H; subst. constructor.
  - cbn [map] in H. inversion H as [|? t ? ts' Ht Hrest]; subst.
    unfold with_entries. cbn [combine map fst snd].
    constructor; [|apply IH; exact Hrest].
    cbn [Compunit.set_entries Compunit.nametypes Compunit.entries].
    split; [reflexivity|].
    eapply Forall2_impl; [|exact Ht].
    intros nt ent. apply handle_matches_deref.
Qed.

(** C7: after the insertion phase, whatever the interleaving of the tasks,
    the sum of [count] over all entries of the map equals the sum over all
    compunits of the number of their name tuples (as long as that number
    fits the [u32] counters), and each compunit's [entries] is parallel to
    its [nametypes]: the handle at each position points into the map, to a
    value with the name and the hash of the tuple at that position. *)
Theorem insertion_phase_counts (cus : list Compunit.t)
    (store : list MapValue.t) (tasks : list Task) :
  total_nametypes cus < 2 ^ 32 ->
  insertion_phase cus store tasks ->
  sum_counts store = total_nametypes cus
  /\ Forall2
       (fun cu cu' =>
          Compunit.nametypes cu' = Compunit.nametypes cu
          /\ Forall2
               (fun nt ent =>
                  (ent < length store)%nat
                  /\ MapValue.name (deref store ent) = NameType.name nt
                  /\ MapValue.hash (deref store ent) = NameType.hash nt)
               (Compunit.nametypes cu') (Compunit.entries cu'))
       cus (with_entries cus tasks).
Proof.
  intros Htot [Hsteps Hfin].
  rewrite <- nts_total_map in Htot.
  pose proof (phase_steps_inv _ _ _ Htot Hsteps (phase_inv_initial cus))
    as [Htasks Hsum Hnn].
  cbn [fst snd] in *.
  pose proof (finished_tasks_match _ _ _ Htasks Hfin) as Hmatch.
  split.
  - rewrite Hsum, (matched_done_total _ _ _ Hmatch). apply nts_total_map.
  - apply with_entries_parallel. exact Hmatch.
Qed.

(** The sequential schedule is one run of the phase. *)
Lemma phase_steps_trans (s1 s2 s3 : list MapValue.t * list Task) :
  phase_steps s1 s2 -> phase_steps s2 s3 -> phase_steps s1 s3.
Proof.
  intros H12 H23. induction H23 as [s|s2 s3 s4 _ IH Hstep].
  - exact H12.
  - eapply phase_more; [apply IH; exact H12|exact Hstep].
Qed.

Lemma run_task_steps (before after : list Task) :
  forall nts store es,
    phase_steps
      (store, before ++ {| todo := nts; pending := None; done := es |} :: after)
      (fst (run_task store nts es),
       before ++ {| todo := []; pending := None;
                    done := snd (run_task store nts es) |} :: after).
Proof.
  induction nts as [|nt rest IH]; intros store es.
  - cbn [run_task fst snd]. apply phase_refl.
  - cbn [run_task].
    destruct (map_insert store (NameType.name nt) (NameType.hash nt)
                (new_value nt)) as [[store' ent] inserted] eqn:Hins.
    eapply phase_steps_trans; [|apply IH].
    eapply phase_more; [eapply phase_more; [apply phase_refl|]|].
    + apply phase_step_task. eapply step_insert. exact Hins.
    + apply phase_step_task. apply step_count.
Qed.

Lemma run_tasks_steps :
  forall cus store before,
    phase_steps (store, before ++ map initial_task cus)
                (fst (run_tasks store cus), before ++ snd (run_tasks store cus)).
Proof.
  induction cus as [|cu cus IH]; intros store before.
  - cbn [run_tasks map fst snd]. apply phase_refl.
  - cbn [run_tasks map].
    pose proof (run_task_steps before (map initial_task cus)
                  (Compunit.nametypes cu) store []) as H1.
    destruct (run_task store (Compunit.nametypes cu) []) as [store' es] eqn:Hrun.
    cbn [fst snd] in H1.
    specialize (IH store'
                  (before ++ [{| todo := []; pending := None; done := es |}])).
    destruct (run_tasks store' cus) as [store'' ts] eqn:Hrest.
    cbn [fst snd] in *.
    rewrite <- !app_assoc in IH. cbn [app] in IH.
    eapply phase_steps_trans; [exact H1|exact IH].
Qed.

Lemma run_tasks_finished :
  forall cus store, Forall task_finished (snd (run_tasks store cus)).
Proof.
  induction cus as [|cu cus IH]; intros store.
  - constructor.
  - cbn [run_tasks].
    destruct (run_task store (Compunit.nametypes cu) []) as [store' es].
    specialize (IH store').
    destruct (run_tasks store' cus) as [store'' ts].
    cbn [snd] in *. constructor; [split; reflexivity|exact IH].
Qed.

Lemma run_tasks_is_insertion_phase (cus : list Compunit.t) :
  insertion_phase cus (fst (run_tasks [] cus)) (snd (run_tasks [] cus)).
Proof.
  split; [|apply run_tasks_finished].
  exact (run_tasks_steps cus [] []).
Qed.

Lemma read_compunits_two_symbols :
  read_compunits X86_64 two_symbols_ctx = Ok two_symbols_cus.
Proof. vm_compute. reflexivity. Qed.

(** The three name tuples of [two_symbols_cus], inserted under the
    sequential schedule: the counts of "foo" and "bar" add up to 3. *)
Lemma insertion_phase_counts_example :
  (total_nametypes two_symbols_cus < 2 ^ 32
   /\ insertion_phase two_symbols_cus (fst (run_tasks [] two_symbols_cus))
        (snd (run_tasks [] two_symbols_cus)))
  /\ sum_counts (fst (run_tasks [] two_symbols_cus)) = 3.
Proof.
  assert (H1 : total_nametypes two_symbols_cus < 2 ^ 32)
    by (vm_compute; reflexivity).
  pose proof (run_tasks_is_insertion_phase two_symbols_cus) as H2.
  split; [split; assumption|].
  rewrite (proj1 (insertion_phase_counts two_symbols_cus _ _ H1 H2)).
  vm_compute. reflexivity.
Defined.

(** ** Sorting *)

Section SortBy.

Context {A : Type}.
Variable ltb : A -> A -> bool.
Hypothesis ltb_irrefl : forall a, ltb a a = false.
Hypothesis ltb_trans :
  forall a b c, ltb a b = true -> ltb b c = true -> ltb a c = true.
Hypothesis ltb_negtrans :
  forall a b c, ltb a b = false -> ltb b c = false -> ltb a c = false.

(** [a] is not above [b]. *)

Lemma ltb_asym (a b : A) : ltb a b = true -> ltb b a = false.
Proof.
  intros H. destruct (ltb b a) eqn:Hba; [|reflexivity].
  rewrite <- (ltb_irrefl a). symmetry. eapply ltb_trans; eassumption.
Qed.

Lemma insert_by_perm (x : A) (l : list A) :
  Permutation (insert_by ltb x l) (x :: l).
Proof.
  induction l as [|y l IH]; cbn [insert_by]; [reflexivity|].
  destruct (ltb x y); [reflexivity|].
  rewrite IH. apply perm_swap.
Qed.

Lemma sort_by_perm (l : list A) : Permutation (sort_by ltb l) l.
Proof.
  induction l as [|x l IH]; [reflexivity|].
  unfold sort_by in *. cbn [fold_right].
  rewrite insert_by_perm. constructor. exact IH.
Qed.

Lemma insert_by_sorted (x : A) (l : list A) :
  StronglySorted (leb_of ltb) l ->
  StronglySorted (leb_of ltb) (insert_by ltb x l).
Proof.
  induction l as [|y l IH]; intros Hs; cbn [insert_by].
  - constructor; constructor.
  - inversion Hs as [|? ? Hl Hy]; subst.
    destruct (ltb x y) eqn:Hxy.
    + constructor; [exact Hs|].
      assert (Hle : leb_of ltb x y) by (apply ltb_asym; exact Hxy).
      constructor; [exact Hle|].
      eapply Forall_impl; [|exact Hy].
      intros z Hz. unfold leb_of in *. eapply ltb_negtrans; eassumption.
    + constructor; [apply IH; exact Hl|].
      eapply Permutation_Forall.
      * symmetry. apply insert_by_perm.
      * constructor; [exact Hxy|exact Hy].
Qed.

Lemma sort_by_sorted (l : list A) :
  StronglySorted (leb_of ltb) (sort_by ltb l).
Proof.
  induction l as [|x l IH]; [constructor|].
  unfold sort_by in *. cbn [fold_right]. apply insert_by_sorted. exact IH.
Qed.

(** Two sorted lists with the same elements are equal, when no two
    different elements of them are equivalent for the order. *)
Lemma sorted_perm_unique (l1 l2 : list A) :
  (forall a b, In a l1 -> In b l1 -> ltb a b = false -> ltb b a = false ->
               a = b) ->
  Permutation l1 l2 ->
  StronglySorted (leb_of ltb) l1 -> StronglySorted (leb_of ltb) l2 ->
  l1 = l2.
Proof.
  revert l2. induction l1 as [|x l1 IH]; intros l2 Hanti Hp Hs1 Hs2.
  - apply Permutation_nil in Hp. subst. reflexivity.
  - destruct l2 as [|y l2].
    + symmetry in Hp. apply Permutation_nil in Hp. discriminate.
    + inversion Hs1 as [|? ? Hs1' Hx]; subst.
      inversion Hs2 as [|? ? Hs2' Hy]; subst.
      assert (Hxy : x = y).
      { assert (Hyin : In y (x :: l1)).
        { eapply Permutation_in; [symmetry; exact Hp|left; reflexivity]. }
        assert (Hxin : In x (y :: l2)).
        { eapply Permutation_in; [exact Hp|left; reflexivity]. }
        destruct Hyin as [Heq|Hyin]; [exact Heq|].
        destruct Hxin as [Heq|Hxin]; [symmetry; exact Heq|].
        rewrite Forall_forall in Hx, Hy.
        apply Hanti.
        - left; reflexivity.
        - right; exact Hyin.
        - apply (Hy x Hxin).
        - apply (Hx y Hyin). }
      subst y. f_equal.
      apply IH.
      * intros a b Ha Hb. apply Hanti; right; assumption.
      * eapply Permutation_cons_inv. exact Hp.
      * exact Hs1'.
      * exact Hs2'.
Qed.

Lemma sort_by_perm_unique (l1 l2 : list A) :
  (forall a b, In a l1 -> In b l1 -> ltb a b = false -> ltb b a = false ->
               a = b) ->
  Permutation l1 l2 ->
  sort_by ltb l1 = sort_by ltb l2.
Proof.
  intros Hanti Hp. apply sorted_perm_unique.
  - intros a b Ha Hb. apply Hanti.
    + eapply Permutation_in; [apply sort_by_perm|exact Ha].
    + eapply Permutation_in; [apply sort_by_perm|exact Hb].
  - rewrite sort_by_perm, Hp. symmetry. apply sort_by_perm.
  - apply sort_by_sorted.
  - apply sort_by_sorted.
Qed.

End SortBy.

(** Sorting through a key function. *)
Lemma map_insert_by {A B : Type} (f : A -> B) (ltb : B -> B -> bool)
    (x : A) (l : list A) :
  map f (insert_by (fun a b => ltb (f a) (f b)) x l)
  = insert_by ltb (f x) (map f l).
Proof.
  induction l as [|y l IH]; [reflexivity|].
  cbn [insert_by map]. destruct (ltb (f x) (f y)); [reflexivity|].
  cbn [map]. rewrite IH. reflexivity.
Qed.

Lemma map_sort_by {A B : Type} (f : A -> B) (ltb : B -> B -> bool)
    (l : list A) :
  map f (sort_by (fun a b => ltb (f a) (f b)) l) = sort_by ltb (map f l).
Proof.
  induction l as [|x l IH]; [reflexivity|].
  unfold sort_by in *. cbn [fold_right map].
  rewrite map_insert_by, IH. reflexivity.
Qed.

(** ** The orders on names, name tuples and map values *)

Lemma bytes_ltb_irrefl (a : list byte) : bytes_ltb a a = false.
Proof.
  induction a as [|x a IH]; [reflexivity|].
  cbn [bytes_ltb]. rewrite Z.ltb_irrefl. exact IH.
Qed.

Lemma bytes_ltb_trans (a : list byte) :
  forall b c, bytes_ltb a b = true -> bytes_ltb b c = true ->
              bytes_ltb a c = true.
Proof.
  induction a as [|x a IH]; intros [|y b] [|z c]; cbn [bytes_ltb];
    try discriminate; try reflexivity.
  destruct (Z.ltb_spec (u8_of_byte x) (u8_of_byte y));
    destruct (Z.ltb_spec (u8_of_byte y) (u8_of_byte z));
    destruct (Z.ltb_spec (u8_of_byte x) (u8_of_byte z));
    destruct (Z.ltb_spec (u8_of_byte y) (u8_of_byte x));
    destruct (Z.ltb_spec (u8_of_byte z) (u8_of_byte y));
    destruct (Z.ltb_spec (u8_of_byte z) (u8_of_byte x));
    try discriminate; try reflexivity; try lia.
  apply IH.
Qed.

Lemma bytes_ltb_negtrans (a : list byte) :
  forall b c, bytes_ltb a b = false -> bytes_ltb b c = false ->
              bytes_ltb a c = false.
Proof.
  induction a as [|x a IH]; intros [|y b] [|z c]; cbn [bytes_ltb];
    try discriminate; try reflexivity.
  destruct (Z.ltb_spec (u8_of_byte x) (u8_of_byte y));
    destruct (Z.ltb_spec (u8_of_byte y) (u8_of_byte z));
    destruct (Z.ltb_spec (u8_of_byte x) (u8_of_byte z));
    destruct (Z.ltb_spec (u8_of_byte y) (u8_of_byte x));
    destruct (Z.ltb_spec (u8_of_byte z) (u8_of_byte y));
    destruct (Z.ltb_spec (u8_of_byte z) (u8_of_byte x));
    try discriminate; try reflexivity; try lia.
  apply IH.
Qed.

Lemma bytes_ltb_antisym (a : list byte) :
  forall b, bytes_ltb a b = false -> bytes_ltb b a = false -> a = b.
Proof.
  induction a as [|x a IH]; intros [|y b]; cbn [bytes_ltb];
    try discriminate; try reflexivity.
  destruct (Z.ltb_spec (u8_of_byte x) (u8_of_byte y));
    destruct (Z.ltb_spec (u8_of_byte y) (u8_of_byte x));
    try discriminate.
  intros H1 H2.
  assert (Hxy : x = y) by (apply u8_of_byte_inj; lia).
  rewrite Hxy, (IH b H1 H2). reflexivity.
Qed.

Ltac order_cases :=
  repeat
    match goal with
    | |- context [?a <? ?b] => destruct (Z.ltb_spec a b)
    | H : context [?a <? ?b] |- _ => destruct (Z.ltb_spec a b)
    end;
  try discriminate; try reflexivity; try lia.

Lemma MapValue_ltb_irrefl (a : MapValue.t) : MapValue_ltb a a = false.
Proof.
  unfold MapValue_ltb. rewrite Z.ltb_irrefl. apply bytes_ltb_irrefl.
Qed.

Lemma MapValue_ltb_trans (a b c : MapValue.t) :
  MapValue_ltb a b = true -> MapValue_ltb b c = true ->
  MapValue_ltb a c = true.
Proof.
  unfold MapValue_ltb. order_cases. apply bytes_ltb_trans.
Qed.

Lemma MapValue_ltb_negtrans (a b c : MapValue.t) :
  MapValue_ltb a b = false -> MapValue_ltb b c = false ->
  MapValue_ltb a c = false.
Proof.
  unfold MapValue_ltb. order_cases. apply bytes_ltb_negtrans.
Qed.

Lemma MapValue_ltb_same_key (a b : MapValue.t) :
  MapValue_ltb a b = false -> MapValue_ltb b a = false ->
  MapValue.name a = MapValue.name b /\ MapValue.hash a = MapValue.hash b.
Proof.
  unfold MapValue_ltb. order_cases.
  intros H1 H2. split; [apply bytes_ltb_antisym; assumption|lia].
Qed.

(** ** The contents of the map *)

Lemma counted_app (n1 : list (list NameType.t)) :
  forall t1 n2 t2, length n1 = length t1 ->
    counted (n1 ++ n2) (t1 ++ t2) = counted n1 t1 ++ counted n2 t2.
Proof.
  induction n1 as [|nts n1 IH]; intros [|t t1] n2 t2 Hlen;
    try discriminate; [reflexivity|].
  cbn [app counted]. rewrite IH by (cbn in Hlen; lia).
  rewrite app_assoc. reflexivity.
Qed.

Lemma handled_app (n1 : list (list NameType.t)) :
  forall t1 n2 t2, length n1 = length t1 ->
    handled (n1 ++ n2) (t1 ++ t2) = handled n1 t1 ++ handled n2 t2.
Proof.
  induction n1 as [|nts n1 IH]; intros [|t t1] n2 t2 Hlen;
    try discriminate; [reflexivity|].
  cbn [app handled]. rewrite IH by (cbn in Hlen; lia).
  rewrite app_assoc. reflexivity.
Qed.

Lemma firstn_In_le {A : Type} (x : A) :
  forall (l : list A) n m, (n <= m)%nat -> In x (firstn n l) -> In x (firstn m l).
Proof.
  induction l as [|y l IH]; intros n m Hle Hin.
  - rewrite firstn_nil in Hin. destruct Hin.
  - destruct n as [|n]; [destruct Hin|].
    destruct m as [|m]; [lia|].
    cbn [firstn] in *. destruct Hin as [Heq|Hin]; [left; exact Heq|].
    right. apply (IH n m); [lia|exact Hin].
Qed.

Lemma counted_In_handled (ntss : list (list NameType.t)) :
  forall tasks nt, In nt (counted ntss tasks) -> In nt (handled ntss tasks).
Proof.
  induction ntss as [|nts ntss IH]; intros [|t tasks] nt Hin;
    cbn [counted handled] in *; try destruct Hin.
  apply in_app_iff in Hin. apply in_app_iff.
  destruct Hin as [Hin|Hin]; [left|right; apply IH; exact Hin].
  eapply firstn_In_le; [|exact Hin]. rewrite length_app. lia.
Qed.

Lemma task_inv_firstn (store : list MapValue.t) (nts : list NameType.t)
    (t : Task) :
  task_inv store nts t ->
  Forall2 (handle_matches store)
    (firstn (length (done t ++ pending_list t)) nts)
    (done t ++ pending_list t).
Proof.
  intros [processed [Hnts Hall]].
  pose proof (Forall2_length Hall) as Hlen.
  rewrite Hnts, <- Hlen, firstn_app, firstn_all, Nat.sub_diag.
  cbn [firstn]. rewrite app_nil_r. exact Hall.
Qed.

Lemma handle_matches_key (store : list MapValue.t) (nt : NameType.t)
    (ent : nat) :
  handle_matches store nt ent -> In (nt_key nt) (map key_of store).
Proof.
  intros [v [Hv [Hn Hh]]]. apply in_map_iff. exists v.
  split; [unfold key_of, nt_key; congruence|].
  eapply nth_error_In. exact Hv.
Qed.

Lemma Forall2_In_l {A B : Type} (R : A -> B -> Prop) (l : list A)
    (es : list B) (x : A) :
  Forall2 R l es -> In x l -> exists e, In e es /\ R x e.
Proof.
  intros H. induction H as [|y e l es Hy _ IH]; intros Hin; [destruct Hin|].
  destruct Hin as [<-|Hin].
  - exists e. split; [left; reflexivity|exact Hy].
  - destruct (IH Hin) as [e' [He' Hr]]. exists e'.
    split; [right; exact He'|exact Hr].
Qed.

Lemma handled_keys_in_store (store : list MapValue.t) :
  forall ntss tasks,
    Forall2 (task_inv store) ntss tasks ->
    forall nt, In nt (handled ntss tasks) -> In (nt_key nt) (map key_of store).
Proof.
  intros ntss tasks H. induction H as [|nts t ntss tasks Ht _ IH];
    intros nt Hin; [destruct Hin|].
  cbn [handled] in Hin. apply in_app_iff in Hin.
  destruct Hin as [Hin|Hin]; [|apply IH; exact Hin].
  apply task_inv_firstn in Ht.
  destruct (Forall2_In_l _ _ _ _ Ht Hin) as [ent [_ Hm]].
  eapply handle_matches_key. exact Hm.
Qed.

Lemma map_find_None (store : list MapValue.t) (name : list byte) (hash : Z) :
  map_find store name hash = None -> ~ In (name, hash) (map key_of store).
Proof.
  induction store as [|v store IH]; intros H Hin; [destruct Hin|].
  cbn [map_find] in H. destruct (key_eqb v name hash) eqn:Hk; [discriminate|].
  destruct (map_find store name hash) as [e|] eqn:Hf; [discriminate|].
  destruct Hin as [Heq|Hin]; [|exact (IH eq_refl Hin)].
  unfold key_of in Heq. injection Heq as Hn Hh.
  unfold key_eqb in Hk. rewrite Hn, Hh, bytes_eqb_refl, Z.eqb_refl in Hk.
  discriminate.
Qed.

Lemma occurrences_app (k : list byte * Z) (l1 l2 : list NameType.t) :
  occurrences k (l1 ++ l2) = occurrences k l1 + occurrences k l2.
Proof.
  unfold occurrences. rewrite map_app, count_occ_app. lia.
Qed.

Lemma occurrences_single (k : list byte * Z) (nt : NameType.t) :
  occurrences k [nt] = if key_eq_dec (nt_key nt) k then 1 else 0.
Proof.
  unfold occurrences. cbn [map count_occ].
  destruct (key_eq_dec (nt_key nt) k); reflexivity.
Qed.

Lemma occurrences_not_In (k : list byte * Z) (l : list NameType.t) :
  ~ In k (map nt_key l) -> occurrences k l = 0.
Proof.
  intros H. unfold occurrences.
  apply (count_occ_not_In key_eq_dec) in H. rewrite H. reflexivity.
Qed.

Lemma u32_succ (x : Z) : u32 (u32 x + 1) = u32 (x + 1).
Proof. unfold u32. rewrite Zplus_mod_idemp_l. reflexivity. Qed.

Lemma Forall_nth_error_iff {A : Type} (P : A -> Prop) (l : list A) :
  Forall P l <-> (forall i v, nth_error l i = Some v -> P v).
Proof.
  split.
  - intros H i v Hv. rewrite Forall_forall in H. apply H.
    eapply nth_error_In. exact Hv.
  - intros H. apply Forall_forall. intros v Hin.
    apply In_nth_error in Hin. destruct Hin as [i Hi]. eapply H. exact Hi.
Qed.

Lemma map_key_update_at (store : list MapValue.t) (ent : nat)
    (f : MapValue.t -> MapValue.t) :
  (forall v, key_of (f v) = key_of v) ->
  map key_of (update_at store ent f) = map key_of store.
Proof.
  intros Hf. revert ent.
  induction store as [|v store IH]; intros [|ent]; cbn [update_at map];
    try reflexivity.
  - rewrite Hf. reflexivity.
  - rewrite IH. reflexivity.
Qed.

Lemma NoDup_keys_same_index (store : list MapValue.t) (i j : nat)
    (v w : MapValue.t) :
  NoDup (map key_of store) ->
  nth_error store i = Some v -> nth_error store j = Some w ->
  key_of v = key_of w -> i = j.
Proof.
  intros Hnd Hv Hw Hk.
  rewrite NoDup_nth_error in Hnd. apply Hnd.
  - rewrite length_map. apply nth_error_Some. rewrite Hv. discriminate.
  - rewrite !nth_error_map, Hv, Hw. cbn [option_map]. rewrite Hk. reflexivity.
Qed.

Lemma value_ok_handled_mono (ntss : list (list NameType.t))
    (tasks tasks' : list Task) (v : MapValue.t) :
  counted ntss tasks' = counted ntss tasks ->
  (forall nt, In nt (handled ntss tasks) -> In nt (handled ntss tasks')) ->
  value_ok ntss tasks v -> value_ok ntss tasks' v.
Proof.
  intros Hc Hh [Hn [Ht [Hcount Hin]]].
  split; [exact Hn|]. split; [exact Ht|]. split.
  - rewrite Hc. exact Hcount.
  - apply in_map_iff in Hin. destruct Hin as [nt [Hk Hin]].
    apply in_map_iff. exists nt. split; [exact Hk|apply Hh; exact Hin].
Qed.

(** A step of the phase keeps the contents of the map as described. *)
Lemma phase_step_content (ntss : list (list NameType.t))
    (s s' : list MapValue.t * list Task) :
  Forall2 (task_inv (fst s)) ntss (snd s) ->
  content_inv ntss s -> phase_step s s' -> content_inv ntss s'.
Proof.
  intros Htasks [Hnd Hok] Hstep.
  destruct Hstep as [store store' before t t' after Hts].
  unfold content_inv. cbn [fst snd] in *.
  pose proof (handled_keys_in_store _ _ _ Htasks) as Hkeys.
  apply Forall2_app_inv_r in Htasks.
  destruct Htasks as [n1 [n2 [Hbefore [Hrest ->]]]].
  inversion Hrest as [|nts ? n2' ? Ht Hafter]; subst.
  pose proof (Forall2_length Hbefore) as Hlen.
  destruct Hts as [store nt rest es store' ent inserted Hins
                  |store rest es ent].
  - (* the call of map.insert *)
    destruct Ht as [processed [Hnts Hall]].
    cbn [todo done pending_list pending] in Hnts, Hall.
    rewrite app_nil_r in Hall.
    pose proof (Forall2_length Hall) as Hplen.
    assert (Hc : counted (n1 ++ nts :: n2')
                   (before ++ {| todo := rest; pending := Some ent;
                                 done := es |} :: after)
                 = counted (n1 ++ nts :: n2')
                     (before ++ {| todo := nt :: rest; pending := None;
                                   done := es |} :: after)).
    { rewrite !counted_app by exact Hlen. reflexivity. }
    assert (Hh : forall x,
               In x (handled (n1 ++ nts :: n2')
                       (before ++ {| todo := nt :: rest; pending := None;
                                     done := es |} :: after)) ->
               In x (handled (n1 ++ nts :: n2')
                       (before ++ {| todo := rest; pending := Some ent;
                                     done := es |} :: after))).
    { intros x. rewrite !handled_app by exact Hlen.
      cbn [handled done pending_list pending].
      rewrite !in_app_iff. intros [H|[H|H]]; auto.
      right. left. eapply firstn_In_le; [|exact H].
      rewrite !length_app. cbn [length]. lia. }
    assert (Hnew : In nt (handled (n1 ++ nts :: n2')
                            (before ++ {| todo := rest; pending := Some ent;
                                          done := es |} :: after))).
    { rewrite handled_app by exact Hlen.
      cbn [handled done pending_list pending].
      rewrite !in_app_iff. right. left.
      rewrite Hnts, length_app, <- Hplen. cbn [length].
      rewrite firstn_app.
      replace (length processed + 1 - length processed)%nat with 1%nat by lia.
      rewrite firstn_all2 by lia. cbn [firstn].
      apply in_app_iff. right. left. reflexivity. }
    unfold map_insert in Hins.
    destruct (map_find store (NameType.name nt) (NameType.hash nt))
      as [e|] eqn:Hf; injection Hins as <- <- <-.
    + split; [exact Hnd|].
      eapply Forall_impl; [|exact Hok].
      intros v. apply value_ok_handled_mono; assumption.
    + apply map_find_None in Hf. split.
      * rewrite map_app. cbn [map].
        eapply Permutation_NoDup; [apply Permutation_cons_append|].
        constructor; [exact Hf|exact Hnd].
      * apply Forall_app. split.
        -- eapply Forall_impl; [|exact Hok].
           intros v. apply value_ok_handled_mono; assumption.
        -- constructor; [|constructor].
           split; [reflexivity|]. split; [reflexivity|]. split.
           ++ cbn [new_value MapValue.count].
              rewrite occurrences_not_In; [reflexivity|].
              rewrite Hc. intros Hin. apply Hf.
              apply in_map_iff in Hin. destruct Hin as [x [Hk Hin]].
              change (NameType.name nt, NameType.hash nt) with (nt_key nt).
              change (key_of (new_value nt)) with (nt_key nt) in Hk.
              rewrite <- Hk. apply Hkeys. apply counted_In_handled.
              exact Hin.
           ++ apply in_map_iff. exists nt. split; [reflexivity|exact Hnew].
  - (* the increment of the count and the push_back *)
    pose proof (task_inv_firstn _ _ _ Ht) as Hfirst.
    cbn [todo done pending_list pending] in Hfirst.
    destruct (Forall2_snoc_inv _ _ _ _ Hfirst) as [l0 [x [Hl0 [Hl0es Hx]]]].
    pose proof (Forall2_length Hl0es) as Hl0len.
    assert (Hfe : firstn (length es) nts = l0).
    { assert (Hff : firstn (length es) (firstn (length (es ++ [ent])) nts)
                    = firstn (length es) nts).
      { rewrite firstn_firstn. f_equal. rewrite length_app. cbn [length].
        lia. }
      rewrite <- Hff, Hl0, firstn_app, <- Hl0len, firstn_all, Nat.sub_diag.
      cbn [firstn]. apply app_nil_r. }
    assert (Hh : handled (n1 ++ nts :: n2')
                   (before ++ {| todo := rest; pending := None;
                                 done := es ++ [ent] |} :: after)
                 = handled (n1 ++ nts :: n2')
                     (before ++ {| todo := rest; pending := Some ent;
                                   done := es |} :: after)).
    { rewrite !handled_app by exact Hlen.
      cbn [handled done pending_list pending]. rewrite app_nil_r.
      reflexivity. }
    assert (Hocc : forall k,
               occurrences k
                 (counted (n1 ++ nts :: n2')
                    (before ++ {| todo := rest; pending := None;
                                  done := es ++ [ent] |} :: after))
               = occurrences k
                   (counted (n1 ++ nts :: n2')
                      (before ++ {| todo := rest; pending := Some ent;
                                    done := es |} :: after))
                 + if key_eq_dec (nt_key x) k then 1 else 0).
    { intros k. rewrite !counted_app by exact Hlen.
      cbn [counted done]. rewrite Hl0, Hfe.
      rewrite !occurrences_app, occurrences_single. lia. }
    destruct Hx as [w [Hw [Hwn Hwh]]].
    assert (Hwk : key_of w = nt_key x).
    { unfold key_of, nt_key. congruence. }
    split.
    + rewrite map_key_update_at; [exact Hnd|]. intros v. reflexivity.
    + apply Forall_nth_error_iff. intros i v Hv.
      rewrite Forall_nth_error_iff in Hok.
      rewrite nth_error_update_at in Hv.
      destruct (Nat.eqb_spec ent i) as [->|Hne].
      * rewrite Hw in Hv. cbn [option_map] in Hv. injection Hv as <-.
        destruct (Hok i w Hw) as [Hn [Hto [Hcount Hin]]].
        split; [exact Hn|]. split; [exact Hto|]. split.
        -- cbn [incr_count MapValue.count]. rewrite Hcount, u32_succ.
           change (key_of (incr_count w)) with (key_of w).
           rewrite Hocc. destruct (key_eq_dec (nt_key x) (key_of w));
             [reflexivity|congruence].
        -- change (key_of (incr_count w)) with (key_of w).
           rewrite Hh. exact Hin.
      * destruct (Hok i v Hv) as [Hn [Hto [Hcount Hin]]].
        split; [exact Hn|]. split; [exact Hto|]. split.
        -- rewrite Hcount, Hocc.
           destruct (key_eq_dec (nt_key x) (key_of v)) as [Heq|_];
             [|f_equal; lia].
           exfalso. apply Hne.
           eapply NoDup_keys_same_index; [exact Hnd|exact Hw|exact Hv|].
           congruence.
        -- rewrite Hh. exact Hin.
Qed.

Lemma phase_steps_content (ntss : list (list NameType.t))
    (s s' : list MapValue.t * list Task) :
  phase_steps s s' ->
  Forall2 (task_inv (fst s)) ntss (snd s) /\ content_inv ntss s ->
  Forall2 (task_inv (fst s')) ntss (snd s') /\ content_inv ntss s'.
Proof.
  intros Hsteps. induction Hsteps as [s|s1 s2 s3 _ IH Hstep]; intros Hinv.
  - exact Hinv.
  - destruct (IH Hinv) as [Ht Hc]. split.
    + eapply phase_step_tasks; eassumption.
    + eapply phase_step_content; eassumption.
Qed.

Lemma content_inv_initial (cus : list Compunit.t) :
  content_inv (map Compunit.nametypes cus) ([], map initial_task cus).
Proof. split; cbn [fst snd]; constructor. Qed.

Lemma finished_counted (store : list MapValue.t) :
  forall ntss tasks,
    Forall2 (task_inv store) ntss tasks -> Forall task_finished tasks ->
    counted ntss tasks = concat ntss /\ handled ntss tasks = concat ntss.
Proof.
  intros ntss tasks H. induction H as [|nts t ntss tasks Ht _ IH];
    intros Hfin; [split; reflexivity|].
  inversion Hfin as [|? ? [Htodo Hpend] Hfin']; subst.
  destruct (IH Hfin') as [IHc IHh].
  destruct Ht as [processed [Hnts Hall]].
  unfold pending_list in Hall. rewrite Hpend, app_nil_r in Hall.
  rewrite Htodo, app_nil_r in Hnts. subst processed.
  pose proof (Forall2_length Hall) as Hlen.
  cbn [counted handled concat]. unfold pending_list. rewrite Hpend, app_nil_r.
  rewrite IHc, IHh, <- Hlen, firstn_all. split; reflexivity.
Qed.

(** The map at the end of the phase, whatever the interleaving: one value
    for each key among the name tuples of all compunits, with the number
    of tuples of that key as its count. *)
Lemma final_store (cus : list Compunit.t) (store : list MapValue.t)
    (tasks : list Task) :
  insertion_phase cus store tasks ->
  NoDup (map key_of store)
  /\ (forall v, In v store ->
        v = canonical_value (concat (map Compunit.nametypes cus)) (key_of v)
        /\ In (key_of v) (map nt_key (concat (map Compunit.nametypes cus))))
  /\ (forall nt, In nt (concat (map Compunit.nametypes cus)) ->
        In (canonical_value (concat (map Compunit.nametypes cus)) (nt_key nt))
           store).
Proof.
  intros [Hsteps Hfin].
  destruct (phase_steps_content (map Compunit.nametypes cus) _ _ Hsteps)
    as [Htasks [Hnd Hok]].
  { split; [apply phase_inv_initial|apply content_inv_initial]. }
  cbn [fst snd] in *.
  destruct (finished_counted _ _ _ Htasks Hfin) as [Hc Hh].
  assert (Hcanon : forall v, In v store ->
    v = canonical_value (concat (map Compunit.nametypes cus)) (key_of v)
    /\ In (key_of v) (map nt_key (concat (map Compunit.nametypes cus)))).
  { intros v Hv. rewrite Forall_forall in Hok.
    destruct (Hok v Hv) as [Hn [Ht [Hcount Hin]]].
    rewrite Hc in Hcount. rewrite Hh in Hin. split; [|exact Hin].
    destruct v as [name hash count name_offset type_offset].
    unfold canonical_value, key_of in *. cbn in *. congruence. }
  split; [exact Hnd|]. split; [exact Hcanon|].
  intros nt Hnt. rewrite <- Hh in Hnt.
  pose proof (handled_keys_in_store _ _ _ Htasks nt Hnt) as Hk.
  apply in_map_iff in Hk. destruct Hk as [v [Hkv Hv]].
  destruct (Hcanon v Hv) as [Heq _]. rewrite <- Hkv, <- Heq. exact Hv.
Qed.

Lemma final_stores_permutation (cus : list Compunit.t)
    (store1 store2 : list MapValue.t) (tasks1 tasks2 : list Task) :
  insertion_phase cus store1 tasks1 ->
  insertion_phase cus store2 tasks2 ->
  Permutation store1 store2.
Proof.
  intros H1 H2.
  destruct (final_store _ _ _ H1) as [Hnd1 [Hc1 Hall1]].
  destruct (final_store _ _ _ H2) as [Hnd2 [Hc2 Hall2]].
  apply NoDup_Permutation.
  - eapply NoDup_map_inv. exact Hnd1.
  - eapply NoDup_map_inv. exact Hnd2.
  - intros v. split; intros Hv.
    + destruct (Hc1 v Hv) as [Heq Hin].
      apply in_map_iff in Hin. destruct Hin as [nt [Hk Hnt]].
      rewrite Heq, <- Hk. apply Hall2. exact Hnt.
    + destruct (Hc2 v Hv) as [Heq Hin].
      apply in_map_iff in Hin. destruct Hin as [nt [Hk Hnt]].
      rewrite Heq, <- Hk. apply Hall1. exact Hnt.
Qed.

(** ** Handles and the values they point to *)

Lemma deref_nth_error (store : list MapValue.t) (h : nat) :
  deref store h
  = match nth_error store h with Some v => v | None => default_value end.
Proof.
  unfold deref. destruct (nth_error store h) as [v|] eqn:Hv.
  - apply nth_error_nth. exact Hv.
  - apply nth_overflow. apply nth_error_None. exact Hv.
Qed.

Lemma deref_update_at_same (store : list MapValue.t) (h : nat)
    (f : MapValue.t -> MapValue.t) :
  (h < length store)%nat ->
  deref (update_at store h f) h = f (deref store h).
Proof.
  intros Hlt. rewrite !deref_nth_error, nth_error_update_at, Nat.eqb_refl.
  destruct (nth_error store h) as [v|] eqn:Hv; [reflexivity|].
  apply nth_error_None in Hv. lia.
Qed.

Lemma deref_update_at_other (store : list MapValue.t) (e h : nat)
    (f : MapValue.t -> MapValue.t) :
  e <> h -> deref (update_at store e f) h = deref store h.
Proof.
  intros Hne. rewrite !deref_nth_error, nth_error_update_at.
  destruct (Nat.eqb_spec e h); [contradiction|reflexivity].
Qed.

Lemma map_deref_update_at (store : list MapValue.t) (e : nat)
    (f : MapValue.t -> MapValue.t) (es : list nat) :
  ~ In e es -> map (deref (update_at store e f)) es = map (deref store) es.
Proof.
  intros Hnot. apply map_ext_in. intros h Hh.
  apply deref_update_at_other. intros ->. exact (Hnot Hh).
Qed.

Lemma map_deref_seq (store : list MapValue.t) :
  map (deref store) (seq 0 (length store)) = store.
Proof.
  induction store as [|v store IH]; [reflexivity|].
  cbn [length seq map]. f_equal.
  rewrite <- seq_shift, map_map. exact IH.
Qed.

Lemma assign_type_offsets_layout :
  forall es store off,
    NoDup es -> Forall (fun h => (h < length store)%nat) es ->
    map (deref (fst (assign_type_offsets store es off))) es
    = fst (type_layout off (map (deref store) es))
    /\ snd (assign_type_offsets store es off)
       = snd (type_layout off (map (deref store) es))
    /\ length (fst (assign_type_offsets store es off)) = length store
    /\ (forall h, ~ In h es ->
          deref (fst (assign_type_offsets store es off)) h = deref store h)
    /\ (forall h, key_of (deref (fst (assign_type_offsets store es off)) h)
                  = key_of (deref store h)).
Proof.
  induction es as [|e es IH]; intros store off Hnd Hval.
  - cbn. repeat split; reflexivity.
  - inversion Hnd as [|? ? Hnot Hnd']; subst.
    inversion Hval as [|? ? He Hval']; subst.
    cbn [assign_type_offsets map type_layout].
    set (store1 := update_at store e (set_type_offset (u32 off))).
    set (off1 := off + u32 (u32 (MapValue.count (deref store e) * 4) + 4)).
    assert (Hval1 : Forall (fun h => (h < length store1)%nat) es).
    { unfold store1. rewrite length_update_at. exact Hval'. }
    destruct (IH store1 off1 Hnd' Hval1) as [Hmap [Hoff [Hlen [Hframe Hkey]]]].
    assert (Hmap1 : map (deref store1) es = map (deref store) es).
    { unfold store1. apply map_deref_update_at. exact Hnot. }
    rewrite Hmap1 in Hmap, Hoff.
    destruct (type_layout off1 (map (deref store) es)) as [rest' off'] eqn:Hl.
    cbn [fst snd] in *. split; [|split; [|split; [|split]]].
    + f_equal; [|exact Hmap].
      rewrite (Hframe e Hnot). unfold store1.
      apply deref_update_at_same. exact He.
    + exact Hoff.
    + rewrite Hlen. unfold store1. apply length_update_at.
    + intros h Hh. rewrite Hframe by (intros Hin; apply Hh; right; exact Hin).
      unfold store1. apply deref_update_at_other.
      intros ->. apply Hh. left. reflexivity.
    + intros h. rewrite Hkey. unfold store1.
      destruct (Nat.eq_dec e h) as [->|Hne].
      * destruct (Nat.lt_ge_cases h (length store)) as [Hlt|Hge].
        -- rewrite deref_update_at_same by exact Hlt. reflexivity.
        -- rewrite !deref_nth_error, nth_error_update_at, Nat.eqb_refl.
           assert (Hn : nth_error store h = None) by (apply nth_error_None; lia).
           rewrite Hn. reflexivity.
      * rewrite deref_update_at_other by exact Hne. reflexivity.
Qed.

Lemma assign_name_offsets_layout :
  forall es store off,
    NoDup es -> Forall (fun h => (h < length store)%nat) es ->
    map (deref (fst (assign_name_offsets store es off))) es
    = fst (name_layout off (map (deref store) es))
    /\ snd (assign_name_offsets store es off)
       = snd (name_layout off (map (deref store) es))
    /\ length (fst (assign_name_offsets store es off)) = length store
    /\ (forall h, ~ In h es ->
          deref (fst (assign_name_offsets store es off)) h = deref store h)
    /\ (forall h, key_of (deref (fst (assign_name_offsets store es off)) h)
                  = key_of (deref store h)).
Proof.
  induction es as [|e es IH]; intros store off Hnd Hval.
  - cbn. repeat split; reflexivity.
  - inversion Hnd as [|? ? Hnot Hnd']; subst.
    inversion Hval as [|? ? He Hval']; subst.
    cbn [assign_name_offsets map name_layout].
    set (store1 := update_at store e (set_name_offset (u32 off))).
    set (off1 := off + (Z.of_nat (length (MapValue.name (deref store e))) + 1)).
    assert (Hval1 : Forall (fun h => (h < length store1)%nat) es).
    { unfold store1. rewrite length_update_at. exact Hval'. }
    destruct (IH store1 off1 Hnd' Hval1) as [Hmap [Hoff [Hlen [Hframe Hkey]]]].
    assert (Hmap1 : map (deref store1) es = map (deref store) es).
    { unfold store1. apply map_deref_update_at. exact Hnot. }
    rewrite Hmap1 in Hmap, Hoff.
    destruct (name_layout off1 (map (deref store) es)) as [rest' off'] eqn:Hl.
    cbn [fst snd] in *. split; [|split; [|split; [|split]]].
    + f_equal; [|exact Hmap].
      rewrite (Hframe e Hnot). unfold store1.
      apply deref_update_at_same. exact He.
    + exact Hoff.
    + rewrite Hlen. unfold store1. apply length_update_at.
    + intros h Hh. rewrite Hframe by (intros Hin; apply Hh; right; exact Hin).
      unfold store1. apply deref_update_at_other.
      intros ->. apply Hh. left. reflexivity.
    + intros h. rewrite Hkey. unfold store1.
      destruct (Nat.eq_dec e h) as [->|Hne].
      * destruct (Nat.lt_ge_cases h (length store)) as [Hlt|Hge].
        -- rewrite deref_update_at_same by exact Hlt. reflexivity.
        -- rewrite !deref_nth_error, nth_error_update_at, Nat.eqb_refl.
           assert (Hn : nth_error store h = None) by (apply nth_error_None; lia).
           rewrite Hn. reflexivity.
      * rewrite deref_update_at_other by exact Hne. reflexivity.
Qed.

(** ** The emission reads the map only through the sorted values *)

Lemma emit_symtab_ext (ht ht_size : Z) (s1 s2 : list MapValue.t) :
  forall es1 es2 buf,
    map (deref s1) es1 = map (deref s2) es2 ->
    emit_symtab buf ht ht_size s1 es1 = emit_symtab buf ht ht_size s2 es2.
Proof.
  induction es1 as [|e1 es1 IH]; intros [|e2 es2] buf Hmap;
    try discriminate; [reflexivity|].
  cbn [map] in Hmap. injection Hmap as Hhead Htail.
  cbn [emit_symtab]. rewrite Hhead.
  destruct (emit_symbol buf ht ht_size (deref s2 e2)) as [buf'| | | |];
    try reflexivity.
  cbn [bind]. apply IH. exact Htail.
Qed.

Lemma emit_names_ext (base : Z) (s1 s2 : list MapValue.t) :
  forall es1 es2 buf,
    map (deref s1) es1 = map (deref s2) es2 ->
    emit_names buf base s1 es1 = emit_names buf base s2 es2.
Proof.
  induction es1 as [|e1 es1 IH]; intros [|e2 es2] buf Hmap;
    try discriminate; [reflexivity|].
  cbn [map] in Hmap. injection Hmap as Hhead Htail.
  cbn [emit_names]. rewrite Hhead.
  destruct (write_string buf (base + MapValue.name_offset (deref s2 e2))
              (MapValue.name (deref s2 e2))) as [buf'| | | |];
    try reflexivity.
  cbn [bind]. apply IH. exact Htail.
Qed.

Lemma emit_types_of_cu_ext (base i : Z) (s1 s2 : list MapValue.t) :
  forall nts es1 es2 buf,
    Forall2 (fun h1 h2 => deref s1 h1 = deref s2 h2) es1 es2 ->
    emit_types_of_cu buf base i s1 nts es1
    = emit_types_of_cu buf base i s2 nts es2.
Proof.
  induction nts as [|nt nts IH]; intros es1 es2 buf Hes; [reflexivity|].
  destruct Hes as [|h1 h2 es1 es2 Hh Hes]; [reflexivity|].
  cbn [emit_types_of_cu]. rewrite Hh. cbv zeta.
  destruct (load_ul32 buf (base + MapValue.type_offset (deref s2 h2)))
    as [c| | | |]; try reflexivity.
  cbn [bind].
  destruct (store_ul32 buf (base + MapValue.type_offset (deref s2 h2))
              (u32 (c + 1))) as [buf1| | | |]; try reflexivity.
  cbn [bind].
  destruct (store_ul32 buf1
              (base + MapValue.type_offset (deref s2 h2) + 4 * u32 (c + 1))
              (Z.lor (Z.shiftl (NameType.type nt) 24) i))
    as [buf2| | | |]; try reflexivity.
  cbn [bind]. apply IH. exact Hes.
Qed.

(** Two compunits with the same offset, size, ranges and name tuples. *)

Lemma emit_types_ext (base : Z) (s1 s2 : list MapValue.t) :
  forall cus1 cus2 i buf,
    Forall2
      (fun cu1 cu2 =>
         Compunit.nametypes cu1 = Compunit.nametypes cu2
         /\ Forall2 (fun h1 h2 => deref s1 h1 = deref s2 h2)
              (Compunit.entries cu1) (Compunit.entries cu2))
      cus1 cus2 ->
    emit_types buf base i s1 cus1 = emit_types buf base i s2 cus2.
Proof.
  intros cus1 cus2 i buf H. revert i buf.
  induction H as [|cu1 cu2 cus1 cus2 [Hn He] _ IH]; intros i buf;
    [reflexivity|].
  cbn [emit_types]. rewrite Hn.
  rewrite (emit_types_of_cu_ext base i s1 s2 _ _ _ buf He).
  destruct (emit_types_of_cu buf base i s2 (Compunit.nametypes cu2)
              (Compunit.entries cu2)) as [buf'| | | |]; try reflexivity.
  cbn [bind]. apply IH.
Qed.

Lemma emit_cu_list_ext :
  forall cus1 cus2 buf p,
    Forall2 cu_agree cus1 cus2 ->
    emit_cu_list buf p cus1 = emit_cu_list buf p cus2.
Proof.
  intros cus1 cus2 buf p H. revert buf p.
  induction H as [|cu1 cu2 cus1 cus2 [Ho [Hs _]] _ IH]; intros buf p;
    [reflexivity|].
  cbn [emit_cu_list]. rewrite Ho, Hs.
  destruct (store_ul64 buf p (Compunit.offset cu2)) as [b1| | | |];
    try reflexivity.
  cbn [bind].
  destruct (store_ul64 b1 (p + 8) (Compunit.size cu2)) as [b2| | | |];
    try reflexivity.
  cbn [bind]. apply IH.
Qed.

Lemma emit_address_areas_ext :
  forall cus1 cus2 buf p i,
    Forall2 cu_agree cus1 cus2 ->
    emit_address_areas buf p i cus1 = emit_address_areas buf p i cus2.
Proof.
  intros cus1 cus2 buf p i H. revert buf p i.
  induction H as [|cu1 cu2 cus1 cus2 [_ [_ [Hr _]]] _ IH]; intros buf p i;
    [reflexivity|].
  cbn [emit_address_areas]. rewrite Hr.
  destruct (emit_ranges buf p i (Compunit.ranges cu2)) as [[b1 p1]| | | |];
    try reflexivity.
  cbn [bind]. apply IH.
Qed.

Lemma compute_header_ext (card : Z) :
  forall cus1 cus2, Forall2 cu_agree cus1 cus2 ->
    compute_header cus1 card = compute_header cus2 card.
Proof.
  intros cus1 cus2 H. unfold compute_header.
  rewrite (Forall2_length H).
  assert (Hfold : forall acc,
    fold_left
      (fun acc cu => u32 (acc + Z.of_nat (length (Compunit.ranges cu)) * 20))
      cus1 acc
    = fold_left
        (fun acc cu => u32 (acc + Z.of_nat (length (Compunit.ranges cu)) * 20))
        cus2 acc).
  { induction H as [|cu1 cu2 cus1 cus2 [_ [_ [Hr _]]] _ IH]; intros acc;
      [reflexivity|].
    cbn [fold_left]. rewrite Hr. apply IH. }
  cbv zeta. rewrite Hfold. reflexivity.
Qed.

Lemma NoDup_keys_In_eq (l : list MapValue.t) (a b : MapValue.t) :
  NoDup (map key_of l) -> In a l -> In b l -> key_of a = key_of b -> a = b.
Proof.
  intros Hnd Ha Hb Hk.
  apply In_nth_error in Ha. destruct Ha as [i Hi].
  apply In_nth_error in Hb. destruct Hb as [j Hj].
  assert (Hij : i = j) by (eapply NoDup_keys_same_index; eassumption).
  subst j. congruence.
Qed.

(** The emitted bytes depend on the map, on the order of the bucket scan
    and on the handles of the compunits only through the sorted values and
    through the keys the handles point to. *)
Lemma emit_gdb_index_ext (cus1 cus2 : list Compunit.t)
    (store1 store2 : list MapValue.t) (scan1 scan2 : list nat) (card : Z) :
  Forall2 cu_agree cus1 cus2 ->
  NoDup (sort_entries store1 scan1) ->
  NoDup (sort_entries store2 scan2) ->
  Forall (fun h => (h < length store1)%nat) (sort_entries store1 scan1) ->
  Forall (fun h => (h < length store2)%nat) (sort_entries store2 scan2) ->
  map (deref store1) (sort_entries store1 scan1)
  = map (deref store2) (sort_entries store2 scan2) ->
  NoDup (map key_of (map (deref store1) (sort_entries store1 scan1))) ->
  Forall2
    (fun cu1 cu2 =>
       Forall2
         (fun h1 h2 =>
            In h1 (sort_entries store1 scan1)
            /\ In h2 (sort_entries store2 scan2)
            /\ key_of (deref store1 h1) = key_of (deref store2 h2))
         (Compunit.entries cu1) (Compunit.entries cu2))
    cus1 cus2 ->
  emit_gdb_index cus1 store1 scan1 card = emit_gdb_index cus2 store2 scan2 card.
Proof.
  intros Hcus Hnd1 Hnd2 Hv1 Hv2 Hvals Hkeys Hent.
  unfold emit_gdb_index.
  set (es1 := sort_entries store1 scan1) in *.
  set (es2 := sort_entries store2 scan2) in *.
  cbv zeta.
  destruct (assign_type_offsets_layout es1 store1 0 Hnd1 Hv1)
    as [Ht1 [Hto1 [Htl1 [_ Htk1]]]].
  destruct (assign_type_offsets_layout es2 store2 0 Hnd2 Hv2)
    as [Ht2 [Hto2 [Htl2 [_ Htk2]]]].
  destruct (assign_type_offsets store1 es1 0) as [st1 off1].
  destruct (assign_type_offsets store2 es2 0) as [st2 off2].
  cbn [fst snd] in *.
  assert (Hoff : off2 = off1) by (rewrite Hto1, Hto2, Hvals; reflexivity).
  clear Hto1 Hto2. subst off2.
  assert (Hv1' : Forall (fun h => (h < length st1)%nat) es1)
    by (rewrite Htl1; exact Hv1).
  assert (Hv2' : Forall (fun h => (h < length st2)%nat) es2)
    by (rewrite Htl2; exact Hv2).
  destruct (assign_name_offsets_layout es1 st1 off1 Hnd1 Hv1')
    as [Hn1 [Hno1 [_ [_ Hnk1]]]].
  destruct (assign_name_offsets_layout es2 st2 off1 Hnd2 Hv2')
    as [Hn2 [Hno2 [_ [_ Hnk2]]]].
  destruct (assign_name_offsets st1 es1 off1) as [sn1 offn1].
  destruct (assign_name_offsets st2 es2 off1) as [sn2 offn2].
  cbn [fst snd] in *.
  assert (Hst : map (deref st1) es1 = map (deref st2) es2)
    by (rewrite Ht1, Ht2, Hvals; reflexivity).
  assert (Hoffn : offn2 = offn1) by (rewrite Hno1, Hno2, Hst; reflexivity).
  clear Hno1 Hno2. subst offn2.
  assert (Hsn : map (deref sn1) es1 = map (deref sn2) es2)
    by (rewrite Hn1, Hn2, Hst; reflexivity).
  assert (Hkeysn : NoDup (map key_of (map (deref sn1) es1))).
  { replace (map key_of (map (deref sn1) es1))
      with (map key_of (map (deref store1) es1)); [exact Hkeys|].
    rewrite !map_map. apply map_ext. intros h.
    rewrite Hnk1, Htk1. reflexivity. }
  assert (Hent' : Forall2
            (fun cu1 cu2 =>
               Compunit.nametypes cu1 = Compunit.nametypes cu2
               /\ Forall2 (fun h1 h2 => deref sn1 h1 = deref sn2 h2)
                    (Compunit.entries cu1) (Compunit.entries cu2))
            cus1 cus2).
  { clear -Hcus Hent Hsn Hkeysn Hnk1 Hnk2 Htk1 Htk2.
    induction Hcus as [|cu1 cu2 cus1 cus2 [_ [_ [_ Hnts]]] _ IH].
    - constructor.
    - inversion Hent as [|? ? ? ? He Hrest]; subst.
      constructor; [|apply IH; exact Hrest].
      split; [exact Hnts|].
      eapply Forall2_impl; [|exact He].
      intros h1 h2 [Hin1 [Hin2 Hk]].
      apply (NoDup_keys_In_eq (map (deref sn1) es1)).
      + exact Hkeysn.
      + apply in_map. exact Hin1.
      + rewrite Hsn. apply in_map. exact Hin2.
      + rewrite Hnk1, Htk1, Hnk2, Htk2. exact Hk. }
  rewrite (compute_header_ext card cus1 cus2 Hcus).
  destruct (emit_header
              (repeat "000"%byte
                 (Z.to_nat (const_pool_offset (compute_header cus2 card) + offn1)))
              (compute_header cus2 card)) as [b0| | | |]; try reflexivity.
  cbn [bind].
  rewrite (emit_cu_list_ext cus1 cus2 b0 sizeof_hdr Hcus).
  destruct (emit_cu_list b0 sizeof_hdr cus2) as [[b1 p1]| | | |];
    try reflexivity.
  cbn [bind].
  rewrite (emit_address_areas_ext cus1 cus2 b1 p1 0 Hcus).
  destruct (emit_address_areas b1 p1 0 cus2) as [[b2 p2]| | | |];
    try reflexivity.
  cbn [bind].
  rewrite (emit_symtab_ext _ _ sn1 sn2 es1 es2 b2 Hsn).
  destruct (emit_symtab b2 (symtab_offset (compute_header cus2 card))
              (ht_size_of card) sn2 es2) as [b3| | | |]; try reflexivity.
  cbn [bind].
  rewrite (emit_types_ext _ sn1 sn2 cus1 cus2 0 b3 Hent').
  destruct (emit_types b3 (const_pool_offset (compute_header cus2 card)) 0
              sn2 cus2) as [b4| | | |]; try reflexivity.
  cbn [bind].
  apply emit_names_ext. exact Hsn.
Qed.

(** ** Schedules *)

Lemma task_step_fn_step (store store' : list MapValue.t) (t t' : Task) :
  task_step_fn store t = Some (store', t') -> task_step store t store' t'.
Proof.
  destruct t as [td pd dn]. unfold task_step_fn. cbn [pending todo done].
  destruct pd as [ent|].
  - intros H. injection H as <- <-. apply step_count.
  - destruct td as [|nt rest]; [discriminate|].
    destruct (map_insert store (NameType.name nt) (NameType.hash nt)
                (new_value nt)) as [[s1 ent] ins] eqn:Hins.
    intros H. injection H as <- <-. eapply step_insert. exact Hins.
Qed.

Lemma run_schedule_steps :
  forall sched store tasks,
    phase_steps (store, tasks) (run_schedule sched store tasks).
Proof.
  induction sched as [|i sched IH]; intros store tasks.
  - apply phase_refl.
  - cbn [run_schedule].
    destruct (nth_error tasks i) as [t|] eqn:Hi; [|apply IH].
    destruct (task_step_fn store t) as [[store' t']|] eqn:Hstep; [|apply IH].
    eapply phase_steps_trans; [|apply IH].
    eapply phase_more; [apply phase_refl|].
    apply task_step_fn_step in Hstep.
    pose proof (nth_error_split tasks i Hi) as [l1 [l2 [Heq Hlen]]].
    assert (Hf : firstn i tasks = l1).
    { rewrite Heq, <- Hlen, firstn_app, firstn_all, Nat.sub_diag.
      cbn [firstn]. apply app_nil_r. }
    assert (Hs : skipn (S i) tasks = l2).
    { rewrite Heq, <- Hlen. rewrite skipn_app.
      rewrite skipn_all2 by lia.
      replace (S (length l1) - length l1)%nat with 1%nat by lia.
      reflexivity. }
    rewrite Hf, Hs. rewrite Heq at 1.
    apply phase_step_task. exact Hstep.
Qed.

(** ** The output does not depend on the schedule *)

Lemma Forall2_join {A B : Type} (R1 R2 : A -> B -> Prop) (l : list A) :
  forall l1 l2, Forall2 R1 l l1 -> Forall2 R2 l l2 ->
    Forall2 (fun b1 b2 => exists a, R1 a b1 /\ R2 a b2) l1 l2.
Proof.
  induction l as [|a l IH]; intros l1 l2 H1 H2.
  - inversion H1; inversion H2; subst. constructor.
  - inversion H1 as [|? b1 ? l1' Ha1 Hl1]; subst.
    inversion H2 as [|? b2 ? l2' Ha2 Hl2]; subst.
    constructor; [exists a; split; assumption|apply IH; assumption].
Qed.

Lemma with_entries_agree :
  forall cus tasks1 tasks2,
    length tasks1 = length cus -> length tasks2 = length cus ->
    Forall2 cu_agree (with_entries cus tasks1) (with_entries cus tasks2).
Proof.
  induction cus as [|cu cus IH]; intros [|t1 tasks1] [|t2 tasks2] H1 H2;
    try discriminate; unfold with_entries; cbn [combine map]; constructor.
  - repeat split.
  - apply IH; cbn in *; lia.
Qed.

Lemma with_entries_handles (store1 store2 : list MapValue.t) :
  forall cus tasks1 tasks2,
    Forall2 (fun nts t => Forall2 (handle_matches store1) nts (done t))
      (map Compunit.nametypes cus) tasks1 ->
    Forall2 (fun nts t => Forall2 (handle_matches store2) nts (done t))
      (map Compunit.nametypes cus) tasks2 ->
    Forall2
      (fun cu1 cu2 =>
         Forall2
           (fun h1 h2 =>
              exists nt, handle_matches store1 nt h1
                         /\ handle_matches store2 nt h2)
           (Compunit.entries cu1) (Compunit.entries cu2))
      (with_entries cus tasks1) (with_entries cus tasks2).
Proof.
  induction cus as [|cu cus IH]; intros tasks1 tasks2 H1 H2.
  - inversion H1; inversion H2; subst. constructor.
  - cbn [map] in H1, H2.
    inversion H1 as [|? t1 ? ts1 Ht1 Hr1]; subst.
    inversion H2 as [|? t2 ? ts2 Ht2 Hr2]; subst.
    unfold with_entries. cbn [combine map fst snd].
    constructor; [|apply IH; assumption].
    cbn [Compunit.set_entries Compunit.entries].
    eapply Forall2_join; eassumption.
Qed.

Lemma sort_entries_values (store : list MapValue.t) (scan : list nat) :
  map (deref store) (sort_entries store scan)
  = sort_by MapValue_ltb (map (deref store) scan).
Proof. apply (map_sort_by (deref store) MapValue_ltb). Qed.

Lemma scan_values_permutation (store : list MapValue.t) (scan : list nat) :
  Permutation scan (seq 0 (length store)) ->
  Permutation (map (deref store) scan) store.
Proof.
  intros Hp. rewrite <- (map_deref_seq store) at 2.
  apply Permutation_map. exact Hp.
Qed.

Lemma sort_entries_handles (store : list MapValue.t) (scan : list nat) :
  Permutation scan (seq 0 (length store)) ->
  NoDup (sort_entries store scan)
  /\ Forall (fun h => (h < length store)%nat) (sort_entries store scan)
  /\ (forall h, (h < length store)%nat -> In h (sort_entries store scan)).
Proof.
  intros Hp.
  assert (Hps : Permutation (sort_entries store scan) (seq 0 (length store))).
  { unfold sort_entries. rewrite sort_by_perm. exact Hp. }
  split; [|split].
  - eapply Permutation_NoDup; [symmetry; exact Hps|apply seq_NoDup].
  - apply Forall_forall. intros h Hh.
    eapply Permutation_in in Hh; [|exact Hps]. apply in_seq in Hh. lia.
  - intros h Hh. eapply Permutation_in; [symmetry; exact Hps|].
    apply in_seq. lia.
Qed.

(** Whatever the interleaving of the tasks and the order of the bucket
    scan, the emission gives the same result. *)
Lemma emit_gdb_index_schedule_independent (cus : list Compunit.t)
    (store1 store2 : list MapValue.t) (tasks1 tasks2 : list Task)
    (scan1 scan2 : list nat) (card : Z) :
  insertion_phase cus store1 tasks1 ->
  insertion_phase cus store2 tasks2 ->
  Permutation scan1 (seq 0 (length store1)) ->
  Permutation scan2 (seq 0 (length store2)) ->
  emit_gdb_index (with_entries cus tasks1) store1 scan1 card
  = emit_gdb_index (with_entries cus tasks2) store2 scan2 card.
Proof.
  intros Hph1 Hph2 Hp1 Hp2.
  pose proof (final_stores_permutation _ _ _ _ _ Hph1 Hph2) as Hperm.
  destruct (final_store _ _ _ Hph1) as [Hnd1 [Hc1 _]].
  destruct Hph1 as [Hsteps1 Hfin1]. destruct Hph2 as [Hsteps2 Hfin2].
  pose proof (phase_steps_tasks (map Compunit.nametypes cus) _ _ Hsteps1
                (inv_tasks _ _ (phase_inv_initial cus))) as Ht1.
  pose proof (phase_steps_tasks (map Compunit.nametypes cus) _ _ Hsteps2
                (inv_tasks _ _ (phase_inv_initial cus))) as Ht2.
  cbn [fst snd] in Ht1, Ht2.
  pose proof (finished_tasks_match _ _ _ Ht1 Hfin1) as Hm1.
  pose proof (finished_tasks_match _ _ _ Ht2 Hfin2) as Hm2.
  destruct (sort_entries_handles store1 scan1 Hp1) as [Hn1 [Hv1 Hall1]].
  destruct (sort_entries_handles store2 scan2 Hp2) as [Hn2 [Hv2 Hall2]].
  pose proof (scan_values_permutation store1 scan1 Hp1) as Hs1.
  pose proof (scan_values_permutation store2 scan2 Hp2) as Hs2.
  apply emit_gdb_index_ext; try assumption.
  - apply with_entries_agree.
    + rewrite <- (Forall2_length Ht1), length_map. reflexivity.
    + rewrite <- (Forall2_length Ht2), length_map. reflexivity.
  - rewrite !sort_entries_values.
    apply sort_by_perm_unique.
    + exact MapValue_ltb_irrefl.
    + exact MapValue_ltb_trans.
    + exact MapValue_ltb_negtrans.
    + intros a b Ha Hb Hab Hba.
      destruct (MapValue_ltb_same_key a b Hab Hba) as [Hname Hhash].
      eapply (NoDup_keys_In_eq store1); [exact Hnd1| | |].
      * eapply Permutation_in; [exact Hs1|exact Ha].
      * eapply Permutation_in; [exact Hs1|exact Hb].
      * unfold key_of. congruence.
    + rewrite Hs1, Hperm. symmetry. exact Hs2.
  - rewrite sort_entries_values.
    eapply Permutation_NoDup; [|exact Hnd1].
    apply Permutation_map. symmetry.
    rewrite sort_by_perm. exact Hs1.
  - eapply Forall2_impl; [|apply (with_entries_handles store1 store2);
                            eassumption].
    intros cu1 cu2 He. eapply Forall2_impl; [|exact He].
    intros h1 h2 [nt [H1 H2]].
    destruct (handle_matches_deref _ _ _ H1) as [Hlt1 [Hna1 Hha1]].
    destruct (handle_matches_deref _ _ _ H2) as [Hlt2 [Hna2 Hha2]].
    split; [apply Hall1; exact Hlt1|].
    split; [apply Hall2; exact Hlt2|].
    unfold key_of. congruence.
Qed.

Lemma write_gdb_index_run_sequential (E : Target) (ctx : Context) (card : Z)
    (buf : list byte) :
  write_gdb_index_run E ctx card buf ->
  write_gdb_index E ctx card = Ok (Some buf).
Proof.
  intros [cus [store [tasks [scan [Hne [Hread [Hph [Hp Hemit]]]]]]]].
  unfold write_gdb_index.
  destruct (debug_info ctx) as [|b rest] eqn:Hinfo; [congruence|].
  rewrite Hread. cbn [bind].
  pose proof (run_tasks_is_insertion_phase cus) as Hseq.
  destruct (run_tasks [] cus) as [store0 tasks0]. cbn [fst snd] in Hseq.
  rewrite (emit_gdb_index_schedule_independent cus store0 store tasks0 tasks
             (seq 0 (length store0)) scan card Hseq Hph
             (Permutation_refl _) Hp).
  rewrite Hemit. reflexivity.
Qed.

Lemma write_gdb_index_run_unique (E : Target) (ctx : Context) (card : Z)
    (buf1 buf2 : list byte) :
  write_gdb_index_run E ctx card buf1 ->
  write_gdb_index_run E ctx card buf2 ->
  buf1 = buf2.
Proof.
  intros H1 H2.
  apply write_gdb_index_run_sequential in H1.
  apply write_gdb_index_run_sequential in H2.
  congruence.
Qed.

(** The two runs of the example: the sequential schedule with the buckets
    scanned in the order of the store, and the interleaved schedule, which
    fills the store in another order, with the buckets scanned in the
    opposite order. *)
Lemma two_symbols_sequential_run :
  write_gdb_index_run X86_64 two_symbols_ctx 2 two_symbols_index.
Proof.
  exists two_symbols_cus, (fst (run_tasks [] two_symbols_cus)),
    (snd (run_tasks [] two_symbols_cus)), (seq 0 2).
  split; [discriminate|].
  split; [exact read_compunits_two_symbols|].
  split; [apply run_tasks_is_insertion_phase|].
  split; [reflexivity|].
  vm_compute. reflexivity.
Qed.

Lemma interleaved_state_is_phase :
  insertion_phase two_symbols_cus (fst interleaved_state)
    (snd interleaved_state).
Proof.
  split.
  - pose proof (run_schedule_steps interleaved_schedule []
                  (map initial_task two_symbols_cus)) as Hsteps.
    fold interleaved_state in Hsteps.
    destruct interleaved_state as [store tasks]. exact Hsteps.
  - vm_compute. repeat constructor.
Qed.

Lemma two_symbols_interleaved_run :
  write_gdb_index_run X86_64 two_symbols_ctx 2 two_symbols_index.
Proof.
  exists two_symbols_cus, (fst interleaved_state), (snd interleaved_state),
    [1; 0]%nat.
  split; [discriminate|].
  split; [exact read_compunits_two_symbols|].
  split; [exact interleaved_state_is_phase|].
  split; [vm_compute; apply perm_swap|].
  vm_compute. reflexivity.
Qed.

(** C9, as the code has it: two runs of the pipeline on the same input,
    with the same estimated cardinality, emit the same bytes, whatever the
    interleaving of the insertion tasks and the order of the bucket scan:
    the bytes are those of the sequential schedule.  This includes the
    order of the words within each per-symbol sub-array, which the
    sequential loop "Write types" appends in the order of the compunits
    and, within a compunit, of its name tuples. *)
Theorem write_gdb_index_deterministic (E : Target) (ctx : Context) (card : Z)
    (buf1 buf2 : list byte) :
  write_gdb_index_run E ctx card buf1 ->
  write_gdb_index_run E ctx card buf2 ->
  buf1 = buf2 /\ write_gdb_index E ctx card = Ok (Some buf1).
Proof.
  intros H1 H2. split.
  - eapply write_gdb_index_run_unique; eassumption.
  - apply write_gdb_index_run_sequential. exact H1.
Qed.

Lemma write_gdb_index_deterministic_example :
  (write_gdb_index_run X86_64 two_symbols_ctx 2 two_symbols_index
   /\ write_gdb_index_run X86_64 two_symbols_ctx 2 two_symbols_index)
  /\ fst interleaved_state <> fst (run_tasks [] two_symbols_cus)
  /\ write_gdb_index X86_64 two_symbols_ctx 2 = Ok (Some two_symbols_index).
Proof.
  split; [split;
          [exact two_symbols_sequential_run|exact two_symbols_interleaved_run]|].
  split; [vm_compute; discriminate|].
  exact (proj2 (write_gdb_index_deterministic X86_64 two_symbols_ctx 2
                  two_symbols_index two_symbols_index
                  two_symbols_sequential_run two_symbols_interleaved_run)).
Defined.

(** For [two_symbols_ctx] no two runs differ in any byte, although the
    runs differ in the order in which they fill the map; the sub-array of
    "foo", which both compunits contribute, holds the count 2 and then the
    word of compunit 0 before the word of compunit 1. *)
Lemma subarray_order_is_fixed :
  ~ (exists buf1 buf2,
       write_gdb_index_run X86_64 two_symbols_ctx 2 buf1
       /\ write_gdb_index_run X86_64 two_symbols_ctx 2 buf2
       /\ buf1 <> buf2)
  /\ fst interleaved_state <> fst (run_tasks [] two_symbols_cus)
  /\ write_gdb_index_run X86_64 two_symbols_ctx 2 two_symbols_index
  /\ load_ul32 two_symbols_index (112 + 8) = Ok 2
  /\ load_ul32 two_symbols_index (112 + 12) = Ok 0x30000000
  /\ load_ul32 two_symbols_index (112 + 16) = Ok 0x30000001.
Proof.
  split.
  - intros [buf1 [buf2 [H1 [H2 Hne]]]]. apply Hne.
    eapply write_gdb_index_run_unique; eassumption.
  - split; [vm_compute; discriminate|].
    split; [exact two_symbols_interleaved_run|].
    repeat split; vm_compute; reflexivity.
Qed.

(** ** Writes to the output buffer *)

Lemma nth_error_splice {A : Type} (l bs : list A) (a i : nat) :
  (a + length bs <= length l)%nat ->
  nth_error (firstn a l ++ bs ++ skipn (a + length bs) l) i
  = if (i <? a)%nat then nth_error l i
    else if (i <? a + length bs)%nat then nth_error bs (i - a)
         else nth_error l i.
Proof.
  intros Hle.
  assert (Hfa : length (firstn a l) = a) by (rewrite length_firstn; lia).
  destruct (Nat.ltb_spec i a) as [Hia|Hia].
  - rewrite nth_error_app1 by lia.
    rewrite nth_error_firstn.
    destruct (Nat.ltb_spec i a); [reflexivity|lia].
  - rewrite nth_error_app2 by lia. rewrite Hfa.
    destruct (Nat.ltb_spec i (a + length bs)) as [Hib|Hib].
    + rewrite nth_error_app1 by lia. reflexivity.
    + rewrite nth_error_app2 by lia. rewrite nth_error_skipn.
      f_equal. lia.
Qed.

Lemma store_bytes_Ok (buf : list byte) (p : Z) (bs buf' : list byte) :
  store_bytes buf p bs = Ok buf' ->
  0 <= p /\ p + Z.of_nat (length bs) <= Z.of_nat (length buf)
  /\ buf' = firstn (Z.to_nat p) buf ++ bs
            ++ skipn (Z.to_nat p + length bs) buf.
Proof.
  unfold store_bytes.
  destruct (p <? 0) eqn:Hp; [discriminate|].
  destruct (Z.of_nat (length buf) <? p + Z.of_nat (length bs)) eqn:Hq;
    [discriminate|].
  cbn [orb]. intros H. apply Ok_inj in H.
  apply Z.ltb_ge in Hp. apply Z.ltb_ge in Hq. auto.
Qed.

Lemma store_bytes_total (buf : list byte) (p : Z) (bs : list byte) :
  0 <= p -> p + Z.of_nat (length bs) <= Z.of_nat (length buf) ->
  exists buf', store_bytes buf p bs = Ok buf'.
Proof.
  intros Hp Hq. unfold store_bytes.
  assert (H1 : (p <? 0) = false) by (apply Z.ltb_ge; lia).
  assert (H2 : (Z.of_nat (length buf) <? p + Z.of_nat (length bs)) = false)
    by (apply Z.ltb_ge; lia).
  rewrite H1, H2. cbn [orb]. eexists. reflexivity.
Qed.

Lemma store_bytes_load (buf : list byte) (p : Z) (bs buf' : list byte) (q : Z) :
  store_bytes buf p bs = Ok buf' ->
  load_u8 buf' q
  = if (p <=? q) && (q <? p + Z.of_nat (length bs))
    then match nth_error bs (Z.to_nat (q - p)) with
         | Some b => Ok (u8_of_byte b)
         | None => Undefined
         end
    else load_u8 buf q.
Proof.
  intros H. apply store_bytes_Ok in H. destruct H as [Hp [Hq ->]].
  unfold load_u8.
  destruct (Z.ltb_spec q 0) as [Hq0|Hq0].
  - destruct (Z.leb_spec p q); [lia|]. reflexivity.
  - rewrite nth_error_splice by lia.
    destruct (Z.leb_spec p q) as [Hpq|Hpq]; cbn [andb].
    + destruct (Nat.ltb_spec (Z.to_nat q) (Z.to_nat p)); [lia|].
      destruct (Z.ltb_spec q (p + Z.of_nat (length bs))) as [Hin|Hout].
      * destruct (Nat.ltb_spec (Z.to_nat q) (Z.to_nat p + length bs)); [|lia].
        replace (Z.to_nat q - Z.to_nat p)%nat with (Z.to_nat (q - p)) by lia.
        reflexivity.
      * destruct (Nat.ltb_spec (Z.to_nat q) (Z.to_nat p + length bs)); [lia|].
        reflexivity.
    + destruct (Nat.ltb_spec (Z.to_nat q) (Z.to_nat p)); [|lia].
      reflexivity.
Qed.

Lemma store_bytes_frame (buf : list byte) (p : Z) (bs buf' : list byte) :
  store_bytes buf p bs = Ok buf' ->
  frame p (p + Z.of_nat (length bs)) buf buf'.
Proof.
  intros H. split.
  - apply store_bytes_Ok in H. destruct H as [Hp [Hq ->]].
    rewrite !length_app, length_firstn, length_skipn. lia.
  - intros q Hq. rewrite (store_bytes_load _ _ _ _ q H).
    destruct (Z.leb_spec p q); destruct (Z.ltb_spec q (p + Z.of_nat (length bs)));
      cbn [andb]; try reflexivity; lia.
Qed.

Lemma frame_refl (lo hi : Z) (buf : list byte) : frame lo hi buf buf.
Proof. split; [reflexivity|intros; reflexivity]. Qed.

Lemma frame_trans (lo hi : Z) (b1 b2 b3 : list byte) :
  frame lo hi b1 b2 -> frame lo hi b2 b3 -> frame lo hi b1 b3.
Proof.
  intros [L1 F1] [L2 F2]. split; [congruence|].
  intros q Hq. rewrite F2, F1 by exact Hq. reflexivity.
Qed.

Lemma frame_weaken (lo hi lo' hi' : Z) (b1 b2 : list byte) :
  lo' <= lo -> hi <= hi' -> frame lo hi b1 b2 -> frame lo' hi' b1 b2.
Proof.
  intros Hlo Hhi [L F]. split; [exact L|].
  intros q Hq. apply F. lia.
Qed.

Lemma load_le_frame (lo hi : Z) (buf buf' : list byte) (n : nat) :
  frame lo hi buf buf' ->
  forall p, p + Z.of_nat n <= lo \/ hi <= p ->
    load_le buf' p n = load_le buf p n.
Proof.
  intros [_ F]. induction n as [|n IH]; intros p Hp; [reflexivity|].
  cbn [load_le]. rewrite F by lia. rewrite IH by lia. reflexivity.
Qed.

Lemma load_le_total (buf : list byte) (n : nat) :
  forall p, 0 <= p -> p + Z.of_nat n <= Z.of_nat (length buf) ->
    exists v, load_le buf p n = Ok v.
Proof.
  induction n as [|n IH]; intros p Hp Hq; [exists 0; reflexivity|].
  cbn [load_le].
  assert (Hb : exists b, load_u8 buf p = Ok b).
  { unfold load_u8. destruct (Z.ltb_spec p 0); [lia|].
    destruct (nth_error buf (Z.to_nat p)) as [b|] eqn:Hn; [eexists; reflexivity|].
    apply nth_error_None in Hn. lia. }
  destruct Hb as [b Hb]. rewrite Hb. cbn [bind].
  destruct (IH (p + 1)) as [r Hr]; [lia|lia|].
  rewrite Hr. cbn [bind]. eexists. reflexivity.
Qed.

Lemma u8_of_byte_of_u8 (x : Z) : u8_of_byte (byte_of_u8 x) = u8 x.
Proof.
  unfold byte_of_u8, u8_of_byte.
  assert (Hr : 0 <= u8 x < 256) by (apply Z.mod_pos_bound; lia).
  destruct (Byte.of_N (Z.to_N (u8 x))) as [b|] eqn:Hb.
  - apply Byte.to_of_N in Hb. rewrite Hb. lia.
  - apply Byte.of_N_None_iff in Hb. lia.
Qed.

Lemma le_bytes_succ (n : nat) (v : Z) :
  le_bytes (S n) v = byte_of_u8 v :: le_bytes n (Z.shiftr v 8).
Proof.
  unfold le_bytes. cbn [seq map]. f_equal.
  rewrite <- seq_shift, map_map. apply map_ext. intros i.
  rewrite Z.shiftr_shiftr by lia. f_equal. f_equal. lia.
Qed.

Lemma length_le_bytes (n : nat) (v : Z) : length (le_bytes n v) = n.
Proof. unfold le_bytes. rewrite length_map, length_seq. reflexivity. Qed.

Lemma le_value_le_bytes (n : nat) :
  forall v, le_value (le_bytes n v) = v mod 256 ^ Z.of_nat n.
Proof.
  induction n as [|n IH]; intros v.
  - cbn. rewrite Z.mod_1_r. reflexivity.
  - rewrite le_bytes_succ. unfold le_value in *. cbn [fold_right].
    rewrite IH, u8_of_byte_of_u8. unfold u8.
    rewrite Z.shiftr_div_pow2 by lia.
    rewrite Nat2Z.inj_succ, Z.pow_succ_r by lia.
    change (2 ^ 8) with 256.
    rewrite Z.rem_mul_r by (try lia; apply Z.pow_nonzero; lia).
    reflexivity.
Qed.

Lemma load_le_bytes (buf : list byte) (bs : list byte) :
  forall p,
    (forall i b, nth_error bs i = Some b ->
                 load_u8 buf (p + Z.of_nat i) = Ok (u8_of_byte b)) ->
    load_le buf p (length bs) = Ok (le_value bs).
Proof.
  induction bs as [|b bs IH]; intros p H; [reflexivity|].
  cbn [length load_le].
  pose proof (H O b eq_refl) as H0. rewrite Z.add_0_r in H0.
  rewrite H0. cbn [bind]. rewrite IH.
  - reflexivity.
  - intros i c Hc. specialize (H (S i) c Hc).
    rewrite <- H. f_equal. lia.
Qed.

Lemma load_after_store (buf : list byte) (p : Z) (bs buf' : list byte) :
  store_bytes buf p bs = Ok buf' ->
  load_le buf' p (length bs) = Ok (le_value bs).
Proof.
  intros H. apply load_le_bytes. intros i b Hb.
  rewrite (store_bytes_load _ _ _ _ _ H).
  assert (Hi : (i < length bs)%nat).
  { apply nth_error_Some. rewrite Hb. discriminate. }
  destruct (Z.leb_spec p (p + Z.of_nat i)); [|lia].
  destruct (Z.ltb_spec (p + Z.of_nat i) (p + Z.of_nat (length bs))); [|lia].
  cbn [andb]. replace (Z.to_nat (p + Z.of_nat i - p)) with i by lia.
  rewrite Hb. reflexivity.
Qed.

Lemma load_ul32_store_ul32 (buf : list byte) (p v : Z) (buf' : list byte) :
  store_ul32 buf p v = Ok buf' -> load_ul32 buf' p = Ok (u32 v).
Proof.
  intros H. unfold store_ul32 in H. apply load_after_store in H.
  rewrite length_le_bytes, le_value_le_bytes in H. exact H.
Qed.

Lemma store_ul32_frame (buf : list byte) (p v : Z) (buf' : list byte) :
  store_ul32 buf p v = Ok buf' -> frame p (p + 4) buf buf'.
Proof.
  intros H. unfold store_ul32 in H. apply store_bytes_frame in H.
  rewrite length_le_bytes in H. exact H.
Qed.

Lemma store_ul64_frame (buf : list byte) (p v : Z) (buf' : list byte) :
  store_ul64 buf p v = Ok buf' -> frame p (p + 8) buf buf'.
Proof.
  intros H. unfold store_ul64 in H. apply store_bytes_frame in H.
  rewrite length_le_bytes in H. exact H.
Qed.

Lemma store_ul32_total (buf : list byte) (p v : Z) :
  0 <= p -> p + 4 <= Z.of_nat (length buf) ->
  exists buf', store_ul32 buf p v = Ok buf'.
Proof.
  intros Hp Hq. apply store_bytes_total; [exact Hp|].
  rewrite length_le_bytes. exact Hq.
Qed.

(** ** The probe sequence *)

Section Probe.

Variable k : Z.
Hypothesis k_range : 0 <= k <= 31.

Let m : Z := 2 ^ k.

Lemma table_size_range : 1 <= m <= 2 ^ 31.
Proof.
  unfold m. split.
  - pose proof (Z.pow_pos_nonneg 2 k). lia.
  - apply Z.pow_le_mono_r; lia.
Qed.

Lemma mask_eq : u32 (m - 1) = m - 1.
Proof. pose proof table_size_range. apply u32_small. lia. Qed.

Lemma land_mask (x : Z) : Z.land x (m - 1) = x mod m.
Proof.
  unfold m. rewrite <- Z.land_ones by lia.
  rewrite Z.ones_equiv. reflexivity.
Qed.

Lemma step_range (x : Z) :
  1 <= Z.lor (Z.land x (m - 1)) 1 <= 2 ^ 31 /\ Z.odd (Z.lor (Z.land x (m - 1)) 1) = true.
Proof.
  pose proof table_size_range as Hm.
  rewrite land_mask.
  pose proof (Z.mod_pos_bound x m ltac:(lia)) as Hx.
  assert (Hodd : Z.odd (Z.lor (x mod m) 1) = true).
  { rewrite <- Z.bit0_odd, Z.lor_spec. cbn. apply orb_true_r. }
  split; [|exact Hodd].
  assert (Hnn : 0 <= Z.lor (x mod m) 1) by (apply Z.lor_nonneg; lia).
  split.
  - destruct (Z.eq_dec (Z.lor (x mod m) 1) 0) as [H0|H0]; [|lia].
    rewrite H0 in Hodd. discriminate.
  - assert (Hlt : Z.lor (x mod m) 1 < 2 ^ 31); [|lia].
    destruct (Z.eq_dec (Z.lor (x mod m) 1) 0) as [H0|H0]; [lia|].
    apply Z.log2_lt_pow2; [lia|].
    rewrite Z.log2_lor by lia.
    apply Z.max_lub_lt; [|cbn; lia].
    destruct (Z.eq_dec (x mod m) 0) as [Hz|Hz]; [rewrite Hz; cbn; lia|].
    apply Z.log2_lt_pow2; lia.
Qed.

Lemma next_slot (j step : Z) :
  0 <= j < m -> 0 <= step <= 2 ^ 31 ->
  Z.land (u32 (j + step)) (m - 1) = (j + step) mod m.
Proof.
  intros Hj Hs. pose proof table_size_range.
  rewrite u32_small by lia. apply land_mask.
Qed.

Lemma probe_seq_closed (step : Z) :
  0 <= step <= 2 ^ 31 ->
  forall i j, 0 <= j < m ->
    probe_seq (m - 1) step j i = (j + Z.of_nat i * step) mod m.
Proof.
  intros Hs. pose proof table_size_range as Hm.
  induction i as [|i IH]; intros j Hj.
  - cbn [probe_seq]. change (Z.of_nat 0) with 0.
    rewrite Z.mul_0_l, Z.add_0_r, Z.mod_small by lia. reflexivity.
  - cbn [probe_seq]. rewrite next_slot by assumption.
    rewrite IH by (apply Z.mod_pos_bound; lia).
    rewrite Zplus_mod_idemp_l. f_equal. lia.
Qed.

Lemma probe_seq_range (step : Z) :
  0 <= step <= 2 ^ 31 ->
  forall i j, 0 <= j < m -> 0 <= probe_seq (m - 1) step j i < m.
Proof.
  intros Hs i j Hj. pose proof table_size_range.
  rewrite probe_seq_closed by assumption. apply Z.mod_pos_bound. lia.
Qed.

Lemma odd_coprime_pow2 (step : Z) : Z.odd step = true -> Z.coprime step m.
Proof.
  intros Hodd. unfold m. apply Z.coprime_pow_r; [lia|].
  symmetry. apply Z.coprime_prime_l; [exact Z.prime_2|].
  intros [q Hq]. rewrite Hq in Hodd.
  rewrite Z.odd_mul in Hodd. cbn in Hodd. rewrite andb_false_r in Hodd.
  discriminate.
Qed.

(** An odd step visits every slot within [m] iterations. *)
Lemma probe_seq_reaches (step j target : Z) :
  0 <= step <= 2 ^ 31 -> Z.odd step = true ->
  0 <= j < m -> 0 <= target < m ->
  exists i, (i < Z.to_nat m)%nat /\ probe_seq (m - 1) step j i = target.
Proof.
  intros Hs Hodd Hj Ht. pose proof table_size_range as Hm.
  destruct (Z.Bezout_coprime _ _ (odd_coprime_pow2 step Hodd)) as [u [v Huv]].
  exists (Z.to_nat (((target - j) * u) mod m)).
  pose proof (Z.mod_pos_bound ((target - j) * u) m ltac:(lia)) as Hi.
  split; [lia|].
  rewrite probe_seq_closed by assumption.
  rewrite Z2Nat.id by lia.
  rewrite Zplus_mod, Zmult_mod_idemp_l, <- Zplus_mod.
  replace (j + (target - j) * u * step)
    with (target + ((target - j) * - v) * m) by nia.
  rewrite Z.mod_add by lia. apply Z.mod_small. exact Ht.
Qed.

End Probe.

(** ** The symbol table *)

Lemma filter_length_flip (f g : nat -> bool) (x : nat) (l : list nat) :
  (forall y, y <> x -> g y = f y) ->
  NoDup l ->
  (length (filter g l) <= S (length (filter f l)))%nat.
Proof.
  intros Hfg Hnd.
  assert (Hsame : forall l', ~ In x l' -> filter g l' = filter f l').
  { induction l' as [|y l' IH]; intros Hnot; [reflexivity|].
    cbn [filter]. rewrite Hfg by (intros ->; apply Hnot; left; reflexivity).
    rewrite IH by (intros Hin; apply Hnot; right; exact Hin). reflexivity. }
  induction Hnd as [|y l Hy Hnd IH]; [cbn; lia|].
  cbn [filter]. destruct (Nat.eq_dec y x) as [->|Hne].
  - rewrite (Hsame l Hy). destruct (g x), (f x); cbn [length]; lia.
  - rewrite (Hfg y Hne). destruct (f y); cbn [length]; lia.
Qed.

Lemma filter_all_or_witness (f : nat -> bool) (l : list nat) :
  (length (filter f l) < length l)%nat -> exists x, In x l /\ f x = false.
Proof.
  induction l as [|y l IH]; cbn [filter length]; [lia|].
  destruct (f y) eqn:Hy.
  - cbn [length]. intros H. destruct IH as [x [Hx Hf]]; [lia|].
    exists x. split; [right; exact Hx|exact Hf].
  - intros _. exists y. split; [left; reflexivity|exact Hy].
Qed.

Section Symtab.

Variable k : Z.
Hypothesis k_range : 0 <= k <= 31.
Variable ht : Z.

Let m : Z := 2 ^ k.


Lemma slot_words (buf : list byte) (j : Z) :
  table_in ht m buf -> 0 <= j < m -> exists n t, slot_holds buf ht j n t.
Proof.
  intros [H0 H1] Hj. unfold slot_holds, ht_load, load_ul32.
  destruct (load_le_total buf 4 (ht + 4 * (2 * j))) as [n Hn];
    [lia|change (Z.of_nat 4) with 4; lia|].
  destruct (load_le_total buf 4 (ht + 4 * (2 * j + 1))) as [t Ht];
    [lia|change (Z.of_nat 4) with 4; lia|].
  exists n, t. split; assumption.
Qed.

Lemma slot_occupied_spec (buf : list byte) (j n t : Z) :
  0 <= j < m -> slot_holds buf ht j n t ->
  slot_occupied buf ht j = Ok (negb ((n =? 0) && (t =? 0))).
Proof.
  intros Hj [Hn Ht]. pose proof (table_size_range k k_range) as Hm.
  fold m in Hm. unfold slot_occupied.
  replace (j * 2) with (2 * j) by lia.
  rewrite (u32_small (2 * j)) by lia.
  rewrite (u32_small (2 * j + 1)) by lia.
  rewrite Hn. cbn [bind]. destruct (n =? 0); cbn [negb andb]; [|reflexivity].
  rewrite Ht. reflexivity.
Qed.

Lemma slot_holds_inj (buf : list byte) (j n t n' t' : Z) :
  slot_holds buf ht j n t -> slot_holds buf ht j n' t' -> n = n' /\ t = t'.
Proof. intros [H1 H2] [H3 H4]. split; congruence. Qed.

Lemma probe_finds (buf : list byte) (step : Z) :
  table_in ht m buf -> 0 <= step <= 2 ^ 31 ->
  forall fuel j,
    0 <= j < m ->
    (exists i, (i < fuel)%nat
               /\ slot_free buf ht (probe_seq (m - 1) step j i)) ->
    exists i,
      (i < fuel)%nat
      /\ probe fuel buf ht (m - 1) step j = Ok (probe_seq (m - 1) step j i)
      /\ slot_free buf ht (probe_seq (m - 1) step j i)
      /\ forall i', (i' < i)%nat ->
           ~ slot_free buf ht (probe_seq (m - 1) step j i').
Proof.
  intros Hin Hs. pose proof (table_size_range k k_range) as Hm. fold m in Hm.
  induction fuel as [|fuel IH]; intros j Hj [i0 [Hi0 Hfree]]; [lia|].
  destruct (slot_words buf j Hin Hj) as [n [t Hnt]].
  cbn [probe]. rewrite (slot_occupied_spec buf j n t Hj Hnt). cbn [bind].
  destruct ((n =? 0) && (t =? 0)) eqn:Hz; cbn [negb].
  - apply andb_true_iff in Hz. destruct Hz as [Hn0 Ht0].
    apply Z.eqb_eq in Hn0. apply Z.eqb_eq in Ht0. subst n t.
    exists O. split; [lia|]. split; [reflexivity|].
    split; [exact Hnt|]. intros i' Hi'. lia.
  - assert (Hnotfree : ~ slot_free buf ht j).
    { intros Hf. destruct (slot_holds_inj _ _ _ _ _ _ Hnt Hf) as [-> ->].
      discriminate. }
    destruct i0 as [|i0]; [contradiction|].
    cbn [probe_seq] in Hfree.
    assert (Hj' : 0 <= Z.land (u32 (j + step)) (m - 1) < m).
    { unfold m. rewrite (next_slot k k_range) by assumption.
      apply Z.mod_pos_bound. fold m. lia. }
    assert (Hex : exists i,
               (i < fuel)%nat
               /\ slot_free buf ht
                    (probe_seq (m - 1) step
                       (Z.land (u32 (j + step)) (m - 1)) i)).
    { exists i0. split; [lia|exact Hfree]. }
    destruct (IH _ Hj' Hex) as [i [Hi [Hprobe [Hf Hbefore]]]].
    exists (S i). split; [lia|]. split; [exact Hprobe|].
    split; [exact Hf|].
    intros [|i'] Hi'; [exact Hnotfree|].
    cbn [probe_seq]. apply Hbefore. lia.
Qed.

Lemma probe_of_eq (hash : Z) (i : nat) :
  probe_of m hash i
  = probe_seq (m - 1) (Z.lor (Z.land hash (m - 1)) 1) (Z.land hash (m - 1)) i.
Proof.
  unfold probe_of. cbv zeta. unfold m. rewrite (mask_eq k k_range).
  reflexivity.
Qed.

Lemma start_range (hash : Z) : 0 <= Z.land hash (m - 1) < m.
Proof.
  pose proof (table_size_range k k_range) as Hm. fold m in Hm.
  unfold m. rewrite (land_mask k k_range). apply Z.mod_pos_bound.
  fold m. lia.
Qed.

Lemma frame_slot (buf buf' : list byte) (j j' n t : Z) :
  frame (ht + 8 * j) (ht + 8 * j + 8) buf buf' ->
  j' <> j ->
  slot_holds buf' ht j' n t <-> slot_holds buf ht j' n t.
Proof.
  intros Hf Hne. unfold slot_holds, ht_load, load_ul32.
  rewrite (load_le_frame _ _ _ _ 4 Hf (ht + 4 * (2 * j')))
    by (change (Z.of_nat 4) with 4; lia).
  rewrite (load_le_frame _ _ _ _ 4 Hf (ht + 4 * (2 * j' + 1)))
    by (change (Z.of_nat 4) with 4; lia).
  reflexivity.
Qed.

(** One iteration of the symbol-table loop. *)
Lemma emit_symbol_spec (buf : list byte) (v : MapValue.t) :
  table_in ht m buf -> placeable v ->
  (exists j0, 0 <= j0 < m /\ slot_free buf ht j0) ->
  exists buf' i,
    emit_symbol buf ht m v = Ok buf'
    /\ 0 <= probe_of m (MapValue.hash v) i < m
    /\ slot_free buf ht (probe_of m (MapValue.hash v) i)
    /\ (forall i', (i' < i)%nat ->
          ~ slot_free buf ht (probe_of m (MapValue.hash v) i'))
    /\ slot_holds buf' ht (probe_of m (MapValue.hash v) i)
         (MapValue.name_offset v) (MapValue.type_offset v)
    /\ frame (ht + 8 * probe_of m (MapValue.hash v) i)
         (ht + 8 * probe_of m (MapValue.hash v) i + 8) buf buf'.
Proof.
  intros Hin [Hno [Hto _]] [j0 [Hj0 Hfree0]].
  pose proof (table_size_range k k_range) as Hm. fold m in Hm.
  pose proof (step_range k k_range (MapValue.hash v)) as [Hstep Hodd].
  fold m in Hstep, Hodd.
  pose proof (start_range (MapValue.hash v)) as Hstart.
  set (step := Z.lor (Z.land (MapValue.hash v) (m - 1)) 1) in *.
  set (j := Z.land (MapValue.hash v) (m - 1)) in *.
  destruct (probe_seq_reaches k k_range step j j0 ltac:(lia) Hodd Hstart Hj0)
    as [i0 [Hi0 Hreach]].
  fold m in Hi0, Hreach.
  destruct (probe_finds buf step Hin ltac:(lia) (Z.to_nat m) j Hstart)
    as [i [Hi [Hprobe [Hfree Hbefore]]]].
  { exists i0. split; [exact Hi0|]. rewrite Hreach. exact Hfree0. }
  assert (Hpo : forall i1, probe_of m (MapValue.hash v) i1
                           = probe_seq (m - 1) step j i1).
  { intros i1. apply probe_of_eq. }
  pose proof (probe_seq_range k k_range step ltac:(lia) i j Hstart) as Hslot.
  fold m in Hslot.
  set (s := probe_seq (m - 1) step j i) in *.
  destruct Hin as [Hht Hlen].
  destruct (store_ul32_total buf (ht + 4 * (2 * s)) (MapValue.name_offset v))
    as [buf1 Hst1]; [lia|lia|].
  pose proof (store_ul32_frame _ _ _ _ Hst1) as Hf1.
  destruct (store_ul32_total buf1 (ht + 4 * (2 * s + 1))
              (MapValue.type_offset v)) as [buf2 Hst2];
    [lia|rewrite (proj1 Hf1); lia|].
  pose proof (store_ul32_frame _ _ _ _ Hst2) as Hf2.
  exists buf2, i. rewrite !Hpo. fold s.
  split.
  - unfold emit_symbol. cbv zeta. unfold m. rewrite (mask_eq k k_range).
    fold m. fold j. fold step. rewrite Hprobe. cbn [bind]. fold s.
    replace (s * 2) with (2 * s) by lia.
    rewrite (u32_small (2 * s)) by lia.
    rewrite (u32_small (2 * s + 1)) by lia.
    unfold ht_store. rewrite Hst1. cbn [bind]. exact Hst2.
  - split; [exact Hslot|]. split; [exact Hfree|].
    split; [intros i' Hi'; rewrite Hpo; apply Hbefore; exact Hi'|].
    split.
    + split; unfold ht_load.
      * unfold load_ul32.
        rewrite (load_le_frame _ _ _ _ 4 Hf2)
          by (change (Z.of_nat 4) with 4; lia).
        fold (load_ul32 buf1 (ht + 4 * (2 * s))).
        rewrite (load_ul32_store_ul32 _ _ _ _ Hst1).
        rewrite u32_small by lia. reflexivity.
      * rewrite (load_ul32_store_ul32 _ _ _ _ Hst2).
        rewrite u32_small by lia. reflexivity.
    + eapply frame_trans.
      * eapply frame_weaken; [| |exact Hf1]; lia.
      * eapply frame_weaken; [| |exact Hf2]; lia.
Qed.

End Symtab.

Section SymtabLoop.

Variable k : Z.
Hypothesis k_range : 0 <= k <= 31.
Variable ht : Z.

Let m : Z := 2 ^ k.

Lemma slot_is_free_true (buf : list byte) (j : nat) :
  slot_is_free buf ht j = true -> slot_free buf ht (Z.of_nat j).
Proof.
  unfold slot_is_free, slot_free, slot_holds.
  destruct (ht_load buf ht (2 * Z.of_nat j)) as [n| | | |]; try discriminate.
  destruct (ht_load buf ht (2 * Z.of_nat j + 1)) as [t| | | |];
    try discriminate.
  intros H. apply andb_true_iff in H. destruct H as [Hn Ht].
  apply Z.eqb_eq in Hn. apply Z.eqb_eq in Ht. subst. split; reflexivity.
Qed.

Lemma slot_is_free_frame (buf buf' : list byte) (s : Z) (j : nat) :
  frame (ht + 8 * s) (ht + 8 * s + 8) buf buf' ->
  Z.of_nat j <> s ->
  slot_is_free buf' ht j = slot_is_free buf ht j.
Proof.
  intros Hf Hne. unfold slot_is_free, ht_load, load_ul32.
  rewrite (load_le_frame _ _ _ _ 4 Hf (ht + 4 * (2 * Z.of_nat j)))
    by (change (Z.of_nat 4) with 4; lia).
  rewrite (load_le_frame _ _ _ _ 4 Hf (ht + 4 * (2 * Z.of_nat j + 1)))
    by (change (Z.of_nat 4) with 4; lia).
  reflexivity.
Qed.

Lemma free_slot_exists (buf : list byte) (n : nat) :
  (occupied_count buf ht (Z.to_nat m) <= n)%nat ->
  Z.of_nat n < m ->
  exists j0, 0 <= j0 < m /\ slot_free buf ht j0.
Proof.
  intros Hcount Hn. unfold occupied_count in Hcount.
  destruct (filter_all_or_witness
              (fun j => negb (slot_is_free buf ht j)) (seq 0 (Z.to_nat m)))
    as [x [Hx Hfree]].
  { rewrite length_seq. lia. }
  apply in_seq in Hx. apply negb_false_iff in Hfree.
  exists (Z.of_nat x). split; [lia|].
  apply slot_is_free_true. exact Hfree.
Qed.

Lemma occupied_count_step (buf buf' : list byte) (s : Z) :
  frame (ht + 8 * s) (ht + 8 * s + 8) buf buf' ->
  (occupied_count buf' ht (Z.to_nat m)
   <= S (occupied_count buf ht (Z.to_nat m)))%nat.
Proof.
  intros Hf. unfold occupied_count.
  apply (filter_length_flip _ _ (Z.to_nat s)); [|apply seq_NoDup].
  intros y Hy. f_equal.
  destruct (Z.eq_dec (Z.of_nat y) s) as [Heq|Hne].
  - exfalso. apply Hy. rewrite <- Heq. lia.
  - apply (slot_is_free_frame _ _ s); assumption.
Qed.

Lemma placed_not_free (buf : list byte) (j : Z) (v : MapValue.t) :
  placeable v ->
  slot_holds buf ht j (MapValue.name_offset v) (MapValue.type_offset v) ->
  ~ slot_free buf ht j.
Proof.
  intros [_ [_ Hnz]] Hh Hf.
  destruct (slot_holds_inj ht buf j _ _ _ _ Hh Hf) as [Hn Ht]. lia.
Qed.

Lemma not_free_preserved (buf buf' : list byte) (s : Z) (v : MapValue.t) :
  frame (ht + 8 * s) (ht + 8 * s + 8) buf buf' ->
  placeable v ->
  slot_holds buf' ht s (MapValue.name_offset v) (MapValue.type_offset v) ->
  forall p, ~ slot_free buf ht p -> ~ slot_free buf' ht p.
Proof.
  intros Hf Hv Hs p Hnot Hfree.
  destruct (Z.eq_dec p s) as [->|Hne].
  - exact (placed_not_free _ _ _ Hv Hs Hfree).
  - apply Hnot.
    apply (frame_slot k k_range ht buf buf' s p 0 0 Hf Hne). exact Hfree.
Qed.

Lemma slot_of_step (buf buf' : list byte) (s : Z) (v v0 : MapValue.t)
    (j : Z) :
  frame (ht + 8 * s) (ht + 8 * s + 8) buf buf' ->
  placeable v ->
  slot_holds buf' ht s (MapValue.name_offset v) (MapValue.type_offset v) ->
  j <> s ->
  slot_of buf ht m v0 j -> slot_of buf' ht m v0 j.
Proof.
  intros Hf Hv Hs Hne [Hj [Hh [i [Hi Hb]]]].
  split; [exact Hj|]. split.
  - apply (frame_slot k k_range ht buf buf' s j _ _ Hf Hne). exact Hh.
  - exists i. split; [exact Hi|]. intros i' Hi'.
    apply (not_free_preserved buf buf' s v Hf Hv Hs). apply Hb. exact Hi'.
Qed.

Lemma table_inv_step (buf buf' : list byte) (placed : list MapValue.t)
    (v : MapValue.t) (i : nat) :
  Forall placeable placed -> placeable v ->
  table_inv buf ht m placed ->
  slot_free buf ht (probe_of m (MapValue.hash v) i) ->
  (forall i', (i' < i)%nat ->
     ~ slot_free buf ht (probe_of m (MapValue.hash v) i')) ->
  slot_holds buf' ht (probe_of m (MapValue.hash v) i)
    (MapValue.name_offset v) (MapValue.type_offset v) ->
  frame (ht + 8 * probe_of m (MapValue.hash v) i)
    (ht + 8 * probe_of m (MapValue.hash v) i + 8) buf buf' ->
  table_inv buf' ht m (placed ++ [v]).
Proof.
  intros Hplaced Hv [T1 T2] Hfree Hbefore Hholds Hf.
  set (s := probe_of m (MapValue.hash v) i) in *.
  pose proof (not_free_preserved buf buf' s v Hf Hv Hholds) as Hkeep.
  assert (Hs : 0 <= s < m).
  { unfold s, m. rewrite (probe_of_eq k k_range).
    apply (probe_seq_range k k_range).
    - pose proof (step_range k k_range (MapValue.hash v)). lia.
    - apply (start_range k k_range). }
  assert (Hnew : slot_of buf' ht m v s).
  { split; [exact Hs|]. split; [exact Hholds|].
    exists i. split; [reflexivity|].
    intros i' Hi'. apply Hkeep. apply Hbefore. exact Hi'. }
  split.
  - intros j Hj. destruct (Z.eq_dec j s) as [->|Hne].
    + right. exists v. split; [apply in_app_iff; right; left; reflexivity|].
      exact Hnew.
    + destruct (T1 j Hj) as [Hfj|[v0 [Hin0 Hslot]]].
      * left. apply (frame_slot k k_range ht buf buf' s j 0 0 Hf Hne).
        exact Hfj.
      * right. exists v0. split; [apply in_app_iff; left; exact Hin0|].
        exact (slot_of_step buf buf' s v v0 j Hf Hv Hholds Hne Hslot).
  - intros v0 Hin0. apply in_app_iff in Hin0.
    destruct Hin0 as [Hin0|[<-|[]]].
    + destruct (T2 v0 Hin0) as [j Hslot].
      exists j.
      assert (Hne : j <> s).
      { intros ->. destruct Hslot as [_ [Hh _]].
        rewrite Forall_forall in Hplaced.
        exact (placed_not_free _ _ _ (Hplaced v0 Hin0) Hh Hfree). }
      exact (slot_of_step buf buf' s v v0 j Hf Hv Hholds Hne Hslot).
    + exists s. exact Hnew.
Qed.

(** The symbol-table loop: it returns, and the table it leaves is as
    [table_inv] says. *)
Lemma emit_symtab_spec (store : list MapValue.t) :
  forall entries placed buf,
    table_in ht m buf ->
    table_inv buf ht m placed ->
    Forall placeable placed ->
    (occupied_count buf ht (Z.to_nat m) <= length placed)%nat ->
    Z.of_nat (length placed + length entries) <= m ->
    Forall placeable (map (deref store) entries) ->
    exists buf',
      emit_symtab buf ht m store entries = Ok buf'
      /\ frame ht (ht + 8 * m) buf buf'
      /\ table_inv buf' ht m (placed ++ map (deref store) entries).
Proof.
  induction entries as [|e entries IH];
    intros placed buf Hin Hinv Hplaced Hcount Hroom Hvals.
  - exists buf. cbn [emit_symtab map]. rewrite app_nil_r.
    split; [reflexivity|]. split; [apply frame_refl|exact Hinv].
  - cbn [map] in Hvals. inversion Hvals as [|? ? Hv Hvals']; subst.
    cbn [length] in Hroom.
    destruct (free_slot_exists buf (length placed) Hcount ltac:(lia))
      as [j0 Hj0].
    destruct (emit_symbol_spec k k_range ht buf (deref store e) Hin Hv
                (ex_intro _ j0 Hj0))
      as [buf1 [i [Hemit [Hs [Hfree [Hbefore [Hholds Hf]]]]]]].
    fold m in Hemit, Hs, Hfree, Hbefore, Hholds, Hf.
    assert (Hin1 : table_in ht m buf1).
    { destruct Hin as [H0 H1]. split; [exact H0|].
      rewrite (proj1 Hf). exact H1. }
    pose proof (table_inv_step buf buf1 placed (deref store e) i Hplaced Hv
                  Hinv Hfree Hbefore Hholds Hf) as Hinv1.
    assert (Hplaced1 : Forall placeable (placed ++ [deref store e])).
    { apply Forall_app. split; [exact Hplaced|].
      constructor; [exact Hv|constructor]. }
    assert (Hcount1 : (occupied_count buf1 ht (Z.to_nat m)
                       <= length (placed ++ [deref store e]))%nat).
    { pose proof (occupied_count_step buf buf1 _ Hf).
      rewrite length_app. cbn [length]. lia. }
    destruct (IH (placed ++ [deref store e]) buf1 Hin1 Hinv1 Hplaced1 Hcount1)
      as [buf2 [Hemit2 [Hf2 Hinv2]]].
    { rewrite length_app. cbn [length]. lia. }
    { exact Hvals'. }
    exists buf2. cbn [emit_symtab map]. rewrite Hemit. cbn [bind].
    split; [exact Hemit2|]. split.
    + eapply frame_trans; [|exact Hf2].
      eapply frame_weaken; [| |exact Hf]; lia.
    + rewrite <- app_assoc in Hinv2. exact Hinv2.
Qed.

End SymtabLoop.

(** ** Names are C strings hashed by [gdb_hash] *)

Lemma load_u8_nth_error (buf : list byte) (p : Z) (b : byte) :
  load_u8 buf p = Ok (u8_of_byte b) <->
  0 <= p /\ nth_error buf (Z.to_nat p) = Some b.
Proof.
  unfold load_u8. split.
  - destruct (p <? 0) eqn:Hp; [discriminate|]. apply Z.ltb_ge in Hp.
    destruct (nth_error buf (Z.to_nat p)) as [b'|]; [|discriminate].
    intros H. apply Ok_inj in H. apply u8_of_byte_inj in H. subst b'.
    split; [exact Hp|reflexivity].
  - intros [Hp Hn]. apply Z.ltb_ge in Hp. rewrite Hp, Hn. reflexivity.
Qed.

Lemma strlen_loop_spec (buf : list byte) (p : Z) :
  forall fuel n0 n,
    strlen_loop fuel buf p n0 = Ok n ->
    n0 <= n
    /\ forall q, n0 <= q < n ->
         exists b, load_u8 buf (p + q) = Ok b /\ b <> 0.
Proof.
  induction fuel as [|fuel IH]; intros n0 n H; [discriminate|].
  cbn [strlen_loop] in H. inv_bind H.
  destruct (a =? 0) eqn:Ha.
  - apply Ok_inj in H. subst n. split; [lia|]. intros q Hq. lia.
  - apply Z.eqb_neq in Ha. destruct (IH _ _ H) as [Hle Hall].
    split; [lia|]. intros q Hq.
    destruct (Z.eq_dec q n0) as [->|Hne].
    + exists a. split; [exact Hb|exact Ha].
    + apply Hall. lia.
Qed.

Lemma nth_error_slice (buf : list byte) (p n : Z) (i : nat) :
  0 <= p -> (i < Z.to_nat n)%nat ->
  nth_error (slice buf p n) i = nth_error buf (Z.to_nat p + i).
Proof.
  intros Hp Hi. unfold slice.
  rewrite nth_error_firstn.
  destruct (Nat.ltb_spec i (Z.to_nat n)); [|lia].
  apply nth_error_skipn.
Qed.

Lemma strlen_slice_no_nul (buf : list byte) (p n : Z) :
  strlen buf p = Ok n -> ~ In x00 (slice buf p n).
Proof.
  unfold strlen. intros H Hin.
  destruct (strlen_loop_spec _ _ _ _ _ H) as [Hn Hall].
  apply In_nth_error in Hin. destruct Hin as [i Hi].
  assert (Hlt : (i < Z.to_nat n)%nat).
  { assert (Hl : (i < length (slice buf p n))%nat).
    { apply nth_error_Some. rewrite Hi. discriminate. }
    unfold slice in Hl. rewrite length_firstn in Hl. lia. }
  destruct (Hall (Z.of_nat i) ltac:(lia)) as [b [Hb Hnz]].
  assert (Hp : 0 <= p).
  { destruct (Hall 0 ltac:(lia)) as [b0 [Hb0 _]].
    apply load_u8_Ok in Hb0. lia. }
  rewrite nth_error_slice in Hi by assumption.
  assert (Hload : load_u8 buf (p + Z.of_nat i) = Ok (u8_of_byte x00)).
  { apply load_u8_nth_error. split; [lia|].
    replace (Z.to_nat (p + Z.of_nat i)) with (Z.to_nat p + i)%nat by lia.
    exact Hi. }
  rewrite Hload in Hb. apply Ok_inj in Hb. subst b. apply Hnz. reflexivity.
Qed.

Lemma push_nametype_ok (cus : list Compunit.t) :
  forall i nt, nametype_ok nt -> Forall nametypes_ok cus ->
    Forall nametypes_ok (push_nametype cus i nt).
Proof.
  induction cus as [|cu cus IH]; intros i nt Hnt H; [constructor|].
  inversion H as [|? ? Hcu Hcus]; subst.
  destruct i as [|i]; cbn [push_nametype].
  - constructor; [|exact Hcus].
    unfold nametypes_ok. cbn [Compunit.set_nametypes Compunit.nametypes].
    apply Forall_app. split; [exact Hcu|]. constructor; [exact Hnt|constructor].
  - constructor; [exact Hcu|apply IH; assumption].
Qed.

Lemma read_pubnames_tuples_ok (E : Target) (buf : list byte) (cu : nat) :
  forall fuel cus data_start data_size r,
    Forall nametypes_ok cus ->
    read_pubnames_tuples fuel E buf cus cu data_start data_size = Ok r ->
    Forall nametypes_ok r.
Proof.
  induction fuel as [|fuel IH]; intros cus ds dz r Hc H; [discriminate|].
  cbn [read_pubnames_tuples] in H. cbv zeta in H. inv_binds H;
    try (apply Ok_inj in H; subst r; exact Hc).
  eapply IH; [|exact H]. apply push_nametype_ok; [|exact Hc].
  split; [reflexivity|]. cbn [NameType.name].
  apply strlen_slice_no_nul. assumption.
Qed.

Lemma read_pubnames_tables_ok (E : Target) (file : ObjectFile)
    (buf : list byte) :
  forall fuel cus start size r,
    Forall nametypes_ok cus ->
    read_pubnames_tables fuel E file buf cus start size = Ok r ->
    Forall nametypes_ok r.
Proof.
  induction fuel as [|fuel IH]; intros cus start size r Hc H; [discriminate|].
  cbn [read_pubnames_tables] in H. cbv zeta in H. inv_binds H;
    try (apply Ok_inj in H; subst r; exact Hc).
  destruct (get_cu cus (debug_info_offset file + a0)); [|discriminate].
  inv_binds H.
  eapply IH; [|exact H].
  eapply read_pubnames_tuples_ok; [exact Hc|exact Hb1].
Qed.

Lemma read_pubnames_ok (E : Target) (cus : list Compunit.t)
    (file : ObjectFile) (r : list Compunit.t) :
  Forall nametypes_ok cus ->
  read_pubnames E cus file = Ok r ->
  Forall nametypes_ok r.
Proof.
  intros Hc H. unfold read_pubnames in H. inv_bind H.
  assert (Hsec : forall isec cus r,
             Forall nametypes_ok cus ->
             read_pubnames_section E file isec cus = Ok r ->
             Forall nametypes_ok r).
  { intros [buf|] cus0 r0 Hc0 H0; unfold read_pubnames_section in H0.
    - eapply read_pubnames_tables_ok; [exact Hc0|exact H0].
    - apply Ok_inj in H0. subst r0. exact Hc0. }
  eapply Hsec; [|exact H]. eapply Hsec; [exact Hc|exact Hb].
Qed.

Lemma enumerate_compunits_ok (E : Target) (ctx : Context) :
  forall fuel p cus r,
    Forall nametypes_ok cus ->
    enumerate_compunits fuel E ctx p cus = Ok r ->
    Forall nametypes_ok r.
Proof.
  induction fuel as [|fuel IH]; intros p cus r Hc H; [discriminate|].
  cbn [enumerate_compunits] in H.
  destruct (p <? Z.of_nat (length (debug_info ctx))).
  - inv_bind H. destruct (a =? 4294967295); [discriminate|].
    cbv zeta in H. eapply IH; [|exact H].
    apply Forall_app. split; [exact Hc|].
    constructor; [|constructor]. constructor.
  - apply Ok_inj in H. subst r. exact Hc.
Qed.

Lemma read_cu_ranges_ok (E : Target) (ctx : Context) (cu cu' : Compunit.t) :
  nametypes_ok cu -> read_cu_ranges E ctx cu = Ok cu' -> nametypes_ok cu'.
Proof.
  unfold read_cu_ranges. intros Hcu H. inv_bind H.
  apply Ok_inj in H. subst cu'. exact Hcu.
Qed.

Lemma map_result_Forall_pre {A B : Type} (f : A -> result B)
    (P : A -> Prop) (Q : B -> Prop) :
  (forall x y, P x -> f x = Ok y -> Q y) ->
  forall l r, Forall P l -> map_result f l = Ok r -> Forall Q r.
Proof.
  intros Hf l. induction l as [|x l IH]; intros r Hl H.
  - apply Ok_inj in H. subst r. constructor.
  - inversion Hl as [|? ? Hx Hl']; subst.
    cbn [map_result] in H. inv_binds H.
    apply Ok_inj in H. subst r.
    constructor; [eapply Hf; [exact Hx|exact Hb]|apply IH; assumption].
Qed.

Lemma remove_duplicates_by_In {A : Type} (eqb : A -> A -> bool) (x : A) :
  forall l, In x (remove_duplicates_by eqb l) -> In x l.
Proof.
  induction l as [|y l IH]; intros H; [exact H|].
  cbn [remove_duplicates_by] in H. destruct l as [|z l'].
  - exact H.
  - destruct (eqb y z).
    + right. apply IH. exact H.
    + destruct H as [->|H]; [left; reflexivity|right; apply IH; exact H].
Qed.

Lemma uniquify_nametypes_ok (cu : Compunit.t) :
  nametypes_ok cu -> nametypes_ok (uniquify_nametypes cu).
Proof.
  unfold nametypes_ok, uniquify_nametypes.
  cbn [Compunit.set_nametypes Compunit.nametypes].
  intros H. rewrite Forall_forall in *. intros nt Hnt.
  apply H. eapply Permutation_in; [apply sort_by_perm|].
  eapply remove_duplicates_by_In. exact Hnt.
Qed.

(** Every name tuple of every compunit that [read_compunits] produces has
    a NUL-free name and the [gdb_hash] of that name as its hash. *)
Lemma read_compunits_nametypes_ok (E : Target) (ctx : Context)
    (cus : list Compunit.t) :
  read_compunits E ctx = Ok cus -> Forall nametypes_ok cus.
Proof.
  unfold read_compunits. intros H. inv_binds H.
  apply Ok_inj in H. subst cus.
  assert (H0 : Forall nametypes_ok a).
  { eapply enumerate_compunits_ok; [|exact Hb]. constructor. }
  assert (H1 : Forall nametypes_ok a0).
  { eapply map_result_Forall_pre; [|exact H0|exact Hb0].
    intros x y. apply read_cu_ranges_ok. }
  assert (H2 : Forall nametypes_ok a1).
  { eapply fold_result_invariant; [|exact H1|exact Hb1].
    intros cus0 file cus1. apply read_pubnames_ok. }
  apply Forall_map. eapply Forall_impl; [|exact H2].
  intros cu. apply uniquify_nametypes_ok.
Qed.

(** The values of the map inherit both properties from the tuples. *)
Lemma final_store_names (cus : list Compunit.t) (store : list MapValue.t)
    (tasks : list Task) :
  Forall nametypes_ok cus ->
  insertion_phase cus store tasks ->
  forall v, In v store ->
    MapValue.hash v = gdb_hash (MapValue.name v)
    /\ ~ In x00 (MapValue.name v).
Proof.
  intros Hok Hphase v Hv.
  destruct (final_store _ _ _ Hphase) as [_ [Hc _]].
  destruct (Hc v Hv) as [_ Hin].
  apply in_map_iff in Hin. destruct Hin as [nt [Hk Hnt]].
  apply in_concat in Hnt. destruct Hnt as [nts [Hnts Hnt]].
  apply in_map_iff in Hnts. destruct Hnts as [cu [<- Hcu]].
  rewrite Forall_forall in Hok. specialize (Hok cu Hcu).
  unfold nametypes_ok in Hok. rewrite Forall_forall in Hok.
  destruct (Hok nt Hnt) as [Hh Hn].
  unfold nt_key, key_of in Hk. injection Hk as Hname Hhash.
  rewrite <- Hname, <- Hhash. split; assumption.
Qed.

(** ** C strings in the output buffer *)

Lemma store_bytes_bytes_at (buf : list byte) (p : Z) (bs buf' : list byte) :
  store_bytes buf p bs = Ok buf' -> bytes_at buf' p bs.
Proof.
  intros H i b Hi. rewrite (store_bytes_load _ _ _ _ _ H).
  assert (Hlt : (i < length bs)%nat).
  { apply nth_error_Some. rewrite Hi. discriminate. }
  destruct (Z.leb_spec p (p + Z.of_nat i)); [|lia].
  destruct (Z.ltb_spec (p + Z.of_nat i) (p + Z.of_nat (length bs))); [|lia].
  cbn [andb].
  replace (Z.to_nat (p + Z.of_nat i - p)) with i by lia.
  rewrite Hi. reflexivity.
Qed.

Lemma bytes_at_frame (lo hi : Z) (buf buf' : list byte) (p : Z)
    (bs : list byte) :
  frame lo hi buf buf' ->
  p + Z.of_nat (length bs) <= lo \/ hi <= p ->
  bytes_at buf p bs -> bytes_at buf' p bs.
Proof.
  intros [_ Hf] Hout H i b Hi.
  assert (Hlt : (i < length bs)%nat).
  { apply nth_error_Some. rewrite Hi. discriminate. }
  rewrite Hf by lia. apply H. exact Hi.
Qed.

Lemma strlen_loop_bytes_at (buf : list byte) (p : Z) (name : list byte) :
  bytes_at buf p (name ++ [x00]) -> ~ In x00 name ->
  forall fuel n0,
    (n0 <= length name)%nat -> (length name - n0 < fuel)%nat ->
    strlen_loop fuel buf p (Z.of_nat n0) = Ok (Z.of_nat (length name)).
Proof.
  intros Hat Hnul. induction fuel as [|fuel IH]; intros n0 Hle Hfuel; [lia|].
  cbn [strlen_loop].
  destruct (Nat.eq_dec n0 (length name)) as [->|Hne].
  - rewrite (Hat (length name) x00).
    + reflexivity.
    + rewrite nth_error_app2 by lia. rewrite Nat.sub_diag. reflexivity.
  - destruct (nth_error name n0) as [b|] eqn:Hb.
    + rewrite (Hat n0 b) by (rewrite nth_error_app1 by lia; exact Hb).
      cbn [bind].
      destruct (u8_of_byte b =? 0) eqn:Hz.
      * exfalso. apply Hnul. apply Z.eqb_eq in Hz.
        change 0 with (u8_of_byte x00) in Hz. apply u8_of_byte_inj in Hz.
        subst b. eapply nth_error_In. exact Hb.
      * replace (Z.of_nat n0 + 1) with (Z.of_nat (S n0)) by lia.
        apply IH; lia.
    + apply nth_error_None in Hb. lia.
Qed.

Lemma bytes_at_c_string (buf : list byte) (p : Z) (name : list byte) :
  bytes_at buf p (name ++ [x00]) -> ~ In x00 name ->
  c_string buf p = Ok name.
Proof.
  intros Hat Hnul. unfold c_string, strlen.
  assert (Hend : load_u8 buf (p + Z.of_nat (length name)) = Ok 0).
  { apply (Hat (length name) x00).
    rewrite nth_error_app2 by lia. rewrite Nat.sub_diag. reflexivity. }
  assert (Hp : 0 <= p).
  { destruct name as [|b name'].
    - cbn [length] in Hend. apply load_u8_Ok in Hend. lia.
    - pose proof (Hat O b eq_refl) as H0. apply load_u8_Ok in H0. lia. }
  apply load_u8_Ok in Hend.
  change 0 with (Z.of_nat 0) at 1.
  rewrite (strlen_loop_bytes_at buf p name Hat Hnul (S (length buf)) O)
    by lia.
  cbn [bind]. f_equal.
  apply nth_error_ext. intros i.
  destruct (Nat.lt_ge_cases i (length name)) as [Hlt|Hge].
  - rewrite nth_error_slice by lia.
    destruct (nth_error name i) as [b|] eqn:Hb.
    + pose proof (Hat i b) as Hload.
      rewrite nth_error_app1 in Hload by lia. specialize (Hload Hb).
      apply load_u8_nth_error in Hload. destruct Hload as [_ Hn].
      replace (Z.to_nat (p + Z.of_nat i)) with (Z.to_nat p + i)%nat in Hn
        by lia.
      exact Hn.
    + apply nth_error_None in Hb. lia.
  - assert (Hl : (length (slice buf p (Z.of_nat (length name))) <= i)%nat).
    { unfold slice. rewrite length_firstn. lia. }
    apply nth_error_None in Hl. rewrite Hl. symmetry.
    apply nth_error_None. exact Hge.
Qed.

(** ** The layout of the constant pool *)

Lemma types_size_app (l1 l2 : list MapValue.t) :
  types_size (l1 ++ l2) = types_size l1 + types_size l2.
Proof.
  induction l1 as [|v l1 IH]; [reflexivity|].
  cbn [app]. unfold types_size in *. cbn [fold_right]. rewrite IH. lia.
Qed.

Lemma types_size_perm (l1 l2 : list MapValue.t) :
  Permutation l1 l2 -> types_size l1 = types_size l2.
Proof.
  intros H. induction H as [|v l1 l2 _ IH|a b l|l1 l2 l3 _ IH1 _ IH2].
  - reflexivity.
  - unfold types_size in *. cbn [fold_right]. rewrite IH. reflexivity.
  - unfold types_size. cbn [fold_right]. lia.
  - congruence.
Qed.

Lemma names_size_perm (l1 l2 : list MapValue.t) :
  Permutation l1 l2 -> names_size l1 = names_size l2.
Proof.
  intros H. induction H as [|v l1 l2 _ IH|a b l|l1 l2 l3 _ IH1 _ IH2].
  - reflexivity.
  - unfold names_size in *. cbn [fold_right]. rewrite IH. reflexivity.
  - unfold names_size. cbn [fold_right]. lia.
  - congruence.
Qed.

Lemma types_size_counts (vals : list MapValue.t) :
  types_size vals = sum_counts vals * 4 + Z.of_nat (length vals) * 4.
Proof.
  induction vals as [|v vals IH]; [reflexivity|].
  unfold types_size, sum_counts, types_bytes in *.
  cbn [fold_right length]. rewrite IH. lia.
Qed.

Lemma names_size_nonneg (vals : list MapValue.t) : 0 <= names_size vals.
Proof.
  induction vals as [|v vals IH]; [reflexivity|].
  unfold names_size, name_bytes in *. cbn [fold_right]. lia.
Qed.

Lemma types_size_lower (vals : list MapValue.t) :
  Forall (fun v => 0 <= MapValue.count v) vals ->
  Z.of_nat (length vals) * 4 <= types_size vals.
Proof.
  induction 1 as [|v vals Hv _ IH]; [reflexivity|].
  unfold types_size, types_bytes in *. cbn [fold_right length]. lia.
Qed.


Lemma type_layout_packed :
  forall vals off,
    0 <= off ->
    Forall (fun v => 0 <= MapValue.count v) vals ->
    off + types_size vals < 2 ^ 32 ->
    snd (type_layout off vals) = off + types_size vals
    /\ packed MapValue.type_offset types_bytes off (fst (type_layout off vals))
    /\ Forall2 same_but_type_offset vals (fst (type_layout off vals)).
Proof.
  induction vals as [|v vals IH]; intros off Hoff Hnn Hsize.
  - cbn. repeat split; [lia|constructor].
  - inversion Hnn as [|? ? Hv Hnn']; subst.
    pose proof (types_size_lower vals Hnn') as Hlow.
    change (types_size (v :: vals)) with (types_bytes v + types_size vals)
      in *.
    unfold types_bytes in Hsize |- *.
    cbn [type_layout].
    assert (Hb : u32 (u32 (MapValue.count v * 4) + 4)
                 = MapValue.count v * 4 + 4).
    { rewrite (u32_small (MapValue.count v * 4)) by lia.
      apply u32_small. lia. }
    rewrite Hb.
    destruct (IH (off + (MapValue.count v * 4 + 4))) as [Hs [Hp Hf]];
      [lia|exact Hnn'|lia|].
    destruct (type_layout (off + (MapValue.count v * 4 + 4)) vals)
      as [rest' off'] eqn:Hl.
    cbn [fst snd] in *. split; [lia|]. split.
    + cbn [packed set_type_offset MapValue.type_offset MapValue.count].
      unfold types_bytes.
      cbn [set_type_offset MapValue.type_offset MapValue.count].
      split; [apply u32_small; lia|exact Hp].
    + constructor; [|exact Hf]. reflexivity.
Qed.

Lemma name_layout_packed :
  forall vals off,
    0 <= off ->
    off + names_size vals < 2 ^ 32 ->
    snd (name_layout off vals) = off + names_size vals
    /\ packed MapValue.name_offset name_bytes off (fst (name_layout off vals))
    /\ Forall2 same_but_name_offset vals (fst (name_layout off vals)).
Proof.
  induction vals as [|v vals IH]; intros off Hoff Hsize.
  - cbn. repeat split; [lia|constructor].
  - pose proof (names_size_nonneg vals) as Hlow.
    change (names_size (v :: vals)) with (name_bytes v + names_size vals)
      in *.
    unfold name_bytes in Hsize |- *.
    cbn [name_layout].
    destruct (IH (off + (Z.of_nat (length (MapValue.name v)) + 1)))
      as [Hs [Hp Hf]]; [lia|lia|].
    destruct (name_layout (off + (Z.of_nat (length (MapValue.name v)) + 1))
                vals) as [rest' off'] eqn:Hl.
    cbn [fst snd] in *. split; [lia|]. split.
    + cbn [packed set_name_offset MapValue.name_offset MapValue.name].
      unfold name_bytes.
      cbn [set_name_offset MapValue.name_offset MapValue.name].
      split; [apply u32_small; lia|exact Hp].
    + constructor; [|exact Hf]. reflexivity.
Qed.

Section Packed.

Variables get bytes : MapValue.t -> Z.

Let total (vals : list MapValue.t) : Z :=
  fold_right (fun v acc => bytes v + acc) 0 vals.

Lemma packed_In (v : MapValue.t) :
  forall vals lo,
    packed get bytes lo vals ->
    Forall (fun v => 0 <= bytes v) vals ->
    In v vals ->
    lo <= get v /\ get v + bytes v <= lo + total vals.
Proof.
  induction vals as [|w vals IH]; intros lo Hp Hnn Hin; [contradiction|].
  inversion Hnn as [|? ? Hw Hnn']; subst.
  destruct Hp as [Hget Hp].
  assert (Ht : 0 <= total vals).
  { clear -Hnn'. induction Hnn' as [|x l Hx _ IHl]; [reflexivity|].
    unfold total in *. cbn [fold_right]. lia. }
  unfold total in *. cbn [fold_right].
  destruct Hin as [->|Hin].
  - lia.
  - destruct (IH _ Hp Hnn' Hin). lia.
Qed.

Lemma packed_disjoint (f : nat -> MapValue.t) :
  forall es lo,
    packed get bytes lo (map f es) ->
    Forall (fun e => 0 <= bytes (f e)) es ->
    NoDup es ->
    forall h h', In h es -> In h' es -> h <> h' ->
      get (f h) + bytes (f h) <= get (f h')
      \/ get (f h') + bytes (f h') <= get (f h).
Proof.
  induction es as [|e es IH]; intros lo Hp Hnn Hnd h h' Hh Hh' Hne;
    [contradiction|].
  inversion Hnn as [|? ? He Hnn']; subst.
  inversion Hnd as [|? ? Hnot Hnd']; subst.
  cbn [map] in Hp. destruct Hp as [Hget Hp].
  assert (Hnn2 : Forall (fun v => 0 <= bytes v) (map f es)).
  { apply Forall_map. exact Hnn'. }
  destruct Hh as [->|Hh]; destruct Hh' as [->|Hh'].
  - contradiction.
  - left. destruct (packed_In (f h') _ _ Hp Hnn2 (in_map f _ _ Hh')). lia.
  - right. destruct (packed_In (f h) _ _ Hp Hnn2 (in_map f _ _ Hh)). lia.
  - exact (IH _ Hp Hnn' Hnd' h h' Hh Hh' Hne).
Qed.

Lemma packed_ext :
  forall l l' lo,
    Forall2 (fun v v' => get v' = get v /\ bytes v' = bytes v) l l' ->
    packed get bytes lo l -> packed get bytes lo l'.
Proof.
  intros l l' lo H. revert lo.
  induction H as [|v v' l l' [Hg Hb] _ IH]; intros lo Hp; [exact I|].
  destruct Hp as [Hget Hp]. split; [congruence|].
  rewrite Hb. apply IH. exact Hp.
Qed.

End Packed.

(** "Write names": every name is written, with its NUL, at its offset. *)
Lemma emit_names_spec (base : Z) (store : list MapValue.t) :
  forall es lo buf,
    packed MapValue.name_offset name_bytes lo (map (deref store) es) ->
    0 <= base + lo ->
    base + lo + names_size (map (deref store) es) <= Z.of_nat (length buf) ->
    exists buf',
      emit_names buf base store es = Ok buf'
      /\ frame (base + lo) (base + lo + names_size (map (deref store) es))
           buf buf'
      /\ Forall
           (fun e =>
              bytes_at buf' (base + MapValue.name_offset (deref store e))
                (MapValue.name (deref store e) ++ [x00])) es.
Proof.
  induction es as [|e es IH]; intros lo buf Hp Hlo Hlen.
  - exists buf. split; [reflexivity|]. split; [apply frame_refl|constructor].
  - cbn [map] in Hp, Hlen |- *. destruct Hp as [Hget Hp].
    pose proof (names_size_nonneg (map (deref store) es)) as Hnn.
    change (names_size (deref store e :: map (deref store) es))
      with (name_bytes (deref store e) + names_size (map (deref store) es))
      in *.
    unfold name_bytes in Hlen, Hp |- *.
    set (name := MapValue.name (deref store e)) in *.
    assert (Hl : Z.of_nat (length (name ++ [x00]))
                 = Z.of_nat (length name) + 1).
    { rewrite length_app. cbn [length]. lia. }
    destruct (store_bytes_total buf (base + lo) (name ++ [x00]))
      as [buf1 Hst]; [lia|lia|].
    pose proof (store_bytes_frame _ _ _ _ Hst) as Hf1.
    pose proof (store_bytes_bytes_at _ _ _ _ Hst) as Hat.
    rewrite Hl in Hf1.
    destruct (IH (lo + (Z.of_nat (length name) + 1)) buf1 Hp)
      as [buf2 [Hemit [Hf2 Hall]]]; [lia|rewrite (proj1 Hf1); lia|].
    exists buf2. cbn [emit_names]. unfold write_string.
    rewrite Hget. fold name. rewrite Hst. cbn [bind].
    split; [exact Hemit|]. split.
    + eapply frame_trans.
      * eapply frame_weaken; [| |exact Hf1]; lia.
      * eapply frame_weaken; [| |exact Hf2]; lia.
    + constructor; [|exact Hall].
      rewrite Hget. fold name.
      eapply bytes_at_frame; [exact Hf2| |exact Hat].
      left. rewrite Hl. lia.
Qed.

(** ** The parts of the section before the symbol table *)

Lemma store_ul64_total (buf : list byte) (p v : Z) :
  0 <= p -> p + 8 <= Z.of_nat (length buf) ->
  exists buf', store_ul64 buf p v = Ok buf'.
Proof.
  intros Hp Hq. apply store_bytes_total; [exact Hp|].
  rewrite length_le_bytes. change (Z.of_nat 8) with 8. exact Hq.
Qed.

Lemma total_ranges_nonneg (cus : list Compunit.t) : 0 <= total_ranges cus.
Proof.
  induction cus as [|cu cus IH]; [reflexivity|].
  unfold total_ranges in *. cbn [fold_right]. lia.
Qed.

Lemma total_ranges_cons (cu : Compunit.t) (cus : list Compunit.t) :
  total_ranges (cu :: cus)
  = Z.of_nat (length (Compunit.ranges cu)) + total_ranges cus.
Proof. reflexivity. Qed.

Lemma symtab_offset_fold :
  forall cus acc,
    0 <= acc -> acc + total_ranges cus * 20 < 2 ^ 32 ->
    fold_left
      (fun acc cu => u32 (acc + Z.of_nat (length (Compunit.ranges cu)) * 20))
      cus acc
    = acc + total_ranges cus * 20.
Proof.
  induction cus as [|cu cus IH]; intros acc Hacc Hsize.
  - cbn. lia.
  - pose proof (total_ranges_nonneg cus) as Hnn.
    rewrite total_ranges_cons in Hsize |- *.
    cbn [fold_left]. rewrite u32_small by lia.
    rewrite IH by lia. lia.
Qed.

Lemma ht_size_pos (card : Z) : 1 <= ht_size_of card.
Proof.
  unfold ht_size_of, bit_ceil.
  pose proof (Z.log2_up_nonneg (Z.quot (card * 5) 4)) as H.
  assert (H1 : 2 ^ 0 <= 2 ^ Z.log2_up (Z.quot (card * 5) 4)).
  { apply Z.pow_le_mono_r; lia. }
  cbn in H1. exact H1.
Qed.

(** The offsets of the header when the section fits 32 bits. *)
Lemma compute_header_offsets (cus : list Compunit.t) (card : Z) :
  sizeof_hdr + Z.of_nat (length cus) * 16 + total_ranges cus * 20
  + ht_size_of card * 8 < 2 ^ 32 ->
  symtab_offset (compute_header cus card)
  = sizeof_hdr + Z.of_nat (length cus) * 16 + total_ranges cus * 20
  /\ const_pool_offset (compute_header cus card)
     = sizeof_hdr + Z.of_nat (length cus) * 16 + total_ranges cus * 20
       + ht_size_of card * 8.
Proof.
  intros Hsize. pose proof (total_ranges_nonneg cus) as Hr.
  pose proof (ht_size_pos card) as Hm.
  unfold compute_header, sizeof_hdr in *.
  cbn [symtab_offset const_pool_offset].
  rewrite (u32_small (24 + Z.of_nat (length cus) * 16)) by lia.
  rewrite symtab_offset_fold by lia.
  split; [reflexivity|]. apply u32_small. lia.
Qed.

Lemma emit_header_spec (buf : list byte) (hdr : SectionHeader) :
  sizeof_hdr <= Z.of_nat (length buf) ->
  exists buf', emit_header buf hdr = Ok buf' /\ frame 0 sizeof_hdr buf buf'.
Proof.
  intros Hlen. unfold emit_header.
  set (bs := le_bytes 4 (version hdr) ++ _).
  assert (Hl : Z.of_nat (length bs) = sizeof_hdr).
  { unfold bs. rewrite !length_app, !length_le_bytes. reflexivity. }
  destruct (store_bytes_total buf 0 bs) as [buf' Hst]; [lia|lia|].
  exists buf'. split; [exact Hst|].
  pose proof (store_bytes_frame _ _ _ _ Hst) as Hf.
  rewrite Hl in Hf. exact Hf.
Qed.

Lemma emit_cu_list_spec :
  forall cus buf p,
    0 <= p -> p + Z.of_nat (length cus) * 16 <= Z.of_nat (length buf) ->
    exists buf',
      emit_cu_list buf p cus = Ok (buf', p + Z.of_nat (length cus) * 16)
      /\ frame p (p + Z.of_nat (length cus) * 16) buf buf'.
Proof.
  induction cus as [|cu cus IH]; intros buf p Hp Hlen.
  - exists buf. cbn [emit_cu_list length]. split; [f_equal; f_equal; lia|].
    apply frame_refl.
  - cbn [length] in Hlen |- *. cbn [emit_cu_list].
    destruct (store_ul64_total buf p (Compunit.offset cu)) as [b1 H1];
      [lia|lia|].
    pose proof (store_ul64_frame _ _ _ _ H1) as F1.
    destruct (store_ul64_total b1 (p + 8) (Compunit.size cu)) as [b2 H2];
      [lia|rewrite (proj1 F1); lia|].
    pose proof (store_ul64_frame _ _ _ _ H2) as F2.
    destruct (IH b2 (p + 16)) as [b3 [H3 F3]];
      [lia|rewrite (proj1 F2), (proj1 F1); lia|].
    exists b3. rewrite H1. cbn [bind]. rewrite H2. cbn [bind]. rewrite H3.
    split; [f_equal; f_equal; lia|].
    eapply frame_trans; [eapply frame_weaken; [| |exact F1]; lia|].
    eapply frame_trans; [eapply frame_weaken; [| |exact F2]; lia|].
    eapply frame_weaken; [| |exact F3]; lia.
Qed.

Lemma emit_ranges_spec (i : Z) :
  forall ranges buf p,
    0 <= p -> p + Z.of_nat (length ranges) * 20 <= Z.of_nat (length buf) ->
    exists buf',
      emit_ranges buf p i ranges
      = Ok (buf', p + Z.of_nat (length ranges) * 20)
      /\ frame p (p + Z.of_nat (length ranges) * 20) buf buf'.
Proof.
  induction ranges as [|r ranges IH]; intros buf p Hp Hlen.
  - exists buf. cbn [emit_ranges length]. split; [f_equal; f_equal; lia|].
    apply frame_refl.
  - cbn [length] in Hlen |- *. cbn [emit_ranges].
    destruct (store_ul64_total buf p (fst r)) as [b1 H1]; [lia|lia|].
    pose proof (store_ul64_frame _ _ _ _ H1) as F1.
    destruct (store_ul64_total b1 (p + 8) (snd r)) as [b2 H2];
      [lia|rewrite (proj1 F1); lia|].
    pose proof (store_ul64_frame _ _ _ _ H2) as F2.
    destruct (store_ul32_total b2 (p + 16) i) as [b3 H3];
      [lia|rewrite (proj1 F2), (proj1 F1); lia|].
    pose proof (store_ul32_frame _ _ _ _ H3) as F3.
    destruct (IH b3 (p + 20)) as [b4 [H4 F4]];
      [lia|rewrite (proj1 F3), (proj1 F2), (proj1 F1); lia|].
    exists b4. rewrite H1. cbn [bind]. rewrite H2. cbn [bind].
    rewrite H3. cbn [bind]. rewrite H4.
    split; [f_equal; f_equal; lia|].
    eapply frame_trans; [eapply frame_weaken; [| |exact F1]; lia|].
    eapply frame_trans; [eapply frame_weaken; [| |exact F2]; lia|].
    eapply frame_trans; [eapply frame_weaken; [| |exact F3]; lia|].
    eapply frame_weaken; [| |exact F4]; lia.
Qed.

Lemma emit_address_areas_spec :
  forall cus buf p i,
    0 <= p -> p + total_ranges cus * 20 <= Z.of_nat (length buf) ->
    exists buf',
      emit_address_areas buf p i cus = Ok (buf', p + total_ranges cus * 20)
      /\ frame p (p + total_ranges cus * 20) buf buf'.
Proof.
  induction cus as [|cu cus IH]; intros buf p i Hp Hlen.
  - exists buf. cbn [emit_address_areas]. split; [f_equal; f_equal; cbn; lia|].
    apply frame_refl.
  - pose proof (total_ranges_nonneg cus) as Hnn.
    rewrite total_ranges_cons in Hlen |- *. cbn [emit_address_areas].
    destruct (emit_ranges_spec i (Compunit.ranges cu) buf p) as [b1 [H1 F1]];
      [lia|lia|].
    destruct (IH b1 (p + Z.of_nat (length (Compunit.ranges cu)) * 20) (i + 1))
      as [b2 [H2 F2]]; [lia|rewrite (proj1 F1); lia|].
    exists b2. rewrite H1. cbn [bind]. rewrite H2.
    split; [f_equal; f_equal; lia|].
    eapply frame_trans; [eapply frame_weaken; [| |exact F1]; lia|].
    eapply frame_weaken; [| |exact F2]; lia.
Qed.

(** ** The buffer starts out as zeros *)

Lemma zeros_repeat (n : nat) : zeros 0 (Z.of_nat n) (repeat x00 n).
Proof.
  intros q Hq. change (Ok 0) with (Ok (u8_of_byte x00)).
  apply load_u8_nth_error. split; [lia|].
  rewrite nth_error_repeat by lia. reflexivity.
Qed.

Lemma zeros_frame (lo hi a b : Z) (buf buf' : list byte) :
  frame lo hi buf buf' -> b <= lo \/ hi <= a ->
  zeros a b buf -> zeros a b buf'.
Proof.
  intros [_ Hf] Hout Hz q Hq. rewrite Hf by lia. apply Hz. exact Hq.
Qed.

Lemma zeros_load_le (a b : Z) (buf : list byte) :
  zeros a b buf ->
  forall n p, a <= p -> p + Z.of_nat n <= b -> load_le buf p n = Ok 0.
Proof.
  intros Hz. induction n as [|n IH]; intros p Ha Hb; [reflexivity|].
  cbn [load_le]. rewrite Hz by lia. cbn [bind].
  rewrite IH by lia. reflexivity.
Qed.

Lemma zeros_slot_free (a b : Z) (buf : list byte) (ht j : Z) :
  zeros a b buf -> a <= ht + 8 * j -> ht + 8 * j + 8 <= b ->
  slot_free buf ht j.
Proof.
  intros Hz Ha Hb. unfold slot_free, slot_holds, ht_load, load_ul32.
  split; apply (zeros_load_le a b buf Hz);
    change (Z.of_nat 4) with 4; lia.
Qed.

Lemma slot_free_is_free (buf : list byte) (ht : Z) (j : nat) :
  slot_free buf ht (Z.of_nat j) -> slot_is_free buf ht j = true.
Proof.
  intros [Hn Ht]. unfold slot_is_free. rewrite Hn, Ht. reflexivity.
Qed.

Lemma occupied_count_zeros (a b : Z) (buf : list byte) (ht : Z) (n : nat) :
  zeros a b buf -> a <= ht -> ht + 8 * Z.of_nat n <= b ->
  occupied_count buf ht n = O.
Proof.
  intros Hz Ha Hb. unfold occupied_count.
  assert (H : forall l, Forall (fun j => (j < n)%nat) l ->
            filter (fun j => negb (slot_is_free buf ht j)) l = []).
  { induction l as [|j l IH]; intros Hl; [reflexivity|].
    inversion Hl as [|? ? Hj Hl']; subst. cbn [filter].
    rewrite slot_free_is_free.
    - cbn [negb]. apply IH. exact Hl'.
    - apply (zeros_slot_free a b); [exact Hz|lia|lia]. }
  rewrite H; [reflexivity|].
  apply Forall_forall. intros j Hj. apply in_seq in Hj. lia.
Qed.

Lemma table_inv_zeros (a b : Z) (buf : list byte) (ht ht_size : Z) :
  zeros a b buf -> a <= ht -> ht + 8 * ht_size <= b ->
  table_inv buf ht ht_size [].
Proof.
  intros Hz Ha Hb. split.
  - intros j Hj. left. apply (zeros_slot_free a b); [exact Hz|lia|lia].
  - intros v [].
Qed.

(** ** The pool of CU vectors *)

Section TypesPool.

Variable store : list MapValue.t.
Variables base size : Z.

Let toff (h : nat) : Z := MapValue.type_offset (deref store h).
Let cnt (h : nat) : Z := MapValue.count (deref store h).

Hypothesis base_nonneg : 0 <= base.
Hypothesis size_fits : size < 2 ^ 32.
Hypothesis area_in :
  forall h, (h < length store)%nat ->
    0 <= toff h /\ 0 <= cnt h /\ toff h + (cnt h * 4 + 4) <= size.
Hypothesis areas_disjoint :
  forall h h', (h < length store)%nat -> (h' < length store)%nat -> h <> h' ->
    toff h + (cnt h * 4 + 4) <= toff h'
    \/ toff h' + (cnt h' * 4 + 4) <= toff h.


Lemma emit_types_of_cu_spec (i : Z) :
  forall nts es buf seen,
    length nts = length es ->
    Forall (fun h => (h < length store)%nat) es ->
    base + size <= Z.of_nat (length buf) ->
    counters store base buf seen ->
    (forall h, (h < length store)%nat ->
       Z.of_nat (seen h + count_occ Nat.eq_dec es h) <= cnt h) ->
    exists buf',
      emit_types_of_cu buf base i store nts es = Ok buf'
      /\ frame base (base + size) buf buf'
      /\ counters store base buf'
           (fun h => (seen h + count_occ Nat.eq_dec es h)%nat).
Proof.
  induction nts as [|nt nts IH]; intros es buf seen Hlen Hes Hbuf Hc Hroom.
  - destruct es; [|discriminate]. exists buf. split; [reflexivity|].
    split; [apply frame_refl|].
    intros h Hh. cbn [count_occ]. rewrite Nat.add_0_r. apply Hc. exact Hh.
  - destruct es as [|e es]; [discriminate|].
    inversion Hes as [|? ? He Hes']; subst.
    destruct (area_in e He) as [Ht [Hn Ha]].
    pose proof (Hroom e He) as Hre. cbn [count_occ] in Hre.
    destruct (Nat.eq_dec e e) as [_|Hne]; [|contradiction].
    cbn [emit_types_of_cu]. cbv zeta. fold (toff e).
    set (p := base + toff e).
    pose proof (Hc e He) as Hce. fold (toff e) in Hce. fold p in Hce.
    rewrite Hce. cbn [bind].
    assert (Hidx : u32 (Z.of_nat (seen e) + 1) = Z.of_nat (seen e) + 1)
      by (apply u32_small; lia).
    rewrite Hidx.
    destruct (store_ul32_total buf p (Z.of_nat (seen e) + 1)) as [b1 H1];
      [lia|lia|].
    pose proof (store_ul32_frame _ _ _ _ H1) as F1.
    destruct (store_ul32_total b1 (p + 4 * (Z.of_nat (seen e) + 1))
                (Z.lor (Z.shiftl (NameType.type nt) 24) i)) as [b2 H2];
      [lia|rewrite (proj1 F1); lia|].
    pose proof (store_ul32_frame _ _ _ _ H2) as F2.
    rewrite H1. cbn [bind]. rewrite H2. cbn [bind].
    assert (F12 : frame p (p + (cnt e * 4 + 4)) buf b2).
    { eapply frame_trans; [eapply frame_weaken; [| |exact F1]; lia|].
      eapply frame_weaken; [| |exact F2]; lia. }
    set (seen' := fun h => (seen h + count_occ Nat.eq_dec [e] h)%nat).
    assert (Hc' : counters store base b2 seen').
    { intros h Hh. unfold seen'. cbn [count_occ].
      destruct (Nat.eq_dec e h) as [<-|Hne].
      - fold (toff e). fold p. unfold load_ul32.
        rewrite (load_le_frame _ _ _ _ 4 F2)
          by (change (Z.of_nat 4) with 4; lia).
        fold (load_ul32 b1 p).
        rewrite (load_ul32_store_ul32 _ _ _ _ H1), Hidx. f_equal. lia.
      - rewrite Nat.add_0_r. rewrite <- (Hc h Hh). unfold load_ul32.
        fold (toff h).
        destruct (area_in h Hh) as [Hth [Hnh Hah]].
        apply (load_le_frame _ _ _ _ 4 F12).
        change (Z.of_nat 4) with 4. unfold p.
        destruct (areas_disjoint e h He Hh Hne); lia. }
    destruct (IH es b2 seen') as [b3 [H3 [F3 Hc3]]].
    + cbn [length] in Hlen. lia.
    + exact Hes'.
    + rewrite (proj1 F12). exact Hbuf.
    + exact Hc'.
    + intros h Hh. specialize (Hroom h Hh). unfold seen'.
      cbn [count_occ] in Hroom |- *.
      destruct (Nat.eq_dec e h); lia.
    + exists b3. split; [exact H3|]. split.
      * eapply frame_trans; [|exact F3].
        eapply frame_weaken; [| |exact F12]; unfold p; lia.
      * intros h Hh. rewrite (Hc3 h Hh). unfold seen'. cbn [count_occ].
        destruct (Nat.eq_dec e h); f_equal; lia.
Qed.

Lemma emit_types_spec :
  forall cus buf seen i,
    Forall
      (fun cu =>
         length (Compunit.nametypes cu) = length (Compunit.entries cu)
         /\ Forall (fun h => (h < length store)%nat) (Compunit.entries cu))
      cus ->
    base + size <= Z.of_nat (length buf) ->
    counters store base buf seen ->
    (forall h, (h < length store)%nat ->
       Z.of_nat (seen h
                 + count_occ Nat.eq_dec
                     (concat (map Compunit.entries cus)) h) <= cnt h) ->
    exists buf',
      emit_types buf base i store cus = Ok buf'
      /\ frame base (base + size) buf buf'.
Proof.
  induction cus as [|cu cus IH]; intros buf seen i Hcus Hbuf Hc Hroom.
  - exists buf. split; [reflexivity|apply frame_refl].
  - inversion Hcus as [|? ? [Hlen Hes] Hcus']; subst.
    cbn [map concat] in Hroom. cbn [emit_types].
    destruct (emit_types_of_cu_spec i (Compunit.nametypes cu)
                (Compunit.entries cu) buf seen Hlen Hes Hbuf Hc)
      as [b1 [H1 [F1 Hc1]]].
    { intros h Hh. specialize (Hroom h Hh).
      rewrite count_occ_app in Hroom. lia. }
    destruct (IH b1 _ (i + 1) Hcus' ltac:(rewrite (proj1 F1); exact Hbuf) Hc1)
      as [b2 [H2 F2]].
    { intros h Hh. specialize (Hroom h Hh).
      rewrite count_occ_app in Hroom. lia. }
    exists b2. rewrite H1. cbn [bind]. split; [exact H2|].
    eapply frame_trans; eassumption.
Qed.

End TypesPool.

(** ** The handles of the compunits and the counts of the map *)

Lemma Forall2_concat_fields {A B : Type} (R : A -> B -> Prop)
    (f : Compunit.t -> list A) (g : Compunit.t -> list B) :
  forall cus cus',
    Forall2 (fun cu cu' => Forall2 R (f cu) (g cu')) cus cus' ->
    Forall2 R (concat (map f cus)) (concat (map g cus')).
Proof.
  intros cus cus' H. induction H as [|cu cu' cus cus' Hcu _ IH].
  - constructor.
  - cbn [map concat]. apply Forall2_app; assumption.
Qed.

Lemma length_all_nametypes (cus : list Compunit.t) :
  Z.of_nat (length (concat (map Compunit.nametypes cus)))
  = total_nametypes cus.
Proof.
  induction cus as [|cu cus IH]; [reflexivity|].
  cbn [map concat]. rewrite length_app, Nat2Z.inj_add, IH. reflexivity.
Qed.

Lemma count_handles_le_keys (store : list MapValue.t) (h : nat) :
  forall nts es,
    Forall2
      (fun nt ent =>
         (ent < length store)%nat
         /\ MapValue.name (deref store ent) = NameType.name nt
         /\ MapValue.hash (deref store ent) = NameType.hash nt) nts es ->
    (count_occ Nat.eq_dec es h
     <= count_occ key_eq_dec (map nt_key nts) (key_of (deref store h)))%nat.
Proof.
  intros nts es H. induction H as [|nt ent nts es [_ [Hn Hh]] _ IH];
    [reflexivity|].
  cbn [map count_occ].
  destruct (Nat.eq_dec ent h) as [->|Hne].
  - destruct (key_eq_dec (nt_key nt) (key_of (deref store h))) as [_|Hk].
    + lia.
    + exfalso. apply Hk. unfold nt_key, key_of. congruence.
  - destruct (key_eq_dec (nt_key nt) (key_of (deref store h))); lia.
Qed.

Lemma insertion_phase_handles (cus : list Compunit.t)
    (store : list MapValue.t) (tasks : list Task) :
  insertion_phase cus store tasks ->
  Forall2
    (fun cu cu' =>
       Compunit.nametypes cu' = Compunit.nametypes cu
       /\ Forall2
            (fun nt ent =>
               (ent < length store)%nat
               /\ MapValue.name (deref store ent) = NameType.name nt
               /\ MapValue.hash (deref store ent) = NameType.hash nt)
            (Compunit.nametypes cu') (Compunit.entries cu'))
    cus (with_entries cus tasks)
  /\ length tasks = length cus.
Proof.
  intros [Hsteps Hfin].
  pose proof (phase_steps_tasks (map Compunit.nametypes cus) _ _ Hsteps
                (inv_tasks _ _ (phase_inv_initial cus))) as Ht.
  cbn [fst snd] in Ht.
  pose proof (finished_tasks_match _ _ _ Ht Hfin) as Hm.
  split; [apply with_entries_parallel; exact Hm|].
  rewrite <- (Forall2_length Ht), length_map. reflexivity.
Qed.

(** No handle occurs among the entries of the compunits more often than
    the count of its value says. *)
Lemma entries_counted (cus : list Compunit.t) (store : list MapValue.t)
    (tasks : list Task) :
  total_nametypes cus < 2 ^ 32 ->
  insertion_phase cus store tasks ->
  forall h, (h < length store)%nat ->
    Z.of_nat (count_occ Nat.eq_dec
                (concat (map Compunit.entries (with_entries cus tasks))) h)
    <= MapValue.count (deref store h).
Proof.
  intros Htot Hphase h Hh.
  destruct (insertion_phase_handles _ _ _ Hphase) as [Hpar _].
  destruct (final_store _ _ _ Hphase) as [_ [Hc _]].
  assert (Hin : In (deref store h) store) by (apply nth_In; exact Hh).
  destruct (Hc _ Hin) as [Heq _].
  set (nts := concat (map Compunit.nametypes cus)) in *.
  assert (Hall : Forall2
            (fun nt ent =>
               (ent < length store)%nat
               /\ MapValue.name (deref store ent) = NameType.name nt
               /\ MapValue.hash (deref store ent) = NameType.hash nt)
            nts (concat (map Compunit.entries (with_entries cus tasks)))).
  { assert (Hnts : nts = concat (map Compunit.nametypes
                                   (with_entries cus tasks))).
    { unfold nts. f_equal. clear -Hpar.
      induction Hpar as [|cu cu' l l' [Hn _] _ IH]; [reflexivity|].
      cbn [map]. rewrite Hn, IH. reflexivity. }
    rewrite Hnts. apply Forall2_concat_fields.
    clear -Hpar. induction Hpar as [|cu cu' l l' [_ Hf] _ IH]; constructor;
      assumption. }
  pose proof (count_handles_le_keys store h _ _ Hall) as Hle.
  pose proof (count_occ_bound key_eq_dec (key_of (deref store h))
                (map nt_key nts)) as Hb.
  rewrite length_map in Hb.
  pose proof (length_all_nametypes cus) as Hl. fold nts in Hl.
  rewrite Heq. cbn [canonical_value MapValue.count].
  unfold occurrences. rewrite u32_small by lia. lia.
Qed.

Lemma sum_counts_total (cus : list Compunit.t) (store : list MapValue.t)
    (tasks : list Task) :
  total_nametypes cus < 2 ^ 32 ->
  insertion_phase cus store tasks ->
  sum_counts store = total_nametypes cus
  /\ Forall (fun v => 0 <= MapValue.count v) store.
Proof.
  intros Htot [Hsteps Hfin].
  rewrite <- nts_total_map in Htot.
  pose proof (phase_steps_inv _ _ _ Htot Hsteps (phase_inv_initial cus))
    as [Htasks Hsum Hnn].
  cbn [fst snd] in *.
  pose proof (finished_tasks_match _ _ _ Htasks Hfin) as Hmatch.
  split; [|exact Hnn].
  rewrite Hsum, (matched_done_total _ _ _ Hmatch). apply nts_total_map.
Qed.

Lemma Forall2_map_In {A B C : Type} (R : B -> C -> Prop) (f : A -> B)
    (g : A -> C) :
  forall es, Forall2 R (map f es) (map g es) ->
    forall e, In e es -> R (f e) (g e).
Proof.
  induction es as [|a es IH]; intros H e He; [contradiction|].
  cbn [map] in H. inversion H as [|? ? ? ? Ha Hes]; subst.
  destruct He as [->|He]; [exact Ha|apply IH; assumption].
Qed.

(** The two assignment loops, when nothing wraps around: the CU vectors
    lie one after the other from 0 on, the names after them, and a value
    keeps its name, its hash and its count. *)
Lemma assign_offsets_spec (store : list MapValue.t) (es : list nat) :
  NoDup es ->
  Forall (fun h => (h < length store)%nat) es ->
  Permutation (map (deref store) es) store ->
  Forall (fun v => 0 <= MapValue.count v) store ->
  types_size store + names_size store < 2 ^ 32 ->
  forall store1 off1 store2 off2,
    assign_type_offsets store es 0 = (store1, off1) ->
    assign_name_offsets store1 es off1 = (store2, off2) ->
    off2 = types_size store + names_size store
    /\ length store2 = length store
    /\ packed MapValue.type_offset types_bytes 0 (map (deref store2) es)
    /\ packed MapValue.name_offset name_bytes (types_size store)
         (map (deref store2) es)
    /\ forall e, In e es ->
         exists x y,
           deref store2 e
           = set_name_offset y (set_type_offset x (deref store e)).
Proof.
  intros Hnd Hval Hperm Hnn Hsize store1 off1 store2 off2 H1 H2.
  pose proof (names_size_nonneg store) as HN.
  pose proof (types_size_lower store Hnn) as HT.
  set (vals0 := map (deref store) es) in *.
  assert (Hnn0 : Forall (fun v => 0 <= MapValue.count v) vals0).
  { eapply Permutation_Forall; [symmetry; exact Hperm|exact Hnn]. }
  assert (HT0 : types_size vals0 = types_size store)
    by (apply types_size_perm; exact Hperm).
  assert (HN0 : names_size vals0 = names_size store)
    by (apply names_size_perm; exact Hperm).
  destruct (assign_type_offsets_layout es store 0 Hnd Hval)
    as [Hm1 [Ho1 [Hl1 _]]].
  rewrite H1 in Hm1, Ho1, Hl1. cbn [fst snd] in Hm1, Ho1, Hl1.
  fold vals0 in Hm1, Ho1.
  destruct (type_layout_packed vals0 0) as [Hs1 [Hp1 Hf1]];
    [lia|exact Hnn0|lia|].
  rewrite <- Ho1 in Hs1. rewrite <- Hm1 in Hp1, Hf1.
  set (vals1 := map (deref store1) es) in *.
  assert (HN1 : names_size vals1 = names_size vals0).
  { clear -Hf1. induction Hf1 as [|v v' l l' Hv _ IH]; [reflexivity|].
    unfold names_size in *. cbn [fold_right]. rewrite IH.
    unfold same_but_type_offset in Hv. rewrite Hv. reflexivity. }
  assert (Hval1 : Forall (fun h => (h < length store1)%nat) es)
    by (rewrite Hl1; exact Hval).
  destruct (assign_name_offsets_layout es store1 off1 Hnd Hval1)
    as [Hm2 [Ho2 [Hl2 _]]].
  rewrite H2 in Hm2, Ho2, Hl2. cbn [fst snd] in Hm2, Ho2, Hl2.
  fold vals1 in Hm2, Ho2.
  destruct (name_layout_packed vals1 off1) as [Hs2 [Hp2 Hf2]]; [lia|lia|].
  rewrite <- Ho2 in Hs2. rewrite <- Hm2 in Hp2, Hf2.
  split; [lia|]. split; [congruence|]. split; [|split].
  - eapply packed_ext; [|exact Hp1].
    eapply Forall2_impl; [|exact Hf2].
    intros v v' Hv. unfold same_but_name_offset in Hv. rewrite Hv.
    split; reflexivity.
  - replace (types_size store) with off1 by lia. exact Hp2.
  - intros e He.
    pose proof (Forall2_map_In _ _ _ es Hf1 e He) as Ha.
    pose proof (Forall2_map_In _ _ _ es Hf2 e He) as Hb.
    unfold same_but_type_offset in Ha. unfold same_but_name_offset in Hb.
    exists (MapValue.type_offset (deref store1 e)),
           (MapValue.name_offset (deref store2 e)).
    rewrite Hb at 1. rewrite Ha at 1. reflexivity.
Qed.

(** ** The symbol table in the finished section *)

Lemma slot_holds_frame (lo hi : Z) (buf buf' : list byte) (ht j n t : Z) :
  frame lo hi buf buf' ->
  ht + 8 * j + 8 <= lo \/ hi <= ht + 8 * j ->
  slot_holds buf' ht j n t <-> slot_holds buf ht j n t.
Proof.
  intros Hf Hout. unfold slot_holds, ht_load, load_ul32.
  rewrite (load_le_frame _ _ _ _ 4 Hf (ht + 4 * (2 * j)))
    by (change (Z.of_nat 4) with 4; lia).
  rewrite (load_le_frame _ _ _ _ 4 Hf (ht + 4 * (2 * j + 1)))
    by (change (Z.of_nat 4) with 4; lia).
  reflexivity.
Qed.

Lemma probe_of_range (k : Z) (hash : Z) (i : nat) :
  0 <= k <= 31 -> 0 <= probe_of (2 ^ k) hash i < 2 ^ k.
Proof.
  intros Hk. rewrite (probe_of_eq k Hk).
  apply (probe_seq_range k Hk).
  - pose proof (step_range k Hk hash). lia.
  - apply (start_range k Hk).
Qed.

Lemma slot_of_frame (k : Z) (lo hi : Z) (buf buf' : list byte) (ht : Z)
    (v : MapValue.t) (j : Z) :
  0 <= k <= 31 ->
  frame lo hi buf buf' -> ht + 8 * 2 ^ k <= lo ->
  slot_of buf ht (2 ^ k) v j -> slot_of buf' ht (2 ^ k) v j.
Proof.
  intros Hk Hf Hlo [Hj [Hh [i [Hi Hb]]]].
  split; [exact Hj|]. split.
  - apply (slot_holds_frame lo hi buf buf'); [exact Hf|left; lia|exact Hh].
  - exists i. split; [exact Hi|]. intros i' Hi' Hfree.
    apply (Hb i' Hi').
    pose proof (probe_of_range k (MapValue.hash v) i' Hk) as Hr.
    apply (slot_holds_frame lo hi buf buf'); [exact Hf|left; lia|exact Hfree].
Qed.

Lemma names_size_map_eq {A : Type} (f g : A -> MapValue.t) (es : list A) :
  (forall e, In e es -> MapValue.name (f e) = MapValue.name (g e)) ->
  names_size (map f es) = names_size (map g es).
Proof.
  induction es as [|e es IH]; intros H; [reflexivity|].
  cbn [map]. unfold names_size, name_bytes in *. cbn [fold_right].
  rewrite IH by (intros x Hx; apply H; right; exact Hx).
  rewrite (H e) by (left; reflexivity). reflexivity.
Qed.

Lemma types_size_map_eq {A : Type} (f g : A -> MapValue.t) (es : list A) :
  (forall e, In e es -> MapValue.count (f e) = MapValue.count (g e)) ->
  types_size (map f es) = types_size (map g es).
Proof.
  induction es as [|e es IH]; intros H; [reflexivity|].
  cbn [map]. unfold types_size, types_bytes in *. cbn [fold_right].
  rewrite IH by (intros x Hx; apply H; right; exact Hx).
  rewrite (H e) by (left; reflexivity). reflexivity.
Qed.

(** The emission returns, and a reader finds every value of the map in the
    symbol table of the section it leaves. *)
Lemma emit_gdb_index_symtab (cus : list Compunit.t)
    (store : list MapValue.t) (scan : list nat) (card : Z) :
  Forall
    (fun cu =>
       length (Compunit.nametypes cu) = length (Compunit.entries cu)
       /\ Forall (fun h => (h < length store)%nat) (Compunit.entries cu))
    cus ->
  (forall h, (h < length store)%nat ->
     Z.of_nat (count_occ Nat.eq_dec (concat (map Compunit.entries cus)) h)
     <= MapValue.count (deref store h)) ->
  Forall (fun v => 0 <= MapValue.count v) store ->
  (forall v, In v store ->
     MapValue.hash v = gdb_hash (MapValue.name v)
     /\ ~ In x00 (MapValue.name v)) ->
  Permutation scan (seq 0 (length store)) ->
  Z.of_nat (length store) <= ht_size_of card ->
  sizeof_hdr + Z.of_nat (length cus) * 16 + total_ranges cus * 20
  + ht_size_of card * 8 + types_size store + names_size store < 2 ^ 32 ->
  exists buf,
    emit_gdb_index cus store scan card = Ok buf
    /\ symtab_ok buf (symtab_offset (compute_header cus card))
         (const_pool_offset (compute_header cus card)) (ht_size_of card)
         store.
Proof.
  intros Hcus Hcount Hnn Hnames Hperm Hroom Hsize.
  destruct (sort_entries_handles store scan Hperm) as [Hnd [Hval Hall]].
  assert (Hvals : Permutation (map (deref store) (sort_entries store scan))
                    store).
  { rewrite sort_entries_values, sort_by_perm.
    apply scan_values_permutation. exact Hperm. }
  pose proof (names_size_nonneg store) as HN.
  pose proof (types_size_lower store Hnn) as HT.
  pose proof (total_ranges_nonneg cus) as HR.
  pose proof (ht_size_pos card) as Hm.
  destruct (compute_header_offsets cus card ltac:(lia)) as [HS HP].
  unfold emit_gdb_index. cbv zeta.
  set (es := sort_entries store scan) in *.
  set (hdr := compute_header cus card) in *.
  set (S := symtab_offset hdr) in *.
  set (P := const_pool_offset hdr) in *.
  set (k := Z.log2_up (Z.quot (card * 5) 4)).
  change (ht_size_of card) with (2 ^ k) in *.
  change sizeof_hdr with 24 in *.
  assert (Hk : 0 <= k <= 31).
  { split; [apply Z.log2_up_nonneg|].
    destruct (Z.le_gt_cases k 31) as [Hle|Hgt]; [exact Hle|].
    exfalso. assert (2 ^ 32 <= 2 ^ k) by (apply Z.pow_le_mono_r; lia). lia. }
  set (T := types_size store) in *.
  set (N := names_size store) in *.
  destruct (assign_type_offsets store es 0) as [store1 off1] eqn:H1.
  destruct (assign_name_offsets store1 es off1) as [store2 off2] eqn:H2.
  destruct (assign_offsets_spec store es Hnd Hval Hvals Hnn ltac:(lia)
              _ _ _ _ H1 H2) as [Hoff2 [Hlen2 [Hpt [Hpn Hsame]]]].
  fold T in Hpn. fold T N in Hoff2.
  (* what the values keep *)
  assert (Hkeep : forall e, In e es ->
            In (deref store e) store
            /\ MapValue.name (deref store2 e) = MapValue.name (deref store e)
            /\ MapValue.hash (deref store2 e) = MapValue.hash (deref store e)
            /\ MapValue.count (deref store2 e)
               = MapValue.count (deref store e)).
  { intros e He. rewrite Forall_forall in Hval.
    split; [apply nth_In; apply Hval; exact He|].
    destruct (Hsame e He) as [x [y ->]]. repeat split. }
  set (vals2 := map (deref store2) es) in *.
  assert (HN2 : names_size vals2 = N).
  { unfold vals2, N. rewrite <- (names_size_perm _ _ Hvals).
    apply names_size_map_eq. intros e He. apply (Hkeep e He). }
  assert (HT2 : types_size vals2 = T).
  { unfold vals2, T. rewrite <- (types_size_perm _ _ Hvals).
    apply types_size_map_eq. intros e He. apply (Hkeep e He). }
  assert (Hcnt2 : forall e, In e es -> 0 <= MapValue.count (deref store2 e)).
  { intros e He. destruct (Hkeep e He) as [Hin [_ [_ ->]]].
    rewrite Forall_forall in Hnn. apply Hnn. exact Hin. }
  assert (Htb : Forall (fun v => 0 <= types_bytes v) vals2).
  { apply Forall_map. apply Forall_forall. intros e He.
    unfold types_bytes. specialize (Hcnt2 e He). lia. }
  assert (Hnb : Forall (fun v => 0 <= name_bytes v) vals2).
  { apply Forall_forall. intros v _. unfold name_bytes. lia. }
  assert (Harea : forall e, In e es ->
            0 <= MapValue.type_offset (deref store2 e)
            /\ MapValue.type_offset (deref store2 e)
               + (MapValue.count (deref store2 e) * 4 + 4) <= T
            /\ T <= MapValue.name_offset (deref store2 e)
            /\ MapValue.name_offset (deref store2 e)
               + name_bytes (deref store2 e) <= T + N).
  { intros e He.
    assert (Hv : In (deref store2 e) vals2) by (apply in_map; exact He).
    pose proof (packed_In _ _ _ _ _ Hpt Htb Hv) as [A1 A2].
    pose proof (packed_In _ _ _ _ _ Hpn Hnb Hv) as [B1 B2].
    change (fold_right _ 0 vals2) with (types_size vals2) in A2.
    change (fold_right _ 0 vals2) with (names_size vals2) in B2.
    rewrite HT2 in A2. rewrite HN2 in B2. unfold types_bytes in A2.
    repeat split; lia. }
  assert (Hplace : Forall placeable vals2).
  { apply Forall_map. apply Forall_forall. intros e He.
    destruct (Harea e He) as [A1 [A2 [B1 B2]]].
    specialize (Hcnt2 e He). unfold name_bytes in B2.
    unfold placeable. lia. }
  (* the buffer *)
  set (n := Z.to_nat (P + off2)).
  assert (Hn : Z.of_nat n = P + off2) by (unfold n; lia).
  pose proof (zeros_repeat n) as Hz0.
  assert (Hl0 : length (repeat x00 n) = n) by apply repeat_length.
  destruct (emit_header_spec (repeat x00 n) hdr) as [b1 [E1 F1]];
    [rewrite Hl0; change sizeof_hdr with 24; lia|].
  destruct (emit_cu_list_spec cus b1 24) as [b2 [E2 F2]];
    [lia|rewrite (proj1 F1), Hl0; lia|].
  destruct (emit_address_areas_spec cus b2 (24 + Z.of_nat (length cus) * 16) 0)
    as [b3 [E3 F3]]; [lia|rewrite (proj1 F2), (proj1 F1), Hl0; lia|].
  change sizeof_hdr with 24 in *.
  rewrite E1. cbn [bind]. rewrite E2. cbn [bind]. rewrite E3. cbn [bind].
  assert (Hl3 : length b3 = n)
    by (rewrite (proj1 F3), (proj1 F2), (proj1 F1); exact Hl0).
  assert (Hz3 : zeros S (Z.of_nat n) b3).
  { eapply zeros_frame; [exact F3|right; lia|].
    eapply zeros_frame; [exact F2|right; lia|].
    eapply zeros_frame; [exact F1|right; lia|].
    intros q Hq. apply Hz0. lia. }
  (* the symbol table *)
  destruct (emit_symtab_spec k Hk S store2 es [] b3) as [b4 [E4 [F4 Tinv]]].
  - split; [lia|rewrite Hl3; lia].
  - apply (table_inv_zeros S (Z.of_nat n)); [exact Hz3|lia|lia].
  - constructor.
  - rewrite (occupied_count_zeros S (Z.of_nat n)); [cbn; lia|exact Hz3|lia|lia].
  - cbn [length Nat.add].
    rewrite <- (length_map (deref store) es).
    rewrite (Permutation_length Hvals). exact Hroom.
  - exact Hplace.
  - cbn [app] in Tinv. fold vals2 in Tinv.
    rewrite E4. cbn [bind].
    assert (Hl4 : length b4 = n) by (rewrite (proj1 F4); exact Hl3).
    assert (Hz4 : zeros P (Z.of_nat n) b4).
    { eapply zeros_frame; [exact F4|right; lia|].
      intros q Hq. apply Hz3. lia. }
    (* the CU vectors *)
    destruct (emit_types_spec store2 P T) with (cus := cus) (buf := b4)
      (seen := fun _ : nat => O) (i := 0) as [b5 [E5 F5]].
    + lia.
    + lia.
    + intros h Hh. rewrite Hlen2 in Hh.
      destruct (Harea h (Hall h Hh)) as [A1 [A2 _]].
      specialize (Hcnt2 h (Hall h Hh)). lia.
    + intros h h' Hh Hh' Hne. rewrite Hlen2 in Hh, Hh'.
      apply (packed_disjoint MapValue.type_offset types_bytes
               (deref store2) es 0 Hpt); try assumption.
      * apply Forall_forall. intros e He. unfold types_bytes.
        specialize (Hcnt2 e He). lia.
      * apply Hall. exact Hh.
      * apply Hall. exact Hh'.
    + rewrite Hlen2. exact Hcus.
    + rewrite Hl4. lia.
    + intros h Hh. rewrite Hlen2 in Hh.
      destruct (Harea h (Hall h Hh)) as [A1 [A2 _]].
      specialize (Hcnt2 h (Hall h Hh)).
      apply (zeros_load_le P (Z.of_nat n) b4 Hz4);
        change (Z.of_nat 4) with 4; lia.
    + intros h Hh. rewrite Hlen2 in Hh. cbn [Nat.add].
      destruct (Hkeep h (Hall h Hh)) as [_ [_ [_ ->]]].
      apply Hcount. exact Hh.
    + rewrite E5. cbn [bind].
      assert (Hl5 : length b5 = n) by (rewrite (proj1 F5); exact Hl4).
      (* the names *)
      destruct (emit_names_spec P store2 es T b5 Hpn) as [b6 [E6 [F6 Hat]]];
        [lia|fold vals2; rewrite HN2, Hl5; lia|].
      fold vals2 in F6. rewrite HN2 in F6.
      exists b6. split; [exact E6|].
      assert (F46 : frame P (Z.of_nat n) b4 b6).
      { eapply frame_trans.
        - eapply frame_weaken; [| |exact F5]; lia.
        - eapply frame_weaken; [| |exact F6]; lia. }
      assert (Hentry : forall e j, In e es ->
                slot_of b4 S (2 ^ k) (deref store2 e) j ->
                entry_at b6 S P (2 ^ k) (deref store e) j).
      { intros e j He Hslot.
        apply (slot_of_frame k P (Z.of_nat n) b4 b6 S _ j Hk F46) in Hslot;
          [|lia].
        destruct Hslot as [Hj [Hh [i [Hi Hb]]]].
        destruct (Hkeep e He) as [Hin [Hname [Hhash _]]].
        destruct (Hnames _ Hin) as [Hgdb Hnul].
        rewrite Forall_forall in Hplace, Hat.
        exists (MapValue.name_offset (deref store2 e)),
               (MapValue.type_offset (deref store2 e)), i.
        split; [exact Hh|]. split.
        - apply (placed_not_free k Hk S b6 j (deref store2 e)); [|exact Hh].
          apply Hplace. apply in_map. exact He.
        - split.
          + apply bytes_at_c_string; [|exact Hnul].
            rewrite <- Hname. apply Hat. exact He.
          + split; [symmetry; exact Hgdb|].
            rewrite <- Hhash. split; [exact Hi|exact Hb]. }
      destruct Tinv as [T1 T2]. split.
      * intros j Hj. destruct (T1 j Hj) as [Hfree|[v2 [Hin2 Hslot]]].
        -- left.
           apply (slot_holds_frame P (Z.of_nat n) b4 b6);
             [exact F46|left; lia|exact Hfree].
        -- right. apply in_map_iff in Hin2. destruct Hin2 as [e [<- He]].
           exists (deref store e).
           split; [apply (Hkeep e He)|apply Hentry; assumption].
      * intros v Hv. apply (In_nth _ _ default_value) in Hv.
        destruct Hv as [h [Hh <-]]. fold (deref store h).
        destruct (T2 (deref store2 h)) as [j Hslot].
        { apply in_map. apply Hall. exact Hh. }
        exists j. split; [apply Hslot|].
        apply Hentry; [apply Hall; exact Hh|exact Hslot].
Qed.

Lemma with_entries_cu_agree :
  forall cus tasks,
    length tasks = length cus ->
    Forall2 cu_agree cus (with_entries cus tasks).
Proof.
  induction cus as [|cu cus IH]; intros [|t tasks] Hlen; try discriminate;
    unfold with_entries; cbn [combine map]; constructor.
  - repeat split.
  - apply IH. cbn [length] in Hlen. lia.
Qed.

Lemma total_ranges_agree (cus cus' : list Compunit.t) :
  Forall2 cu_agree cus cus' ->
  total_ranges cus' = total_ranges cus /\ length cus' = length cus.
Proof.
  intros H. induction H as [|cu cu' cus cus' [_ [_ [Hr _]]] _ [IH1 IH2]].
  - split; reflexivity.
  - rewrite !total_ranges_cons. cbn [length]. rewrite Hr, IH1, IH2.
    split; reflexivity.
Qed.

Lemma total_nametypes_nonneg (cus : list Compunit.t) :
  0 <= total_nametypes cus.
Proof. rewrite <- length_all_nametypes. lia. Qed.

(** C3: the symbol-table loop places every value of the map by double
    hashing.
    One iteration, for a value [v] and a table of [ht_size] slots at [ht]
    that has a free slot: it returns; the slot it fills is the first free
    one on the probe sequence of the hash of [v] ([probe_of]: from
    [hash & mask], by steps of [(hash & mask) | 1], masked), a slot being
    free when both its words are zero; that slot receives
    [(name_offset, type_offset)], and no other byte changes.
    The whole emission, for a run of the pipeline whose section fits 32
    bits and whose table has room for the values of the map: it returns,
    and in the section every occupied slot is the slot of a value of the
    map (the C string at its name offset in the constant pool is the name
    of the value, [gdb_hash] of that string is the hash of the value, and
    the probe sequence of this hash reaches the slot without passing a free
    one), and every value of the map has such a slot. *)
Theorem symtab_double_hashing (E : Target) (ctx : Context) (card : Z)
    (cus : list Compunit.t) (store : list MapValue.t) (tasks : list Task)
    (scan : list nat) :
  read_compunits E ctx = Ok cus ->
  insertion_phase cus store tasks ->
  Permutation scan (seq 0 (length store)) ->
  Z.of_nat (length store) <= ht_size_of card ->
  index_size cus store card < 2 ^ 32 ->
  (forall ht buf v,
     0 <= ht -> ht + 8 * ht_size_of card <= Z.of_nat (length buf) ->
     placeable v ->
     (exists j, 0 <= j < ht_size_of card /\ slot_free buf ht j) ->
     exists buf' i,
       emit_symbol buf ht (ht_size_of card) v = Ok buf'
       /\ slot_free buf ht (probe_of (ht_size_of card) (MapValue.hash v) i)
       /\ (forall i', (i' < i)%nat ->
             ~ slot_free buf ht
                 (probe_of (ht_size_of card) (MapValue.hash v) i'))
       /\ slot_holds buf' ht (probe_of (ht_size_of card) (MapValue.hash v) i)
            (MapValue.name_offset v) (MapValue.type_offset v)
       /\ frame (ht + 8 * probe_of (ht_size_of card) (MapValue.hash v) i)
            (ht + 8 * probe_of (ht_size_of card) (MapValue.hash v) i + 8)
            buf buf')
  /\ exists buf,
       emit_gdb_index (with_entries cus tasks) store scan card = Ok buf
       /\ symtab_ok buf
            (symtab_offset (compute_header (with_entries cus tasks) card))
            (const_pool_offset (compute_header (with_entries cus tasks) card))
            (ht_size_of card) store.
Proof.
  intros Hread Hphase Hperm Hroom Hsize.
  pose proof (total_ranges_nonneg cus) as HR.
  pose proof (total_nametypes_nonneg cus) as HNT.
  pose proof (names_size_nonneg store) as HN.
  pose proof (ht_size_pos card) as Hm.
  unfold index_size in Hsize. change sizeof_hdr with 24 in Hsize.
  split.
  - set (k := Z.log2_up (Z.quot (card * 5) 4)).
    change (ht_size_of card) with (2 ^ k) in *.
    assert (Hk : 0 <= k <= 31).
    { split; [apply Z.log2_up_nonneg|].
      destruct (Z.le_gt_cases k 31) as [Hle|Hgt]; [exact Hle|].
      exfalso. assert (2 ^ 32 <= 2 ^ k) by (apply Z.pow_le_mono_r; lia).
      lia. }
    intros ht buf v Hht Hlen Hv Hfree.
    destruct (emit_symbol_spec k Hk ht buf v (conj Hht Hlen) Hv Hfree)
      as [buf' [i [He [_ [Hf [Hb [Hh Hfr]]]]]]].
    exists buf', i.
    split; [exact He|]. split; [exact Hf|]. split; [exact Hb|].
    split; [exact Hh|exact Hfr].
  - destruct (insertion_phase_handles _ _ _ Hphase) as [Hpar Hlen].
    destruct (sum_counts_total cus store tasks ltac:(lia) Hphase)
      as [Hsum Hnn].
    pose proof (with_entries_cu_agree cus tasks Hlen) as Hagree.
    destruct (total_ranges_agree _ _ Hagree) as [Hr Hl].
    apply emit_gdb_index_symtab.
    + clear -Hpar. induction Hpar as [|cu cu' l l' [_ Hf] _ IH];
        constructor; [|exact IH].
      split; [exact (Forall2_length Hf)|].
      clear -Hf. induction Hf as [|nt e nts es [He _] _ IHf]; constructor;
        assumption.
    + apply entries_counted; [lia|exact Hphase].
    + exact Hnn.
    + apply (final_store_names cus store tasks); [|exact Hphase].
      eapply read_compunits_nametypes_ok. exact Hread.
    + exact Hperm.
    + exact Hroom.
    + rewrite Hr, Hl, types_size_counts, Hsum.
      change sizeof_hdr with 24. lia.
Qed.

(** The section of [two_symbols_ctx]: its table of two slots is at offset
    96 and its constant pool at 112. *)
Lemma symtab_double_hashing_example :
  (read_compunits X86_64 two_symbols_ctx = Ok two_symbols_cus
   /\ insertion_phase two_symbols_cus (fst (run_tasks [] two_symbols_cus))
        (snd (run_tasks [] two_symbols_cus))
   /\ Permutation [1; 0]%nat
        (seq 0 (length (fst (run_tasks [] two_symbols_cus))))
   /\ Z.of_nat (length (fst (run_tasks [] two_symbols_cus))) <= ht_size_of 2
   /\ index_size two_symbols_cus (fst (run_tasks [] two_symbols_cus)) 2
      < 2 ^ 32)
  /\ exists buf,
       emit_gdb_index
         (with_entries two_symbols_cus (snd (run_tasks [] two_symbols_cus)))
         (fst (run_tasks [] two_symbols_cus)) [1; 0]%nat 2 = Ok buf
       /\ symtab_ok buf 96 112 2 (fst (run_tasks [] two_symbols_cus)).
Proof.
  pose proof read_compunits_two_symbols as H1.
  pose proof (run_tasks_is_insertion_phase two_symbols_cus) as H2.
  assert (H3 : Permutation [1; 0]%nat
                 (seq 0 (length (fst (run_tasks [] two_symbols_cus)))))
    by (vm_compute; apply perm_swap).
  assert (H4 : Z.of_nat (length (fst (run_tasks [] two_symbols_cus)))
               <= ht_size_of 2) by (vm_compute; discriminate).
  assert (H5 : index_size two_symbols_cus
                 (fst (run_tasks [] two_symbols_cus)) 2 < 2 ^ 32)
    by (vm_compute; reflexivity).
  split; [exact (conj H1 (conj H2 (conj H3 (conj H4 H5))))|].
  exact (proj2 (symtab_double_hashing X86_64 two_symbols_ctx 2
                  two_symbols_cus _ _ [1; 0]%nat H1 H2 H3 H4 H5)).
Defined.

(** The cardinality is the estimator's and a parameter here.  The room it
    leaves is needed: were it 1 for the two values of [two_symbols_ctx],
    the table would have one slot, and the [while] loop would find no free
    slot for the second value. *)
Lemma symtab_without_room :
  ht_size_of 1 = 1
  /\ emit_gdb_index
       (with_entries two_symbols_cus (snd (run_tasks [] two_symbols_cus)))
       (fst (run_tasks [] two_symbols_cus)) [1; 0]%nat 1 = OutOfFuel.
Proof. split; vm_compute; reflexivity. Qed.

(** ** The name tuples of a compunit are sorted and duplicate-free *)

Lemma NameType_ltb_irrefl (a : NameType.t) : NameType_ltb a a = false.
Proof.
  unfold NameType_ltb. rewrite !Z.ltb_irrefl. apply bytes_ltb_irrefl.
Qed.

Lemma NameType_ltb_trans (a b c : NameType.t) :
  NameType_ltb a b = true -> NameType_ltb b c = true ->
  NameType_ltb a c = true.
Proof.
  unfold NameType_ltb. order_cases. apply bytes_ltb_trans.
Qed.

Lemma NameType_ltb_negtrans (a b c : NameType.t) :
  NameType_ltb a b = false -> NameType_ltb b c = false ->
  NameType_ltb a c = false.
Proof.
  unfold NameType_ltb. order_cases. apply bytes_ltb_negtrans.
Qed.

Lemma NameType_ltb_total (a b : NameType.t) :
  NameType_ltb a b = false -> NameType_ltb b a = false -> a = b.
Proof.
  unfold NameType_ltb. order_cases. intros Hab Hba.
  destruct a as [na ha ta], b as [nb hb tb].
  cbn [NameType.name NameType.hash NameType.type] in *.
  f_equal; [apply bytes_ltb_antisym; assumption|lia|lia].
Qed.

Lemma NameType_eqb_eq (a b : NameType.t) :
  NameType_eqb a b = true -> a = b.
Proof.
  unfold NameType_eqb. intros H.
  apply andb_true_iff in H. destruct H as [H Ht].
  apply andb_true_iff in H. destruct H as [Hn Hh].
  apply bytes_eqb_eq in Hn. apply Z.eqb_eq in Hh. apply Z.eqb_eq in Ht.
  destruct a, b. cbn [NameType.name NameType.hash NameType.type] in *.
  congruence.
Qed.


Lemma remove_duplicates_sorted :
  forall l,
    StronglySorted (leb_of NameType_ltb) l ->
    StronglySorted NameType_lt (remove_duplicates_by NameType_eqb l).
Proof.
  induction l as [|x l IH]; intros Hs; [constructor|].
  inversion Hs as [|? ? Hs' Hx]; subst. specialize (IH Hs').
  cbn [remove_duplicates_by]. destruct l as [|y l']; [repeat constructor|].
  destruct (NameType_eqb x y) eqn:Hxy; [exact IH|].
  constructor; [exact IH|].
  inversion Hx as [|? ? Hyx Hx']; subst. unfold leb_of in Hyx.
  assert (Hlt : NameType_ltb x y = true).
  { destruct (NameType_ltb x y) eqn:H; [reflexivity|].
    pose proof (NameType_ltb_total x y H Hyx) as ->.
    unfold NameType_eqb in Hxy.
    rewrite bytes_eqb_refl, !Z.eqb_refl in Hxy. discriminate. }
  apply Forall_forall. intros z Hz.
  apply remove_duplicates_by_In in Hz. destruct Hz as [<-|Hz]; [exact Hlt|].
  inversion Hs' as [|? ? _ Hy]; subst.
  rewrite Forall_forall in Hy. specialize (Hy z Hz). unfold leb_of in Hy.
  unfold NameType_lt. destruct (NameType_ltb x z) eqn:H; [reflexivity|].
  rewrite (NameType_ltb_negtrans x z y H Hy) in Hlt. discriminate.
Qed.

(** Every compunit that [read_compunits] produces has its name tuples in
    strictly increasing order of (hash, type, name): sorted, and no tuple
    twice. *)
Lemma read_compunits_nametypes_sorted (E : Target) (ctx : Context)
    (cus : list Compunit.t) :
  read_compunits E ctx = Ok cus ->
  Forall (fun cu => StronglySorted NameType_lt (Compunit.nametypes cu)) cus.
Proof.
  unfold read_compunits. intros H. inv_binds H.
  apply Ok_inj in H. subst cus.
  apply Forall_map. apply Forall_forall. intros cu _.
  unfold uniquify_nametypes.
  cbn [Compunit.set_nametypes Compunit.nametypes].
  apply remove_duplicates_sorted. apply sort_by_sorted.
  - exact NameType_ltb_irrefl.
  - exact NameType_ltb_trans.
  - exact NameType_ltb_negtrans.
Qed.

(** * Further properties of the reader and of the writer *)

(** ** What [read_pubnames] pushes *)

Section PushedTuples.

(** A property of name tuples that holds of every tuple made from a C
    string and a byte. *)
Variable P : NameType.t -> Prop.

Hypothesis P_pushed :
  forall buf p n type,
    strlen buf p = Ok n -> 0 <= type < 256 ->
    P {| NameType.name := slice buf p n;
         NameType.hash := gdb_hash (slice buf p n);
         NameType.type := type |}.

Let all_P (cu : Compunit.t) : Prop := Forall P (Compunit.nametypes cu).

Lemma push_nametype_all (cus : list Compunit.t) :
  forall i nt, P nt -> Forall all_P cus ->
    Forall all_P (push_nametype cus i nt).
Proof.
  induction cus as [|cu cus IH]; intros i nt Hnt H; [constructor|].
  inversion H as [|? ? Hcu Hcus]; subst.
  destruct i as [|i]; cbn [push_nametype].
  - constructor; [|exact Hcus].
    unfold all_P. cbn [Compunit.set_nametypes Compunit.nametypes].
    apply Forall_app. split; [exact Hcu|]. constructor; [exact Hnt|constructor].
  - constructor; [exact Hcu|apply IH; assumption].
Qed.

Lemma read_pubnames_tuples_all (E : Target) (buf : list byte) (cu : nat) :
  forall fuel cus data_start data_size r,
    Forall all_P cus ->
    read_pubnames_tuples fuel E buf cus cu data_start data_size = Ok r ->
    Forall all_P r.
Proof.
  induction fuel as [|fuel IH]; intros cus ds dz r Hc H; [discriminate|].
  cbn [read_pubnames_tuples] in H. cbv zeta in H. inv_binds H;
    try (apply Ok_inj in H; subst r; exact Hc).
  eapply IH; [|exact H]. apply push_nametype_all; [|exact Hc].
  apply P_pushed; [assumption|].
  match goal with
  | Hl : load_u8 _ _ = Ok ?t |- 0 <= ?t < 256 =>
      apply load_u8_Ok in Hl; apply Hl
  end.
Qed.

Lemma read_pubnames_tables_all (E : Target) (file : ObjectFile)
    (buf : list byte) :
  forall fuel cus start size r,
    Forall all_P cus ->
    read_pubnames_tables fuel E file buf cus start size = Ok r ->
    Forall all_P r.
Proof.
  induction fuel as [|fuel IH]; intros cus start size r Hc H; [discriminate|].
  cbn [read_pubnames_tables] in H. cbv zeta in H. inv_binds H;
    try (apply Ok_inj in H; subst r; exact Hc).
  destruct (get_cu cus (debug_info_offset file + a0)); [|discriminate].
  inv_binds H.
  eapply IH; [|exact H].
  eapply read_pubnames_tuples_all; [exact Hc|exact Hb1].
Qed.

Lemma read_pubnames_all (E : Target) (cus : list Compunit.t)
    (file : ObjectFile) (r : list Compunit.t) :
  Forall all_P cus -> read_pubnames E cus file = Ok r -> Forall all_P r.
Proof.
  intros Hc H. unfold read_pubnames in H. inv_bind H.
  assert (Hsec : forall isec cus r,
             Forall all_P cus ->
             read_pubnames_section E file isec cus = Ok r ->
             Forall all_P r).
  { intros [buf|] cus0 r0 Hc0 H0; unfold read_pubnames_section in H0.
    - eapply read_pubnames_tables_all; [exact Hc0|exact H0].
    - apply Ok_inj in H0. subst r0. exact Hc0. }
  eapply Hsec; [|exact H]. eapply Hsec; [exact Hc|exact Hb].
Qed.

Lemma read_compunits_all (E : Target) (ctx : Context)
    (cus : list Compunit.t) :
  read_compunits E ctx = Ok cus -> Forall all_P cus.
Proof.
  unfold read_compunits. intros H. inv_binds H.
  apply Ok_inj in H. subst cus.
  assert (Hnil : forall l, Forall (fun cu => Compunit.nametypes cu = []) l ->
                           Forall all_P l).
  { intros l Hl. eapply Forall_impl; [|exact Hl].
    intros cu Hcu. unfold all_P. rewrite Hcu. constructor. }
  assert (H0 : Forall (fun cu => Compunit.nametypes cu = []) a).
  { clear -Hb.
    assert (Hgen : forall fuel p cus r,
              Forall (fun cu => Compunit.nametypes cu = []) cus ->
              enumerate_compunits fuel E ctx p cus = Ok r ->
              Forall (fun cu => Compunit.nametypes cu = []) r).
    { induction fuel as [|fuel IH]; intros p cus r Hc H; [discriminate|].
      cbn [enumerate_compunits] in H.
      destruct (p <? Z.of_nat (length (debug_info ctx))).
      - inv_bind H. destruct (a0 =? 4294967295); [discriminate|].
        cbv zeta in H. eapply IH; [|exact H].
        apply Forall_app. split; [exact Hc|].
        constructor; [reflexivity|constructor].
      - apply Ok_inj in H. subst r. exact Hc. }
    eapply Hgen; [|exact Hb]. constructor. }
  assert (H1 : Forall all_P a0).
  { eapply map_result_Forall_pre; [|exact (Hnil _ H0)|exact Hb0].
    intros x y Hx Hy. unfold read_cu_ranges in Hy. inv_bind Hy.
    apply Ok_inj in Hy. subst y. exact Hx. }
  assert (H2 : Forall all_P a1).
  { eapply fold_result_invariant; [|exact H1|exact Hb1].
    intros cus0 file cus1. apply read_pubnames_all. }
  apply Forall_map. eapply Forall_impl; [|exact H2].
  intros cu Hcu. unfold all_P, uniquify_nametypes in *.
  cbn [Compunit.set_nametypes Compunit.nametypes].
  rewrite Forall_forall in *. intros nt Hnt.
  apply Hcu. eapply Permutation_in; [apply sort_by_perm|].
  eapply remove_duplicates_by_In. exact Hnt.
Qed.

End PushedTuples.

(** X1: every name tuple of every compunit that [read_compunits] returns
    was read as a C string with its type byte: the name holds no NUL, the
    hash is [gdb_hash] of the name (a [u32]), and the type fits a byte. *)
Theorem read_compunits_tuples_as_read (E : Target) (ctx : Context)
    (cus : list Compunit.t) (cu : Compunit.t) (nt : NameType.t) :
  read_compunits E ctx = Ok cus ->
  In cu cus -> In nt (Compunit.nametypes cu) ->
  nametype_read nt /\ 0 <= NameType.hash nt < 2 ^ 32.
Proof.
  intros Hread Hcu Hnt.
  assert (Hall : Forall
            (fun cu => Forall nametype_read (Compunit.nametypes cu)) cus).
  { apply (read_compunits_all nametype_read) with (E := E) (ctx := ctx);
      [|exact Hread].
    intros buf p n type Hs Ht. split; [reflexivity|].
    split; [|exact Ht]. cbn [NameType.name].
    apply strlen_slice_no_nul. exact Hs. }
  rewrite Forall_forall in Hall. specialize (Hall cu Hcu).
  rewrite Forall_forall in Hall. specialize (Hall nt Hnt).
  split; [exact Hall|].
  destruct Hall as [-> _]. apply gdb_hash_range.
Qed.

Lemma read_compunits_tuples_as_read_example :
  (read_compunits X86_64 two_symbols_ctx = Ok two_symbols_cus
   /\ In two_symbols_cu1 two_symbols_cus
   /\ In tuple_foo (Compunit.nametypes two_symbols_cu1))
  /\ nametype_read tuple_foo /\ 0 <= NameType.hash tuple_foo < 2 ^ 32.
Proof.
  pose proof read_compunits_two_symbols as H1.
  assert (H2 : In two_symbols_cu1 two_symbols_cus)
    by (right; left; reflexivity).
  assert (H3 : In tuple_foo (Compunit.nametypes two_symbols_cu1))
    by (right; left; reflexivity).
  split; [exact (conj H1 (conj H2 H3))|].
  exact (read_compunits_tuples_as_read X86_64 two_symbols_ctx two_symbols_cus
           two_symbols_cu1 tuple_foo H1 H2 H3).
Defined.

(** ** "Uniquify elements" *)

Lemma strictly_sorted_NoDup (l : list NameType.t) :
  StronglySorted NameType_lt l -> NoDup l.
Proof.
  induction 1 as [|x l _ IH Hx]; constructor; [|exact IH].
  intros Hin. rewrite Forall_forall in Hx. specialize (Hx x Hin).
  unfold NameType_lt in Hx. rewrite NameType_ltb_irrefl in Hx. discriminate.
Qed.

Lemma remove_duplicates_by_keeps {A : Type} (eqb : A -> A -> bool) (x : A) :
  (forall a b, eqb a b = true -> a = b) ->
  forall l, In x l -> In x (remove_duplicates_by eqb l).
Proof.
  intros Heq. induction l as [|y l IH]; intros H; [exact H|].
  cbn [remove_duplicates_by]. destruct l as [|z l'].
  - exact H.
  - destruct (eqb y z) eqn:Hyz.
    + apply IH. destruct H as [<-|H]; [|exact H].
      left. symmetry. apply Heq. exact Hyz.
    + destruct H as [->|H]; [left; reflexivity|right; apply IH; exact H].
Qed.

(** X2: in every compunit that [read_compunits] returns, the name tuples
    are in strictly increasing order of (hash, type, name); so no tuple
    occurs twice. *)
Theorem read_compunits_tuples_strictly_sorted (E : Target) (ctx : Context)
    (cus : list Compunit.t) (cu : Compunit.t) :
  read_compunits E ctx = Ok cus -> In cu cus ->
  StronglySorted NameType_lt (Compunit.nametypes cu)
  /\ NoDup (Compunit.nametypes cu).
Proof.
  intros Hread Hcu.
  pose proof (read_compunits_nametypes_sorted E ctx cus Hread) as Hs.
  rewrite Forall_forall in Hs. specialize (Hs cu Hcu).
  split; [exact Hs|apply strictly_sorted_NoDup; exact Hs].
Qed.

Lemma read_compunits_tuples_strictly_sorted_example :
  (read_compunits X86_64 two_symbols_ctx = Ok two_symbols_cus
   /\ In two_symbols_cu1 two_symbols_cus)
  /\ StronglySorted NameType_lt [tuple_bar; tuple_foo]
  /\ NoDup [tuple_bar; tuple_foo].
Proof.
  pose proof read_compunits_two_symbols as H1.
  assert (H2 : In two_symbols_cu1 two_symbols_cus)
    by (right; left; reflexivity).
  split; [exact (conj H1 H2)|].
  exact (read_compunits_tuples_strictly_sorted X86_64 two_symbols_ctx
           two_symbols_cus two_symbols_cu1 H1 H2).
Defined.

(** X3: sorting the name tuples of a compunit and removing the duplicates
    loses no tuple and invents none, and touches nothing else of the
    compunit. *)
Theorem uniquify_nametypes_same_tuples (cu : Compunit.t) (nt : NameType.t) :
  (In nt (Compunit.nametypes (uniquify_nametypes cu))
   <-> In nt (Compunit.nametypes cu))
  /\ Compunit.offset (uniquify_nametypes cu) = Compunit.offset cu
  /\ Compunit.size (uniquify_nametypes cu) = Compunit.size cu
  /\ Compunit.ranges (uniquify_nametypes cu) = Compunit.ranges cu
  /\ Compunit.entries (uniquify_nametypes cu) = Compunit.entries cu.
Proof.
  split; [|repeat split].
  unfold uniquify_nametypes. cbn [Compunit.set_nametypes Compunit.nametypes].
  split; intros H.
  - eapply Permutation_in; [apply sort_by_perm|].
    eapply remove_duplicates_by_In. exact H.
  - apply remove_duplicates_by_keeps; [exact NameType_eqb_eq|].
    eapply Permutation_in; [symmetry; apply sort_by_perm|exact H].
Qed.

(** ** The map after the insertion phase *)

(** X4: after the insertion phase, whatever the interleaving of the tasks,
    the map holds exactly one value per distinct (name, hash) among the
    name tuples of all compunits, and the count of a value is the number
    of tuples with its key (as long as there are fewer than 2^32
    tuples). *)
Theorem insertion_phase_one_value_per_key (cus : list Compunit.t)
    (store : list MapValue.t) (tasks : list Task) :
  total_nametypes cus < 2 ^ 32 ->
  insertion_phase cus store tasks ->
  NoDup (map key_of store)
  /\ (forall nt, In nt (concat (map Compunit.nametypes cus)) ->
        exists v, In v store /\ key_of v = nt_key nt)
  /\ (forall v, In v store ->
        In (key_of v) (map nt_key (concat (map Compunit.nametypes cus)))
        /\ MapValue.count v
           = occurrences (key_of v) (concat (map Compunit.nametypes cus))
        /\ 1 <= MapValue.count v).
Proof.
  intros Htot Hphase.
  destruct (final_store _ _ _ Hphase) as [Hnd [Hc Hall]].
  split; [exact Hnd|]. split.
  - intros nt Hnt. eexists. split; [apply Hall; exact Hnt|reflexivity].
  - intros v Hv. destruct (Hc v Hv) as [Heq Hin].
    split; [exact Hin|].
    set (nts := concat (map Compunit.nametypes cus)) in *.
    pose proof (count_occ_bound key_eq_dec (key_of v) (map nt_key nts)) as Hb.
    rewrite length_map in Hb.
    pose proof (length_all_nametypes cus) as Hl. fold nts in Hl.
    assert (Hpos : (0 < count_occ key_eq_dec (map nt_key nts) (key_of v))%nat).
    { apply count_occ_In. exact Hin. }
    assert (Hcount : MapValue.count v = occurrences (key_of v) nts).
    { rewrite Heq at 1. cbn [canonical_value MapValue.count].
      apply u32_small. unfold occurrences. lia. }
    split; [exact Hcount|]. rewrite Hcount. unfold occurrences. lia.
Qed.

Lemma insertion_phase_one_value_per_key_example :
  (total_nametypes two_symbols_cus < 2 ^ 32
   /\ insertion_phase two_symbols_cus (fst (run_tasks [] two_symbols_cus))
        (snd (run_tasks [] two_symbols_cus)))
  /\ map MapValue.count (fst (run_tasks [] two_symbols_cus)) = [2; 1]
  /\ NoDup (map key_of (fst (run_tasks [] two_symbols_cus))).
Proof.
  assert (H1 : total_nametypes two_symbols_cus < 2 ^ 32)
    by (vm_compute; reflexivity).
  pose proof (run_tasks_is_insertion_phase two_symbols_cus) as H2.
  split; [exact (conj H1 H2)|].
  split; [vm_compute; reflexivity|].
  exact (proj1 (insertion_phase_one_value_per_key two_symbols_cus _ _ H1 H2)).
Defined.

(** ** [read_pubnames] only appends name tuples *)

Lemma cu_extends_refl (cu : Compunit.t) : cu_extends cu cu.
Proof.
  repeat split. exists []. rewrite app_nil_r. reflexivity.
Qed.

Lemma cu_extends_trans (a b c : Compunit.t) :
  cu_extends a b -> cu_extends b c -> cu_extends a c.
Proof.
  intros [O1 [S1 [R1 [E1 [x1 N1]]]]] [O2 [S2 [R2 [E2 [x2 N2]]]]].
  repeat split; try congruence.
  exists (x1 ++ x2). rewrite N2, N1, app_assoc. reflexivity.
Qed.

Lemma Forall2_refl_on {A : Type} (R : A -> A -> Prop) (l : list A) :
  (forall a, R a a) -> Forall2 R l l.
Proof. intros H. induction l; constructor; auto. Qed.

Lemma Forall2_trans_on {A : Type} (R : A -> A -> Prop) :
  (forall a b c, R a b -> R b c -> R a c) ->
  forall l1 l2 l3, Forall2 R l1 l2 -> Forall2 R l2 l3 -> Forall2 R l1 l3.
Proof.
  intros Ht l1 l2 l3 H12. revert l3.
  induction H12 as [|a b l1 l2 Hab _ IH]; intros l3 H23.
  - inversion H23; subst. constructor.
  - inversion H23 as [|? c ? l3' Hbc H23']; subst.
    constructor; [eapply Ht; eassumption|apply IH; exact H23'].
Qed.

Lemma push_nametype_extends (cus : list Compunit.t) :
  forall i nt, Forall2 cu_extends cus (push_nametype cus i nt).
Proof.
  induction cus as [|cu cus IH]; intros i nt; [constructor|].
  destruct i as [|i]; cbn [push_nametype].
  - constructor; [|apply Forall2_refl_on; exact cu_extends_refl].
    repeat split. exists [nt]. reflexivity.
  - constructor; [apply cu_extends_refl|apply IH].
Qed.

Lemma read_pubnames_tuples_extends (E : Target) (buf : list byte) (cu : nat) :
  forall fuel cus data_start data_size r,
    read_pubnames_tuples fuel E buf cus cu data_start data_size = Ok r ->
    Forall2 cu_extends cus r.
Proof.
  induction fuel as [|fuel IH]; intros cus ds dz r H; [discriminate|].
  cbn [read_pubnames_tuples] in H. cbv zeta in H. inv_binds H;
    try (apply Ok_inj in H; subst r;
         apply Forall2_refl_on; exact cu_extends_refl).
  eapply (Forall2_trans_on _ cu_extends_trans);
    [apply push_nametype_extends|eapply IH; exact H].
Qed.

Lemma read_pubnames_tables_extends (E : Target) (file : ObjectFile)
    (buf : list byte) :
  forall fuel cus start size r,
    read_pubnames_tables fuel E file buf cus start size = Ok r ->
    Forall2 cu_extends cus r.
Proof.
  induction fuel as [|fuel IH]; intros cus start size r H; [discriminate|].
  cbn [read_pubnames_tables] in H. cbv zeta in H. inv_binds H;
    try (apply Ok_inj in H; subst r;
         apply Forall2_refl_on; exact cu_extends_refl).
  destruct (get_cu cus (debug_info_offset file + a0)); [|discriminate].
  inv_binds H.
  eapply (Forall2_trans_on _ cu_extends_trans);
    [eapply read_pubnames_tuples_extends; exact Hb1|eapply IH; exact H].
Qed.

Lemma read_pubnames_extends (E : Target) (cus : list Compunit.t)
    (file : ObjectFile) (r : list Compunit.t) :
  read_pubnames E cus file = Ok r -> Forall2 cu_extends cus r.
Proof.
  intros H. unfold read_pubnames in H. inv_bind H.
  assert (Hsec : forall isec cus r,
             read_pubnames_section E file isec cus = Ok r ->
             Forall2 cu_extends cus r).
  { intros [buf|] cus0 r0 H0; unfold read_pubnames_section in H0.
    - eapply read_pubnames_tables_extends; exact H0.
    - apply Ok_inj in H0. subst r0.
      apply Forall2_refl_on; exact cu_extends_refl. }
  eapply (Forall2_trans_on _ cu_extends_trans); eapply Hsec; eassumption.
Qed.

(** X5: [read_pubnames] only appends name tuples: it returns as many
    compunits as it was given, each with its offset, size, ranges and
    entries unchanged and its earlier name tuples as a prefix of its name
    tuples. *)
Theorem read_pubnames_only_appends (E : Target) (cus : list Compunit.t)
    (file : ObjectFile) (cus' : list Compunit.t) :
  read_pubnames E cus file = Ok cus' ->
  length cus' = length cus /\ Forall2 cu_extends cus cus'.
Proof.
  intros H. pose proof (read_pubnames_extends E cus file cus' H) as Hx.
  split; [symmetry; exact (Forall2_length Hx)|exact Hx].
Qed.

Lemma read_pubnames_only_appends_example :
  exists cus',
    read_pubnames X86_64 two_symbols_cus pubnames_file0 = Ok cus'
    /\ length cus' = length two_symbols_cus
    /\ Forall2 cu_extends two_symbols_cus cus'.
Proof.
  destruct (read_pubnames X86_64 two_symbols_cus pubnames_file0)
    as [r| | | |] eqn:H; try (vm_compute in H; discriminate).
  exists r. split; [reflexivity|].
  exact (read_pubnames_only_appends X86_64 two_symbols_cus pubnames_file0 r H).
Defined.

(** ** The compunits tile [.debug_info] *)






(** ** [read_rnglist_range] only appends *)

Lemma bind_append_assoc (r : result (list (Z * Z))) (vec x : list (Z * Z)) :
  (r' <- r ;; Ok ((vec ++ x) ++ r'))
  = (r'' <- (r' <- r ;; Ok (x ++ r')) ;; Ok (vec ++ r'')).
Proof.
  destruct r; cbn [bind]; try reflexivity.
  rewrite app_assoc. reflexivity.
Qed.

Lemma read_rnglist_range_loop_appends (E : Target) (ctx : Context)
    (addrx : option Z) :
  forall fuel vec rnglist base,
    read_rnglist_range_loop fuel E ctx vec rnglist addrx base
    = (r <- read_rnglist_range_loop fuel E ctx [] rnglist addrx base ;;
       Ok (vec ++ r)).
Proof.
  induction fuel as [|fuel IH]; intros vec rnglist base; [reflexivity|].
  cbn [read_rnglist_range_loop]. cbv zeta.
  destruct (load_u8 (debug_rnglists ctx) rnglist) as [kind| | | |];
    cbn [bind]; try reflexivity.
  repeat
    match goal with
    | |- context [if ?c then _ else _] => destruct c
    | |- context [bind (read_uleb ?b ?p) _] =>
        destruct (read_uleb b p) as [[? ?]| | | |]; cbn [bind];
        try reflexivity
    | |- context [bind (addrx_at ?e ?c ?a ?i) _] =>
        destruct (addrx_at e c a i) as [?| | | |]; cbn [bind];
        try reflexivity
    | |- context [bind (load_Word ?e ?b ?p) _] =>
        destruct (load_Word e b p) as [?| | | |]; cbn [bind];
        try reflexivity
    end;
    try (cbn [bind]; rewrite app_nil_r; reflexivity);
    try apply IH;
    try (rewrite (IH (vec ++ _)), (IH ([] ++ _)); apply bind_append_assoc).
Qed.

(** X7: [read_rnglist_range] only appends to [vec]: it returns [vec]
    followed by what it returns for an empty [vec], and where it does not
    return for the empty [vec] it does not return, in the same way. *)
Theorem read_rnglist_range_appends (E : Target) (ctx : Context)
    (vec : list (Z * Z)) (rnglist : Z) (addrx : option Z) (base : Z) :
  read_rnglist_range E ctx vec rnglist addrx base
  = (r <- read_rnglist_range E ctx [] rnglist addrx base ;; Ok (vec ++ r)).
Proof. apply read_rnglist_range_loop_appends. Qed.

Lemma read_rnglists_offsets_lists (E : Target) (ctx : Context) (base : Z)
    (addrx : option Z) (low : Z) :
  forall n i vec r,
    read_rnglists_offsets n E ctx base i addrx low vec = Ok r ->
    exists lists,
      length lists = n
      /\ r = vec ++ concat lists
      /\ forall k l, nth_error lists k = Some l ->
           exists off,
             load_U32 E (debug_rnglists ctx) (base + 4 * (i + Z.of_nat k))
             = Ok off
             /\ read_rnglist_range E ctx [] (base + off) addrx low = Ok l.
Proof.
  induction n as [|n IH]; intros i vec r H.
  - apply Ok_inj in H. subst r. exists []. rewrite app_nil_r.
    split; [reflexivity|]. split; [reflexivity|].
    intros [|k] l Hk; discriminate.
  - cbn [read_rnglists_offsets] in H. inv_bind H.
    rewrite read_rnglist_range_appends in H.
    destruct (read_rnglist_range E ctx [] (base + a) addrx low)
      as [l0| | | |] eqn:Hl0; try discriminate.
    cbn [bind] in H. destruct (IH _ _ _ H) as [lists [Hlen [Hr Hall]]].
    exists (l0 :: lists). split; [cbn [length]; congruence|].
    split; [cbn [concat]; rewrite Hr, <- app_assoc; reflexivity|].
    intros [|k] l Hk.
    + cbn [nth_error] in Hk. injection Hk as <-.
      exists a. replace (i + Z.of_nat 0) with i by lia.
      split; [exact Hb|exact Hl0].
    + cbn [nth_error] in Hk. destruct (Hall k l Hk) as [off [Ho Hd]].
      exists off. replace (i + Z.of_nat (S k)) with (i + 1 + Z.of_nat k) by lia.
      split; [exact Ho|exact Hd].
Qed.

(** X8: the loop over the offsets table of [.debug_rnglists] returns the
    concatenation, in the order of the table, of the range lists at
    [base + offsets[k]], each decoded on its own from an empty vector. *)
Theorem read_rnglists_offsets_concat (E : Target) (ctx : Context) (base : Z)
    (addrx : option Z) (low : Z) (n : nat) (r : list (Z * Z)) :
  read_rnglists_offsets n E ctx base 0 addrx low [] = Ok r ->
  exists lists,
    length lists = n
    /\ r = concat lists
    /\ forall k l, nth_error lists k = Some l ->
         exists off,
           load_U32 E (debug_rnglists ctx) (base + 4 * Z.of_nat k) = Ok off
           /\ read_rnglist_range E ctx [] (base + off) addrx low = Ok l.
Proof.
  intros H.
  destruct (read_rnglists_offsets_lists E ctx base addrx low n 0 [] r H)
    as [lists [Hlen [Hr Hall]]].
  exists lists. split; [exact Hlen|]. split; [exact Hr|].
  intros k l Hk. destruct (Hall k l Hk) as [off [Ho Hd]].
  exists off. split; [exact Ho|exact Hd].
Qed.

Lemma read_rnglists_offsets_concat_example :
  read_rnglists_offsets 1 X86_64 little_endian_rnglists_ctx 12 0 None 0 []
  = Ok [(0x1000, 0x2000)]
  /\ exists lists,
       length lists = 1%nat
       /\ [(0x1000, 0x2000)] = concat lists
       /\ forall k l, nth_error lists k = Some l ->
            exists off,
              load_U32 X86_64 (debug_rnglists little_endian_rnglists_ctx)
                (12 + 4 * Z.of_nat k) = Ok off
              /\ read_rnglist_range X86_64 little_endian_rnglists_ctx []
                   (12 + off) None 0 = Ok l.
Proof.
  assert (H : read_rnglists_offsets 1 X86_64 little_endian_rnglists_ctx 12 0
                None 0 [] = Ok [(0x1000, 0x2000)])
    by (vm_compute; reflexivity).
  split; [exact H|].
  exact (read_rnglists_offsets_concat X86_64 little_endian_rnglists_ctx 12
           None 0 1 _ H).
Defined.

(** ** The emission, phase by phase *)

Lemma run_emission (cus : list Compunit.t)
    (store : list MapValue.t) (scan : list nat) (card : Z) :
  Forall
    (fun cu =>
       length (Compunit.nametypes cu) = length (Compunit.entries cu)
       /\ Forall (fun h => (h < length store)%nat) (Compunit.entries cu))
    cus ->
  (forall h, (h < length store)%nat ->
     Z.of_nat (count_occ Nat.eq_dec (concat (map Compunit.entries cus)) h)
     <= MapValue.count (deref store h)) ->
  Forall (fun v => 0 <= MapValue.count v) store ->
  Permutation scan (seq 0 (length store)) ->
  Z.of_nat (length store) <= ht_size_of card ->
  sizeof_hdr + Z.of_nat (length cus) * 16 + total_ranges cus * 20
  + ht_size_of card * 8 + types_size store + names_size store < 2 ^ 32 ->
  exists buf,
    emit_gdb_index cus store scan card = Ok buf
    /\ exists store2 b0 b1 b2 b3 b4 b5,
         emission cus store scan card store2 b0 b1 b2 b3 b4 b5 buf.
Proof.
  intros Hcus Hcount Hnn Hperm Hroom Hsize.
  destruct (sort_entries_handles store scan Hperm) as [Hnd [Hval Hall]].
  assert (Hvals : Permutation (map (deref store) (sort_entries store scan))
                    store).
  { rewrite sort_entries_values, sort_by_perm.
    apply scan_values_permutation. exact Hperm. }
  pose proof (names_size_nonneg store) as HN.
  pose proof (types_size_lower store Hnn) as HT.
  pose proof (total_ranges_nonneg cus) as HR.
  pose proof (ht_size_pos card) as Hm.
  destruct (compute_header_offsets cus card ltac:(lia)) as [HS HP].
  unfold emit_gdb_index. cbv zeta.
  set (es := sort_entries store scan) in *.
  set (hdr := compute_header cus card) in *.
  set (S := symtab_offset hdr) in *.
  set (P := const_pool_offset hdr) in *.
  set (k := Z.log2_up (Z.quot (card * 5) 4)).
  change (ht_size_of card) with (2 ^ k) in *.
  change sizeof_hdr with 24 in *.
  assert (Hk : 0 <= k <= 31).
  { split; [apply Z.log2_up_nonneg|].
    destruct (Z.le_gt_cases k 31) as [Hle|Hgt]; [exact Hle|].
    exfalso. assert (2 ^ 32 <= 2 ^ k) by (apply Z.pow_le_mono_r; lia). lia. }
  set (T := types_size store) in *.
  set (N := names_size store) in *.
  destruct (assign_type_offsets store es 0) as [store1 off1] eqn:H1.
  destruct (assign_name_offsets store1 es off1) as [store2 off2] eqn:H2.
  destruct (assign_offsets_spec store es Hnd Hval Hvals Hnn ltac:(lia)
              _ _ _ _ H1 H2) as [Hoff2 [Hlen2 [Hpt [Hpn Hsame]]]].
  fold T in Hpn. fold T N in Hoff2.
  (* what the values keep *)
  assert (Hkeep : forall e, In e es ->
            In (deref store e) store
            /\ MapValue.name (deref store2 e) = MapValue.name (deref store e)
            /\ MapValue.hash (deref store2 e) = MapValue.hash (deref store e)
            /\ MapValue.count (deref store2 e)
               = MapValue.count (deref store e)).
  { intros e He. rewrite Forall_forall in Hval.
    split; [apply nth_In; apply Hval; exact He|].
    destruct (Hsame e He) as [x [y ->]]. repeat split. }
  set (vals2 := map (deref store2) es) in *.
  assert (HN2 : names_size vals2 = N).
  { unfold vals2, N. rewrite <- (names_size_perm _ _ Hvals).
    apply names_size_map_eq. intros e He. apply (Hkeep e He). }
  assert (HT2 : types_size vals2 = T).
  { unfold vals2, T. rewrite <- (types_size_perm _ _ Hvals).
    apply types_size_map_eq. intros e He. apply (Hkeep e He). }
  assert (Hcnt2 : forall e, In e es -> 0 <= MapValue.count (deref store2 e)).
  { intros e He. destruct (Hkeep e He) as [Hin [_ [_ ->]]].
    rewrite Forall_forall in Hnn. apply Hnn. exact Hin. }
  assert (Htb : Forall (fun v => 0 <= types_bytes v) vals2).
  { apply Forall_map. apply Forall_forall. intros e He.
    unfold types_bytes. specialize (Hcnt2 e He). lia. }
  assert (Hnb : Forall (fun v => 0 <= name_bytes v) vals2).
  { apply Forall_forall. intros v _. unfold name_bytes. lia. }
  assert (Harea : forall e, In e es ->
            0 <= MapValue.type_offset (deref store2 e)
            /\ MapValue.type_offset (deref store2 e)
               + (MapValue.count (deref store2 e) * 4 + 4) <= T
            /\ T <= MapValue.name_offset (deref store2 e)
            /\ MapValue.name_offset (deref store2 e)
               + name_bytes (deref store2 e) <= T + N).
  { intros e He.
    assert (Hv : In (deref store2 e) vals2) by (apply in_map; exact He).
    pose proof (packed_In _ _ _ _ _ Hpt Htb Hv) as [A1 A2].
    pose proof (packed_In _ _ _ _ _ Hpn Hnb Hv) as [B1 B2].
    change (fold_right _ 0 vals2) with (types_size vals2) in A2.
    change (fold_right _ 0 vals2) with (names_size vals2) in B2.
    rewrite HT2 in A2. rewrite HN2 in B2. unfold types_bytes in A2.
    repeat split; lia. }
  assert (Hplace : Forall placeable vals2).
  { apply Forall_map. apply Forall_forall. intros e He.
    destruct (Harea e He) as [A1 [A2 [B1 B2]]].
    specialize (Hcnt2 e He). unfold name_bytes in B2.
    unfold placeable. lia. }
  (* the buffer *)
  set (n := Z.to_nat (P + off2)).
  assert (Hn : Z.of_nat n = P + off2) by (unfold n; lia).
  pose proof (zeros_repeat n) as Hz0.
  assert (Hl0 : length (repeat x00 n) = n) by apply repeat_length.
  destruct (emit_header_spec (repeat x00 n) hdr) as [b1 [E1 F1]];
    [rewrite Hl0; change sizeof_hdr with 24; lia|].
  destruct (emit_cu_list_spec cus b1 24) as [b2 [E2 F2]];
    [lia|rewrite (proj1 F1), Hl0; lia|].
  destruct (emit_address_areas_spec cus b2 (24 + Z.of_nat (length cus) * 16) 0)
    as [b3 [E3 F3]]; [lia|rewrite (proj1 F2), (proj1 F1), Hl0; lia|].
  change sizeof_hdr with 24 in *.
  rewrite E1. cbn [bind]. rewrite E2. cbn [bind]. rewrite E3. cbn [bind].
  assert (Hl3 : length b3 = n)
    by (rewrite (proj1 F3), (proj1 F2), (proj1 F1); exact Hl0).
  assert (Hz3 : zeros S (Z.of_nat n) b3).
  { eapply zeros_frame; [exact F3|right; lia|].
    eapply zeros_frame; [exact F2|right; lia|].
    eapply zeros_frame; [exact F1|right; lia|].
    intros q Hq. apply Hz0. lia. }
  (* the symbol table *)
  destruct (emit_symtab_spec k Hk S store2 es [] b3) as [b4 [E4 [F4 Tinv]]].
  - split; [lia|rewrite Hl3; lia].
  - apply (table_inv_zeros S (Z.of_nat n)); [exact Hz3|lia|lia].
  - constructor.
  - rewrite (occupied_count_zeros S (Z.of_nat n)); [cbn; lia|exact Hz3|lia|lia].
  - cbn [length Nat.add].
    rewrite <- (length_map (deref store) es).
    rewrite (Permutation_length Hvals). exact Hroom.
  - exact Hplace.
  - cbn [app] in Tinv. fold vals2 in Tinv.
    rewrite E4. cbn [bind].
    assert (Hl4 : length b4 = n) by (rewrite (proj1 F4); exact Hl3).
    assert (Hz4 : zeros P (Z.of_nat n) b4).
    { eapply zeros_frame; [exact F4|right; lia|].
      intros q Hq. apply Hz3. lia. }
    (* the CU vectors *)
    destruct (emit_types_spec store2 P T) with (cus := cus) (buf := b4)
      (seen := fun _ : nat => O) (i := 0) as [b5 [E5 F5]].
    + lia.
    + lia.
    + intros h Hh. rewrite Hlen2 in Hh.
      destruct (Harea h (Hall h Hh)) as [A1 [A2 _]].
      specialize (Hcnt2 h (Hall h Hh)). lia.
    + intros h h' Hh Hh' Hne. rewrite Hlen2 in Hh, Hh'.
      apply (packed_disjoint MapValue.type_offset types_bytes
               (deref store2) es 0 Hpt); try assumption.
      * apply Forall_forall. intros e He. unfold types_bytes.
        specialize (Hcnt2 e He). lia.
      * apply Hall. exact Hh.
      * apply Hall. exact Hh'.
    + rewrite Hlen2. exact Hcus.
    + rewrite Hl4. lia.
    + intros h Hh. rewrite Hlen2 in Hh.
      destruct (Harea h (Hall h Hh)) as [A1 [A2 _]].
      specialize (Hcnt2 h (Hall h Hh)).
      apply (zeros_load_le P (Z.of_nat n) b4 Hz4);
        change (Z.of_nat 4) with 4; lia.
    + intros h Hh. rewrite Hlen2 in Hh. cbn [Nat.add].
      destruct (Hkeep h (Hall h Hh)) as [_ [_ [_ ->]]].
      apply Hcount. exact Hh.
    + rewrite E5. cbn [bind].
      assert (Hl5 : length b5 = n) by (rewrite (proj1 F5); exact Hl4).
      (* the names *)
      destruct (emit_names_spec P store2 es T b5 Hpn) as [b6 [E6 [F6 Hat]]];
        [lia|fold vals2; rewrite HN2, Hl5; lia|].
      fold vals2 in F6. rewrite HN2 in F6.
      exists b6. split; [exact E6|].
      assert (Hl6 : length b6 = n) by (rewrite (proj1 F6); exact Hl5).
      assert (HCT : cu_types_offset hdr = 24 + Z.of_nat (length cus) * 16).
      { unfold hdr, compute_header. cbn [cu_types_offset].
        change sizeof_hdr with 24. apply u32_small. lia. }
      exists store2, (repeat x00 n), b1, b2, b3, b4, b5.
      constructor; fold es; fold hdr; fold S; fold P; fold T; fold N;
        change sizeof_hdr with 24; change (ht_size_of card) with (2 ^ k).
      * exact HCT.
      * exact HS.
      * exact HP.
      * rewrite Hl6. lia.
      * exact Hlen2.
      * exact Hsame.
      * exact Hpt.
      * exact Hpn.
      * rewrite Hl6. reflexivity.
      * exact E1.
      * rewrite HCT. exact E2.
      * rewrite HCT, HS. exact E3.
      * exact E4.
      * exact E5.
      * exact E6.
      * exact F1.
      * rewrite HCT. exact F2.
      * rewrite HCT, HS. exact F3.
      * replace P with (S + 8 * 2 ^ k) by lia. exact F4.
      * exact F5.
      * rewrite Hl6. replace (Z.of_nat n) with (P + T + N) by lia. exact F6.
      * exact Hnn.
      * exact Hnd.
      * exact Hval.
      * exact Hall.
      * rewrite Hl6. exact Hz4.
      * exact Tinv.
      * exact Hplace.
Qed.

Lemma bytes_at_app (buf : list byte) (p : Z) (xs ys : list byte) :
  bytes_at buf p (xs ++ ys) ->
  bytes_at buf p xs /\ bytes_at buf (p + Z.of_nat (length xs)) ys.
Proof.
  intros H. split; intros i b Hi.
  - apply H. rewrite nth_error_app1; [exact Hi|].
    apply nth_error_Some. rewrite Hi. discriminate.
  - replace (p + Z.of_nat (length xs) + Z.of_nat i)
      with (p + Z.of_nat (length xs + i)) by lia.
    apply H. rewrite nth_error_app2 by lia.
    replace (length xs + i - length xs)%nat with i by lia. exact Hi.
Qed.

Lemma bytes_at_load_le (buf : list byte) (p : Z) (n : nat) (v : Z) :
  bytes_at buf p (le_bytes n v) ->
  load_le buf p n = Ok (v mod 256 ^ Z.of_nat n).
Proof.
  intros H. rewrite <- (le_value_le_bytes n v).
  rewrite <- (length_le_bytes n v) at 1. apply load_le_bytes. exact H.
Qed.

Lemma bytes_at_load_ul32 (buf : list byte) (p v : Z) :
  bytes_at buf p (le_bytes 4 v) -> load_ul32 buf p = Ok (u32 v).
Proof. intros H. exact (bytes_at_load_le buf p 4 v H). Qed.

Lemma bytes_at_load_ul64 (buf : list byte) (p v : Z) :
  bytes_at buf p (le_bytes 8 v) -> load_ul64 buf p = Ok (u64 v).
Proof. intros H. exact (bytes_at_load_le buf p 8 v H). Qed.

Lemma load_ul32_frame (lo hi : Z) (buf buf' : list byte) (p : Z) :
  frame lo hi buf buf' -> p + 4 <= lo \/ hi <= p ->
  load_ul32 buf' p = load_ul32 buf p.
Proof.
  intros Hf Hp. apply (load_le_frame lo hi buf buf' 4 Hf).
  change (Z.of_nat 4) with 4. exact Hp.
Qed.

Lemma load_ul64_frame (lo hi : Z) (buf buf' : list byte) (p : Z) :
  frame lo hi buf buf' -> p + 8 <= lo \/ hi <= p ->
  load_ul64 buf' p = load_ul64 buf p.
Proof.
  intros Hf Hp. apply (load_le_frame lo hi buf buf' 8 Hf).
  change (Z.of_nat 8) with 8. exact Hp.
Qed.

Lemma load_ul64_store_ul64 (buf : list byte) (p v : Z) (buf' : list byte) :
  store_ul64 buf p v = Ok buf' -> load_ul64 buf' p = Ok (u64 v).
Proof.
  intros H. apply bytes_at_load_ul64.
  apply (store_bytes_bytes_at buf p _ buf'). exact H.
Qed.

Section EmissionFacts.

Variables (cus : list Compunit.t) (store : list MapValue.t)
  (scan : list nat) (card : Z) (store2 : list MapValue.t)
  (b0 b1 b2 b3 b4 b5 buf : list byte).

Hypothesis Hem : emission cus store scan card store2 b0 b1 b2 b3 b4 b5 buf.

Let hdr : SectionHeader := compute_header cus card.
Let len : Z := Z.of_nat (length buf).

Lemma em_order :
  sizeof_hdr <= cu_types_offset hdr
  /\ cu_types_offset hdr <= symtab_offset hdr
  /\ symtab_offset hdr < const_pool_offset hdr
  /\ 0 <= types_size store
  /\ const_pool_offset hdr + types_size store <= len.
Proof.
  pose proof (em_cu_types _ _ _ _ _ _ _ _ _ _ _ _ Hem) as H1.
  pose proof (em_symtab_offset _ _ _ _ _ _ _ _ _ _ _ _ Hem) as H2.
  pose proof (em_pool_offset _ _ _ _ _ _ _ _ _ _ _ _ Hem) as H3.
  pose proof (em_size _ _ _ _ _ _ _ _ _ _ _ _ Hem) as H4.
  pose proof (em_counts _ _ _ _ _ _ _ _ _ _ _ _ Hem) as H5.
  pose proof (total_ranges_nonneg cus). pose proof (ht_size_pos card).
  pose proof (names_size_nonneg store).
  pose proof (types_size_lower store H5).
  unfold hdr, len, sizeof_hdr in *. repeat split; lia.
Qed.

Lemma em_after_types : frame (const_pool_offset hdr + types_size store) len b5 buf.
Proof. exact (em_frame6 _ _ _ _ _ _ _ _ _ _ _ _ Hem). Qed.

Lemma em_after_symtab : frame (const_pool_offset hdr) len b4 buf.
Proof.
  pose proof em_order as [O1 [O2 [O3 [O4 O5]]]].
  eapply frame_trans.
  - eapply frame_weaken; [| |exact (em_frame5 _ _ _ _ _ _ _ _ _ _ _ _ Hem)];
      unfold hdr, len in *; lia.
  - eapply frame_weaken; [| |exact em_after_types]; lia.
Qed.

Lemma em_after_areas : frame (symtab_offset hdr) len b3 buf.
Proof.
  pose proof em_order as [O1 [O2 [O3 [O4 O5]]]].
  eapply frame_trans.
  - eapply frame_weaken; [| |exact (em_frame4 _ _ _ _ _ _ _ _ _ _ _ _ Hem)];
      unfold hdr, len in *; lia.
  - eapply frame_weaken; [| |exact em_after_symtab]; lia.
Qed.

Lemma em_after_cu_list : frame (cu_types_offset hdr) len b2 buf.
Proof.
  pose proof em_order as [O1 [O2 [O3 [O4 O5]]]].
  eapply frame_trans.
  - eapply frame_weaken; [| |exact (em_frame3 _ _ _ _ _ _ _ _ _ _ _ _ Hem)];
      unfold hdr, len in *; lia.
  - eapply frame_weaken; [| |exact em_after_areas]; lia.
Qed.

Lemma em_after_header : frame sizeof_hdr len b1 buf.
Proof.
  pose proof em_order as [O1 [O2 [O3 [O4 O5]]]].
  eapply frame_trans.
  - eapply frame_weaken; [| |exact (em_frame2 _ _ _ _ _ _ _ _ _ _ _ _ Hem)];
      unfold hdr, len in *; lia.
  - eapply frame_weaken; [| |exact em_after_cu_list]; lia.
Qed.

End EmissionFacts.

(** The emission for a run of the insertion phase. *)
Lemma index_emission (cus : list Compunit.t) (store : list MapValue.t)
    (tasks : list Task) (scan : list nat) (card : Z) :
  insertion_phase cus store tasks ->
  Permutation scan (seq 0 (length store)) ->
  Z.of_nat (length store) <= ht_size_of card ->
  index_size cus store card < 2 ^ 32 ->
  length (with_entries cus tasks) = length cus
  /\ total_ranges (with_entries cus tasks) = total_ranges cus
  /\ types_size store
     = total_nametypes cus * 4 + Z.of_nat (length store) * 4
  /\ exists buf,
       emit_gdb_index (with_entries cus tasks) store scan card = Ok buf
       /\ exists store2 b0 b1 b2 b3 b4 b5,
            emission (with_entries cus tasks) store scan card store2
              b0 b1 b2 b3 b4 b5 buf.
Proof.
  intros Hphase Hperm Hroom Hsize.
  pose proof (total_ranges_nonneg cus) as HR.
  pose proof (total_nametypes_nonneg cus) as HNT.
  pose proof (names_size_nonneg store) as HN.
  pose proof (ht_size_pos card) as Hm.
  unfold index_size in Hsize. change sizeof_hdr with 24 in Hsize.
  destruct (insertion_phase_handles _ _ _ Hphase) as [Hpar Hlen].
  destruct (sum_counts_total cus store tasks ltac:(lia) Hphase)
    as [Hsum Hnn].
  pose proof (with_entries_cu_agree cus tasks Hlen) as Hagree.
  destruct (total_ranges_agree _ _ Hagree) as [Hr Hl].
  split; [exact Hl|]. split; [exact Hr|].
  split; [rewrite types_size_counts, Hsum; reflexivity|].
  apply run_emission.
  - clear -Hpar. induction Hpar as [|cu cu' l l' [_ Hf] _ IH];
      constructor; [|exact IH].
    split; [exact (Forall2_length Hf)|].
    clear -Hf. induction Hf as [|nt e nts es [He _] _ IHf]; constructor;
      assumption.
  - apply entries_counted; [lia|exact Hphase].
  - exact Hnn.
  - exact Hperm.
  - exact Hroom.
  - rewrite Hr, Hl, types_size_counts, Hsum.
    change sizeof_hdr with 24. lia.
Qed.

(** ** The header of the section *)

Lemma emit_header_fields (buf : list byte) (hdr : SectionHeader)
    (buf' : list byte) :
  emit_header buf hdr = Ok buf' ->
  load_ul32 buf' 0 = Ok (u32 (version hdr))
  /\ load_ul32 buf' 4 = Ok (u32 (cu_list_offset hdr))
  /\ load_ul32 buf' 8 = Ok (u32 (cu_types_offset hdr))
  /\ load_ul32 buf' 12 = Ok (u32 (ranges_offset hdr))
  /\ load_ul32 buf' 16 = Ok (u32 (symtab_offset hdr))
  /\ load_ul32 buf' 20 = Ok (u32 (const_pool_offset hdr)).
Proof.
  unfold emit_header. intros H.
  apply store_bytes_bytes_at in H.
  apply bytes_at_app in H. destruct H as [H0 H].
  apply bytes_at_app in H. destruct H as [H1 H].
  apply bytes_at_app in H. destruct H as [H2 H].
  apply bytes_at_app in H. destruct H as [H3 H].
  apply bytes_at_app in H. destruct H as [H4 H5].
  rewrite !length_le_bytes in *.
  change (0 + Z.of_nat 4) with 4 in *.
  change (4 + Z.of_nat 4) with 8 in *.
  change (8 + Z.of_nat 4) with 12 in *.
  change (12 + Z.of_nat 4) with 16 in *.
  change (16 + Z.of_nat 4) with 20 in *.
  repeat split; apply bytes_at_load_ul32; assumption.
Qed.

(** X9: when the table has room and the section fits 32 bits, the emission
    returns a section of [index_size] bytes that starts with the header:
    the version 7 and the offsets of the CU list (24), of the types CU
    list and of the address areas (both right after the CU list of 16
    bytes per compunit), of the symbol table (after 20 bytes per address
    range) and of the constant pool (after 8 bytes per slot), each a
    little-endian [u32]. *)
Theorem gdb_index_header (cus : list Compunit.t) (store : list MapValue.t)
    (tasks : list Task) (scan : list nat) (card : Z) :
  insertion_phase cus store tasks ->
  Permutation scan (seq 0 (length store)) ->
  Z.of_nat (length store) <= ht_size_of card ->
  index_size cus store card < 2 ^ 32 ->
  exists buf,
    emit_gdb_index (with_entries cus tasks) store scan card = Ok buf
    /\ Z.of_nat (length buf) = index_size cus store card
    /\ load_ul32 buf 0 = Ok 7
    /\ load_ul32 buf 4 = Ok 24
    /\ load_ul32 buf 8 = Ok (24 + Z.of_nat (length cus) * 16)
    /\ load_ul32 buf 12 = Ok (24 + Z.of_nat (length cus) * 16)
    /\ load_ul32 buf 16
       = Ok (24 + Z.of_nat (length cus) * 16 + total_ranges cus * 20)
    /\ load_ul32 buf 20
       = Ok (24 + Z.of_nat (length cus) * 16 + total_ranges cus * 20
             + ht_size_of card * 8).
Proof.
  intros Hphase Hperm Hroom Hsize.
  destruct (index_emission cus store tasks scan card Hphase Hperm Hroom Hsize)
    as [Hl [Hr [HT [buf [Hres [store2 [b0 [b1 [b2 [b3 [b4 [b5 Hem]]]]]]]]]]]].
  exists buf. split; [exact Hres|].
  pose proof (em_after_header _ _ _ _ _ _ _ _ _ _ _ _ Hem) as Hf.
  pose proof (emit_header_fields _ _ _ (em_header _ _ _ _ _ _ _ _ _ _ _ _ Hem))
    as [F0 [F1 [F2 [F3 [F4 F5]]]]].
  pose proof (em_cu_types _ _ _ _ _ _ _ _ _ _ _ _ Hem) as H1.
  pose proof (em_symtab_offset _ _ _ _ _ _ _ _ _ _ _ _ Hem) as H2.
  pose proof (em_pool_offset _ _ _ _ _ _ _ _ _ _ _ _ Hem) as H3.
  pose proof (em_size _ _ _ _ _ _ _ _ _ _ _ _ Hem) as H4.
  pose proof (total_ranges_nonneg cus) as HR.
  pose proof (total_nametypes_nonneg cus) as HNT.
  pose proof (names_size_nonneg store) as HN.
  pose proof (ht_size_pos card) as Hm.
  rewrite Hl, Hr in *. unfold index_size in *.
  change sizeof_hdr with 24 in *.
  split; [lia|].
  rewrite !(load_ul32_frame _ _ _ _ _ Hf) by lia.
  rewrite F0, F1, F2, F3, F4, F5.
  assert (Hro : ranges_offset (compute_header (with_entries cus tasks) card)
                = cu_types_offset (compute_header (with_entries cus tasks) card))
    by reflexivity.
  rewrite Hro, H1, H2, H3.
  change (version (compute_header (with_entries cus tasks) card)) with 7.
  change (cu_list_offset (compute_header (with_entries cus tasks) card))
    with 24.
  rewrite !u32_small by lia.
  repeat split; reflexivity.
Qed.

Lemma gdb_index_header_example :
  (insertion_phase two_symbols_cus (fst (run_tasks [] two_symbols_cus))
     (snd (run_tasks [] two_symbols_cus))
   /\ Permutation [1; 0]%nat
        (seq 0 (length (fst (run_tasks [] two_symbols_cus))))
   /\ Z.of_nat (length (fst (run_tasks [] two_symbols_cus))) <= ht_size_of 2
   /\ index_size two_symbols_cus (fst (run_tasks [] two_symbols_cus)) 2
      < 2 ^ 32)
  /\ exists buf,
       emit_gdb_index
         (with_entries two_symbols_cus (snd (run_tasks [] two_symbols_cus)))
         (fst (run_tasks [] two_symbols_cus)) [1; 0]%nat 2 = Ok buf
       /\ Z.of_nat (length buf) = 140
       /\ load_ul32 buf 0 = Ok 7
       /\ load_ul32 buf 4 = Ok 24
       /\ load_ul32 buf 8 = Ok 56
       /\ load_ul32 buf 12 = Ok 56
       /\ load_ul32 buf 16 = Ok 96
       /\ load_ul32 buf 20 = Ok 112.
Proof.
  pose proof (run_tasks_is_insertion_phase two_symbols_cus) as H2.
  assert (H3 : Permutation [1; 0]%nat
                 (seq 0 (length (fst (run_tasks [] two_symbols_cus)))))
    by (vm_compute; apply perm_swap).
  assert (H4 : Z.of_nat (length (fst (run_tasks [] two_symbols_cus)))
               <= ht_size_of 2) by (vm_compute; discriminate).
  assert (H5 : index_size two_symbols_cus
                 (fst (run_tasks [] two_symbols_cus)) 2 < 2 ^ 32)
    by (vm_compute; reflexivity).
  split; [exact (conj H2 (conj H3 (conj H4 H5)))|].
  exact (gdb_index_header two_symbols_cus _ _ [1; 0]%nat 2 H2 H3 H4 H5).
Defined.

(** ** The CU list and the address areas *)

Lemma emit_cu_list_content :
  forall cus buf p buf' p',
    emit_cu_list buf p cus = Ok (buf', p') ->
    p' = p + Z.of_nat (length cus) * 16
    /\ frame p p' buf buf'
    /\ forall i cu, nth_error cus i = Some cu ->
         load_ul64 buf' (p + 16 * Z.of_nat i) = Ok (u64 (Compunit.offset cu))
         /\ load_ul64 buf' (p + 16 * Z.of_nat i + 8)
            = Ok (u64 (Compunit.size cu)).
Proof.
  induction cus as [|cu cus IH]; intros buf p buf' p' H.
  - cbn [emit_cu_list] in H. apply Ok_inj in H. injection H as <- <-.
    split; [cbn [length]; lia|]. split; [apply frame_refl|].
    intros [|i] c Hc; discriminate.
  - cbn [emit_cu_list] in H. inv_binds H.
    pose proof (store_ul64_frame _ _ _ _ Hb) as F1.
    pose proof (store_ul64_frame _ _ _ _ Hb0) as F2.
    destruct (IH _ _ _ _ H) as [Hp [F3 Hall]].
    cbn [length]. split; [lia|]. split.
    + eapply frame_trans; [eapply frame_weaken; [| |exact F1]; lia|].
      eapply frame_trans; [eapply frame_weaken; [| |exact F2]; lia|].
      eapply frame_weaken; [| |exact F3]; lia.
    + intros [|i] c Hc.
      * cbn [nth_error] in Hc. injection Hc as <-.
        replace (p + 16 * Z.of_nat 0) with p by lia. split.
        -- rewrite (load_ul64_frame _ _ _ _ _ F3) by lia.
           rewrite (load_ul64_frame _ _ _ _ _ F2) by lia.
           apply (load_ul64_store_ul64 _ _ _ _ Hb).
        -- rewrite (load_ul64_frame _ _ _ _ _ F3) by lia.
           apply (load_ul64_store_ul64 _ _ _ _ Hb0).
      * cbn [nth_error] in Hc. destruct (Hall i c Hc) as [H1 H2].
        replace (p + 16 * Z.of_nat (S i)) with (p + 16 + 16 * Z.of_nat i)
          by lia.
        split; assumption.
Qed.

Lemma emit_ranges_content (i : Z) :
  forall ranges buf p buf' p',
    emit_ranges buf p i ranges = Ok (buf', p') ->
    p' = p + Z.of_nat (length ranges) * 20
    /\ frame p p' buf buf'
    /\ forall k r, nth_error ranges k = Some r ->
         load_ul64 buf' (p + 20 * Z.of_nat k) = Ok (u64 (fst r))
         /\ load_ul64 buf' (p + 20 * Z.of_nat k + 8) = Ok (u64 (snd r))
         /\ load_ul32 buf' (p + 20 * Z.of_nat k + 16) = Ok (u32 i).
Proof.
  induction ranges as [|r ranges IH]; intros buf p buf' p' H.
  - cbn [emit_ranges] in H. apply Ok_inj in H. injection H as <- <-.
    split; [cbn [length]; lia|]. split; [apply frame_refl|].
    intros [|k] c Hc; discriminate.
  - cbn [emit_ranges] in H. inv_binds H.
    pose proof (store_ul64_frame _ _ _ _ Hb) as F1.
    pose proof (store_ul64_frame _ _ _ _ Hb0) as F2.
    pose proof (store_ul32_frame _ _ _ _ Hb1) as F3.
    destruct (IH _ _ _ _ H) as [Hp [F4 Hall]].
    cbn [length]. split; [lia|]. split.
    + eapply frame_trans; [eapply frame_weaken; [| |exact F1]; lia|].
      eapply frame_trans; [eapply frame_weaken; [| |exact F2]; lia|].
      eapply frame_trans; [eapply frame_weaken; [| |exact F3]; lia|].
      eapply frame_weaken; [| |exact F4]; lia.
    + intros [|k] c Hc.
      * cbn [nth_error] in Hc. injection Hc as <-.
        replace (p + 20 * Z.of_nat 0) with p by lia. split; [|split].
        -- rewrite (load_ul64_frame _ _ _ _ _ F4) by lia.
           rewrite (load_ul64_frame _ _ _ _ _ F3) by lia.
           rewrite (load_ul64_frame _ _ _ _ _ F2) by lia.
           apply (load_ul64_store_ul64 _ _ _ _ Hb).
        -- rewrite (load_ul64_frame _ _ _ _ _ F4) by lia.
           rewrite (load_ul64_frame _ _ _ _ _ F3) by lia.
           apply (load_ul64_store_ul64 _ _ _ _ Hb0).
        -- rewrite (load_ul32_frame _ _ _ _ _ F4) by lia.
           apply (load_ul32_store_ul32 _ _ _ _ Hb1).
      * cbn [nth_error] in Hc. destruct (Hall k c Hc) as [H1 [H2 H3]].
        replace (p + 20 * Z.of_nat (S k)) with (p + 20 + 20 * Z.of_nat k)
          by lia.
        repeat split; assumption.
Qed.

Lemma emit_address_areas_content :
  forall cus buf p i buf' p',
    emit_address_areas buf p i cus = Ok (buf', p') ->
    p' = p + total_ranges cus * 20
    /\ frame p p' buf buf'
    /\ forall k lo hi j, nth_error (address_areas i cus) k = Some (lo, hi, j) ->
         load_ul64 buf' (p + 20 * Z.of_nat k) = Ok (u64 lo)
         /\ load_ul64 buf' (p + 20 * Z.of_nat k + 8) = Ok (u64 hi)
         /\ load_ul32 buf' (p + 20 * Z.of_nat k + 16) = Ok (u32 j).
Proof.
  induction cus as [|cu cus IH]; intros buf p i buf' p' H.
  - cbn [emit_address_areas] in H. apply Ok_inj in H. injection H as <- <-.
    split; [cbn; lia|]. split; [apply frame_refl|].
    intros [|k] lo hi j Hc; discriminate.
  - cbn [emit_address_areas] in H. apply bind_Ok in H.
    destruct H as [[b1 p1] [Hb H]]. cbv beta iota in H.
    destruct (emit_ranges_content _ _ _ _ _ _ Hb) as [Hp1 [F1 Hall1]].
    destruct (IH _ _ _ _ _ H) as [Hp [F2 Hall2]].
    pose proof (total_ranges_nonneg cus) as Hnn.
    rewrite total_ranges_cons. split; [lia|]. split.
    + eapply frame_trans; [eapply frame_weaken; [| |exact F1]; lia|].
      eapply frame_weaken; [| |exact F2]; lia.
    + intros k lo hi j Hk. cbn [address_areas] in Hk.
      destruct (Nat.lt_ge_cases k (length (Compunit.ranges cu))) as [Hlt|Hge].
      * rewrite nth_error_app1 in Hk by (rewrite length_map; exact Hlt).
        rewrite nth_error_map in Hk.
        destruct (nth_error (Compunit.ranges cu) k) as [r|] eqn:Hr;
          [|discriminate].
        cbn [option_map] in Hk. injection Hk as <- <- <-.
        destruct (Hall1 k r Hr) as [H1 [H2 H3]].
        rewrite (load_ul64_frame _ _ _ _ _ F2) by lia.
        rewrite (load_ul64_frame _ _ _ _ _ F2) by lia.
        rewrite (load_ul32_frame _ _ _ _ _ F2) by lia.
        repeat split; assumption.
      * rewrite nth_error_app2 in Hk by (rewrite length_map; exact Hge).
        rewrite length_map in Hk.
        destruct (Hall2 _ lo hi j Hk) as [H1 [H2 H3]].
        replace (p + 20 * Z.of_nat k)
          with (p1 + 20 * Z.of_nat (k - length (Compunit.ranges cu))) by lia.
        repeat split; assumption.
Qed.

Lemma length_address_areas :
  forall cus i, Z.of_nat (length (address_areas i cus)) = total_ranges cus.
Proof.
  induction cus as [|cu cus IH]; intros i; [reflexivity|].
  cbn [address_areas]. rewrite length_app, length_map, Nat2Z.inj_add, IH.
  rewrite total_ranges_cons. reflexivity.
Qed.

Lemma address_areas_index :
  forall cus i e, In e (address_areas i cus) ->
    i <= snd e < i + Z.of_nat (length cus).
Proof.
  induction cus as [|cu cus IH]; intros i e He; [contradiction|].
  cbn [address_areas] in He. apply in_app_iff in He. cbn [length].
  destruct He as [He|He].
  - apply in_map_iff in He. destruct He as [r [<- _]]. cbn [snd]. lia.
  - specialize (IH _ _ He). lia.
Qed.

Lemma address_areas_agree :
  forall cus cus' i, Forall2 cu_agree cus cus' ->
    address_areas i cus' = address_areas i cus.
Proof.
  intros cus cus' i H. revert i.
  induction H as [|cu cu' cus cus' [_ [_ [Hr _]]] _ IH]; intros i;
    [reflexivity|].
  cbn [address_areas]. rewrite Hr, IH. reflexivity.
Qed.

Lemma Forall2_nth_error_l {A B : Type} (R : A -> B -> Prop) :
  forall l l' i a, Forall2 R l l' -> nth_error l i = Some a ->
    exists b, nth_error l' i = Some b /\ R a b.
Proof.
  intros l l' i a H. revert i.
  induction H as [|x y l l' Hxy _ IH]; intros [|i] Hi; try discriminate.
  - injection Hi as <-. exists y. split; [reflexivity|exact Hxy].
  - apply IH. exact Hi.
Qed.

(** X10: in the emitted section the CU list starts at offset 24 and holds,
    for the compunit at index [i], its offset in [.debug_info] and its
    size as two little-endian 64-bit words at [24 + 16 * i]; the order is
    the order of the compunits. *)
Theorem gdb_index_cu_list (cus : list Compunit.t) (store : list MapValue.t)
    (tasks : list Task) (scan : list nat) (card : Z) :
  insertion_phase cus store tasks ->
  Permutation scan (seq 0 (length store)) ->
  Z.of_nat (length store) <= ht_size_of card ->
  index_size cus store card < 2 ^ 32 ->
  exists buf,
    emit_gdb_index (with_entries cus tasks) store scan card = Ok buf
    /\ forall i cu, nth_error cus i = Some cu ->
         load_ul64 buf (24 + 16 * Z.of_nat i) = Ok (u64 (Compunit.offset cu))
         /\ load_ul64 buf (24 + 16 * Z.of_nat i + 8)
            = Ok (u64 (Compunit.size cu)).
Proof.
  intros Hphase Hperm Hroom Hsize.
  destruct (index_emission cus store tasks scan card Hphase Hperm Hroom Hsize)
    as [Hl [Hr [HT [buf [Hres [store2 [b0 [b1 [b2 [b3 [b4 [b5 Hem]]]]]]]]]]]].
  exists buf. split; [exact Hres|]. intros i cu Hi.
  destruct (insertion_phase_handles _ _ _ Hphase) as [_ Hlen].
  pose proof (with_entries_cu_agree cus tasks Hlen) as Hagree.
  destruct (Forall2_nth_error_l _ _ _ _ _ Hagree Hi)
    as [cu' [Hi' [Ho [Hs _]]]].
  pose proof (em_after_cu_list _ _ _ _ _ _ _ _ _ _ _ _ Hem) as Hf.
  destruct (emit_cu_list_content _ _ _ _ _
              (em_cu_list _ _ _ _ _ _ _ _ _ _ _ _ Hem)) as [Hp [_ Hall]].
  destruct (Hall i cu' Hi') as [H1 H2].
  assert (Hlt : (i < length (with_entries cus tasks))%nat).
  { apply nth_error_Some. rewrite Hi'. discriminate. }
  change sizeof_hdr with 24 in *.
  rewrite !(load_ul64_frame _ _ _ _ _ Hf) by lia.
  rewrite Ho, Hs. split; assumption.
Qed.

Lemma gdb_index_cu_list_example :
  (insertion_phase two_symbols_cus (fst (run_tasks [] two_symbols_cus))
     (snd (run_tasks [] two_symbols_cus))
   /\ Permutation [1; 0]%nat
        (seq 0 (length (fst (run_tasks [] two_symbols_cus))))
   /\ Z.of_nat (length (fst (run_tasks [] two_symbols_cus))) <= ht_size_of 2
   /\ index_size two_symbols_cus (fst (run_tasks [] two_symbols_cus)) 2
      < 2 ^ 32)
  /\ exists buf,
       emit_gdb_index
         (with_entries two_symbols_cus (snd (run_tasks [] two_symbols_cus)))
         (fst (run_tasks [] two_symbols_cus)) [1; 0]%nat 2 = Ok buf
       /\ load_ul64 buf 40 = Ok 24 /\ load_ul64 buf 48 = Ok 24.
Proof.
  pose proof (run_tasks_is_insertion_phase two_symbols_cus) as H2.
  assert (H3 : Permutation [1; 0]%nat
                 (seq 0 (length (fst (run_tasks [] two_symbols_cus)))))
    by (vm_compute; apply perm_swap).
  assert (H4 : Z.of_nat (length (fst (run_tasks [] two_symbols_cus)))
               <= ht_size_of 2) by (vm_compute; discriminate).
  assert (H5 : index_size two_symbols_cus
                 (fst (run_tasks [] two_symbols_cus)) 2 < 2 ^ 32)
    by (vm_compute; reflexivity).
  split; [exact (conj H2 (conj H3 (conj H4 H5)))|].
  destruct (gdb_index_cu_list two_symbols_cus _ _ [1; 0]%nat 2 H2 H3 H4 H5)
    as [buf [Hres Hall]].
  exists buf. split; [exact Hres|].
  exact (Hall 1%nat two_symbols_cu1 eq_refl).
Defined.

(** X11: in the emitted section the address areas follow the CU list;
    they hold, in the order of the compunits and within a compunit of its
    ranges, one entry of 20 bytes per range: the two ends of the range as
    little-endian 64-bit words and the index of the compunit as a
    little-endian [u32]. *)
Theorem gdb_index_address_areas (cus : list Compunit.t)
    (store : list MapValue.t) (tasks : list Task) (scan : list nat)
    (card : Z) :
  insertion_phase cus store tasks ->
  Permutation scan (seq 0 (length store)) ->
  Z.of_nat (length store) <= ht_size_of card ->
  index_size cus store card < 2 ^ 32 ->
  exists buf,
    emit_gdb_index (with_entries cus tasks) store scan card = Ok buf
    /\ Z.of_nat (length (address_areas 0 cus)) = total_ranges cus
    /\ forall k lo hi j,
         nth_error (address_areas 0 cus) k = Some (lo, hi, j) ->
         0 <= j < Z.of_nat (length cus)
         /\ load_ul64 buf (24 + Z.of_nat (length cus) * 16 + 20 * Z.of_nat k)
            = Ok (u64 lo)
         /\ load_ul64 buf
              (24 + Z.of_nat (length cus) * 16 + 20 * Z.of_nat k + 8)
            = Ok (u64 hi)
         /\ load_ul32 buf
              (24 + Z.of_nat (length cus) * 16 + 20 * Z.of_nat k + 16)
            = Ok j.
Proof.
  intros Hphase Hperm Hroom Hsize.
  destruct (index_emission cus store tasks scan card Hphase Hperm Hroom Hsize)
    as [Hl [Hr [HT [buf [Hres [store2 [b0 [b1 [b2 [b3 [b4 [b5 Hem]]]]]]]]]]]].
  exists buf. split; [exact Hres|].
  split; [apply length_address_areas|].
  intros k lo hi j Hk.
  destruct (insertion_phase_handles _ _ _ Hphase) as [_ Hlen].
  pose proof (with_entries_cu_agree cus tasks Hlen) as Hagree.
  pose proof (address_areas_index cus 0 (lo, hi, j) (nth_error_In _ _ Hk))
    as Hj. cbn [snd] in Hj.
  pose proof (em_after_areas _ _ _ _ _ _ _ _ _ _ _ _ Hem) as Hf.
  pose proof (em_cu_types _ _ _ _ _ _ _ _ _ _ _ _ Hem) as HCT.
  pose proof (em_symtab_offset _ _ _ _ _ _ _ _ _ _ _ _ Hem) as HS.
  destruct (emit_address_areas_content _ _ _ _ _ _
              (em_areas _ _ _ _ _ _ _ _ _ _ _ _ Hem)) as [Hp [_ Hall]].
  rewrite (address_areas_agree _ _ 0 Hagree) in Hall.
  destruct (Hall k lo hi j Hk) as [H1 [H2 H3]].
  assert (Hlt : Z.of_nat k < total_ranges cus).
  { rewrite <- (length_address_areas cus 0).
    apply Nat2Z.inj_lt. apply nth_error_Some. rewrite Hk. discriminate. }
  pose proof (names_size_nonneg store) as HN.
  pose proof (total_nametypes_nonneg cus) as HNT.
  pose proof (ht_size_pos card) as Hm.
  unfold index_size in Hsize.
  rewrite Hl, Hr in *. change sizeof_hdr with 24 in *.
  rewrite HCT in H1, H2, H3.
  split; [lia|].
  rewrite !(load_ul64_frame _ _ _ _ _ Hf) by lia.
  rewrite (load_ul32_frame _ _ _ _ _ Hf) by lia.
  rewrite (u32_small j) in H3 by lia.
  repeat split; assumption.
Qed.

Lemma gdb_index_address_areas_example :
  (insertion_phase two_symbols_cus (fst (run_tasks [] two_symbols_cus))
     (snd (run_tasks [] two_symbols_cus))
   /\ Permutation [1; 0]%nat
        (seq 0 (length (fst (run_tasks [] two_symbols_cus))))
   /\ Z.of_nat (length (fst (run_tasks [] two_symbols_cus))) <= ht_size_of 2
   /\ index_size two_symbols_cus (fst (run_tasks [] two_symbols_cus)) 2
      < 2 ^ 32)
  /\ exists buf,
       emit_gdb_index
         (with_entries two_symbols_cus (snd (run_tasks [] two_symbols_cus)))
         (fst (run_tasks [] two_symbols_cus)) [1; 0]%nat 2 = Ok buf
       /\ load_ul64 buf 76 = Ok 0x2000
       /\ load_ul64 buf 84 = Ok 0x2100
       /\ load_ul32 buf 92 = Ok 1.
Proof.
  pose proof (run_tasks_is_insertion_phase two_symbols_cus) as H2.
  assert (H3 : Permutation [1; 0]%nat
                 (seq 0 (length (fst (run_tasks [] two_symbols_cus)))))
    by (vm_compute; apply perm_swap).
  assert (H4 : Z.of_nat (length (fst (run_tasks [] two_symbols_cus)))
               <= ht_size_of 2) by (vm_compute; discriminate).
  assert (H5 : index_size two_symbols_cus
                 (fst (run_tasks [] two_symbols_cus)) 2 < 2 ^ 32)
    by (vm_compute; reflexivity).
  split; [exact (conj H2 (conj H3 (conj H4 H5)))|].
  destruct (gdb_index_address_areas two_symbols_cus _ _ [1; 0]%nat 2
              H2 H3 H4 H5) as [buf [Hres [_ Hall]]].
  exists buf. split; [exact Hres|].
  exact (proj2 (Hall 1%nat 0x2000 0x2100 1 eq_refl)).
Defined.

(** ** The CU vectors *)

Lemma length_handle_words (h : nat) (i : Z) :
  forall nts es, length nts = length es ->
    length (handle_words h i nts es) = count_occ Nat.eq_dec es h.
Proof.
  induction nts as [|nt nts IH]; intros [|e es] Hlen; try discriminate;
    [reflexivity|].
  cbn [handle_words count_occ]. rewrite length_app, IH by (cbn in Hlen; lia).
  destruct (Nat.eq_dec e h); reflexivity.
Qed.

Section TypesPoolContent.

Variable store : list MapValue.t.
Variables base size : Z.

Let toff (h : nat) : Z := MapValue.type_offset (deref store h).
Let cnt (h : nat) : Z := MapValue.count (deref store h).

Hypothesis base_nonneg : 0 <= base.
Hypothesis size_fits : size < 2 ^ 32.
Hypothesis area_in :
  forall h, (h < length store)%nat ->
    0 <= toff h /\ 0 <= cnt h /\ toff h + (cnt h * 4 + 4) <= size.
Hypothesis areas_disjoint :
  forall h h', (h < length store)%nat -> (h' < length store)%nat -> h <> h' ->
    toff h + (cnt h * 4 + 4) <= toff h'
    \/ toff h' + (cnt h' * 4 + 4) <= toff h.

Lemma emit_types_of_cu_content (i : Z) :
  forall nts es buf seen,
    length nts = length es ->
    Forall (fun h => (h < length store)%nat) es ->
    base + size <= Z.of_nat (length buf) ->
    vectors store base buf seen ->
    (forall h, (h < length store)%nat ->
       Z.of_nat (length (seen h) + count_occ Nat.eq_dec es h) <= cnt h) ->
    exists buf',
      emit_types_of_cu buf base i store nts es = Ok buf'
      /\ frame base (base + size) buf buf'
      /\ vectors store base buf'
           (fun h => seen h ++ handle_words h i nts es).
Proof.
  induction nts as [|nt nts IH]; intros es buf seen Hlen Hes Hbuf Hc Hroom.
  - destruct es; [|discriminate]. exists buf. split; [reflexivity|].
    split; [apply frame_refl|].
    intros h Hh. cbn [handle_words]. rewrite app_nil_r. apply Hc. exact Hh.
  - destruct es as [|e es]; [discriminate|].
    inversion Hes as [|? ? He Hes']; subst.
    destruct (area_in e He) as [Ht [Hn Ha]].
    pose proof (Hroom e He) as Hre. cbn [count_occ] in Hre.
    destruct (Nat.eq_dec e e) as [_|Hne]; [|contradiction].
    cbn [emit_types_of_cu]. cbv zeta. fold (toff e).
    set (p := base + toff e).
    destruct (Hc e He) as [Hce Hwe]. fold (toff e) in Hce, Hwe.
    fold p in Hce, Hwe.
    rewrite Hce. cbn [bind].
    set (c := Z.of_nat (length (seen e))) in *.
    assert (Hidx : u32 (c + 1) = c + 1) by (apply u32_small; lia).
    rewrite Hidx.
    destruct (store_ul32_total buf p (c + 1)) as [b1 H1]; [lia|lia|].
    pose proof (store_ul32_frame _ _ _ _ H1) as F1.
    destruct (store_ul32_total b1 (p + 4 * (c + 1))
                (Z.lor (Z.shiftl (NameType.type nt) 24) i)) as [b2 H2];
      [lia|rewrite (proj1 F1); lia|].
    pose proof (store_ul32_frame _ _ _ _ H2) as F2.
    rewrite H1. cbn [bind]. rewrite H2. cbn [bind].
    assert (F12 : frame p (p + (cnt e * 4 + 4)) buf b2).
    { eapply frame_trans; [eapply frame_weaken; [| |exact F1]; lia|].
      eapply frame_weaken; [| |exact F2]; lia. }
    set (seen' := fun h =>
           seen h ++ (if Nat.eq_dec e h then [cu_word nt i] else [])).
    assert (Hc' : vectors store base b2 seen').
    { intros h Hh. unfold seen'.
      destruct (Nat.eq_dec e h) as [<-|Hne].
      - fold (toff e). fold p. split.
        + rewrite (load_ul32_frame _ _ _ _ _ F2) by lia.
          rewrite (load_ul32_store_ul32 _ _ _ _ H1), Hidx.
          rewrite length_app. cbn [length]. unfold c. f_equal. lia.
        + intros k w Hk.
          destruct (Nat.lt_ge_cases k (length (seen e))) as [Hlt|Hge].
          * rewrite nth_error_app1 in Hk by exact Hlt.
            rewrite (load_ul32_frame _ _ _ _ _ F2) by lia.
            rewrite (load_ul32_frame _ _ _ _ _ F1) by lia.
            apply Hwe. exact Hk.
          * rewrite nth_error_app2 in Hk by exact Hge.
            destruct (k - length (seen e))%nat as [|k'] eqn:Hkk;
              [|destruct k'; discriminate].
            cbn [nth_error] in Hk. injection Hk as <-.
            replace (p + 4 + 4 * Z.of_nat k) with (p + 4 * (c + 1))
              by (unfold c; lia).
            apply (load_ul32_store_ul32 _ _ _ _ H2).
      - rewrite app_nil_r. destruct (Hc h Hh) as [Hch Hwh].
        destruct (area_in h Hh) as [Hth [Hnh Hah]].
        pose proof (Hroom h Hh) as Hrh.
        fold (toff h) in Hch, Hwh |- *.
        split.
        + rewrite <- Hch. apply (load_ul32_frame _ _ _ _ _ F12).
          unfold p. destruct (areas_disjoint e h He Hh Hne); lia.
        + intros k w Hk. rewrite <- (Hwh k w Hk).
          assert (Hkl : (k < length (seen h))%nat).
          { apply nth_error_Some. rewrite Hk. discriminate. }
          apply (load_ul32_frame _ _ _ _ _ F12).
          unfold p. destruct (areas_disjoint e h He Hh Hne); lia. }
    destruct (IH es b2 seen') as [b3 [H3 [F3 Hc3]]].
    + cbn [length] in Hlen. lia.
    + exact Hes'.
    + rewrite (proj1 F12). exact Hbuf.
    + exact Hc'.
    + intros h Hh. specialize (Hroom h Hh). unfold seen'.
      cbn [count_occ] in Hroom. rewrite length_app.
      destruct (Nat.eq_dec e h); cbn [length]; lia.
    + exists b3. split; [exact H3|]. split.
      * eapply frame_trans; [|exact F3].
        eapply frame_weaken; [| |exact F12]; unfold p; lia.
      * intros h Hh. specialize (Hc3 h Hh). unfold seen' in Hc3.
        cbn [handle_words]. rewrite <- app_assoc in Hc3. exact Hc3.
Qed.

Lemma emit_types_content :
  forall cus buf seen i,
    Forall
      (fun cu =>
         length (Compunit.nametypes cu) = length (Compunit.entries cu)
         /\ Forall (fun h => (h < length store)%nat) (Compunit.entries cu))
      cus ->
    base + size <= Z.of_nat (length buf) ->
    vectors store base buf seen ->
    (forall h, (h < length store)%nat ->
       Z.of_nat (length (seen h)
                 + count_occ Nat.eq_dec
                     (concat (map Compunit.entries cus)) h) <= cnt h) ->
    exists buf',
      emit_types buf base i store cus = Ok buf'
      /\ frame base (base + size) buf buf'
      /\ vectors store base buf' (fun h => seen h ++ handle_vector h i cus).
Proof.
  induction cus as [|cu cus IH]; intros buf seen i Hcus Hbuf Hc Hroom.
  - exists buf. split; [reflexivity|]. split; [apply frame_refl|].
    intros h Hh. cbn [handle_vector]. rewrite app_nil_r. apply Hc. exact Hh.
  - inversion Hcus as [|? ? [Hlen Hes] Hcus']; subst.
    cbn [map concat] in Hroom. cbn [emit_types].
    destruct (emit_types_of_cu_content i (Compunit.nametypes cu)
                (Compunit.entries cu) buf seen Hlen Hes Hbuf Hc)
      as [b1 [H1 [F1 Hc1]]].
    { intros h Hh. specialize (Hroom h Hh).
      rewrite count_occ_app in Hroom. lia. }
    destruct (IH b1 _ (i + 1) Hcus' ltac:(rewrite (proj1 F1); exact Hbuf) Hc1)
      as [b2 [H2 [F2 Hc2]]].
    { intros h Hh. specialize (Hroom h Hh).
      rewrite count_occ_app in Hroom.
      rewrite length_app, (length_handle_words h i _ _ Hlen). lia. }
    exists b2. rewrite H1. cbn [bind]. split; [exact H2|]. split.
    + eapply frame_trans; eassumption.
    + intros h Hh. specialize (Hc2 h Hh). cbv beta in Hc2.
      cbn [handle_vector]. rewrite <- app_assoc in Hc2. exact Hc2.
Qed.

End TypesPoolContent.

(** The CU vector of a handle is the CU vector of its key. *)
Lemma handle_words_key (store : list MapValue.t) (h : nat) (i : Z) :
  NoDup (map key_of store) -> (h < length store)%nat ->
  forall nts es,
    Forall2
      (fun nt ent =>
         (ent < length store)%nat
         /\ MapValue.name (deref store ent) = NameType.name nt
         /\ MapValue.hash (deref store ent) = NameType.hash nt) nts es ->
    handle_words h i nts es = key_words (key_of (deref store h)) i nts.
Proof.
  intros Hnd Hh nts es H.
  induction H as [|nt e nts es [He [Hn Hha]] _ IH]; [reflexivity|].
  cbn [handle_words]. unfold key_words in *. cbn [flat_map]. rewrite IH.
  f_equal.
  assert (Hk : key_of (deref store e) = nt_key nt)
    by (unfold key_of, nt_key; congruence).
  destruct (Nat.eq_dec e h) as [->|Hne];
    destruct (key_eq_dec (nt_key nt) (key_of (deref store h))) as [Heq|Hneq];
    try reflexivity.
  - exfalso. apply Hneq. symmetry. exact Hk.
  - exfalso. apply Hne.
    destruct (nth_error store e) as [v|] eqn:Hv;
      [|apply nth_error_None in Hv; lia].
    destruct (nth_error store h) as [w|] eqn:Hw;
      [|apply nth_error_None in Hw; lia].
    apply (NoDup_keys_same_index store e h v w Hnd Hv Hw).
    rewrite (deref_nth_error store e), Hv in Hk.
    rewrite (deref_nth_error store h), Hw in Heq. congruence.
Qed.

Lemma handle_vector_key (store : list MapValue.t) (h : nat) :
  NoDup (map key_of store) -> (h < length store)%nat ->
  forall cus cus' i,
    Forall2
      (fun cu cu' =>
         Compunit.nametypes cu' = Compunit.nametypes cu
         /\ Forall2
              (fun nt ent =>
                 (ent < length store)%nat
                 /\ MapValue.name (deref store ent) = NameType.name nt
                 /\ MapValue.hash (deref store ent) = NameType.hash nt)
              (Compunit.nametypes cu') (Compunit.entries cu')) cus cus' ->
    handle_vector h i cus' = key_vector (key_of (deref store h)) i cus.
Proof.
  intros Hnd Hh cus cus' i H. revert i.
  induction H as [|cu cu' cus cus' [Hn Hf] _ IH]; intros i; [reflexivity|].
  cbn [handle_vector key_vector].
  rewrite (handle_words_key store h i Hnd Hh _ _ Hf), Hn, IH. reflexivity.
Qed.

Lemma length_key_vector (key : list byte * Z) :
  forall cus i,
    Z.of_nat (length (key_vector key i cus))
    = occurrences key (concat (map Compunit.nametypes cus)).
Proof.
  assert (Hw : forall i nts,
            length (key_words key i nts)
            = count_occ key_eq_dec (map nt_key nts) key).
  { intros i. induction nts as [|nt nts IH]; [reflexivity|].
    unfold key_words in *. cbn [flat_map map count_occ].
    rewrite length_app, IH.
    destruct (key_eq_dec (nt_key nt) key); reflexivity. }
  unfold occurrences.
  induction cus as [|cu cus IH]; intros i; [reflexivity|].
  cbn [key_vector map concat].
  rewrite length_app, map_app, count_occ_app, !Nat2Z.inj_add, IH, Hw.
  reflexivity.
Qed.

Section EmissionValues.

Variables (cus : list Compunit.t) (store : list MapValue.t)
  (scan : list nat) (card : Z) (store2 : list MapValue.t)
  (b0 b1 b2 b3 b4 b5 buf : list byte).

Hypothesis Hem : emission cus store scan card store2 b0 b1 b2 b3 b4 b5 buf.

(** What the value of a handle keeps, and where its CU vector and its
    name lie in the constant pool. *)
Lemma em_value (h : nat) :
  (h < length store)%nat ->
  In (deref store h) store
  /\ MapValue.name (deref store2 h) = MapValue.name (deref store h)
  /\ MapValue.hash (deref store2 h) = MapValue.hash (deref store h)
  /\ MapValue.count (deref store2 h) = MapValue.count (deref store h)
  /\ 0 <= MapValue.count (deref store h)
  /\ 0 <= MapValue.type_offset (deref store2 h)
  /\ MapValue.type_offset (deref store2 h)
     + (MapValue.count (deref store h) * 4 + 4) <= types_size store
  /\ types_size store <= MapValue.name_offset (deref store2 h)
  /\ MapValue.name_offset (deref store2 h)
     + (Z.of_nat (length (MapValue.name (deref store h))) + 1)
     <= types_size store + names_size store.
Proof.
  intros Hh.
  pose proof (em_all _ _ _ _ _ _ _ _ _ _ _ _ Hem h Hh) as He.
  pose proof (em_values _ _ _ _ _ _ _ _ _ _ _ _ Hem) as Hsame.
  pose proof (em_counts _ _ _ _ _ _ _ _ _ _ _ _ Hem) as Hnn.
  pose proof (em_valid _ _ _ _ _ _ _ _ _ _ _ _ Hem) as Hval.
  pose proof (em_nodup _ _ _ _ _ _ _ _ _ _ _ _ Hem) as Hnd.
  pose proof (em_types_packed _ _ _ _ _ _ _ _ _ _ _ _ Hem) as Hpt.
  pose proof (em_names_packed _ _ _ _ _ _ _ _ _ _ _ _ Hem) as Hpn.
  set (es := sort_entries store scan) in *.
  assert (Hkeep : forall e, In e es ->
            In (deref store e) store
            /\ MapValue.name (deref store2 e) = MapValue.name (deref store e)
            /\ MapValue.hash (deref store2 e) = MapValue.hash (deref store e)
            /\ MapValue.count (deref store2 e)
               = MapValue.count (deref store e)).
  { intros e Hin. rewrite Forall_forall in Hval.
    split; [apply nth_In; apply Hval; exact Hin|].
    destruct (Hsame e Hin) as [x [y ->]]. repeat split. }
  assert (Hvals : Permutation (map (deref store) es) store).
  { assert (Hps : Permutation es (seq 0 (length store))).
    { apply NoDup_Permutation; [exact Hnd|apply seq_NoDup|].
      intros x. rewrite in_seq. rewrite Forall_forall in Hval.
      split; [intros Hx; specialize (Hval x Hx); lia|].
      intros Hx. apply (em_all _ _ _ _ _ _ _ _ _ _ _ _ Hem). lia. }
    rewrite <- (map_deref_seq store) at 2. apply Permutation_map. exact Hps. }
  set (vals2 := map (deref store2) es) in *.
  assert (HN2 : names_size vals2 = names_size store).
  { unfold vals2. rewrite <- (names_size_perm _ _ Hvals).
    apply names_size_map_eq. intros e Hin. apply (Hkeep e Hin). }
  assert (HT2 : types_size vals2 = types_size store).
  { unfold vals2. rewrite <- (types_size_perm _ _ Hvals).
    apply types_size_map_eq. intros e Hin. apply (Hkeep e Hin). }
  assert (Hcnt : forall e, In e es -> 0 <= MapValue.count (deref store e)).
  { intros e Hin. rewrite Forall_forall in Hnn. apply Hnn.
    apply (Hkeep e Hin). }
  assert (Htb : Forall (fun v => 0 <= types_bytes v) vals2).
  { apply Forall_map. apply Forall_forall. intros e Hin.
    unfold types_bytes. destruct (Hkeep e Hin) as [_ [_ [_ ->]]].
    specialize (Hcnt e Hin). lia. }
  assert (Hnb : Forall (fun v => 0 <= name_bytes v) vals2).
  { apply Forall_forall. intros v _. unfold name_bytes. lia. }
  assert (Hv : In (deref store2 h) vals2) by (apply in_map; exact He).
  pose proof (packed_In _ _ _ _ _ Hpt Htb Hv) as [A1 A2].
  pose proof (packed_In _ _ _ _ _ Hpn Hnb Hv) as [B1 B2].
  change (fold_right _ 0 vals2) with (types_size vals2) in A2.
  change (fold_right _ 0 vals2) with (names_size vals2) in B2.
  rewrite HT2 in A2. rewrite HN2 in B2.
  unfold types_bytes in A2. unfold name_bytes in B2.
  destruct (Hkeep h He) as [K1 [K2 [K3 K4]]].
  rewrite K4 in A2. rewrite K2 in B2. specialize (Hcnt h He).
  repeat split; try assumption; lia.
Qed.

Lemma em_disjoint (h h' : nat) :
  (h < length store)%nat -> (h' < length store)%nat -> h <> h' ->
  MapValue.type_offset (deref store2 h)
  + (MapValue.count (deref store2 h) * 4 + 4)
  <= MapValue.type_offset (deref store2 h')
  \/ MapValue.type_offset (deref store2 h')
     + (MapValue.count (deref store2 h') * 4 + 4)
     <= MapValue.type_offset (deref store2 h).
Proof.
  intros Hh Hh' Hne.
  apply (packed_disjoint MapValue.type_offset types_bytes (deref store2)
           (sort_entries store scan) 0
           (em_types_packed _ _ _ _ _ _ _ _ _ _ _ _ Hem)).
  - apply Forall_forall. intros e He. unfold types_bytes.
    assert (Hlt : (e < length store)%nat).
    { pose proof (em_valid _ _ _ _ _ _ _ _ _ _ _ _ Hem) as Hval.
      rewrite Forall_forall in Hval. apply Hval. exact He. }
    destruct (em_value e Hlt) as [_ [_ [_ [K4 [K5 _]]]]]. lia.
  - exact (em_nodup _ _ _ _ _ _ _ _ _ _ _ _ Hem).
  - apply (em_all _ _ _ _ _ _ _ _ _ _ _ _ Hem). exact Hh.
  - apply (em_all _ _ _ _ _ _ _ _ _ _ _ _ Hem). exact Hh'.
  - exact Hne.
Qed.

End EmissionValues.

Lemma length_handle_vector (h : nat) :
  forall cus i,
    Forall
      (fun cu =>
         length (Compunit.nametypes cu) = length (Compunit.entries cu)) cus ->
    length (handle_vector h i cus)
    = count_occ Nat.eq_dec (concat (map Compunit.entries cus)) h.
Proof.
  induction cus as [|cu cus IH]; intros i Hs; [reflexivity|].
  inversion Hs as [|? ? Hc Hr]; subst.
  cbn [handle_vector map concat].
  rewrite length_app, count_occ_app, (IH _ Hr), length_handle_words by exact Hc.
  reflexivity.
Qed.

Section EmissionPool.

Variables (cus : list Compunit.t) (store : list MapValue.t)
  (scan : list nat) (card : Z) (store2 : list MapValue.t)
  (b0 b1 b2 b3 b4 b5 buf : list byte).

Hypothesis Hem : emission cus store scan card store2 b0 b1 b2 b3 b4 b5 buf.
Hypothesis Hfits : types_size store < 2 ^ 32.
Hypothesis Hshape :
  Forall
    (fun cu =>
       length (Compunit.nametypes cu) = length (Compunit.entries cu)
       /\ Forall (fun h => (h < length store)%nat) (Compunit.entries cu)) cus.
Hypothesis Hcounted :
  forall h, (h < length store)%nat ->
    Z.of_nat (count_occ Nat.eq_dec (concat (map Compunit.entries cus)) h)
    <= MapValue.count (deref store h).
Hypothesis Hnames : forall v, In v store -> ~ In x00 (MapValue.name v).

Let pool : Z := const_pool_offset (compute_header cus card).

(** The CU vectors in the finished section. *)
Lemma em_pool_vectors :
  vectors store2 pool buf (fun h => handle_vector h 0 cus).
Proof.
  pose proof (em_order _ _ _ _ _ _ _ _ _ _ _ _ Hem) as [O1 [O2 [O3 [O4 O5]]]].
  pose proof (em_store2 _ _ _ _ _ _ _ _ _ _ _ _ Hem) as Hl2.
  pose proof (em_after_symtab _ _ _ _ _ _ _ _ _ _ _ _ Hem) as [Hl4 _].
  pose proof (em_after_types _ _ _ _ _ _ _ _ _ _ _ _ Hem) as Hf6.
  pose proof (em_zeros _ _ _ _ _ _ _ _ _ _ _ _ Hem) as Hz.
  fold pool in O3, O5, Hf6, Hz. change sizeof_hdr with 24 in O1.
  assert (Harea : forall h, (h < length store2)%nat ->
            0 <= MapValue.type_offset (deref store2 h)
            /\ 0 <= MapValue.count (deref store2 h)
            /\ MapValue.type_offset (deref store2 h)
               + (MapValue.count (deref store2 h) * 4 + 4)
               <= types_size store).
  { intros h Hh. rewrite Hl2 in Hh.
    destruct (em_value _ _ _ _ _ _ _ _ _ _ _ _ Hem h Hh)
      as [_ [_ [_ [K4 [K5 [K6 [K7 _]]]]]]].
    rewrite K4. repeat split; assumption. }
  assert (Hdis : forall h h', (h < length store2)%nat ->
            (h' < length store2)%nat -> h <> h' ->
            MapValue.type_offset (deref store2 h)
            + (MapValue.count (deref store2 h) * 4 + 4)
            <= MapValue.type_offset (deref store2 h')
            \/ MapValue.type_offset (deref store2 h')
               + (MapValue.count (deref store2 h') * 4 + 4)
               <= MapValue.type_offset (deref store2 h)).
  { intros h h' Hh Hh'. rewrite Hl2 in Hh, Hh'.
    apply (em_disjoint _ _ _ _ _ _ _ _ _ _ _ _ Hem); assumption. }
  destruct (emit_types_content store2 pool (types_size store) ltac:(lia)
              Hfits Harea Hdis cus b4 (fun _ => []) 0)
    as [b5' [He [_ Hv]]].
  - rewrite Hl2. exact Hshape.
  - rewrite <- Hl4. lia.
  - intros h Hh. rewrite Hl2 in Hh.
    destruct (Harea h ltac:(lia)) as [A1 [A2 A3]].
    split.
    + apply (zeros_load_le _ _ _ Hz); [lia|].
      change (Z.of_nat 4) with 4. lia.
    + intros k w Hk. destruct k; discriminate.
  - intros h Hh. rewrite Hl2 in Hh. cbn [length Nat.add].
    destruct (em_value _ _ _ _ _ _ _ _ _ _ _ _ Hem h Hh)
      as [_ [_ [_ [K4 _]]]].
    rewrite K4. apply Hcounted. exact Hh.
  - unfold pool in He.
    rewrite (em_types _ _ _ _ _ _ _ _ _ _ _ _ Hem) in He.
    apply Ok_inj in He. subst b5'.
    intros h Hh. destruct (Hv h Hh) as [Hc Hw]. cbn [app] in Hc, Hw.
    destruct (Harea h Hh) as [A1 [A2 A3]].
    assert (Hlen : Z.of_nat (length (handle_vector h 0 cus))
                   <= MapValue.count (deref store2 h)).
    { rewrite Hl2 in Hh.
      destruct (em_value _ _ _ _ _ _ _ _ _ _ _ _ Hem h Hh)
        as [_ [_ [_ [K4 _]]]].
      rewrite K4, length_handle_vector; [apply Hcounted; exact Hh|].
      eapply Forall_impl; [|exact Hshape]. intros cu [Hcu _]. exact Hcu. }
    split.
    + rewrite (load_ul32_frame _ _ _ _ _ Hf6) by (left; lia). exact Hc.
    + intros k w Hk.
      assert (Hkl : (k < length (handle_vector h 0 cus))%nat)
        by (apply nth_error_Some; congruence).
      rewrite (load_ul32_frame _ _ _ _ _ Hf6) by (left; lia).
      apply Hw. exact Hk.
Qed.

(** The names in the finished section. *)
Lemma em_pool_names (h : nat) :
  (h < length store)%nat ->
  c_string buf (pool + MapValue.name_offset (deref store2 h))
  = Ok (MapValue.name (deref store h)).
Proof.
  intros Hh.
  pose proof (em_order _ _ _ _ _ _ _ _ _ _ _ _ Hem) as [O1 [O2 [O3 [O4 O5]]]].
  pose proof (em_after_types _ _ _ _ _ _ _ _ _ _ _ _ Hem) as [Hl5 _].
  pose proof (em_size _ _ _ _ _ _ _ _ _ _ _ _ Hem) as Hsz.
  pose proof (em_names_packed _ _ _ _ _ _ _ _ _ _ _ _ Hem) as Hpn.
  fold pool in O3, O5, Hsz. change sizeof_hdr with 24 in O1.
  set (es := sort_entries store scan) in *.
  assert (HN2 : names_size (map (deref store2) es) = names_size store).
  { assert (Hps : Permutation es (seq 0 (length store))).
    { apply NoDup_Permutation;
        [exact (em_nodup _ _ _ _ _ _ _ _ _ _ _ _ Hem)|apply seq_NoDup|].
      pose proof (em_valid _ _ _ _ _ _ _ _ _ _ _ _ Hem) as Hval.
      fold es in Hval. rewrite Forall_forall in Hval.
      intros x. rewrite in_seq.
      split; [intros Hx; specialize (Hval x Hx); lia|].
      intros Hx. apply (em_all _ _ _ _ _ _ _ _ _ _ _ _ Hem). lia. }
    transitivity (names_size (map (deref store) es)).
    2: { rewrite (names_size_perm _ _ (Permutation_map (deref store) Hps)).
         rewrite map_deref_seq. reflexivity. }
    apply names_size_map_eq. intros e Hin.
    pose proof (em_valid _ _ _ _ _ _ _ _ _ _ _ _ Hem) as Hval.
    fold es in Hval. rewrite Forall_forall in Hval.
    destruct (em_value _ _ _ _ _ _ _ _ _ _ _ _ Hem e (Hval e Hin))
      as [_ [K2 _]]. exact K2. }
  destruct (emit_names_spec pool store2 es (types_size store) b5 Hpn
              ltac:(lia) ltac:(rewrite HN2, <- Hl5; lia))
    as [buf' [He [_ Hb]]].
  unfold pool, es in He.
  rewrite (em_names _ _ _ _ _ _ _ _ _ _ _ _ Hem) in He.
  apply Ok_inj in He. subst buf'.
  rewrite Forall_forall in Hb.
  specialize (Hb h (em_all _ _ _ _ _ _ _ _ _ _ _ _ Hem h Hh)).
  destruct (em_value _ _ _ _ _ _ _ _ _ _ _ _ Hem h Hh) as [K1 [K2 _]].
  rewrite K2 in Hb. apply bytes_at_c_string; [exact Hb|].
  apply Hnames. exact K1.
Qed.

(** The slots of the symbol table in the finished section. *)
Lemma em_slots (k : Z) (h : nat) :
  0 <= k <= 31 -> ht_size_of card = 2 ^ k ->
  (h < length store)%nat ->
  exists j,
    slot_of buf (symtab_offset (compute_header cus card)) (ht_size_of card)
      (deref store2 h) j.
Proof.
  intros Hk Hm Hh.
  destruct (em_table _ _ _ _ _ _ _ _ _ _ _ _ Hem) as [_ Hall].
  destruct (Hall (deref store2 h)) as [j Hj].
  { apply in_map. apply (em_all _ _ _ _ _ _ _ _ _ _ _ _ Hem). exact Hh. }
  exists j. rewrite Hm in *.
  apply (slot_of_frame k _ _ b4 buf _ _ _ Hk
           (em_after_symtab _ _ _ _ _ _ _ _ _ _ _ _ Hem)); [|exact Hj].
  pose proof (em_pool_offset _ _ _ _ _ _ _ _ _ _ _ _ Hem) as Hp.
  pose proof (em_symtab_offset _ _ _ _ _ _ _ _ _ _ _ _ Hem) as Hs.
  rewrite Hm in Hp. lia.
Qed.

End EmissionPool.

(** X12: the finished section answers a lookup.  For a run of the
    pipeline whose section fits 32 bits and whose table has room, the
    emission returns, and every value [v] of the map is found the way a
    reader of the index looks a name up: probing from the hash of [v]
    reaches, without passing a free slot, a slot [(n, t)]; the C string at
    [n] in the constant pool is the name of [v]; the word at [t] is the
    count of [v], which is the number of tuples of its key, and the words
    after it are the CU vector of the key: one word [(type << 24) | i]
    for every tuple [(name, hash, type)] of the key in compunit [i], in
    the order of the compunits and of their tuples. *)
Theorem gdb_index_lookup (E : Target) (ctx : Context) (card : Z)
    (cus : list Compunit.t) (store : list MapValue.t) (tasks : list Task)
    (scan : list nat) :
  read_compunits E ctx = Ok cus ->
  insertion_phase cus store tasks ->
  Permutation scan (seq 0 (length store)) ->
  Z.of_nat (length store) <= ht_size_of card ->
  index_size cus store card < 2 ^ 32 ->
  exists buf,
    emit_gdb_index (with_entries cus tasks) store scan card = Ok buf
    /\ forall v, In v store ->
         exists i n t,
           (forall i', (i' < i)%nat ->
              ~ slot_free buf
                  (symtab_offset (compute_header (with_entries cus tasks) card))
                  (probe_of (ht_size_of card) (MapValue.hash v) i'))
           /\ slot_holds buf
                (symtab_offset (compute_header (with_entries cus tasks) card))
                (probe_of (ht_size_of card) (MapValue.hash v) i) n t
           /\ c_string buf
                (const_pool_offset
                   (compute_header (with_entries cus tasks) card) + n)
              = Ok (MapValue.name v)
           /\ load_ul32 buf
                (const_pool_offset
                   (compute_header (with_entries cus tasks) card) + t)
              = Ok (MapValue.count v)
           /\ MapValue.count v
              = Z.of_nat (length (key_vector (key_of v) 0 cus))
           /\ forall k w,
                nth_error (key_vector (key_of v) 0 cus) k = Some w ->
                load_ul32 buf
                  (const_pool_offset
                     (compute_header (with_entries cus tasks) card)
                   + t + 4 + 4 * Z.of_nat k) = Ok w.
Proof.
  intros Hread Hphase Hperm Hroom Hsize.
  destruct (index_emission cus store tasks scan card Hphase Hperm Hroom Hsize)
    as [Hl [Hr [HT [buf [Hres [store2 [b0 [b1 [b2 [b3 [b4 [b5 Hem]]]]]]]]]]]].
  exists buf. split; [exact Hres|].
  pose proof (total_ranges_nonneg cus) as HR.
  pose proof (total_nametypes_nonneg cus) as HNT.
  pose proof (names_size_nonneg store) as HN.
  pose proof (ht_size_pos card) as Hm.
  unfold index_size in Hsize. change sizeof_hdr with 24 in Hsize.
  destruct (insertion_phase_handles _ _ _ Hphase) as [Hpar Hlen].
  destruct (final_store _ _ _ Hphase) as [Hnd [Hcanon _]].
  assert (Hfits : types_size store < 2 ^ 32) by lia.
  assert (Hshape :
    Forall
      (fun cu =>
         length (Compunit.nametypes cu) = length (Compunit.entries cu)
         /\ Forall (fun h => (h < length store)%nat) (Compunit.entries cu))
      (with_entries cus tasks)).
  { clear -Hpar. induction Hpar as [|cu cu' l l' [_ Hf] _ IH];
      constructor; [|exact IH].
    split; [exact (Forall2_length Hf)|].
    clear -Hf. induction Hf as [|nt e nts es [He _] _ IHf]; constructor;
      assumption. }
  assert (Hcounted : forall h, (h < length store)%nat ->
            Z.of_nat (count_occ Nat.eq_dec
                        (concat (map Compunit.entries
                                   (with_entries cus tasks))) h)
            <= MapValue.count (deref store h))
    by (apply entries_counted; [lia|exact Hphase]).
  assert (Hnames : forall v, In v store -> ~ In x00 (MapValue.name v)).
  { intros v Hv.
    apply (final_store_names cus store tasks
             (read_compunits_nametypes_ok _ _ _ Hread) Hphase v Hv). }
  set (k := Z.log2_up (Z.quot (card * 5) 4)).
  assert (Hmk : ht_size_of card = 2 ^ k) by reflexivity.
  assert (Hk : 0 <= k <= 31).
  { split; [apply Z.log2_up_nonneg|].
    destruct (Z.le_gt_cases k 31) as [Hle|Hgt]; [exact Hle|].
    exfalso. assert (2 ^ 32 <= 2 ^ k) by (apply Z.pow_le_mono_r; lia).
    lia. }
  intros v Hv.
  destruct (In_nth store v default_value Hv) as [h [Hh Hnth]].
  fold (deref store h) in Hnth.
  destruct (em_value _ _ _ _ _ _ _ _ _ _ _ _ Hem h Hh)
    as [_ [K2 [K3 [K4 _]]]].
  destruct (em_slots _ _ _ _ _ _ _ _ _ _ _ _ Hem k h Hk Hmk Hh)
    as [j [_ [Hhold [i [Hi Hbefore]]]]].
  pose proof (em_pool_names _ _ _ _ _ _ _ _ _ _ _ _ Hem Hnames h Hh)
    as Hname.
  destruct (em_pool_vectors _ _ _ _ _ _ _ _ _ _ _ _ Hem Hfits Hshape Hcounted
              h ltac:(rewrite (em_store2 _ _ _ _ _ _ _ _ _ _ _ _ Hem);
                      exact Hh)) as [Hc Hw].
  rewrite (handle_vector_key store h Hnd Hh cus _ 0 Hpar) in Hc, Hw.
  rewrite K3, Hnth in Hi, Hbefore. rewrite Hnth in Hname, Hc, Hw, K4.
  assert (Hcount : MapValue.count v
                   = Z.of_nat (length (key_vector (key_of v) 0 cus))).
  { rewrite length_key_vector.
    destruct (Hcanon v Hv) as [Heq _].
    set (nts := concat (map Compunit.nametypes cus)) in *.
    pose proof (count_occ_bound key_eq_dec (key_of v) (map nt_key nts))
      as Hb.
    rewrite length_map in Hb.
    pose proof (length_all_nametypes cus) as Hla. fold nts in Hla.
    rewrite Heq at 1. cbn [canonical_value MapValue.count].
    unfold occurrences in *. rewrite u32_small by lia. reflexivity. }
  exists i, (MapValue.name_offset (deref store2 h)),
    (MapValue.type_offset (deref store2 h)).
  split; [exact Hbefore|]. split; [rewrite <- Hi; exact Hhold|].
  split; [exact Hname|].
  split; [rewrite Hc, Hcount; reflexivity|].
  split; [exact Hcount|exact Hw].
Qed.

(** The section of [two_symbols_ctx]: the first value of its map is found
    from its hash, with its name and its count in the constant pool at
    offset 112. *)
Lemma gdb_index_lookup_example :
  (read_compunits X86_64 two_symbols_ctx = Ok two_symbols_cus
   /\ insertion_phase two_symbols_cus (fst (run_tasks [] two_symbols_cus))
        (snd (run_tasks [] two_symbols_cus))
   /\ Permutation [1; 0]%nat
        (seq 0 (length (fst (run_tasks [] two_symbols_cus))))
   /\ Z.of_nat (length (fst (run_tasks [] two_symbols_cus))) <= ht_size_of 2
   /\ index_size two_symbols_cus (fst (run_tasks [] two_symbols_cus)) 2
      < 2 ^ 32)
  /\ exists buf,
       emit_gdb_index
         (with_entries two_symbols_cus (snd (run_tasks [] two_symbols_cus)))
         (fst (run_tasks [] two_symbols_cus)) [1; 0]%nat 2 = Ok buf
       /\ exists i n t,
            slot_holds buf 96
              (probe_of 2
                 (MapValue.hash
                    (deref (fst (run_tasks [] two_symbols_cus)) 0)) i) n t
            /\ c_string buf (112 + n)
               = Ok (MapValue.name
                       (deref (fst (run_tasks [] two_symbols_cus)) 0))
            /\ load_ul32 buf (112 + t)
               = Ok (MapValue.count
                       (deref (fst (run_tasks [] two_symbols_cus)) 0)).
Proof.
  pose proof read_compunits_two_symbols as H1.
  pose proof (run_tasks_is_insertion_phase two_symbols_cus) as H2.
  assert (H3 : Permutation [1; 0]%nat
                 (seq 0 (length (fst (run_tasks [] two_symbols_cus)))))
    by (vm_compute; apply perm_swap).
  assert (H4 : Z.of_nat (length (fst (run_tasks [] two_symbols_cus)))
               <= ht_size_of 2) by (vm_compute; discriminate).
  assert (H5 : index_size two_symbols_cus
                 (fst (run_tasks [] two_symbols_cus)) 2 < 2 ^ 32)
    by (vm_compute; reflexivity).
  split; [exact (conj H1 (conj H2 (conj H3 (conj H4 H5))))|].
  destruct (gdb_index_lookup X86_64 two_symbols_ctx 2 two_symbols_cus _ _
              [1; 0]%nat H1 H2 H3 H4 H5) as [buf [Hres Hall]].
  exists buf. split; [exact Hres|].
  destruct (Hall (deref (fst (run_tasks [] two_symbols_cus)) 0))
    as [i [n [t [_ [Hs [Hn [Hc _]]]]]]].
  { vm_compute. left. reflexivity. }
  exists i, n, t. exact (conj Hs (conj Hn Hc)).
Defined.

(** ** A table without room *)

Lemma filter_length_full {A : Type} (f : A -> bool) (l : list A) :
  length (filter f l) = length l -> forall x, In x l -> f x = true.
Proof.
  induction l as [|a l IH]; intros Hlen x Hx; [destruct Hx|].
  cbn [filter] in Hlen. pose proof (filter_length_le f l) as Hle.
  destruct (f a) eqn:Hfa; cbn [length] in Hlen; [|lia].
  destruct Hx as [<-|Hx]; [exact Hfa|]. apply IH; [lia|exact Hx].
Qed.

Lemma filter_length_set (f g : nat -> bool) (x : nat) (l : list nat) :
  (forall y, y <> x -> g y = f y) -> f x = false -> g x = true ->
  NoDup l -> In x l ->
  length (filter g l) = S (length (filter f l)).
Proof.
  intros Hsame Hf Hg. induction l as [|a l IH]; intros Hnd Hin;
    [destruct Hin|].
  inversion Hnd as [|? ? Hnotin Hnd']; subst.
  cbn [filter]. destruct (Nat.eq_dec a x) as [->|Hne].
  - rewrite Hf, Hg. cbn [length]. f_equal.
    clear IH Hin Hnd Hnd'. induction l as [|b l IHl]; [reflexivity|].
    cbn [filter]. rewrite (Hsame b).
    + destruct (f b); cbn [length]; rewrite IHl; try reflexivity;
        intros Hb; apply Hnotin; right; exact Hb.
    + intros ->. apply Hnotin. left. reflexivity.
  - destruct Hin as [Heq|Hin]; [contradiction|].
    rewrite (Hsame a Hne). destruct (f a); cbn [length];
      rewrite (IH Hnd' Hin); reflexivity.
Qed.

Section SymtabOverfull.

Variable k : Z.
Hypothesis k_range : 0 <= k <= 31.
Variable ht : Z.

Let m : Z := 2 ^ k.

(** In a table without a free slot the [while] loop goes on, whatever the
    number of iterations it is given. *)
Lemma probe_full_table (buf : list byte) (step : Z) :
  table_in ht m buf -> 0 <= step <= 2 ^ 31 ->
  (forall j, 0 <= j < m -> ~ slot_free buf ht j) ->
  forall fuel j, 0 <= j < m ->
    probe fuel buf ht (m - 1) step j = OutOfFuel.
Proof.
  intros Hin Hstep Hfull.
  induction fuel as [|fuel IH]; intros j Hj; [reflexivity|].
  cbn [probe].
  destruct (slot_words k k_range ht buf j Hin Hj) as [n [t Hnt]].
  rewrite (slot_occupied_spec k k_range ht buf j n t Hj Hnt). cbn [bind].
  destruct ((n =? 0) && (t =? 0)) eqn:Hz.
  - exfalso. apply (Hfull j Hj).
    apply andb_true_iff in Hz. destruct Hz as [Hn Ht].
    apply Z.eqb_eq in Hn. apply Z.eqb_eq in Ht. subst n t. exact Hnt.
  - cbn [negb]. apply IH. unfold m.
    rewrite (next_slot k k_range j step Hj Hstep).
    apply Z.mod_pos_bound. pose proof (table_size_range k k_range). lia.
Qed.

Lemma emit_symbol_full_table (buf : list byte) (v : MapValue.t) :
  table_in ht m buf ->
  (forall j, 0 <= j < m -> ~ slot_free buf ht j) ->
  emit_symbol buf ht m v = OutOfFuel.
Proof.
  intros Hin Hfull. unfold emit_symbol. cbv zeta.
  unfold m. rewrite (mask_eq k k_range).
  rewrite (probe_full_table buf _ Hin); [reflexivity| |exact Hfull|].
  - pose proof (step_range k k_range (MapValue.hash v)) as [Hs _]. lia.
  - apply (start_range k k_range).
Qed.

Lemma occupied_count_le (buf : list byte) (n : nat) :
  (occupied_count buf ht n <= n)%nat.
Proof.
  unfold occupied_count.
  pose proof (filter_length_le (fun j => negb (slot_is_free buf ht j))
                (seq 0 n)) as H.
  rewrite length_seq in H. exact H.
Qed.

Lemma occupied_count_full (buf : list byte) :
  occupied_count buf ht (Z.to_nat m) = Z.to_nat m ->
  forall j, 0 <= j < m -> ~ slot_free buf ht j.
Proof.
  intros Hc j Hj Hfree. unfold occupied_count in Hc.
  pose proof (filter_length_full (fun j => negb (slot_is_free buf ht j))
                (seq 0 (Z.to_nat m))) as H.
  rewrite length_seq in H. specialize (H Hc (Z.to_nat j)).
  rewrite slot_free_is_free in H by (rewrite Z2Nat.id by lia; exact Hfree).
  cbn [negb] in H. assert (false = true); [|discriminate].
  apply H. apply in_seq. lia.
Qed.

(** Filling a free slot with the offsets of a value makes one more slot
    occupied. *)
Lemma occupied_count_filled (buf buf' : list byte) (s n t : Z) :
  0 <= s < m -> slot_free buf ht s -> slot_holds buf' ht s n t ->
  n <> 0 \/ t <> 0 ->
  frame (ht + 8 * s) (ht + 8 * s + 8) buf buf' ->
  occupied_count buf' ht (Z.to_nat m)
  = S (occupied_count buf ht (Z.to_nat m)).
Proof.
  intros Hs Hfree Hhold Hnz Hf. unfold occupied_count.
  apply (filter_length_set _ _ (Z.to_nat s)).
  - intros y Hy. f_equal.
    apply (slot_is_free_frame k k_range ht buf buf' s y Hf). lia.
  - rewrite slot_free_is_free by (rewrite Z2Nat.id by lia; exact Hfree).
    reflexivity.
  - apply negb_true_iff.
    destruct (slot_is_free buf' ht (Z.to_nat s)) eqn:Hfr; [|reflexivity].
    exfalso. apply slot_is_free_true in Hfr. rewrite Z2Nat.id in Hfr by lia.
    destruct Hhold as [Hn Ht]. destruct Hfr as [Hn0 Ht0].
    unfold ht_load in *. rewrite Hn in Hn0. rewrite Ht in Ht0.
    apply Ok_inj in Hn0. apply Ok_inj in Ht0. lia.
  - apply seq_NoDup.
  - apply in_seq. lia.
Qed.

(** More values than free slots: the loop over the values does not come
    to its end. *)
Lemma emit_symtab_overfull (store : list MapValue.t) :
  forall entries buf,
    table_in ht m buf ->
    Forall placeable (map (deref store) entries) ->
    (Z.to_nat m < occupied_count buf ht (Z.to_nat m) + length entries)%nat ->
    emit_symtab buf ht m store entries = OutOfFuel.
Proof.
  induction entries as [|e entries IH]; intros buf Hin Hpl Hover.
  - pose proof (occupied_count_le buf (Z.to_nat m)). cbn [length] in Hover.
    lia.
  - cbn [emit_symtab]. cbn [map] in Hpl.
    inversion Hpl as [|? ? Hv Hrest]; subst.
    pose proof (occupied_count_le buf (Z.to_nat m)) as Hle.
    pose proof (table_size_range k k_range) as Hm. fold m in Hm.
    destruct (Nat.eq_dec (occupied_count buf ht (Z.to_nat m)) (Z.to_nat m))
      as [Hfull|Hroom].
    + rewrite (emit_symbol_full_table buf _ Hin
                 (occupied_count_full buf Hfull)).
      reflexivity.
    + destruct (emit_symbol_spec k k_range ht buf (deref store e) Hin Hv)
        as [buf' [i [He [Hi [Hfree [_ [Hhold Hf]]]]]]].
      { apply (free_slot_exists k k_range ht buf
                 (occupied_count buf ht (Z.to_nat m))); [apply Nat.le_refl|].
        unfold m in *. lia. }
      fold m in He, Hi, Hfree, Hhold, Hf.
      rewrite He. cbn [bind]. apply IH.
      * destruct Hin as [H0 H1]. split; [exact H0|].
        rewrite (proj1 Hf). exact H1.
      * exact Hrest.
      * rewrite (occupied_count_filled buf buf' _ _ _ Hi Hfree Hhold
                   (proj2 (proj2 Hv)) Hf).
        cbn [length] in Hover. lia.
Qed.

End SymtabOverfull.

(** The emission up to the symbol table, which needs no room: the loop
    over the values starts on a table that lies in the buffer and is all
    free. *)
Lemma emission_until_symtab (cus : list Compunit.t)
    (store : list MapValue.t) (scan : list nat) (card : Z) :
  Forall (fun v => 0 <= MapValue.count v) store ->
  Permutation scan (seq 0 (length store)) ->
  sizeof_hdr + Z.of_nat (length cus) * 16 + total_ranges cus * 20
  + ht_size_of card * 8 + types_size store + names_size store < 2 ^ 32 ->
  exists store2 b3,
    emit_gdb_index cus store scan card
    = (buf <- emit_symtab b3 (symtab_offset (compute_header cus card))
                (ht_size_of card) store2 (sort_entries store scan) ;;
       buf <- emit_types buf (const_pool_offset (compute_header cus card)) 0
                store2 cus ;;
       emit_names buf (const_pool_offset (compute_header cus card)) store2
         (sort_entries store scan))
    /\ table_in (symtab_offset (compute_header cus card)) (ht_size_of card) b3
    /\ occupied_count b3 (symtab_offset (compute_header cus card))
         (Z.to_nat (ht_size_of card)) = O
    /\ Forall placeable (map (deref store2) (sort_entries store scan))
    /\ length (sort_entries store scan) = length store.
Proof.
  intros Hnn Hperm Hsize.
  destruct (sort_entries_handles store scan Hperm) as [Hnd [Hval Hall]].
  assert (Hvals : Permutation (map (deref store) (sort_entries store scan))
                    store).
  { rewrite sort_entries_values, sort_by_perm.
    apply scan_values_permutation. exact Hperm. }
  pose proof (names_size_nonneg store) as HN.
  pose proof (types_size_lower store Hnn) as HT.
  pose proof (total_ranges_nonneg cus) as HR.
  pose proof (ht_size_pos card) as Hm.
  destruct (compute_header_offsets cus card ltac:(lia)) as [HS HP].
  unfold emit_gdb_index. cbv zeta.
  set (es := sort_entries store scan) in *.
  set (hdr := compute_header cus card) in *.
  set (S := symtab_offset hdr) in *.
  set (P := const_pool_offset hdr) in *.
  change sizeof_hdr with 24 in *.
  set (T := types_size store) in *.
  set (N := names_size store) in *.
  destruct (assign_type_offsets store es 0) as [store1 off1] eqn:H1.
  destruct (assign_name_offsets store1 es off1) as [store2 off2] eqn:H2.
  destruct (assign_offsets_spec store es Hnd Hval Hvals Hnn ltac:(lia)
              _ _ _ _ H1 H2) as [Hoff2 [Hlen2 [Hpt [Hpn Hsame]]]].
  fold T in Hpn. fold T N in Hoff2.
  assert (Hkeep : forall e, In e es ->
            In (deref store e) store
            /\ MapValue.name (deref store2 e) = MapValue.name (deref store e)
            /\ MapValue.count (deref store2 e)
               = MapValue.count (deref store e)).
  { intros e He. rewrite Forall_forall in Hval.
    split; [apply nth_In; apply Hval; exact He|].
    destruct (Hsame e He) as [x [y ->]]. split; reflexivity. }
  set (vals2 := map (deref store2) es) in *.
  assert (HN2 : names_size vals2 = N).
  { unfold vals2, N. rewrite <- (names_size_perm _ _ Hvals).
    apply names_size_map_eq. intros e He. apply (Hkeep e He). }
  assert (HT2 : types_size vals2 = T).
  { unfold vals2, T. rewrite <- (types_size_perm _ _ Hvals).
    apply types_size_map_eq. intros e He. apply (Hkeep e He). }
  assert (Hcnt2 : forall e, In e es -> 0 <= MapValue.count (deref store2 e)).
  { intros e He. destruct (Hkeep e He) as [Hin [_ ->]].
    rewrite Forall_forall in Hnn. apply Hnn. exact Hin. }
  assert (Hplace : Forall placeable vals2).
  { apply Forall_map. apply Forall_forall. intros e He.
    assert (Hv : In (deref store2 e) vals2) by (apply in_map; exact He).
    assert (Htb : Forall (fun v => 0 <= types_bytes v) vals2).
    { apply Forall_map. apply Forall_forall. intros e' He'.
      unfold types_bytes. specialize (Hcnt2 e' He'). lia. }
    assert (Hnb : Forall (fun v => 0 <= name_bytes v) vals2).
    { apply Forall_forall. intros v _. unfold name_bytes. lia. }
    pose proof (packed_In _ _ _ _ _ Hpt Htb Hv) as [A1 A2].
    pose proof (packed_In _ _ _ _ _ Hpn Hnb Hv) as [B1 B2].
    change (fold_right _ 0 vals2) with (types_size vals2) in A2.
    change (fold_right _ 0 vals2) with (names_size vals2) in B2.
    rewrite HT2 in A2. rewrite HN2 in B2.
    unfold types_bytes in A2. unfold name_bytes in B2.
    specialize (Hcnt2 e He). unfold placeable. lia. }
  set (n := Z.to_nat (P + off2)).
  assert (Hn : Z.of_nat n = P + off2) by (unfold n; lia).
  pose proof (zeros_repeat n) as Hz0.
  assert (Hl0 : length (repeat x00 n) = n) by apply repeat_length.
  destruct (emit_header_spec (repeat x00 n) hdr) as [b1 [E1 F1]];
    [rewrite Hl0; change sizeof_hdr with 24; lia|].
  destruct (emit_cu_list_spec cus b1 24) as [b2 [E2 F2]];
    [lia|rewrite (proj1 F1), Hl0; lia|].
  destruct (emit_address_areas_spec cus b2 (24 + Z.of_nat (length cus) * 16) 0)
    as [b3 [E3 F3]]; [lia|rewrite (proj1 F2), (proj1 F1), Hl0; lia|].
  change sizeof_hdr with 24 in *.
  rewrite E1. cbn [bind]. rewrite E2. cbn [bind]. rewrite E3. cbn [bind].
  assert (Hl3 : length b3 = n)
    by (rewrite (proj1 F3), (proj1 F2), (proj1 F1); exact Hl0).
  assert (Hz3 : zeros S (Z.of_nat n) b3).
  { eapply zeros_frame; [exact F3|right; lia|].
    eapply zeros_frame; [exact F2|right; lia|].
    eapply zeros_frame; [exact F1|right; lia|].
    intros q Hq. apply Hz0. lia. }
  exists store2, b3. split; [reflexivity|].
  split; [split; [lia|rewrite Hl3; lia]|].
  split.
  { apply (occupied_count_zeros S (Z.of_nat n)); [exact Hz3|lia|lia]. }
  split; [exact Hplace|].
  rewrite <- (length_map (deref store) es). apply (Permutation_length Hvals).
Qed.

(** X13: the symbol-table loop has no guard against a table that is too
    small.  When the map holds more values than the table has slots (the
    number of slots comes from the estimated cardinality), the emission
    does not return: the loop over the values reaches a value for which
    every slot is taken, and on a table without a free slot the [while]
    loop that probes for one is still running after any number of
    iterations. *)
Theorem symtab_overfull_diverges (cus : list Compunit.t)
    (store : list MapValue.t) (tasks : list Task) (scan : list nat)
    (card : Z) :
  insertion_phase cus store tasks ->
  Permutation scan (seq 0 (length store)) ->
  ht_size_of card < Z.of_nat (length store) ->
  index_size cus store card < 2 ^ 32 ->
  emit_gdb_index (with_entries cus tasks) store scan card = OutOfFuel
  /\ forall buf ht hash fuel,
       table_in ht (ht_size_of card) buf ->
       (forall j, 0 <= j < ht_size_of card -> ~ slot_free buf ht j) ->
       probe fuel buf ht (u32 (ht_size_of card - 1))
         (Z.lor (Z.land hash (u32 (ht_size_of card - 1))) 1)
         (Z.land hash (u32 (ht_size_of card - 1))) = OutOfFuel.
Proof.
  intros Hphase Hperm Hover Hsize.
  pose proof (total_ranges_nonneg cus) as HR.
  pose proof (total_nametypes_nonneg cus) as HNT.
  pose proof (names_size_nonneg store) as HN.
  pose proof (ht_size_pos card) as Hm.
  unfold index_size in Hsize. change sizeof_hdr with 24 in Hsize.
  destruct (insertion_phase_handles _ _ _ Hphase) as [_ Hlen].
  destruct (sum_counts_total cus store tasks ltac:(lia) Hphase)
    as [Hsum Hnn].
  pose proof (with_entries_cu_agree cus tasks Hlen) as Hagree.
  destruct (total_ranges_agree _ _ Hagree) as [Hr Hl].
  set (k := Z.log2_up (Z.quot (card * 5) 4)).
  assert (Hmk : ht_size_of card = 2 ^ k) by reflexivity.
  assert (Hk : 0 <= k <= 31).
  { split; [apply Z.log2_up_nonneg|].
    destruct (Z.le_gt_cases k 31) as [Hle|Hgt]; [exact Hle|].
    exfalso. assert (2 ^ 32 <= 2 ^ k) by (apply Z.pow_le_mono_r; lia).
    lia. }
  split.
  - destruct (emission_until_symtab (with_entries cus tasks) store scan card
                Hnn Hperm) as [store2 [b3 [He [Hin [Hocc [Hpl Hes]]]]]].
    { rewrite Hr, Hl, types_size_counts, Hsum. change sizeof_hdr with 24.
      lia. }
    rewrite He, Hmk in *.
    rewrite (emit_symtab_overfull k Hk _ store2 _ b3 Hin Hpl); [reflexivity|].
    rewrite Hocc, Hes. lia.
  - intros buf ht hash fuel Hin Hfull. rewrite Hmk in *.
    rewrite (mask_eq k Hk).
    apply (probe_full_table k Hk ht buf _ Hin); [|exact Hfull|].
    + pose proof (step_range k Hk hash) as [Hs _]. lia.
    + apply (start_range k Hk).
Qed.

(** With the cardinality 1 the table of [two_symbols_ctx] has one slot for
    the two values of the map. *)
Lemma symtab_overfull_diverges_example :
  (insertion_phase two_symbols_cus (fst (run_tasks [] two_symbols_cus))
     (snd (run_tasks [] two_symbols_cus))
   /\ Permutation [1; 0]%nat
        (seq 0 (length (fst (run_tasks [] two_symbols_cus))))
   /\ ht_size_of 1 < Z.of_nat (length (fst (run_tasks [] two_symbols_cus)))
   /\ index_size two_symbols_cus (fst (run_tasks [] two_symbols_cus)) 1
      < 2 ^ 32)
  /\ emit_gdb_index
       (with_entries two_symbols_cus (snd (run_tasks [] two_symbols_cus)))
       (fst (run_tasks [] two_symbols_cus)) [1; 0]%nat 1 = OutOfFuel.
Proof.
  pose proof (run_tasks_is_insertion_phase two_symbols_cus) as H2.
  assert (H3 : Permutation [1; 0]%nat
                 (seq 0 (length (fst (run_tasks [] two_symbols_cus)))))
    by (vm_compute; apply perm_swap).
  assert (H4 : ht_size_of 1
               < Z.of_nat (length (fst (run_tasks [] two_symbols_cus))))
    by (vm_compute; reflexivity).
  assert (H5 : index_size two_symbols_cus
                 (fst (run_tasks [] two_symbols_cus)) 1 < 2 ^ 32)
    by (vm_compute; reflexivity).
  split; [exact (conj H2 (conj H3 (conj H4 H5)))|].
  exact (proj1 (symtab_overfull_diverges two_symbols_cus _ _ [1; 0]%nat 1
                  H2 H3 H4 H5)).
Defined.

(** ** The order of the object files *)

Lemma push_all_app (cus : list Compunit.t) (a b : list (nat * NameType.t)) :
  push_all cus (a ++ b) = push_all (push_all cus a) b.
Proof. apply fold_left_app. Qed.

Lemma push_nametype_offsets (cus : list Compunit.t) :
  forall i nt,
    map Compunit.offset (push_nametype cus i nt) = map Compunit.offset cus.
Proof.
  induction cus as [|cu cus IH]; intros [|i] nt; try reflexivity.
  cbn [push_nametype map]. rewrite IH. reflexivity.
Qed.

Lemma push_all_offsets (adds : list (nat * NameType.t)) :
  forall cus, map Compunit.offset (push_all cus adds) = map Compunit.offset cus.
Proof.
  induction adds as [|a adds IH]; intros cus; [reflexivity|].
  unfold push_all in *. cbn [fold_left].
  rewrite IH. apply push_nametype_offsets.
Qed.

Lemma get_cu_offsets (cus cus2 : list Compunit.t) (offset : Z) :
  map Compunit.offset cus = map Compunit.offset cus2 ->
  get_cu cus offset = get_cu cus2 offset.
Proof.
  revert cus2. induction cus as [|cu cus IH]; intros [|cu2 cus2] H;
    try discriminate; [reflexivity|].
  cbn [map] in H. injection H as Ho Hr.
  cbn [get_cu]. rewrite Ho, (IH cus2 Hr). reflexivity.
Qed.

Lemma same_pushes_after (r r2 : result (list Compunit.t))
    (cus cus2 : list Compunit.t) (a : list (nat * NameType.t)) :
  same_pushes r r2 (push_all cus a) (push_all cus2 a) ->
  same_pushes r r2 cus cus2.
Proof.
  unfold same_pushes.
  destruct r as [c| | | |]; destruct r2 as [c2| | | |]; try exact (fun H => H).
  intros [adds [H1 H2]]. exists (a ++ adds).
  rewrite !push_all_app. split; assumption.
Qed.

Lemma same_pushes_none (cus cus2 : list Compunit.t) :
  same_pushes (Ok cus) (Ok cus2) cus cus2.
Proof. exists []. split; reflexivity. Qed.

(** The loop over the tuples of a table does not look at the compunits. *)
Lemma read_pubnames_tuples_pushes (E : Target) (buf : list byte) (cu : nat) :
  forall fuel cus cus2 data_start data_size,
    same_pushes
      (read_pubnames_tuples fuel E buf cus cu data_start data_size)
      (read_pubnames_tuples fuel E buf cus2 cu data_start data_size)
      cus cus2.
Proof.
  induction fuel as [|fuel IH]; intros cus cus2 ds dz; [exact I|].
  cbn [read_pubnames_tuples].
  destruct (dz =? 0); [apply same_pushes_none|].
  destruct (load_U32 E buf ds) as [offset| | | |]; cbn [bind];
    try exact I.
  destruct (dz <? 4); [exact I|].
  destruct (offset =? 0); [apply same_pushes_none|].
  destruct (load_u8 buf (ds + 4)) as [type| | | |]; cbn [bind]; try exact I.
  destruct (dz - 4 <? 1); [exact I|].
  destruct (strlen buf (ds + 4 + 1)) as [n| | | |]; cbn [bind]; try exact I.
  destruct (dz - 4 - 1 <? n + 1); [exact I|].
  apply (same_pushes_after _ _ cus cus2
           [(cu, {| NameType.name := slice buf (ds + 4 + 1) n;
                    NameType.hash := gdb_hash (slice buf (ds + 4 + 1) n);
                    NameType.type := type |})]).
  apply IH.
Qed.

(** The loop over the tables looks at the offsets of the compunits
    only. *)
Lemma read_pubnames_tables_pushes (E : Target) (file : ObjectFile)
    (buf : list byte) :
  forall fuel cus cus2 start size,
    map Compunit.offset cus = map Compunit.offset cus2 ->
    same_pushes
      (read_pubnames_tables fuel E file buf cus start size)
      (read_pubnames_tables fuel E file buf cus2 start size)
      cus cus2.
Proof.
  induction fuel as [|fuel IH]; intros cus cus2 start size Ho; [exact I|].
  cbn [read_pubnames_tables].
  destruct (size =? 0); [apply same_pushes_none|].
  destruct (size <? 14); [exact I|].
  destruct (load_U32 E buf start) as [v| | | |]; cbn [bind]; try exact I.
  destruct (load_U32 E buf (start + 6)) as [info| | | |]; cbn [bind];
    try exact I.
  rewrite (get_cu_offsets cus cus2 _ Ho).
  destruct (get_cu cus2 (debug_info_offset file + info)) as [cu|];
    [|exact I].
  destruct (size <? u32 (v + 4)); [exact I|].
  pose proof (read_pubnames_tuples_pushes E buf cu (S (length buf)) cus cus2
                (start + 14) (Z.min (u32 (u32 (v + 4) - 14)) (size - 14)))
    as Ht.
  destruct (read_pubnames_tuples (S (length buf)) E buf cus cu (start + 14)
              (Z.min (u32 (u32 (v + 4) - 14)) (size - 14)))
    as [c| | | |];
    destruct (read_pubnames_tuples (S (length buf)) E buf cus2 cu
                (start + 14) (Z.min (u32 (u32 (v + 4) - 14)) (size - 14)))
      as [c2| | | |]; cbn [bind]; try exact I; try contradiction.
  destruct Ht as [adds [-> ->]].
  apply (same_pushes_after _ _ cus cus2 adds). apply IH.
  rewrite !push_all_offsets. exact Ho.
Qed.

Lemma read_pubnames_section_pushes (E : Target) (file : ObjectFile)
    (isec : option (list byte)) (cus cus2 : list Compunit.t) :
  map Compunit.offset cus = map Compunit.offset cus2 ->
  same_pushes (read_pubnames_section E file isec cus)
    (read_pubnames_section E file isec cus2) cus cus2.
Proof.
  intros Ho. destruct isec as [buf|]; [|apply same_pushes_none].
  apply read_pubnames_tables_pushes. exact Ho.
Qed.

Lemma read_pubnames_pushes (E : Target) (file : ObjectFile)
    (cus cus2 : list Compunit.t) :
  map Compunit.offset cus = map Compunit.offset cus2 ->
  same_pushes (read_pubnames E cus file) (read_pubnames E cus2 file)
    cus cus2.
Proof.
  intros Ho. unfold read_pubnames.
  pose proof (read_pubnames_section_pushes E file (debug_pubnames file)
                cus cus2 Ho) as H1.
  destruct (read_pubnames_section E file (debug_pubnames file) cus)
    as [c| | | |];
    destruct (read_pubnames_section E file (debug_pubnames file) cus2)
      as [c2| | | |]; cbn [bind]; try exact I; try contradiction.
  destruct H1 as [adds [-> ->]].
  apply (same_pushes_after _ _ cus cus2 adds).
  apply read_pubnames_section_pushes.
  rewrite !push_all_offsets. exact Ho.
Qed.

(** What [read_pubnames] does for a file is a list of pushes, and it does
    the same pushes from any compunits with the same offsets. *)
Lemma read_pubnames_effect (E : Target) (file : ObjectFile)
    (cus cus2 c : list Compunit.t) :
  read_pubnames E cus file = Ok c ->
  map Compunit.offset cus2 = map Compunit.offset cus ->
  exists adds,
    c = push_all cus adds
    /\ read_pubnames E cus2 file = Ok (push_all cus2 adds).
Proof.
  intros H Ho.
  pose proof (read_pubnames_pushes E file cus cus2 (eq_sym Ho)) as Hs.
  rewrite H in Hs.
  destruct (read_pubnames E cus2 file) as [c2| | | |]; try contradiction.
  destruct Hs as [adds [Hc ->]].
  exists adds. split; [exact Hc|reflexivity].
Qed.

Lemma same_but_order_refl (cu : Compunit.t) : same_but_order cu cu.
Proof.
  unfold same_but_order.
  split; [reflexivity|]. split; [reflexivity|]. split; [reflexivity|].
  split; [reflexivity|apply Permutation_refl].
Qed.

Lemma same_but_order_trans (a b c : Compunit.t) :
  same_but_order a b -> same_but_order b c -> same_but_order a c.
Proof.
  intros [A1 [A2 [A3 [A4 A5]]]] [B1 [B2 [B3 [B4 B5]]]].
  unfold same_but_order.
  split; [congruence|]. split; [congruence|]. split; [congruence|].
  split; [congruence|]. exact (Permutation_trans A5 B5).
Qed.

Lemma same_but_order_offsets (cus cus2 : list Compunit.t) :
  Forall2 same_but_order cus cus2 ->
  map Compunit.offset cus2 = map Compunit.offset cus.
Proof.
  induction 1 as [|a b l l' [H1 _] _ IH]; [reflexivity|].
  cbn [map]. rewrite H1, IH. reflexivity.
Qed.

(** The same push on both sides. *)
Lemma push_nametype_same_but_order (cus cus2 : list Compunit.t) :
  Forall2 same_but_order cus cus2 ->
  forall i nt,
    Forall2 same_but_order (push_nametype cus i nt)
      (push_nametype cus2 i nt).
Proof.
  induction 1 as [|a b l l' Hab Hl IH]; intros i nt; [destruct i; constructor|].
  destruct i as [|i]; cbn [push_nametype].
  - constructor; [|exact Hl].
    destruct Hab as [H1 [H2 [H3 [H4 H5]]]]. unfold same_but_order.
    cbn [Compunit.set_nametypes Compunit.offset Compunit.size
         Compunit.ranges Compunit.entries Compunit.nametypes].
    split; [exact H1|]. split; [exact H2|]. split; [exact H3|].
    split; [exact H4|]. apply Permutation_app_tail. exact H5.
  - constructor; [exact Hab|apply IH].
Qed.

(** Two pushes in either order. *)
Lemma push_nametype_swap (cus : list Compunit.t) :
  forall i a j b,
    Forall2 same_but_order
      (push_nametype (push_nametype cus i a) j b)
      (push_nametype (push_nametype cus j b) i a).
Proof.
  induction cus as [|cu cus IH]; intros i a j b.
  - destruct i, j; constructor.
  - destruct i as [|i], j as [|j]; cbn [push_nametype].
    + constructor;
        [|apply Forall2_refl_on; exact same_but_order_refl].
      unfold same_but_order.
      cbn [Compunit.set_nametypes Compunit.offset Compunit.size
           Compunit.ranges Compunit.entries Compunit.nametypes].
      split; [reflexivity|]. split; [reflexivity|]. split; [reflexivity|].
      split; [reflexivity|].
      rewrite <- !app_assoc. apply Permutation_app_head. apply perm_swap.
    + apply Forall2_refl_on. exact same_but_order_refl.
    + apply Forall2_refl_on. exact same_but_order_refl.
    + constructor; [apply same_but_order_refl|apply IH].
Qed.

Lemma push_all_same_but_order (adds : list (nat * NameType.t)) :
  forall cus cus2,
    Forall2 same_but_order cus cus2 ->
    Forall2 same_but_order (push_all cus adds) (push_all cus2 adds).
Proof.
  induction adds as [|x adds IH]; intros cus cus2 H; [exact H|].
  unfold push_all in *. cbn [fold_left]. apply IH.
  apply push_nametype_same_but_order. exact H.
Qed.

Lemma push_all_push_swap (adds : list (nat * NameType.t)) :
  forall cus i nt,
    Forall2 same_but_order
      (push_all (push_nametype cus i nt) adds)
      (push_nametype (push_all cus adds) i nt).
Proof.
  induction adds as [|x adds IH]; intros cus i nt.
  - apply Forall2_refl_on. exact same_but_order_refl.
  - unfold push_all in *. cbn [fold_left].
    eapply (Forall2_trans_on _ same_but_order_trans); [|apply IH].
    apply (push_all_same_but_order adds).
    apply push_nametype_swap.
Qed.

(** The pushes of two files in either order. *)
Lemma push_all_swap (a1 : list (nat * NameType.t)) :
  forall a2 cus,
    Forall2 same_but_order
      (push_all (push_all cus a1) a2) (push_all (push_all cus a2) a1).
Proof.
  induction a1 as [|x a1 IH]; intros a2 cus.
  - apply Forall2_refl_on. exact same_but_order_refl.
  - change (push_all cus (x :: a1))
      with (push_all (push_nametype cus (fst x) (snd x)) a1).
    change (push_all (push_all cus a2) (x :: a1))
      with (push_all (push_nametype (push_all cus a2) (fst x) (snd x)) a1).
    eapply (Forall2_trans_on _ same_but_order_trans); [apply IH|].
    apply (push_all_same_but_order a1).
    apply push_all_push_swap.
Qed.

(** The loop over the files, from compunits that differ in the order of
    their tuples. *)
Lemma read_pubnames_files_same_but_order (E : Target)
    (files : list ObjectFile) :
  forall cus cus2 r,
    Forall2 same_but_order cus cus2 ->
    fold_result (read_pubnames E) files cus = Ok r ->
    exists r2,
      fold_result (read_pubnames E) files cus2 = Ok r2
      /\ Forall2 same_but_order r r2.
Proof.
  induction files as [|f files IH]; intros cus cus2 r HR H.
  - apply Ok_inj in H. subst r. exists cus2. split; [reflexivity|exact HR].
  - cbn [fold_result] in H |- *. apply bind_Ok in H.
    destruct H as [c [Hc H]].
    destruct (read_pubnames_effect E f cus cus2 c Hc
                (same_but_order_offsets _ _ HR)) as [adds [-> Hc2]].
    rewrite Hc2. cbn [bind].
    apply (IH _ _ r (push_all_same_but_order adds _ _ HR) H).
Qed.

(** The loop over the files, with the files in another order. *)
Lemma read_pubnames_files_permuted (E : Target)
    (files files' : list ObjectFile) :
  Permutation files files' ->
  forall cus cus2 r,
    Forall2 same_but_order cus cus2 ->
    fold_result (read_pubnames E) files cus = Ok r ->
    exists r2,
      fold_result (read_pubnames E) files' cus2 = Ok r2
      /\ Forall2 same_but_order r r2.
Proof.
  induction 1 as [|f l l' Hp IH|f g l|l l' l'' Hp1 IH1 Hp2 IH2];
    intros cus cus2 r HR H.
  - apply (read_pubnames_files_same_but_order E [] cus cus2 r HR H).
  - cbn [fold_result] in H |- *. apply bind_Ok in H.
    destruct H as [c [Hc H]].
    destruct (read_pubnames_effect E f cus cus2 c Hc
                (same_but_order_offsets _ _ HR)) as [adds [-> Hc2]].
    rewrite Hc2. cbn [bind].
    apply (IH _ _ r (push_all_same_but_order adds _ _ HR) H).
  - cbn [fold_result] in H |- *. apply bind_Ok in H.
    destruct H as [c1 [Hc1 H]]. apply bind_Ok in H.
    destruct H as [c2 [Hc2 H]].
    pose proof (same_but_order_offsets _ _ HR) as Ho.
    destruct (read_pubnames_effect E f c1 cus2 c2 Hc2) as [af [-> Hf]].
    { destruct (read_pubnames_effect E g cus cus c1 Hc1 (eq_refl _))
        as [ag [-> _]].
      rewrite push_all_offsets. exact Ho. }
    destruct (read_pubnames_effect E g cus (push_all cus2 af) c1 Hc1)
      as [ag [-> Hg]].
    { rewrite push_all_offsets. exact Ho. }
    rewrite Hf. cbn [bind]. rewrite Hg. cbn [bind].
    apply (read_pubnames_files_same_but_order E l
             (push_all (push_all cus ag) af) _ r); [|exact H].
    eapply (Forall2_trans_on _ same_but_order_trans);
      [apply push_all_swap|].
    apply (push_all_same_but_order ag).
    apply (push_all_same_but_order af). exact HR.
  - destruct (IH1 cus cus r
                (Forall2_refl_on _ cus same_but_order_refl) H)
      as [r1 [H1 HR1]].
    destruct (IH2 cus cus2 r1 HR H1) as [r2 [H2 HR2]].
    exists r2. split; [exact H2|].
    exact (Forall2_trans_on _ same_but_order_trans _ _ _ HR1 HR2).
Qed.

(** Sorting and removing the duplicates forgets the order. *)
Lemma uniquify_same_but_order (cus cus2 : list Compunit.t) :
  Forall2 same_but_order cus cus2 ->
  map uniquify_nametypes cus = map uniquify_nametypes cus2.
Proof.
  induction 1 as [|a b l l' [H1 [H2 [H3 [H4 H5]]]] _ IH]; [reflexivity|].
  cbn [map]. rewrite IH. f_equal.
  unfold uniquify_nametypes.
  rewrite (sort_by_perm_unique NameType_ltb NameType_ltb_irrefl
             NameType_ltb_trans NameType_ltb_negtrans
             (Compunit.nametypes a) (Compunit.nametypes b)
             (fun x y _ _ => NameType_ltb_total x y) H5).
  destruct a, b. cbn in *. subst. reflexivity.
Qed.

(** ** The readers of the debug sections do not look at the object files *)

Ltac same_reads IH :=
  repeat first
    [ reflexivity
    | apply IH
    | match goal with
      | |- (if ?c then _ else _) = (if ?c then _ else _) => destruct c
      | |- bind ?r _ = bind ?r _ =>
          let x := fresh "x" in
          destruct r as [x| | | |]; cbn [bind];
          [try (destruct x); cbv beta iota|reflexivity..]
      end ].

Lemma addrx_at_with_objs (E : Target) (ctx : Context)
    (files : list ObjectFile) (addrx : option Z) (i : Z) :
  addrx_at E (with_objs ctx files) addrx i = addrx_at E ctx addrx i.
Proof. reflexivity. Qed.

Lemma read_scalar_with_objs (E : Target) (ctx : Context)
    (files : list ObjectFile) (p form : Z) :
  read_scalar E (with_objs ctx files) p form = read_scalar E ctx p form.
Proof. reflexivity. Qed.

Lemma skip_abbrev_attrs_with_objs (ctx : Context) (files : list ObjectFile) :
  forall fuel abbrev,
    skip_abbrev_attrs fuel (with_objs ctx files) abbrev
    = skip_abbrev_attrs fuel ctx abbrev.
Proof.
  induction fuel as [|fuel IH]; intros abbrev; [reflexivity|].
  cbn [skip_abbrev_attrs with_objs debug_abbrev]. same_reads IH.
Qed.

Lemma find_abbrev_record_with_objs (ctx : Context)
    (files : list ObjectFile) :
  forall fuel abbrev code,
    find_abbrev_record fuel (with_objs ctx files) abbrev code
    = find_abbrev_record fuel ctx abbrev code.
Proof.
  induction fuel as [|fuel IH]; intros abbrev code; [reflexivity|].
  cbn [find_abbrev_record with_objs debug_abbrev].
  same_reads IH; rewrite ?skip_abbrev_attrs_with_objs; same_reads IH.
Qed.

Lemma find_cu_abbrev_with_objs (E : Target) (ctx : Context)
    (files : list ObjectFile) (p version : Z) :
  find_cu_abbrev E (with_objs ctx files) p version
  = find_cu_abbrev E ctx p version.
Proof.
  unfold find_cu_abbrev. cbn [with_objs debug_info debug_abbrev].
  same_reads I; rewrite find_abbrev_record_with_objs; reflexivity.
Qed.

Lemma read_rnglist_range_loop_with_objs (E : Target) (ctx : Context)
    (files : list ObjectFile) :
  forall fuel vec rnglist addrx base,
    read_rnglist_range_loop fuel E (with_objs ctx files) vec rnglist addrx
      base
    = read_rnglist_range_loop fuel E ctx vec rnglist addrx base.
Proof.
  induction fuel as [|fuel IH]; intros vec rnglist addrx base;
    [reflexivity|].
  cbn [read_rnglist_range_loop with_objs debug_rnglists]. cbv zeta.
  rewrite ?addrx_at_with_objs.
  same_reads IH; rewrite ?addrx_at_with_objs; same_reads IH;
    rewrite ?addrx_at_with_objs; same_reads IH.
Qed.

Lemma read_rnglist_range_with_objs (E : Target) (ctx : Context)
    (files : list ObjectFile) (vec : list (Z * Z)) (rnglist : Z)
    (addrx : option Z) (base : Z) :
  read_rnglist_range E (with_objs ctx files) vec rnglist addrx base
  = read_rnglist_range E ctx vec rnglist addrx base.
Proof. apply read_rnglist_range_loop_with_objs. Qed.

Lemma read_attrs_with_objs (E : Target) (ctx : Context)
    (files : list ObjectFile) :
  forall fuel abbrev p a,
    read_attrs fuel E (with_objs ctx files) abbrev p a
    = read_attrs fuel E ctx abbrev p a.
Proof.
  induction fuel as [|fuel IH]; intros abbrev p a; [reflexivity|].
  cbn [read_attrs with_objs debug_abbrev].
  same_reads IH; rewrite read_scalar_with_objs; same_reads IH.
Qed.

Lemma read_rnglists_offsets_with_objs (E : Target) (ctx : Context)
    (files : list ObjectFile) :
  forall n base i addrx low vec,
    read_rnglists_offsets n E (with_objs ctx files) base i addrx low vec
    = read_rnglists_offsets n E ctx base i addrx low vec.
Proof.
  induction n as [|n IH]; intros base i addrx low vec; [reflexivity|].
  cbn [read_rnglists_offsets with_objs debug_rnglists].
  same_reads IH; rewrite read_rnglist_range_with_objs; same_reads IH.
Qed.

Lemma read_cu_attrs_with_objs (E : Target) (ctx : Context)
    (files : list ObjectFile) (offset : Z) :
  read_cu_attrs E (with_objs ctx files) offset = read_cu_attrs E ctx offset.
Proof.
  unfold read_cu_attrs. cbn [with_objs debug_info debug_abbrev].
  same_reads I. rewrite find_cu_abbrev_with_objs. same_reads I.
  rewrite read_attrs_with_objs. reflexivity.
Qed.

Lemma resolve_ranges_with_objs (E : Target) (ctx : Context)
    (files : list ObjectFile) (version : Z) (a : Attrs) :
  resolve_ranges E (with_objs ctx files) version a
  = resolve_ranges E ctx version a.
Proof.
  unfold resolve_ranges. cbn [with_objs debug_ranges debug_rnglists].
  rewrite ?addrx_at_with_objs, ?read_rnglist_range_with_objs.
  same_reads I;
    rewrite ?addrx_at_with_objs, ?read_rnglists_offsets_with_objs;
    same_reads I.
Qed.

Lemma read_address_ranges_with_objs (E : Target) (ctx : Context)
    (files : list ObjectFile) (offset : Z) :
  read_address_ranges E (with_objs ctx files) offset
  = read_address_ranges E ctx offset.
Proof.
  unfold read_address_ranges. rewrite read_cu_attrs_with_objs.
  same_reads I. apply resolve_ranges_with_objs.
Qed.

Lemma enumerate_compunits_with_objs (E : Target) (ctx : Context)
    (files : list ObjectFile) :
  forall fuel p cus,
    enumerate_compunits fuel E (with_objs ctx files) p cus
    = enumerate_compunits fuel E ctx p cus.
Proof.
  induction fuel as [|fuel IH]; intros p cus; [reflexivity|].
  cbn [enumerate_compunits with_objs debug_info]. same_reads IH.
Qed.

Lemma map_result_ext {A B : Type} (f g : A -> result B) (l : list A) :
  (forall x, f x = g x) -> map_result f l = map_result g l.
Proof.
  intros H. induction l as [|x l IH]; [reflexivity|].
  cbn [map_result]. rewrite H, IH. reflexivity.
Qed.

(** X14: the compunits that [read_compunits] returns do not depend on the
    order of the object files.  The loop over the files runs in parallel
    and pushes the name tuples of each file on the compunits it names;
    the tuples of a compunit are sorted and stripped of duplicates
    afterwards.  So with the files in any other order, [read_compunits]
    returns the same compunits, tuple for tuple. *)
Theorem read_compunits_files_order (E : Target) (ctx : Context)
    (files : list ObjectFile) (cus : list Compunit.t) :
  Permutation (objs ctx) files ->
  read_compunits E ctx = Ok cus ->
  read_compunits E (with_objs ctx files) = Ok cus.
Proof.
  intros Hperm H. unfold read_compunits in *.
  cbn [with_objs debug_info objs].
  rewrite enumerate_compunits_with_objs.
  apply bind_Ok in H. destruct H as [c0 [H0 H]]. rewrite H0. cbn [bind].
  rewrite (map_result_ext (read_cu_ranges E (with_objs ctx files))
             (read_cu_ranges E ctx)).
  2: { intros cu. unfold read_cu_ranges.
       rewrite read_address_ranges_with_objs. reflexivity. }
  apply bind_Ok in H. destruct H as [c1 [H1 H]]. rewrite H1. cbn [bind].
  apply bind_Ok in H. destruct H as [c2 [H2 H]].
  apply Ok_inj in H. subst cus.
  destruct (read_pubnames_files_permuted E _ _ Hperm c1 c1 c2
              (Forall2_refl_on _ c1 same_but_order_refl) H2)
    as [r2 [Hr2 HR]].
  rewrite Hr2. cbn [bind].
  rewrite (uniquify_same_but_order _ _ HR). reflexivity.
Qed.

(** The two object files of [two_symbols_ctx], the second one first. *)
Lemma read_compunits_files_order_example :
  (Permutation (objs two_symbols_ctx) (rev (objs two_symbols_ctx))
   /\ read_compunits X86_64 two_symbols_ctx = Ok two_symbols_cus)
  /\ read_compunits X86_64
       (with_objs two_symbols_ctx (rev (objs two_symbols_ctx)))
     = Ok two_symbols_cus.
Proof.
  pose proof (Permutation_rev (objs two_symbols_ctx)) as H1.
  pose proof read_compunits_two_symbols as H2.
  split; [exact (conj H1 H2)|].
  exact (read_compunits_files_order X86_64 two_symbols_ctx _ _ H1 H2).
Defined.

(** ** What [find_cu_abbrev] accepts *)

Lemma skip_abbrev_attrs_advances (ctx : Context) :
  forall fuel abbrev r,
    skip_abbrev_attrs fuel ctx abbrev = Ok r -> abbrev < r.
Proof.
  induction fuel as [|fuel IH]; intros abbrev r H; [discriminate|].
  cbn [skip_abbrev_attrs] in H.
  apply bind_Ok in H. destruct H as [[name a1] [H1 H]]. cbv beta iota in H.
  apply bind_Ok in H. destruct H as [[form a2] [H2 H]]. cbv beta iota in H.
  pose proof (read_uleb_advances _ _ _ _ H1) as [A1 _].
  pose proof (read_uleb_advances _ _ _ _ H2) as [A2 _].
  destruct ((name =? 0) && (form =? 0)).
  - apply Ok_inj in H. lia.
  - destruct (form =? DW_FORM_implicit_const).
    + apply bind_Ok in H. destruct H as [[c a3] [H3 H]]. cbv beta iota in H.
      pose proof (read_uleb_advances _ _ _ _ H3) as [A3 _].
      specialize (IH _ _ H). lia.
    + specialize (IH _ _ H). lia.
Qed.

(** The record that the loop over [.debug_abbrev] stops at. *)
Lemma find_abbrev_record_found (ctx : Context) :
  forall fuel abbrev code r,
    find_abbrev_record fuel ctx abbrev code = Ok r ->
    1 <= code < 2 ^ 32
    /\ exists a c a' tag,
         abbrev <= a
         /\ read_uleb (debug_abbrev ctx) a = Ok (c, a')
         /\ u32 c = code
         /\ read_uleb (debug_abbrev ctx) a' = Ok (tag, r)
         /\ (tag = DW_TAG_compile_unit \/ tag = DW_TAG_skeleton_unit).
Proof.
  induction fuel as [|fuel IH]; intros abbrev code r H; [discriminate|].
  cbn [find_abbrev_record] in H.
  apply bind_Ok in H. destruct H as [[c a1] [H1 H]]. cbv beta iota zeta in H.
  pose proof (read_uleb_advances _ _ _ _ H1) as [A1 _].
  destruct (u32 c =? 0) eqn:Hz; [discriminate|].
  apply Z.eqb_neq in Hz.
  destruct (u32 c =? code) eqn:Hc.
  - apply Z.eqb_eq in Hc.
    apply bind_Ok in H. destruct H as [[tag a2] [H2 H]]. cbv beta iota in H.
    destruct (negb (tag =? DW_TAG_compile_unit)
              && negb (tag =? DW_TAG_skeleton_unit)) eqn:Ht;
      [discriminate|].
    apply Ok_inj in H. subst r.
    split; [pose proof (u32_range c); lia|].
    exists abbrev, c, a1, tag.
    split; [lia|]. split; [exact H1|]. split; [exact Hc|].
    split; [exact H2|].
    apply andb_false_iff in Ht.
    destruct Ht as [Ht|Ht]; apply negb_false_iff in Ht;
      apply Z.eqb_eq in Ht; [left|right]; exact Ht.
  - apply bind_Ok in H. destruct H as [[t a2] [H2 H]]. cbv beta iota zeta in H.
    apply bind_Ok in H. destruct H as [a3 [H3 H]].
    pose proof (read_uleb_advances _ _ _ _ H2) as [A2 _].
    pose proof (skip_abbrev_attrs_advances _ _ _ _ H3) as A3.
    destruct (IH _ _ _ H) as [Hr [a [c' [a' [tag [Ha Hrest]]]]]].
    split; [exact Hr|].
    exists a, c', a', tag. split; [lia|exact Hrest].
Qed.

(** X15: what [find_cu_abbrev] accepts.  When it returns, the version is
    2, 3, 4 or 5; the address size in the unit header (byte 4 of the rest
    of the header for the versions up to 4, byte 1 for version 5) is
    [sizeof(Word<E>)]; for version 5 the unit type is compile, partial,
    skeleton or split_compile; the cursor has moved over the rest of the
    header (5, 6 or 14 bytes) and over the abbreviation code, which lies
    between 1 and 2^32 - 1; and the pointer returned is one byte (the
    has_children byte) after the tag of a record of [.debug_abbrev], at or
    after the unit's abbreviation offset, whose code is the abbreviation
    code and whose tag is DW_TAG_compile_unit or DW_TAG_skeleton_unit. *)
Theorem find_cu_abbrev_accepts (E : Target) (ctx : Context)
    (p version abbrev p' : Z) :
  find_cu_abbrev E ctx p version = Ok (abbrev, p') ->
  exists hdr off code,
    ((2 <= version <= 4 /\ hdr = 5
      /\ load_U32 E (debug_info ctx) p = Ok off
      /\ load_u8 (debug_info ctx) (p + 4) = Ok (sizeof_Word E))
     \/ (version = 5
         /\ load_U32 E (debug_info ctx) (p + 2) = Ok off
         /\ load_u8 (debug_info ctx) (p + 1) = Ok (sizeof_Word E)
         /\ exists unit_type,
              load_u8 (debug_info ctx) p = Ok unit_type
              /\ ((unit_type = DW_UT_compile \/ unit_type = DW_UT_partial)
                  /\ hdr = 6
                  \/ (unit_type = DW_UT_skeleton
                      \/ unit_type = DW_UT_split_compile)
                     /\ hdr = 14)))
    /\ read_uleb (debug_info ctx) (p + hdr) = Ok (code, p')
    /\ 1 <= code < 2 ^ 32
    /\ exists a c a' tag,
         off <= a
         /\ read_uleb (debug_abbrev ctx) a = Ok (c, a')
         /\ u32 c = code
         /\ read_uleb (debug_abbrev ctx) a' = Ok (tag, abbrev - 1)
         /\ (tag = DW_TAG_compile_unit \/ tag = DW_TAG_skeleton_unit).
Proof.
  unfold find_cu_abbrev. intros H.
  apply bind_Ok in H. destruct H as [[off p1] [Hh H]]. cbv beta iota in H.
  apply bind_Ok in H. destruct H as [[code p2] [Hc H]].
  cbv beta iota zeta in H.
  apply bind_Ok in H. destruct H as [r [Hr H]].
  apply Ok_inj in H. injection H as Ha Hp. subst p2.
  destruct (find_abbrev_record_found _ _ _ _ _ Hr)
    as [Hcode [a [c [a' [tag [Hoff [H1 [H2 [H3 H4]]]]]]]]].
  pose proof (read_uleb_advances _ _ _ _ Hc) as [_ Hv].
  assert (Hi : i64_of_u64 code = code).
  { unfold i64_of_u64 in *. destruct (code <? 2 ^ 63); lia. }
  rewrite Hi in *.
  assert (Hhdr : exists hdr,
    p1 = p + hdr
    /\ ((2 <= version <= 4 /\ hdr = 5
         /\ load_U32 E (debug_info ctx) p = Ok off
         /\ load_u8 (debug_info ctx) (p + 4) = Ok (sizeof_Word E))
        \/ (version = 5
            /\ load_U32 E (debug_info ctx) (p + 2) = Ok off
            /\ load_u8 (debug_info ctx) (p + 1) = Ok (sizeof_Word E)
            /\ exists unit_type,
                 load_u8 (debug_info ctx) p = Ok unit_type
                 /\ ((unit_type = DW_UT_compile \/ unit_type = DW_UT_partial)
                     /\ hdr = 6
                     \/ (unit_type = DW_UT_skeleton
                         \/ unit_type = DW_UT_split_compile)
                        /\ hdr = 14)))).
  { clear -Hh.
    destruct (one_of version [2; 3; 4]) eqn:Hv.
    - apply bind_Ok in Hh. destruct Hh as [o [Ho Hh]].
      apply bind_Ok in Hh. destruct Hh as [sz [Hs Hh]].
      destruct (negb (sz =? sizeof_Word E)) eqn:Hsz; [discriminate|].
      apply negb_false_iff in Hsz. apply Z.eqb_eq in Hsz. subst sz.
      apply Ok_inj in Hh. injection Hh as <- <-.
      exists 5. split; [reflexivity|]. left.
      split; [|split; [reflexivity|split; assumption]].
      unfold one_of in Hv. cbn [existsb] in Hv.
      rewrite !orb_true_iff in Hv. rewrite !Z.eqb_eq in Hv. lia.
    - destruct (version =? 5) eqn:H5; [|discriminate].
      apply Z.eqb_eq in H5.
      apply bind_Ok in Hh. destruct Hh as [o [Ho Hh]].
      apply bind_Ok in Hh. destruct Hh as [sz [Hs Hh]].
      destruct (negb (sz =? sizeof_Word E)) eqn:Hsz; [discriminate|].
      apply negb_false_iff in Hsz. apply Z.eqb_eq in Hsz. subst sz.
      apply bind_Ok in Hh. destruct Hh as [ut [Hu Hh]].
      destruct (one_of ut [DW_UT_compile; DW_UT_partial]) eqn:Hcp.
      + apply Ok_inj in Hh. injection Hh as <- <-.
        exists 6. split; [reflexivity|]. right.
        split; [exact H5|]. split; [exact Ho|]. split; [exact Hs|].
        exists ut. split; [exact Hu|]. left. split; [|reflexivity].
        unfold one_of in Hcp. cbn [existsb] in Hcp.
        rewrite !orb_true_iff in Hcp. rewrite !Z.eqb_eq in Hcp.
        destruct Hcp as [Hx|[Hx|Hx]]; [left; exact Hx|right; exact Hx|
                                       discriminate].
      + destruct (one_of ut [DW_UT_skeleton; DW_UT_split_compile]) eqn:Hsk;
          [|discriminate].
        apply Ok_inj in Hh. injection Hh as <- <-.
        exists 14. split; [reflexivity|]. right.
        split; [exact H5|]. split; [exact Ho|]. split; [exact Hs|].
        exists ut. split; [exact Hu|]. right. split; [|reflexivity].
        unfold one_of in Hsk. cbn [existsb] in Hsk.
        rewrite !orb_true_iff in Hsk. rewrite !Z.eqb_eq in Hsk.
        destruct Hsk as [Hx|[Hx|Hx]]; [left; exact Hx|right; exact Hx|
                                       discriminate]. }
  destruct Hhdr as [hdr [-> Hcases]].
  exists hdr, off, code.
  split; [exact Hcases|]. split; [exact Hc|]. split; [exact Hcode|].
  exists a, c, a', tag.
  replace (abbrev - 1) with r by lia.
  split; [exact Hoff|]. split; [exact H1|]. split; [exact H2|].
  split; [exact H3|exact H4].
Qed.

(** The first compunit of [two_symbols_ctx]: version 4, abbreviation code
    1, and the record with this code is the first of [.debug_abbrev]. *)
Lemma find_cu_abbrev_accepts_example :
  find_cu_abbrev X86_64 two_symbols_ctx 6 4 = Ok (3, 12)
  /\ exists hdr code,
       read_uleb (debug_info two_symbols_ctx) (6 + hdr) = Ok (code, 12)
       /\ 1 <= code < 2 ^ 32.
Proof.
  assert (H : find_cu_abbrev X86_64 two_symbols_ctx 6 4 = Ok (3, 12))
    by (vm_compute; reflexivity).
  split; [exact H|].
  destruct (find_cu_abbrev_accepts X86_64 two_symbols_ctx 6 4 3 12 H)
    as [hdr [off [code [_ [Hc [Hr _]]]]]].
  exists hdr, code. split; [exact Hc|exact Hr].
Defined.

(** ** The entries of a compunit run parallel to its name tuples *)

(** X16: the invariant that "Write types" relies on.  After the insertion
    phase a compunit keeps its offset, size, ranges and name tuples, and
    has one entry for every name tuple: entry [j] is the handle of the
    value of the map whose name and hash are those of tuple [j]. *)
Theorem insertion_phase_entries_parallel (cus : list Compunit.t)
    (store : list MapValue.t) (tasks : list Task) (i : nat)
    (cu : Compunit.t) :
  insertion_phase cus store tasks ->
  nth_error cus i = Some cu ->
  exists cu',
    nth_error (with_entries cus tasks) i = Some cu'
    /\ Compunit.offset cu' = Compunit.offset cu
    /\ Compunit.size cu' = Compunit.size cu
    /\ Compunit.ranges cu' = Compunit.ranges cu
    /\ Compunit.nametypes cu' = Compunit.nametypes cu
    /\ length (Compunit.entries cu') = length (Compunit.nametypes cu)
    /\ forall j nt,
         nth_error (Compunit.nametypes cu) j = Some nt ->
         exists h v,
           nth_error (Compunit.entries cu') j = Some h
           /\ nth_error store h = Some v
           /\ MapValue.name v = NameType.name nt
           /\ MapValue.hash v = NameType.hash nt.
Proof.
  intros Hphase Hcu.
  destruct (insertion_phase_handles _ _ _ Hphase) as [Hpar Hlen].
  pose proof (with_entries_cu_agree cus tasks Hlen) as Hagree.
  destruct (Forall2_nth_error_l _ _ _ _ _ Hpar Hcu) as [cu' [Hcu' [Hn Hf]]].
  destruct (Forall2_nth_error_l _ _ _ _ _ Hagree Hcu)
    as [cu2 [Hcu2 [A1 [A2 [A3 _]]]]].
  rewrite Hcu' in Hcu2. injection Hcu2 as <-.
  exists cu'. split; [exact Hcu'|].
  split; [symmetry; exact A1|]. split; [symmetry; exact A2|].
  split; [symmetry; exact A3|]. split; [exact Hn|].
  split; [rewrite <- Hn; symmetry; exact (Forall2_length Hf)|].
  intros j nt Hj. rewrite <- Hn in Hj.
  destruct (Forall2_nth_error_l _ _ _ _ _ Hf Hj) as [h [Hh [Hlt [Hnm Hhs]]]].
  destruct (nth_error store h) as [v|] eqn:Hv;
    [|apply nth_error_None in Hv; lia].
  exists h, v. rewrite (deref_nth_error store h), Hv in Hnm, Hhs.
  split; [exact Hh|]. split; [exact Hv|]. split; assumption.
Qed.

(** The second compunit of [two_symbols_cus]. *)
Lemma insertion_phase_entries_parallel_example :
  (insertion_phase two_symbols_cus (fst (run_tasks [] two_symbols_cus))
     (snd (run_tasks [] two_symbols_cus))
   /\ nth_error two_symbols_cus 1 = Some two_symbols_cu1)
  /\ exists cu',
       nth_error
         (with_entries two_symbols_cus (snd (run_tasks [] two_symbols_cus)))
         1 = Some cu'
       /\ length (Compunit.entries cu')
          = length (Compunit.nametypes two_symbols_cu1).
Proof.
  pose proof (run_tasks_is_insertion_phase two_symbols_cus) as H1.
  assert (H2 : nth_error two_symbols_cus 1 = Some two_symbols_cu1)
    by reflexivity.
  split; [exact (conj H1 H2)|].
  destruct (insertion_phase_entries_parallel two_symbols_cus _ _ 1
              two_symbols_cu1 H1 H2) as [cu' [Hcu' [_ [_ [_ [_ [Hl _]]]]]]].
  exists cu'. split; [exact Hcu'|exact Hl].
Defined.

(** ** The words of a CU vector *)

(** The type and the index of a word share no bit when the index is below
    2^24. *)
Lemma cu_word_split (nt : NameType.t) (i : Z) :
  0 <= NameType.type nt < 256 -> 0 <= i < 2 ^ 24 ->
  cu_word nt i = NameType.type nt * 2 ^ 24 + i.
Proof.
  intros Ht Hi. unfold cu_word.
  rewrite Z.shiftl_mul_pow2 by lia.
  assert (Hland : Z.land (NameType.type nt * 2 ^ 24) i = 0).
  { apply Z.bits_inj'. intros n Hn.
    rewrite Z.land_spec, Z.bits_0.
    destruct (Z.lt_ge_cases n 24) as [Hlt|Hge].
    - rewrite Z.mul_pow2_bits_low by exact Hlt. reflexivity.
    - destruct (Z.eq_dec i 0) as [->|Hne];
        [rewrite Z.bits_0; apply andb_false_r|].
      rewrite (Z.bits_above_log2 i n); [apply andb_false_r|lia|].
      assert (Z.log2 i < 24) by (apply Z.log2_lt_pow2; lia). lia. }
  rewrite <- (Z.lxor_lor _ _ Hland), <- (Z.add_nocarry_lxor _ _ Hland).
  apply u32_small. lia.
Qed.

Lemma key_words_In (key : list byte * Z) (i w : Z) (nts : list NameType.t) :
  In w (key_words key i nts) ->
  exists nt, In nt nts /\ nt_key nt = key /\ w = cu_word nt i.
Proof.
  unfold key_words. intros H. apply in_flat_map in H.
  destruct H as [nt [Hnt Hw]]. exists nt. split; [exact Hnt|].
  destruct (key_eq_dec (nt_key nt) key) as [Hk|]; [|destruct Hw].
  destruct Hw as [<-|[]]. split; [exact Hk|reflexivity].
Qed.

Lemma key_vector_In (key : list byte * Z) (w : Z) :
  forall cus i,
    In w (key_vector key i cus) ->
    exists k cu nt,
      nth_error cus k = Some cu /\ In nt (Compunit.nametypes cu)
      /\ nt_key nt = key /\ w = cu_word nt (i + Z.of_nat k).
Proof.
  induction cus as [|cu cus IH]; intros i H; [destruct H|].
  cbn [key_vector] in H. apply in_app_or in H. destruct H as [H|H].
  - destruct (key_words_In _ _ _ _ H) as [nt [Hnt [Hk Hw]]].
    exists O, cu, nt. replace (i + Z.of_nat 0) with i by lia.
    split; [reflexivity|]. split; [exact Hnt|]. split; assumption.
  - destruct (IH _ H) as [k [cu' [nt [Hcu [Hnt [Hk Hw]]]]]].
    exists (S k), cu', nt.
    replace (i + Z.of_nat (S k)) with (i + 1 + Z.of_nat k) by lia.
    split; [exact Hcu|]. split; [exact Hnt|]. split; assumption.
Qed.

Lemma key_words_NoDup (key : list byte * Z) (i : Z) (nts : list NameType.t) :
  0 <= i < 2 ^ 24 ->
  Forall (fun nt => 0 <= NameType.type nt < 256) nts ->
  NoDup nts -> NoDup (key_words key i nts).
Proof.
  intros Hi Ht Hnd. induction Hnd as [|nt nts Hnotin Hnd IH]; [constructor|].
  inversion Ht as [|? ? Hty Hrest]; subst.
  unfold key_words in *. cbn [flat_map].
  destruct (key_eq_dec (nt_key nt) key) as [Hk|Hk]; [|apply IH; exact Hrest].
  cbn [app]. constructor; [|apply IH; exact Hrest].
  intros Hin.
  destruct (key_words_In key i _ nts Hin) as [nt' [Hnt' [Hk' Hw]]].
  rewrite Forall_forall in Hrest. pose proof (Hrest nt' Hnt') as Hty'.
  rewrite !cu_word_split in Hw by assumption.
  apply Hnotin. replace nt with nt'; [exact Hnt'|].
  unfold nt_key in Hk, Hk'. rewrite <- Hk in Hk'. injection Hk' as Hn Hh.
  destruct nt, nt'. cbn in *. f_equal; [assumption|assumption|lia].
Qed.

Lemma key_vector_NoDup (key : list byte * Z) :
  forall cus i,
    0 <= i -> i + Z.of_nat (length cus) <= 2 ^ 24 ->
    Forall
      (fun cu =>
         NoDup (Compunit.nametypes cu)
         /\ Forall (fun nt => 0 <= NameType.type nt < 256)
              (Compunit.nametypes cu)) cus ->
    NoDup (key_vector key i cus).
Proof.
  induction cus as [|cu cus IH]; intros i Hi Hlen Hall; [constructor|].
  inversion Hall as [|? ? [Hnd Hty] Hrest]; subst.
  cbn [length] in Hlen. cbn [key_vector].
  apply NoDup_app.
  - apply key_words_NoDup; [lia|exact Hty|exact Hnd].
  - apply IH; [lia|lia|exact Hrest].
  - intros w H1 H2.
    destruct (key_words_In _ _ _ _ H1) as [nt [Hnt [_ Hw]]].
    destruct (key_vector_In _ _ _ _ H2) as [k [cu' [nt' [Hcu [Hnt' [_ Hw']]]]]].
    rewrite Forall_forall in Hty, Hrest.
    pose proof (Hty nt Hnt) as T1.
    destruct (Hrest cu' (nth_error_In _ _ Hcu)) as [_ Hty'].
    rewrite Forall_forall in Hty'. pose proof (Hty' nt' Hnt') as T2.
    assert (Hk : (k < length cus)%nat)
      by (apply nth_error_Some; congruence).
    rewrite cu_word_split in Hw by (try assumption; lia).
    rewrite cu_word_split in Hw' by (try assumption; lia).
    lia.
Qed.

(** X17: the words of a CU vector.  For the compunits that
    [read_compunits] returns, when there are at most 2^24 of them, a word
    of the CU vector of a key is [type * 2^24 + i] for a name tuple with
    this key and the type [type] (below 256) in the compunit of index [i]
    (so the low 24 bits are the index and the high 8 bits the type), and
    no word occurs twice in the vector. *)
Theorem cu_vector_words (E : Target) (ctx : Context)
    (cus : list Compunit.t) (key : list byte * Z) :
  read_compunits E ctx = Ok cus ->
  Z.of_nat (length cus) <= 2 ^ 24 ->
  NoDup (key_vector key 0 cus)
  /\ forall w, In w (key_vector key 0 cus) ->
       exists i cu nt,
         nth_error cus i = Some cu
         /\ In nt (Compunit.nametypes cu)
         /\ nt_key nt = key
         /\ 0 <= NameType.type nt < 256
         /\ w = NameType.type nt * 2 ^ 24 + Z.of_nat i.
Proof.
  intros Hread Hlen.
  assert (Hty : Forall
            (fun cu => Forall (fun nt => 0 <= NameType.type nt < 256)
                         (Compunit.nametypes cu)) cus).
  { apply (read_compunits_all (fun nt => 0 <= NameType.type nt < 256))
      with (E := E) (ctx := ctx); [|exact Hread].
    intros buf p n type _ Ht. exact Ht. }
  pose proof (read_compunits_nametypes_sorted E ctx cus Hread) as Hs.
  split.
  - apply key_vector_NoDup; [lia|lia|].
    rewrite Forall_forall in *. intros cu Hcu.
    split; [apply strictly_sorted_NoDup; apply Hs; exact Hcu|].
    apply Hty. exact Hcu.
  - intros w Hw.
    destruct (key_vector_In _ _ _ _ Hw) as [k [cu [nt [Hcu [Hnt [Hk Hw']]]]]].
    rewrite Forall_forall in Hty.
    pose proof (Hty cu (nth_error_In _ _ Hcu)) as Hc.
    rewrite Forall_forall in Hc. pose proof (Hc nt Hnt) as Ht.
    assert (Hkl : (k < length cus)%nat)
      by (apply nth_error_Some; congruence).
    exists k, cu, nt.
    split; [exact Hcu|]. split; [exact Hnt|]. split; [exact Hk|].
    split; [exact Ht|].
    rewrite Hw'. apply cu_word_split; [exact Ht|lia].
Qed.

(** The CU vector of "foo" in [two_symbols_ctx]. *)
Lemma cu_vector_words_example :
  (read_compunits X86_64 two_symbols_ctx = Ok two_symbols_cus
   /\ Z.of_nat (length two_symbols_cus) <= 2 ^ 24)
  /\ NoDup (key_vector (nt_key tuple_foo) 0 two_symbols_cus).
Proof.
  pose proof read_compunits_two_symbols as H1.
  assert (H2 : Z.of_nat (length two_symbols_cus) <= 2 ^ 24)
    by (vm_compute; discriminate).
  split; [exact (conj H1 H2)|].
  exact (proj1 (cu_vector_words X86_64 two_symbols_ctx two_symbols_cus
                  (nt_key tuple_foo) H1 H2)).
Defined.
